(** * Aria immersive showroom: avatar motion, camera choreography and
    collection-request sequencing

  A shallow embedding of [src/js/aria.js] (the avatar state machine),
  of the camera controller ([src/unnamed/part_001], imported by the entry
  point as [./camera.js]) and of the request sequencer of [src/js/main.js],
  with the helpers of [src/js/product.js] they read and the command and
  volume handling of the voice bar ([src/js/voice-assistant.js]).

  Conventions of the embedding.
  - A JavaScript [Number] is a real number ([R]); [Math.max], [Math.min],
    [Math.abs], [Math.sin], [Math.cos], [Math.exp] and [Math.sqrt] are the
    functions of the same name on [R].  Rounding, infinities and NaN are
    outside the model; the one place where the code can divide 0 by 0 (the
    path of the product cinematic with 0 segments) is marked as such.
  - Module-level [let] variables and object fields are fields of a state
    record with the name they have in the source; a function that mutates
    them is a function from state to state.
  - A closure stored in a variable or handed to [setTimeout]/[gsap] is a
    first-order value recording what it captured (defunctionalisation).
  - A promise is a number; every call of its [resolve] function is appended
    to a log, so "how many times was it resolved" is a count over the log. *)

From Stdlib Require Import Reals Lra Lia List Bool Arith ZArith.
Import ListNotations.

(** ** JavaScript runtime notions shared by the three components *)

Module Js.

Definition PromiseId := nat.
Definition TimerId := nat.

(** Number of times the [resolve] function of promise [p] was called. *)
Definition resolveCount (p : PromiseId) (log : list PromiseId) : nat :=
  count_occ Nat.eq_dec log p.

(** A promise is settled once its [resolve] has been called at least once;
    later calls are ignored by the runtime. *)
Definition settled (p : PromiseId) (log : list PromiseId) : bool :=
  existsb (Nat.eqb p) log.

(** [clearTimeout]: drop the timer with that handle, if it is still armed. *)
Definition clearTimeout {C : Type} (h : TimerId) (timers : list (TimerId * C))
  : list (TimerId * C) :=
  filter (fun t => negb (Nat.eqb (fst t) h)) timers.

Definition findTimer {C : Type} (h : TimerId) (timers : list (TimerId * C))
  : option C :=
  match find (fun t => Nat.eqb (fst t) h) timers with
  | Some t => Some (snd t)
  | None => None
  end.

End Js.

Local Open Scope R_scope.

(** ** Numbers: the [Math] functions that are not already in the library *)

Module JsMath.

Definition ltb (a b : R) : bool := if Rlt_dec a b then true else false.
Definition gtb (a b : R) : bool := if Rgt_dec a b then true else false.
Definition geb (a b : R) : bool := if Rge_dec a b then true else false.

(** [Math.sign]. *)
Definition sign (x : R) : R :=
  if Rlt_dec 0 x then 1 else if Rlt_dec x 0 then -1 else 0.

(** [Math.atan2(y, x)], by quadrant, from the arc tangent. *)
Definition atan2 (y x : R) : R :=
  if Rlt_dec 0 x then atan (y / x)
  else if Rlt_dec x 0 then
    (if Rle_dec 0 y then atan (y / x) + PI else atan (y / x) - PI)
  else if Rlt_dec 0 y then PI / 2
  else if Rlt_dec y 0 then - (PI / 2)
  else 0.

End JsMath.

(** ** The part of three.js the avatar and the path generator use *)

Module Three.

Record Vector3 := { x : R; y : R; z : R }.

Definition vec (a b c : R) : Vector3 := {| x := a; y := b; z := c |}.

(** [v.y = b]. *)
Definition setY (v : Vector3) (b : R) : Vector3 := vec (x v) b (z v).

(** [new Vector3().subVectors(a, b)]. *)
Definition subVectors (a b : Vector3) : Vector3 :=
  vec (x a - x b) (y a - y b) (z a - z b).

(** [a.distanceTo(b)]. *)
Definition distanceTo (a b : Vector3) : R :=
  let dx := x a - x b in
  let dy := y a - y b in
  let dz := z a - z b in
  sqrt (dx * dx + dy * dy + dz * dz).

(** [v.lerpVectors(a, b, alpha)]. *)
Definition lerpVectors (a b : Vector3) (alpha : R) : Vector3 :=
  vec (x a + (x b - x a) * alpha)
      (y a + (y b - y a) * alpha)
      (z a + (z b - z a) * alpha).

(** [THREE.MathUtils.damp(a, b, lambda, dt)], which is
    [lerp(a, b, 1 - exp(-lambda * dt))]. *)
Definition damp (a b lambda dt : R) : R :=
  a + (b - a) * (1 - exp (- lambda * dt)).

Record Euler := { ex : R; ey : R; ez : R }.

Record Object3D := { position : Vector3; rotation : Euler }.

Definition setPosition (o : Object3D) (p : Vector3) : Object3D :=
  {| position := p; rotation := rotation o |}.
Definition setRotation (o : Object3D) (r : Euler) : Object3D :=
  {| position := position o; rotation := r |}.
Definition setRotX (o : Object3D) (a : R) : Object3D :=
  setRotation o {| ex := a; ey := ey (rotation o); ez := ez (rotation o) |}.
Definition setRotY (o : Object3D) (a : R) : Object3D :=
  setRotation o {| ex := ex (rotation o); ey := a; ez := ez (rotation o) |}.
Definition setRotZ (o : Object3D) (a : R) : Object3D :=
  setRotation o {| ex := ex (rotation o); ey := ey (rotation o); ez := a |}.
Definition setPosY (o : Object3D) (b : R) : Object3D :=
  setPosition o (setY (position o) b).

End Three.


(** ** The avatar controller, [src/js/aria.js] *)

Module Aria.

Import Three JsMath.

Inductive AriaState :=
| idle | turning_to_target | walking | turning_to_camera | speaking.

Definition ARIA_START_POS : Vector3 := vec 0 0 2.

(** Movement tuning. *)
Definition walkSpeed : R := 1.1.
Definition turnSpeed : R := 2.4.
Definition ANGLE_TOLERANCE : R := 0.004.
Definition bobAmplitude : R := 0.02.
Definition bobFrequency : R := 5.5.
Definition swayAmplitude : R := 0.015.
Definition leanAmplitude : R := 0.01.
Definition idleBreath : R := 0.012.

(** The arrow function stored in [pendingWalkResolve] and [onWalkComplete] by
    one call of [walkToPosition]: it captured that call's [requestId] and the
    [resolve] function of the promise the call returned. *)
Record WalkResolve := { wr_requestId : nat; wr_promise : Js.PromiseId }.

(** The arrow function handed to [setTimeout] by one call of
    [walkToPosition], with the delay it was armed with (milliseconds). *)
Record WalkTimeout :=
  { wt_requestId : nat; wt_promise : Js.PromiseId; wt_delayMs : R }.

(** The scene objects created by the loader callback of [loadARIA].
    [ariaGroup] is [null] until the asset has loaded; [ariaModel] is only
    touched behind a check of [ariaGroup], so its rotation is kept as a plain
    value.  [mixer] holds the animation mixer's clock, [highlightLight] its
    intensity and [spotLight] the position of its target. *)
Record Scene := {
  ariaGroup : option Object3D;
  ariaModel : Euler;
  mixer : option R;
  highlightLight : option R;
  spotLight : option Vector3
}.

Record Motion := {
  ariaState : AriaState;
  targetRotation : R;
  walkProgress : R;
  walkStartPos : Vector3;
  walkEndPos : Vector3;
  walkDuration : R;
  walkElapsed : R;
  stepPhase : R;
  lastUpdateTime : R
}.

Record Light := {
  lightIntensity : R;
  targetLightIntensity : R;
  isSpeakingState : bool
}.

Record Completion := {
  onWalkComplete : option WalkResolve;
  walkRequestId : nat;
  pendingWalkResolve : option WalkResolve;
  pendingWalkTimeout : option Js.TimerId
}.

(** What the module sees of the runtime: the armed timers, the counters the
    fresh handles come from, the log of [resolve] calls, the log of
    invocations of a completion closure and the number of [console.warn]. *)
Record Runtime := {
  timers : list (Js.TimerId * WalkTimeout);
  nextTimer : Js.TimerId;
  nextPromise : Js.PromiseId;
  resolveLog : list Js.PromiseId;
  callbackLog : list WalkResolve;
  warnings : nat
}.

Record State := {
  scene : Scene;
  motion : Motion;
  light : Light;
  completion : Completion;
  runtime : Runtime
}.

Definition withScene (f : Scene -> Scene) (s : State) : State :=
  {| scene := f (scene s); motion := motion s; light := light s;
     completion := completion s; runtime := runtime s |}.
Definition withMotion (f : Motion -> Motion) (s : State) : State :=
  {| scene := scene s; motion := f (motion s); light := light s;
     completion := completion s; runtime := runtime s |}.
Definition withLight (f : Light -> Light) (s : State) : State :=
  {| scene := scene s; motion := motion s; light := f (light s);
     completion := completion s; runtime := runtime s |}.
Definition withCompletion (f : Completion -> Completion) (s : State) : State :=
  {| scene := scene s; motion := motion s; light := light s;
     completion := f (completion s); runtime := runtime s |}.
Definition withRuntime (f : Runtime -> Runtime) (s : State) : State :=
  {| scene := scene s; motion := motion s; light := light s;
     completion := completion s; runtime := f (runtime s) |}.

(** Assignments to single variables. *)
Definition setAriaGroup (g : Object3D) : State -> State :=
  withScene (fun c =>
    {| ariaGroup := Some g; ariaModel := ariaModel c; mixer := mixer c;
       highlightLight := highlightLight c; spotLight := spotLight c |}).
Definition setAriaModel (r : Euler) : State -> State :=
  withScene (fun c =>
    {| ariaGroup := ariaGroup c; ariaModel := r; mixer := mixer c;
       highlightLight := highlightLight c; spotLight := spotLight c |}).
Definition setMixer (m : option R) : State -> State :=
  withScene (fun c =>
    {| ariaGroup := ariaGroup c; ariaModel := ariaModel c; mixer := m;
       highlightLight := highlightLight c; spotLight := spotLight c |}).
Definition setHighlightLight (l : option R) : State -> State :=
  withScene (fun c =>
    {| ariaGroup := ariaGroup c; ariaModel := ariaModel c; mixer := mixer c;
       highlightLight := l; spotLight := spotLight c |}).
Definition setSpotLight (t : option Vector3) : State -> State :=
  withScene (fun c =>
    {| ariaGroup := ariaGroup c; ariaModel := ariaModel c; mixer := mixer c;
       highlightLight := highlightLight c; spotLight := t |}).

Definition setAriaState (a : AriaState) : State -> State :=
  withMotion (fun m =>
    {| ariaState := a; targetRotation := targetRotation m;
       walkProgress := walkProgress m; walkStartPos := walkStartPos m;
       walkEndPos := walkEndPos m; walkDuration := walkDuration m;
       walkElapsed := walkElapsed m; stepPhase := stepPhase m;
       lastUpdateTime := lastUpdateTime m |}).
Definition setWalkProgress (elapsed progress : R) : State -> State :=
  withMotion (fun m =>
    {| ariaState := ariaState m; targetRotation := targetRotation m;
       walkProgress := progress; walkStartPos := walkStartPos m;
       walkEndPos := walkEndPos m; walkDuration := walkDuration m;
       walkElapsed := elapsed; stepPhase := stepPhase m;
       lastUpdateTime := lastUpdateTime m |}).
Definition setStepPhase (ph : R) : State -> State :=
  withMotion (fun m =>
    {| ariaState := ariaState m; targetRotation := targetRotation m;
       walkProgress := walkProgress m; walkStartPos := walkStartPos m;
       walkEndPos := walkEndPos m; walkDuration := walkDuration m;
       walkElapsed := walkElapsed m; stepPhase := ph;
       lastUpdateTime := lastUpdateTime m |}).
Definition setLastUpdateTime (t : R) : State -> State :=
  withMotion (fun m =>
    {| ariaState := ariaState m; targetRotation := targetRotation m;
       walkProgress := walkProgress m; walkStartPos := walkStartPos m;
       walkEndPos := walkEndPos m; walkDuration := walkDuration m;
       walkElapsed := walkElapsed m; stepPhase := stepPhase m;
       lastUpdateTime := t |}).

Definition setOnWalkComplete (c : option WalkResolve) : State -> State :=
  withCompletion (fun k =>
    {| onWalkComplete := c; walkRequestId := walkRequestId k;
       pendingWalkResolve := pendingWalkResolve k;
       pendingWalkTimeout := pendingWalkTimeout k |}).
Definition setWalkRequestId (n : nat) : State -> State :=
  withCompletion (fun k =>
    {| onWalkComplete := onWalkComplete k; walkRequestId := n;
       pendingWalkResolve := pendingWalkResolve k;
       pendingWalkTimeout := pendingWalkTimeout k |}).
Definition setPendingWalkResolve (c : option WalkResolve) : State -> State :=
  withCompletion (fun k =>
    {| onWalkComplete := onWalkComplete k; walkRequestId := walkRequestId k;
       pendingWalkResolve := c;
       pendingWalkTimeout := pendingWalkTimeout k |}).
Definition setPendingWalkTimeout (h : option Js.TimerId) : State -> State :=
  withCompletion (fun k =>
    {| onWalkComplete := onWalkComplete k; walkRequestId := walkRequestId k;
       pendingWalkResolve := pendingWalkResolve k;
       pendingWalkTimeout := h |}).

Definition setTimers (ts : list (Js.TimerId * WalkTimeout)) : State -> State :=
  withRuntime (fun r =>
    {| timers := ts; nextTimer := nextTimer r; nextPromise := nextPromise r;
       resolveLog := resolveLog r; callbackLog := callbackLog r;
       warnings := warnings r |}).

(** [new Promise(...)]: a fresh promise. *)
Definition newPromise (s : State) : Js.PromiseId * State :=
  let r := runtime s in
  (nextPromise r,
   withRuntime (fun r =>
     {| timers := timers r; nextTimer := nextTimer r;
        nextPromise := S (nextPromise r);
        resolveLog := resolveLog r; callbackLog := callbackLog r;
        warnings := warnings r |}) s).

(** A call of the [resolve] function of promise [p]. *)
Definition resolve (p : Js.PromiseId) : State -> State :=
  withRuntime (fun r =>
    {| timers := timers r; nextTimer := nextTimer r;
       nextPromise := nextPromise r;
       resolveLog := p :: resolveLog r; callbackLog := callbackLog r;
       warnings := warnings r |}).

(** Entering the body of a completion closure. *)
Definition enterCallback (c : WalkResolve) : State -> State :=
  withRuntime (fun r =>
    {| timers := timers r; nextTimer := nextTimer r;
       nextPromise := nextPromise r;
       resolveLog := resolveLog r; callbackLog := c :: callbackLog r;
       warnings := warnings r |}).

(** [console.warn(...)]. *)
Definition warn : State -> State :=
  withRuntime (fun r =>
    {| timers := timers r; nextTimer := nextTimer r;
       nextPromise := nextPromise r;
       resolveLog := resolveLog r; callbackLog := callbackLog r;
       warnings := S (warnings r) |}).

(** [setTimeout(closure, delay)]: arms a timer and returns its handle. *)
Definition setTimeout (c : WalkTimeout) (s : State) : Js.TimerId * State :=
  let r := runtime s in
  (nextTimer r,
   withRuntime (fun r =>
     {| timers := timers r ++ [(nextTimer r, c)];
        nextTimer := S (nextTimer r); nextPromise := nextPromise r;
        resolveLog := resolveLog r; callbackLog := callbackLog r;
        warnings := warnings r |}) s).

(** [clearTimeout(h)]. *)
Definition clearTimeout (h : Js.TimerId) (s : State) : State :=
  setTimers (Js.clearTimeout h (timers (runtime s))) s.

(** The values of the module-level variables when the module is evaluated. *)
Definition initial : State :=
  {| scene := {| ariaGroup := None; ariaModel := {| ex := 0; ey := 0; ez := 0 |};
                 mixer := None; highlightLight := None; spotLight := None |};
     motion := {| ariaState := idle; targetRotation := 0; walkProgress := 0;
                  walkStartPos := vec 0 0 0; walkEndPos := vec 0 0 0;
                  walkDuration := 0; walkElapsed := 0; stepPhase := 0;
                  lastUpdateTime := 0 |};
     light := {| lightIntensity := 1; targetLightIntensity := 1;
                 isSpeakingState := false |};
     completion := {| onWalkComplete := None; walkRequestId := 0%nat;
                      pendingWalkResolve := None; pendingWalkTimeout := None |};
     runtime := {| timers := []; nextTimer := 0%nat; nextPromise := 0%nat;
                   resolveLog := []; callbackLog := []; warnings := 0%nat |} |}.

(** The success callback of the loader in [loadARIA]: the group is placed at
    [ARIA_START_POS], a mixer exists when the asset carries animations, and
    [setupARIALighting] creates the two lights. *)
Definition loadARIA (hasAnimations : bool) (s : State) : State :=
  let s := setAriaModel {| ex := 0; ey := 0; ez := 0 |} s in
  let s := setAriaGroup {| position := ARIA_START_POS;
                           rotation := {| ex := 0; ey := 0; ez := 0 |} |} s in
  let s := if hasAnimations then setMixer (Some 0) s else s in
  let s := setHighlightLight (Some 3) s in
  setSpotLight (Some (vec 0 0 0)) s.

(** The body of the arrow function assigned to [pendingWalkResolve]
    (lines 161-170): a no-op unless its request is still the current one;
    otherwise it disarms the safety timeout, forgets both references to
    itself and resolves the promise of its call. *)
Definition runWalkResolve (c : WalkResolve) (s : State) : State :=
  let s := enterCallback c s in
  if negb (Nat.eqb (wr_requestId c) (walkRequestId (completion s))) then s
  else
    let s := match pendingWalkTimeout (completion s) with
             | Some h => setPendingWalkTimeout None (clearTimeout h s)
             | None => s
             end in
    let s := setOnWalkComplete None s in
    let s := setPendingWalkResolve None s in
    resolve (wr_promise c) s.

(** The body of the arrow function handed to [setTimeout] (lines 186-199). *)
Definition runWalkTimeout (t : WalkTimeout) (s : State) : State :=
  if negb (Nat.eqb (wt_requestId t) (walkRequestId (completion s))) then s
  else
    match ariaState (motion s) with
    | idle | speaking => s
    | _ =>
        let s := warn s in
        let s := match ariaGroup (scene s) with
                 | Some g =>
                     setAriaGroup
                       (setPosY (setPosition g (walkEndPos (motion s))) 0) s
                 | None => s
                 end in
        let s := match onWalkComplete (completion s) with
                 | Some cb => runWalkResolve cb (setOnWalkComplete None s)
                 | None => s
                 end in
        resolve (wt_promise t) s
    end.

(** A timer armed by this module fires: the runtime drops it and runs its
    closure.  Firing a handle that is not armed does nothing. *)
Definition fireTimer (h : Js.TimerId) (s : State) : State :=
  match Js.findTimer h (timers (runtime s)) with
  | Some t => runWalkTimeout t (clearTimeout h s)
  | None => s
  end.

(** [walkToPosition(targetPos)]; the result is the promise it returns. *)
Definition walkToPosition (targetPos : Vector3) (s : State)
  : Js.PromiseId * State :=
  let (p, s) := newPromise s in
  match ariaGroup (scene s) with
  | None => (p, resolve p s)
  | Some g =>
      let s := match pendingWalkResolve (completion s) with
               | Some c => setPendingWalkResolve None (runWalkResolve c s)
               | None => s
               end in
      let s := match pendingWalkTimeout (completion s) with
               | Some h => setPendingWalkTimeout None (clearTimeout h s)
               | None => s
               end in
      let s := setWalkRequestId (walkRequestId (completion s) + 1) s in
      let requestId := walkRequestId (completion s) in
      let c := {| wr_requestId := requestId; wr_promise := p |} in
      let s := setPendingWalkResolve (Some c) s in
      let s := setOnWalkComplete (Some c) s in
      let start := position g in
      let finish := setY targetPos 0 in
      let walkDistance := distanceTo start finish in
      let duration := Rmax 3.6 (walkDistance / walkSpeed) in
      let safetyTimeoutMs := Rmax 8000 (duration * 1500) in
      let (h, s) :=
        setTimeout {| wt_requestId := requestId; wt_promise := p;
                      wt_delayMs := safetyTimeoutMs |} s in
      let s := setPendingWalkTimeout (Some h) s in
      let dirToTarget := subVectors finish (position g) in
      let s := withMotion (fun m =>
        {| ariaState := turning_to_target;
           targetRotation := atan2 (x dirToTarget) (z dirToTarget);
           walkProgress := 0; walkStartPos := start; walkEndPos := finish;
           walkDuration := duration; walkElapsed := 0; stepPhase := 0;
           lastUpdateTime := lastUpdateTime m |}) s in
      (p, s)
  end.

Definition walkToStart (s : State) : Js.PromiseId * State :=
  walkToPosition ARIA_START_POS s.

(** The two [while] loops of [dampRotation].  A loop runs on a budget of
    iterations computed from its argument; [AriaFacts.wrapDown_unfold] and
    [AriaFacts.wrapUp_unfold] show that the budget never runs out, so that
    [wrapDown] and [wrapUp] satisfy the equations of the loops. *)
Fixpoint wrapDownLoop (budget : nat) (diff : R) : R :=
  match budget with
  | O => diff
  | S n => if Rgt_dec diff PI then wrapDownLoop n (diff - PI * 2) else diff
  end.

Fixpoint wrapUpLoop (budget : nat) (diff : R) : R :=
  match budget with
  | O => diff
  | S n => if Rlt_dec diff (- PI) then wrapUpLoop n (diff + PI * 2) else diff
  end.

Definition iterations (diff : R) : nat := Z.to_nat (up (Rabs diff / (PI * 2))).

Definition wrapDown (diff : R) : R := wrapDownLoop (iterations diff) diff.
Definition wrapUp (diff : R) : R := wrapUpLoop (iterations diff) diff.

Record Damped := { value : R; finished : bool }.

Definition dampRotation (current target speed dt : R) : Damped :=
  let diff := wrapUp (wrapDown (target - current)) in
  let factor := 1 - exp (- speed * dt * 2) in
  let step := diff * factor in
  let minSpeed := 0.1 * dt in
  let step := if ltb (Rabs step) minSpeed && gtb (Rabs diff) ANGLE_TOLERANCE
              then sign diff * minSpeed else step in
  if ltb (Rabs diff) ANGLE_TOLERANCE
  then {| value := target; finished := true |}
  else {| value := current + step; finished := false |}.

(** The per-state updates.  They are only called by [updateARIA], behind its
    check of [ariaGroup]; they take the group as an argument. *)

Definition lookAtCamera (cameraPosition : Vector3) (delta speed : R)
  (g : Object3D) : Object3D :=
  let dirToCamera := subVectors cameraPosition (position g) in
  let targetAngle := atan2 (x dirToCamera) (z dirToCamera) in
  let res := dampRotation (ey (rotation g)) targetAngle speed delta in
  setRotY g (value res).

Definition updateIdle (elapsed delta : R) (cameraPosition : Vector3)
  (g : Object3D) (s : State) : State :=
  let g := setPosY g (sin (elapsed * 0.7) * idleBreath) in
  let idleSway := sin (elapsed * 0.5) * swayAmplitude * 0.6 in
  let idleLean := sin (elapsed * 0.6) * leanAmplitude * 0.6 in
  let g := setRotZ g (damp (ez (rotation g)) idleSway 3.5 delta) in
  let g := setRotX g (damp (ex (rotation g)) idleLean 3.5 delta) in
  setAriaGroup (lookAtCamera cameraPosition delta 1.4 g) s.

Definition updateTurningToTarget (delta : R) (g : Object3D) (s : State)
  : State :=
  let res := dampRotation (ey (rotation g)) (targetRotation (motion s))
                          turnSpeed delta in
  let g := setRotY g (value res) in
  let g := setRotX g (damp (ex (rotation g)) 0 4 delta) in
  let g := setRotZ g (damp (ez (rotation g)) 0 4 delta) in
  let s := setAriaGroup g s in
  if finished res then setAriaState walking s else s.

Definition updateWalking (elapsed delta : R) (g : Object3D) (s : State)
  : State :=
  let safeDuration := Rmax (walkDuration (motion s)) 0.001 in
  let elapsed' := walkElapsed (motion s) + delta in
  let progress := Rmin 1 (elapsed' / safeDuration) in
  let s := setWalkProgress elapsed' progress s in
  let eased := progress * progress * (3 - 2 * progress) in
  if geb progress 1 then
    let s := setWalkProgress elapsed' 1 s in
    let g := setPosition g (walkEndPos (motion s)) in
    let g := setPosY g 0 in
    let g := setRotX g 0 in
    let g := setRotZ g 0 in
    setAriaState turning_to_camera (setAriaGroup g s)
  else
    let g := setPosition g
               (lerpVectors (walkStartPos (motion s)) (walkEndPos (motion s))
                            eased) in
    let s := setStepPhase (stepPhase (motion s) + delta * bobFrequency * 1.15)
                          s in
    let stride := sin (stepPhase (motion s)) in
    let bob := Rabs stride * bobAmplitude in
    let g := setPosY g bob in
    let g := setRotZ g (stride * swayAmplitude) in
    let g := setRotX g (sin (stepPhase (motion s) * 0.5) * leanAmplitude) in
    let s := setAriaGroup g s in
    match mixer (scene s) with
    | Some _ => s
    | None =>
        let m := ariaModel (scene s) in
        setAriaModel {| ex := ex m; ey := ey m; ez := stride * 0.01 |} s
    end.

Definition updateTurningToCamera (delta : R) (cameraPosition : Vector3)
  (g : Object3D) (s : State) : State :=
  let dirToCamera := subVectors cameraPosition (position g) in
  let targetAngle := atan2 (x dirToCamera) (z dirToCamera) in
  let res := dampRotation (ey (rotation g)) targetAngle turnSpeed delta in
  let g := setRotY g (value res) in
  let g := setRotX g (damp (ex (rotation g)) 0 4 delta) in
  let g := setRotZ g (damp (ez (rotation g)) 0 4 delta) in
  if finished res then
    let s := setAriaState speaking s in
    let g := setRotX g 0 in
    let g := setRotZ g 0 in
    let s := setAriaGroup g s in
    let s := match mixer (scene s) with
             | Some _ => s
             | None =>
                 let m := ariaModel (scene s) in
                 setAriaModel {| ex := ex m; ey := ey m; ez := 0 |} s
             end in
    match onWalkComplete (completion s) with
    | Some cb => runWalkResolve cb (setOnWalkComplete None s)
    | None => s
    end
  else setAriaGroup g s.

Definition updateSpeaking (elapsed delta : R) (cameraPosition : Vector3)
  (g : Object3D) (s : State) : State :=
  let g := setPosY g (sin (elapsed * 0.8) * idleBreath) in
  let g := lookAtCamera cameraPosition delta 1.1 g in
  let speakLean := if isSpeakingState (light s)
                   then sin (elapsed * 1.4) * leanAmplitude * 0.8 else 0 in
  let g := setRotX g (damp (ex (rotation g)) speakLean 3.2 delta) in
  let g := setRotZ g (damp (ez (rotation g)) 0 3.2 delta) in
  let s := setAriaGroup g s in
  match mixer (scene s) with
  | Some _ => s
  | None =>
      let m := ariaModel (scene s) in
      if isSpeakingState (light s)
      then setAriaModel {| ex := sin (elapsed * 2) * 0.01; ey := ey m;
                           ez := ez m |} s
      else setAriaModel {| ex := damp (ex m) 0 5 delta; ey := ey m;
                           ez := ez m |} s
  end.

Definition updateLightState (elapsed : R) (s : State) : State :=
  let l := light s in
  let target := if isSpeakingState l then 2.0 + sin (elapsed * 5) * 0.3
                else 1.0 in
  let intensity := lightIntensity l + (target - lightIntensity l) * 0.1 in
  let s := withLight (fun l =>
    {| lightIntensity := intensity; targetLightIntensity := target;
       isSpeakingState := isSpeakingState l |}) s in
  match highlightLight (scene s) with
  | Some _ => setHighlightLight (Some (intensity * 3.0)) s
  | None => s
  end.

(** The time step one frame applies (lines 249-250). *)
Definition frameDelta (elapsed lastUpdate : R) : R :=
  let rawDelta := elapsed - lastUpdate in
  Rmin 0.05 (if gtb rawDelta 0 then rawDelta else 0.016).

(** [updateARIA(elapsed, camera, isSpeaking)]; of the camera only its
    position is read. *)
Definition updateARIA (elapsed : R) (cameraPosition : Vector3)
  (isSpeaking : bool) (s : State) : State :=
  match ariaGroup (scene s) with
  | None => s
  | Some g =>
      let delta := frameDelta elapsed (lastUpdateTime (motion s)) in
      let s := setLastUpdateTime elapsed s in
      let s := match mixer (scene s) with
               | Some t => setMixer (Some (t + delta)) s
               | None => s
               end in
      let s := withLight (fun l =>
        {| lightIntensity := lightIntensity l;
           targetLightIntensity := targetLightIntensity l;
           isSpeakingState := isSpeaking |}) s in
      let s := match spotLight (scene s) with
               | Some _ => setSpotLight (Some (position g)) s
               | None => s
               end in
      let s := match ariaState (motion s) with
               | idle => updateIdle elapsed delta cameraPosition g s
               | turning_to_target => updateTurningToTarget delta g s
               | walking => updateWalking elapsed delta g s
               | turning_to_camera =>
                   updateTurningToCamera delta cameraPosition g s
               | speaking => updateSpeaking elapsed delta cameraPosition g s
               end in
      updateLightState elapsed s
  end.

Definition resetToStart (s : State) : State :=
  match ariaGroup (scene s) with
  | None => s
  | Some g =>
      let s := setAriaState idle s in
      let g := {| position := ARIA_START_POS;
                  rotation := {| ex := 0; ey := 0; ez := 0 |} |} in
      let s := setAriaGroup g s in
      let s := match mixer (scene s) with
               | Some _ => s
               | None =>
                   let m := ariaModel (scene s) in
                   setAriaModel {| ex := 0; ey := ey m; ez := 0 |} s
               end in
      setLastUpdateTime 0 s
  end.

Definition getARIAPosition (s : State) : Vector3 :=
  match ariaGroup (scene s) with
  | Some g => position g
  | None => ARIA_START_POS
  end.

(** What can happen to the module: the asset finishes loading, one of its
    exported functions is called, or one of its timers fires. *)
Inductive Event :=
| Loaded (hasAnimations : bool)
| WalkTo (targetPos : Vector3)
| Update (elapsed : R) (cameraPosition : Vector3) (isSpeaking : bool)
| TimerFires (h : Js.TimerId)
| Reset.

Definition step (s : State) (e : Event) : State :=
  match e with
  | Loaded a => loadARIA a s
  | WalkTo t => snd (walkToPosition t s)
  | Update elapsed cam sp => updateARIA elapsed cam sp s
  | TimerFires h => fireTimer h s
  | Reset => resetToStart s
  end.

Definition run (s : State) (es : list Event) : State := fold_left step es s.

(** A number of consecutive frames of the walking state, given by their
    time steps. *)
Definition walkFrames (deltas : list R) (s : State) : State :=
  fold_left (fun s delta =>
               match ariaGroup (scene s), ariaState (motion s) with
               | Some g, walking => updateWalking 0 delta g s
               | _, _ => s
               end) deltas s.

(** Successive calls of [dampRotation] toward one target, each on the value
    the previous call returned (the callers store [res.value] in
    [rotation.y] and pass it back in on the next frame); every call has its
    own [speed] and [dt].  The result is that of the last call. *)
Fixpoint dampRepeatedly (current target : R) (call : R * R)
  (calls : list (R * R)) : Damped :=
  let res := dampRotation current target (fst call) (snd call) in
  match calls with
  | [] => res
  | next :: rest => dampRepeatedly (value res) target next rest
  end.

(** *** Vocabulary of the statements about walk completion *)

Definition resolveCount (p : Js.PromiseId) (s : State) : nat :=
  Js.resolveCount p (resolveLog (runtime s)).

(** Every promise handed out so far has been resolved, and nothing is left
    that could resolve one. *)
Definition noWalkPending (s : State) : Prop :=
  pendingWalkResolve (completion s) = None /\
  onWalkComplete (completion s) = None /\
  timers (runtime s) = [] /\
  forall q, (q < nextPromise (runtime s))%nat -> (1 <= resolveCount q s)%nat.

(** The promise [p] of the current walk request is the only one not resolved
    yet; both completion variables hold the closure of that request, and the
    only timer that can be armed is its safety timeout. *)
Definition walkPending (p : Js.PromiseId) (s : State) : Prop :=
  let c := {| wr_requestId := walkRequestId (completion s);
              wr_promise := p |} in
  ariaGroup (scene s) <> None /\
  pendingWalkResolve (completion s) = Some c /\
  onWalkComplete (completion s) = Some c /\
  (p < nextPromise (runtime s))%nat /\
  resolveCount p s = 0%nat /\
  (forall q, (q < nextPromise (runtime s))%nat -> q <> p ->
             (1 <= resolveCount q s)%nat) /\
  (timers (runtime s) = [] \/
   exists h d,
     timers (runtime s) =
       [(h, {| wt_requestId := walkRequestId (completion s);
               wt_promise := p; wt_delayMs := d |})] /\
     pendingWalkTimeout (completion s) = Some h).

Definition consistent (s : State) : Prop :=
  (forall q, (nextPromise (runtime s) <= q)%nat -> resolveCount q s = 0%nat) /\
  (noWalkPending s \/ exists p, walkPending p s).

(** Two states agree on what the completion protocol reads and writes. *)
Definition sameControl (s s' : State) : Prop :=
  completion s' = completion s /\ runtime s' = runtime s /\
  (ariaGroup (scene s) <> None -> ariaGroup (scene s') <> None).

(** What one event may do to the promises: the state stays [consistent],
    promises are only added, and a promise that was resolved is not resolved
    again. *)
Definition stepOk (s s' : State) : Prop :=
  consistent s' /\
  (nextPromise (runtime s) <= nextPromise (runtime s'))%nat /\
  forall q, (q < nextPromise (runtime s))%nat -> (1 <= resolveCount q s)%nat ->
            resolveCount q s' = resolveCount q s.

(** The time a list of frames adds up to. *)
Definition totalTime (deltas : list R) : R := fold_right Rplus 0 deltas.

(** Two states agree on the clocks of the state machine (walk time, stride
    phase, mixer time) and on the end point of the walk. *)
Definition sameClocks (s s' : State) : Prop :=
  walkElapsed (motion s') = walkElapsed (motion s) /\
  stepPhase (motion s') = stepPhase (motion s) /\
  mixer (scene s') = mixer (scene s) /\
  walkEndPos (motion s') = walkEndPos (motion s).

End Aria.


(** ** The camera controller, class [CameraController] of
       [src/unnamed/part_001]

    The record below holds the mode flags, the tour clock and the stored
    completion closures of the controller.  The camera transform, the look-at
    target, the splines and the orbit limits are written by the methods but
    never read by a branch that touches a flag, a closure or a promise; they
    are left out here, and the points of the cinematic path are computed in
    module [Cinematic]. *)

Module Camera.

Import JsMath.

Definition TweenId := nat.

(** The closures the controller stores or hands to the runtime.
    - [Finish p]: the arrow function [finish] of the [transitionTo] call
      that returned promise [p];
    - [PlayTourComplete inner p]: the arrow function [onComplete] built by
      the [playTour] call that returned [p], around the caller's own
      [options.onComplete] when there is one;
    - [Resolver p]: the [resolve] function of promise [p] itself;
    - [User n]: a callback of the caller. *)
Inductive Callback :=
| Finish (p : Js.PromiseId)
| PlayTourComplete (inner : option nat) (p : Js.PromiseId)
| Resolver (p : Js.PromiseId)
| User (n : nat).

(** What a gsap tween animates: [this.camera.position], [this.currentTarget]
    or the local object [{ t: 0 }] of a curved transition. *)
Inductive TweenTarget := CameraPosition | CurrentTarget | TweenObject.

Record Tween := { tw_target : TweenTarget; tw_onComplete : option Callback }.

Inductive TransitionType :=
| start | product_with_aria | custom | return_start | other.

Record Controller := {
  isTransitioning : bool;
  isFollowingARIA : bool;
  isOrbiting : bool;
  isTouring : bool;
  tourPath : bool;
  tourTime : R;
  tourDuration : R;
  tourLoop : bool;
  tourBlend : R;
  onTourComplete : option Callback;
  transitionResolve : option Callback;
  transitionTween : option TweenId;
  controlsEnabled : bool
}.

(** The runtime as the controller sees it.  [gsap] tells whether the global
    [gsap] is defined; [tweens] are the live tweens; [userLog] records the
    calls of callbacks of the caller. *)
Record Runtime := {
  gsap : bool;
  tweens : list (TweenId * Tween);
  timers : list (Js.TimerId * Callback);
  nextTween : TweenId;
  nextTimer : Js.TimerId;
  nextPromise : Js.PromiseId;
  resolveLog : list Js.PromiseId;
  userLog : list nat
}.

Record State := { controller : Controller; runtime : Runtime }.

Definition setIsTransitioning (v : bool) (r : Controller) : Controller :=
  {| isTransitioning := v; isFollowingARIA := isFollowingARIA r;
     isOrbiting := isOrbiting r; isTouring := isTouring r;
     tourPath := tourPath r; tourTime := tourTime r;
     tourDuration := tourDuration r; tourLoop := tourLoop r;
     tourBlend := tourBlend r; onTourComplete := onTourComplete r;
     transitionResolve := transitionResolve r;
     transitionTween := transitionTween r;
     controlsEnabled := controlsEnabled r |}.
Definition setIsFollowingARIA (v : bool) (r : Controller) : Controller :=
  {| isTransitioning := isTransitioning r; isFollowingARIA := v;
     isOrbiting := isOrbiting r; isTouring := isTouring r;
     tourPath := tourPath r; tourTime := tourTime r;
     tourDuration := tourDuration r; tourLoop := tourLoop r;
     tourBlend := tourBlend r; onTourComplete := onTourComplete r;
     transitionResolve := transitionResolve r;
     transitionTween := transitionTween r;
     controlsEnabled := controlsEnabled r |}.
Definition setIsOrbiting (v : bool) (r : Controller) : Controller :=
  {| isTransitioning := isTransitioning r;
     isFollowingARIA := isFollowingARIA r; isOrbiting := v;
     isTouring := isTouring r; tourPath := tourPath r;
     tourTime := tourTime r; tourDuration := tourDuration r;
     tourLoop := tourLoop r; tourBlend := tourBlend r;
     onTourComplete := onTourComplete r;
     transitionResolve := transitionResolve r;
     transitionTween := transitionTween r;
     controlsEnabled := controlsEnabled r |}.
Definition setIsTouring (v : bool) (r : Controller) : Controller :=
  {| isTransitioning := isTransitioning r;
     isFollowingARIA := isFollowingARIA r; isOrbiting := isOrbiting r;
     isTouring := v; tourPath := tourPath r; tourTime := tourTime r;
     tourDuration := tourDuration r; tourLoop := tourLoop r;
     tourBlend := tourBlend r; onTourComplete := onTourComplete r;
     transitionResolve := transitionResolve r;
     transitionTween := transitionTween r;
     controlsEnabled := controlsEnabled r |}.
Definition setTourPath (v : bool) (r : Controller) : Controller :=
  {| isTransitioning := isTransitioning r;
     isFollowingARIA := isFollowingARIA r; isOrbiting := isOrbiting r;
     isTouring := isTouring r; tourPath := v; tourTime := tourTime r;
     tourDuration := tourDuration r; tourLoop := tourLoop r;
     tourBlend := tourBlend r; onTourComplete := onTourComplete r;
     transitionResolve := transitionResolve r;
     transitionTween := transitionTween r;
     controlsEnabled := controlsEnabled r |}.
Definition setTourTime (v : R) (r : Controller) : Controller :=
  {| isTransitioning := isTransitioning r;
     isFollowingARIA := isFollowingARIA r; isOrbiting := isOrbiting r;
     isTouring := isTouring r; tourPath := tourPath r; tourTime := v;
     tourDuration := tourDuration r; tourLoop := tourLoop r;
     tourBlend := tourBlend r; onTourComplete := onTourComplete r;
     transitionResolve := transitionResolve r;
     transitionTween := transitionTween r;
     controlsEnabled := controlsEnabled r |}.
Definition setTourDuration (v : R) (r : Controller) : Controller :=
  {| isTransitioning := isTransitioning r;
     isFollowingARIA := isFollowingARIA r; isOrbiting := isOrbiting r;
     isTouring := isTouring r; tourPath := tourPath r;
     tourTime := tourTime r; tourDuration := v; tourLoop := tourLoop r;
     tourBlend := tourBlend r; onTourComplete := onTourComplete r;
     transitionResolve := transitionResolve r;
     transitionTween := transitionTween r;
     controlsEnabled := controlsEnabled r |}.
Definition setTourLoop (v : bool) (r : Controller) : Controller :=
  {| isTransitioning := isTransitioning r;
     isFollowingARIA := isFollowingARIA r; isOrbiting := isOrbiting r;
     isTouring := isTouring r; tourPath := tourPath r;
     tourTime := tourTime r; tourDuration := tourDuration r; tourLoop := v;
     tourBlend := tourBlend r; onTourComplete := onTourComplete r;
     transitionResolve := transitionResolve r;
     transitionTween := transitionTween r;
     controlsEnabled := controlsEnabled r |}.
Definition setTourBlend (v : R) (r : Controller) : Controller :=
  {| isTransitioning := isTransitioning r;
     isFollowingARIA := isFollowingARIA r; isOrbiting := isOrbiting r;
     isTouring := isTouring r; tourPath := tourPath r;
     tourTime := tourTime r; tourDuration := tourDuration r;
     tourLoop := tourLoop r; tourBlend := v;
     onTourComplete := onTourComplete r;
     transitionResolve := transitionResolve r;
     transitionTween := transitionTween r;
     controlsEnabled := controlsEnabled r |}.
Definition setOnTourComplete (v : option Callback) (r : Controller) : Controller :=
  {| isTransitioning := isTransitioning r;
     isFollowingARIA := isFollowingARIA r; isOrbiting := isOrbiting r;
     isTouring := isTouring r; tourPath := tourPath r;
     tourTime := tourTime r; tourDuration := tourDuration r;
     tourLoop := tourLoop r; tourBlend := tourBlend r; onTourComplete := v;
     transitionResolve := transitionResolve r;
     transitionTween := transitionTween r;
     controlsEnabled := controlsEnabled r |}.
Definition setTransitionResolve (v : option Callback) (r : Controller) : Controller :=
  {| isTransitioning := isTransitioning r;
     isFollowingARIA := isFollowingARIA r; isOrbiting := isOrbiting r;
     isTouring := isTouring r; tourPath := tourPath r;
     tourTime := tourTime r; tourDuration := tourDuration r;
     tourLoop := tourLoop r; tourBlend := tourBlend r;
     onTourComplete := onTourComplete r; transitionResolve := v;
     transitionTween := transitionTween r;
     controlsEnabled := controlsEnabled r |}.
Definition setTransitionTween (v : option TweenId) (r : Controller) : Controller :=
  {| isTransitioning := isTransitioning r;
     isFollowingARIA := isFollowingARIA r; isOrbiting := isOrbiting r;
     isTouring := isTouring r; tourPath := tourPath r;
     tourTime := tourTime r; tourDuration := tourDuration r;
     tourLoop := tourLoop r; tourBlend := tourBlend r;
     onTourComplete := onTourComplete r;
     transitionResolve := transitionResolve r; transitionTween := v;
     controlsEnabled := controlsEnabled r |}.
Definition setControlsEnabled (v : bool) (r : Controller) : Controller :=
  {| isTransitioning := isTransitioning r;
     isFollowingARIA := isFollowingARIA r; isOrbiting := isOrbiting r;
     isTouring := isTouring r; tourPath := tourPath r;
     tourTime := tourTime r; tourDuration := tourDuration r;
     tourLoop := tourLoop r; tourBlend := tourBlend r;
     onTourComplete := onTourComplete r;
     transitionResolve := transitionResolve r;
     transitionTween := transitionTween r; controlsEnabled := v |}.
Definition setTweens (v : list (TweenId * Tween)) (r : Runtime) : Runtime :=
  {| gsap := gsap r; tweens := v; timers := timers r;
     nextTween := nextTween r; nextTimer := nextTimer r;
     nextPromise := nextPromise r; resolveLog := resolveLog r;
     userLog := userLog r |}.
Definition setTimers (v : list (Js.TimerId * Callback)) (r : Runtime) : Runtime :=
  {| gsap := gsap r; tweens := tweens r; timers := v;
     nextTween := nextTween r; nextTimer := nextTimer r;
     nextPromise := nextPromise r; resolveLog := resolveLog r;
     userLog := userLog r |}.
Definition setNextTween (v : TweenId) (r : Runtime) : Runtime :=
  {| gsap := gsap r; tweens := tweens r; timers := timers r; nextTween := v;
     nextTimer := nextTimer r; nextPromise := nextPromise r;
     resolveLog := resolveLog r; userLog := userLog r |}.
Definition setNextTimer (v : Js.TimerId) (r : Runtime) : Runtime :=
  {| gsap := gsap r; tweens := tweens r; timers := timers r;
     nextTween := nextTween r; nextTimer := v; nextPromise := nextPromise r;
     resolveLog := resolveLog r; userLog := userLog r |}.
Definition setNextPromise (v : Js.PromiseId) (r : Runtime) : Runtime :=
  {| gsap := gsap r; tweens := tweens r; timers := timers r;
     nextTween := nextTween r; nextTimer := nextTimer r; nextPromise := v;
     resolveLog := resolveLog r; userLog := userLog r |}.
Definition setResolveLog (v : list Js.PromiseId) (r : Runtime) : Runtime :=
  {| gsap := gsap r; tweens := tweens r; timers := timers r;
     nextTween := nextTween r; nextTimer := nextTimer r;
     nextPromise := nextPromise r; resolveLog := v; userLog := userLog r |}.
Definition setUserLog (v : list nat) (r : Runtime) : Runtime :=
  {| gsap := gsap r; tweens := tweens r; timers := timers r;
     nextTween := nextTween r; nextTimer := nextTimer r;
     nextPromise := nextPromise r; resolveLog := resolveLog r;
     userLog := v |}.

Definition withController (f : Controller -> Controller) (s : State) : State :=
  {| controller := f (controller s); runtime := runtime s |}.
Definition withRuntime (f : Runtime -> Runtime) (s : State) : State :=
  {| controller := controller s; runtime := f (runtime s) |}.

(** The constructor (the fields it initialises). *)
Definition newController : Controller :=
  {| isTransitioning := false; isFollowingARIA := false; isOrbiting := false;
     isTouring := false; tourPath := false; tourTime := 0; tourDuration := 18;
     tourLoop := true; tourBlend := 0.08; onTourComplete := None;
     transitionResolve := None; transitionTween := None;
     controlsEnabled := false |}.

Definition initial (gsapDefined : bool) : State :=
  {| controller := newController;
     runtime := {| gsap := gsapDefined; tweens := []; timers := [];
                   nextTween := 0%nat; nextTimer := 0%nat;
                   nextPromise := 0%nat; resolveLog := []; userLog := [] |} |}.

Definition newPromise (s : State) : Js.PromiseId * State :=
  (nextPromise (runtime s),
   withRuntime (fun r => setNextPromise (S (nextPromise r)) r) s).

Definition resolve (p : Js.PromiseId) : State -> State :=
  withRuntime (fun r => setResolveLog (p :: resolveLog r) r).

Definition setTimeout (c : Callback) (s : State) : Js.TimerId * State :=
  (nextTimer (runtime s),
   withRuntime (fun r =>
     setNextTimer (S (nextTimer r))
       (setTimers (timers r ++ [(nextTimer r, c)]) r)) s).

Definition clearTimeout (h : Js.TimerId) : State -> State :=
  withRuntime (fun r => setTimers (Js.clearTimeout h (timers r)) r).

(** [gsap.to(target, { ..., onComplete })]: a new live tween. *)
Definition gsapTo (target : TweenTarget) (onComplete : option Callback)
  (s : State) : TweenId * State :=
  (nextTween (runtime s),
   withRuntime (fun r =>
     setNextTween (S (nextTween r))
       (setTweens (tweens r ++ [(nextTween r,
                                 {| tw_target := target;
                                    tw_onComplete := onComplete |})]) r)) s).

Definition sameTarget (a b : TweenTarget) : bool :=
  match a, b with
  | CameraPosition, CameraPosition => true
  | CurrentTarget, CurrentTarget => true
  | TweenObject, TweenObject => true
  | _, _ => false
  end.

(** [gsap.killTweensOf(target)]. *)
Definition killTweensOf (target : TweenTarget) : State -> State :=
  withRuntime (fun r =>
    setTweens (filter (fun t => negb (sameTarget (tw_target (snd t)) target))
                      (tweens r)) r).

(** [tween.kill()]. *)
Definition killTween (i : TweenId) : State -> State :=
  withRuntime (fun r =>
    setTweens (filter (fun t => negb (Nat.eqb (fst t) i)) (tweens r)) r).

(** Calling a stored closure.  [finish] (lines 273-279) returns at once when
    [this.transitionResolve] is empty. *)
Definition call (c : Callback) (s : State) : State :=
  match c with
  | Finish p =>
      match transitionResolve (controller s) with
      | None => s
      | Some _ =>
          let s := withController (setTransitionResolve None) s in
          let s := withController (setIsTransitioning false) s in
          let s := withController (setTransitionTween None) s in
          resolve p s
      end
  | PlayTourComplete inner p =>
      let s := match inner with
               | Some n => withRuntime (fun r => setUserLog (n :: userLog r) r) s
               | None => s
               end in
      resolve p s
  | Resolver p => resolve p s
  | User n => withRuntime (fun r => setUserLog (n :: userLog r) r) s
  end.

Definition followARIA (active : bool) (s : State) : State :=
  if isOrbiting (controller s) then s
  else withController (setIsFollowingARIA active) s.

Definition enableOrbitMode (s : State) : State :=
  let s := withController (setIsOrbiting true) s in
  let s := withController (setIsFollowingARIA false) s in
  let s := withController (setIsTransitioning false) s in
  withController (setControlsEnabled true) s.

Definition disableOrbitMode (s : State) : State :=
  let s := withController (setIsOrbiting false) s in
  withController (setControlsEnabled false) s.

Definition cancelTransition (s : State) : State :=
  let s := if gsap (runtime s) then
             let s := killTweensOf CameraPosition s in
             let s := killTweensOf CurrentTarget s in
             match transitionTween (controller s) with
             | Some i => killTween i s
             | None => s
             end
           else s in
  let s := withController (setTransitionTween None) s in
  match transitionResolve (controller s) with
  | Some done =>
      let s := withController (setTransitionResolve None) s in
      let s := withController (setIsTransitioning false) s in
      call done s
  | None => s
  end.

(** [startTour(pathPoints, lookPoints, options)]; of the options, the four
    the method reads. *)
Definition startTour (loop : option bool) (duration blend : option R)
  (onComplete : option Callback) (s : State) : State :=
  let s := if isOrbiting (controller s) then disableOrbitMode s else s in
  let s := cancelTransition s in
  let s := withController (setIsTouring true) s in
  let s := withController (setIsFollowingARIA false) s in
  let s := withController (setIsTransitioning false) s in
  let s := withController (setControlsEnabled false) s in
  let tourLoop' := match loop with Some b => b | None => true end in
  let s := withController (setTourLoop tourLoop') s in
  let s := withController (setTourPath true) s in
  let s := withController
             (setTourDuration (match duration with Some d => d | None => 18 end))
             s in
  let s := withController
             (setTourBlend (match blend with Some b => b | None => 0.08 end))
             s in
  let s := withController (setTourTime 0) s in
  let s := withController
             (setOnTourComplete (if tourLoop' then None else onComplete)) s in
  if gsap (runtime s)
  then killTweensOf CurrentTarget (killTweensOf CameraPosition s)
  else s.

Definition stopTour (s : State) : State :=
  if negb (isTouring (controller s)) then s
  else
    let s := withController (setIsTouring false) s in
    match onTourComplete (controller s) with
    | Some done => call done (withController (setOnTourComplete None) s)
    | None => s
    end.

(** [playTour(pathPoints, lookPoints, options)]; [onComplete] is the
    caller's callback, if any. *)
Definition playTour (loop : option bool) (duration blend : option R)
  (onComplete : option nat) (s : State) : Js.PromiseId * State :=
  let (p, s) := newPromise s in
  (p, startTour (Some (match loop with Some b => b | None => false end))
                duration blend (Some (PlayTourComplete onComplete p)) s).

Definition startShowroomTour (loop : option bool) (duration blend : option R)
  (onComplete : option Callback) (s : State) : State :=
  startTour loop duration blend onComplete s.

(** [playProductCinematic(collectionName, options)]: the tour it starts. *)
Definition playProductCinematic (duration blend : option R) (s : State)
  : Js.PromiseId * State :=
  playTour (Some false)
           (Some (match duration with Some d => d | None => 12 end))
           (Some (match blend with Some b => b | None => 0.1 end))
           None s.

Definition stopShowroomTour (s : State) : State :=
  let s := withController (setIsTouring false) s in
  withController (setOnTourComplete None) s.

(** [transitionTo(type, duration, arg1, arg2)]. *)
Definition transitionTo (type : TransitionType) (duration : R) (s : State)
  : Js.PromiseId * State :=
  let s := if isOrbiting (controller s) then disableOrbitMode s else s in
  let s := withController (setIsTouring false) s in
  let s := withController (setOnTourComplete None) s in
  let s := cancelTransition s in
  let (p, s) := newPromise s in
  let finish := Finish p in
  let s := withController (setIsTransitioning true) s in
  let s := withController (setIsFollowingARIA false) s in
  let s := withController (setTransitionResolve (Some finish)) s in
  if gsap (runtime s) then
    match type with
    | return_start =>
        let (i, s) := gsapTo CameraPosition None s in
        let s := withController (setTransitionTween (Some i)) s in
        let (_, s) := setTimeout finish s in
        (p, s)
    | _ =>
        let (i, s) := gsapTo TweenObject (Some finish) s in
        (p, withController (setTransitionTween (Some i)) s)
    end
  else (p, call finish s).

(** [frameAriaAndProduct(collectionName, options)]. *)
Definition frameAriaAndProduct (duration : option R) (s : State)
  : Js.PromiseId * State :=
  transitionTo custom (match duration with Some d => d | None => 1.4 end) s.

(** [update(delta)]. *)
Definition update (delta : R) (s : State) : State :=
  let c := controller s in
  if isOrbiting c then s
  else if isTouring c then
    if negb (tourPath c) then s
    else
      let s := withController (setTourTime (tourTime c + delta)) s in
      let duration := Rmax (tourDuration c) 0.1 in
      let rawT := tourTime (controller s) / duration in
      if negb (tourLoop c) && geb rawT 1 then
        let s := withController (setIsTouring false) s in
        match onTourComplete (controller s) with
        | Some done => call done (withController (setOnTourComplete None) s)
        | None => s
        end
      else s
  else s.

(** A live tween reaches its end: gsap drops it and calls its [onComplete]. *)
Definition completeTween (i : TweenId) (s : State) : State :=
  match find (fun t => Nat.eqb (fst t) i) (tweens (runtime s)) with
  | Some t =>
      let s := killTween i s in
      match tw_onComplete (snd t) with
      | Some c => call c s
      | None => s
      end
  | None => s
  end.

(** An armed timer fires. *)
Definition fireTimer (h : Js.TimerId) (s : State) : State :=
  match Js.findTimer h (timers (runtime s)) with
  | Some c => call c (clearTimeout h s)
  | None => s
  end.

(** Calls of the controller's methods and events of the runtime. *)
Inductive Event :=
| TransitionTo (type : TransitionType) (duration : R)
| FrameAriaAndProduct (duration : option R)
| CancelTransition
| StartTour (loop : option bool) (duration blend : option R)
            (onComplete : option nat)
| PlayTour (loop : option bool) (duration blend : option R)
           (onComplete : option nat)
| PlayProductCinematic (duration blend : option R)
| StopTour
| StopShowroomTour
| EnableOrbitMode
| DisableOrbitMode
| FollowARIA (active : bool)
| Update (delta : R)
| TweenCompletes (i : TweenId)
| TimerFires (h : Js.TimerId).

Definition step (s : State) (e : Event) : State :=
  match e with
  | TransitionTo t d => snd (transitionTo t d s)
  | FrameAriaAndProduct d => snd (frameAriaAndProduct d s)
  | CancelTransition => cancelTransition s
  | StartTour l d b k =>
      startTour l d b (match k with Some n => Some (User n) | None => None end) s
  | PlayTour l d b k => snd (playTour l d b k s)
  | PlayProductCinematic d b => snd (playProductCinematic d b s)
  | StopTour => stopTour s
  | StopShowroomTour => stopShowroomTour s
  | EnableOrbitMode => enableOrbitMode s
  | DisableOrbitMode => disableOrbitMode s
  | FollowARIA a => followARIA a s
  | Update d => update d s
  | TweenCompletes i => completeTween i s
  | TimerFires h => fireTimer h s
  end.

Definition run (s : State) (es : list Event) : State := fold_left step es s.

(** *** Vocabulary of the statements about lost completions *)

Definition resolveCount (p : Js.PromiseId) (s : State) : nat :=
  Js.resolveCount p (resolveLog (runtime s)).

(** Whether calling the closure can resolve promise [p]. *)
Definition mentions (p : Js.PromiseId) (c : Callback) : bool :=
  match c with
  | Finish q | PlayTourComplete _ q | Resolver q => Nat.eqb p q
  | User _ => false
  end.

Definition holds (p : Js.PromiseId) (o : option Callback) : bool :=
  match o with
  | Some c => mentions p c
  | None => false
  end.

(** Promise [p] has been handed out, and no closure that could resolve it
    is stored in the controller, in a live tween or in an armed timer. *)
Definition orphaned (p : Js.PromiseId) (s : State) : bool :=
  Nat.ltb p (nextPromise (runtime s))
  && negb (holds p (onTourComplete (controller s)))
  && negb (holds p (transitionResolve (controller s)))
  && forallb (fun t => negb (holds p (tw_onComplete (snd t))))
             (tweens (runtime s))
  && forallb (fun t => negb (mentions p (snd t))) (timers (runtime s)).

(** An operation on the controller leaves an orphaned promise orphaned and
    does not resolve it. *)
Definition keeps (p : Js.PromiseId) (f : State -> State) : Prop :=
  forall s, orphaned p s = true ->
            orphaned p (f s) = true /\ resolveCount p (f s) = resolveCount p s.

End Camera.


(** ** The path of the product cinematic, the body of
       [CameraController.playProductCinematic] (lines 190-229)

    [getProductBounds] and [getProductPosition] belong to [product.js]; what
    they return is an argument here, as is the position of the camera. *)

Module Cinematic.

Import Three JsMath.

Record Bounds := { center : Vector3; size : Vector3; radius : R }.

Record Options := {
  o_radius : option R;
  o_height : option R;
  o_segments : option nat
}.

Definition orElse {A : Type} (o : option A) (d : A) : A :=
  match o with Some a => a | None => d end.

(** [target], after [target.y = Math.max(0.5, target.y)]. *)
Definition cinematicTarget (bounds : option Bounds) (productPosition : Vector3)
  : Vector3 :=
  let target := match bounds with
                | Some b => center b
                | None => productPosition
                end in
  setY target (Rmax 0.5 (y target)).

Definition baseRadius (bounds : option Bounds) : R :=
  match bounds with
  | Some b => Rmax 3.4 (radius b + 1.4)
  | None => 4.8
  end.

Definition cinematicRadius (bounds : option Bounds) (target : Vector3)
  (options : Options) : R :=
  let r := orElse (o_radius options) (baseRadius bounds) in
  if gtb (Rabs (x target)) 4
  then Rmax (baseRadius bounds) (Rmin r 3.8)
  else r.

Definition cinematicHeight (bounds : option Bounds) (target : Vector3)
  (options : Options) : R :=
  orElse (o_height options)
    (match bounds with
     | Some b => Rmax 1.1 (y target + y (size b) * 0.24)
     | None => 1.5
     end).

Definition startAngle (cameraPosition target : Vector3) : R :=
  atan2 (z cameraPosition - z target) (x cameraPosition - x target).

(** The point pushed by iteration [i] of the [for] loop.  When [segments]
    is 0 the loop runs once, with [i / segments] being [0 / 0]: that is not
    a number, and neither are the angle, the lift and the three coordinates
    of the point pushed.  Such a point is [None]; a point with numbers for
    coordinates is [Some] of them. *)
Definition orbitPoint (target : Vector3) (radius height angle0 : R)
  (segments i : nat) : option Vector3 :=
  match segments with
  | O => None
  | S _ =>
      let angle := angle0 + PI * 2 * (INR i / INR segments) in
      let lift := sin (INR i / INR segments * PI * 2) * 0.2 in
      Some (vec (x target + cos angle * radius)
                (height + lift)
                (z target + sin angle * radius))
  end.

(** [pathPoints]: the position of the camera, then one point for each
    [i] from [0] to [segments] inclusive. *)
Definition pathPoints (bounds : option Bounds) (productPosition : Vector3)
  (options : Options) (cameraPosition : Vector3) : list (option Vector3) :=
  let target := cinematicTarget bounds productPosition in
  let radius := cinematicRadius bounds target options in
  let height := cinematicHeight bounds target options in
  let segments := orElse (o_segments options) 7%nat in
  let angle0 := startAngle cameraPosition target in
  Some cameraPosition ::
  map (orbitPoint target radius height angle0 segments) (seq 0 (S segments)).

(** [pathPoints.map((point, idx) => ...)], with the index. *)
Definition lookPoints (bounds : option Bounds) (productPosition : Vector3)
  (options : Options) (cameraPosition : Vector3) : list Vector3 :=
  let target := cinematicTarget bounds productPosition in
  let path := pathPoints bounds productPosition options cameraPosition in
  map (fun idx =>
         vec (x target + sin (INR idx * 0.6) * 0.12)
             (y target + match bounds with
                         | Some b => Rmin 1.0 (y (size b) * 0.25)
                         | None => 0.9
                         end)
             (z target + cos (INR idx * 0.5) * 0.12))
      (seq 0 (length path)).

(** The options of the example: radius 3, height 1.5, 4 segments. *)
Definition exampleOptions : Options :=
  {| o_radius := Some 3; o_height := Some 1.5; o_segments := Some 4%nat |}.

End Cinematic.


(** ** The request sequencer of the entry point, [src/js/main.js]

    The model covers [requestCollection], [handleCollectionSelect],
    [cancelActiveCinematic] and [skipIntro], over the camera controller above.
    [cameraController], [audioSystem] and [uiController] are created by
    [init] before any request can arrive, so the checks of their presence
    succeed.  The coroutines of [startExperience] and [handleBack] are not
    part of the model. *)

Module Main.

Import JsMath.

Inductive Collection := elegance | minimal | luxury.
Inductive Source := ui | voice.

(** The result of [parseCollectionRequest] for a valid name. *)
Record Parsed := { collection : Collection; source : Source }.

(** The [reason] of a cancelled cinematic: ['user'] or ['switch']. *)
Inductive Reason := user | switch.

(** The object made by [createCinematicState]; [promise] stands for both its
    [promise] and its [resolve] fields. *)
Record CinematicState := {
  cancelled : bool;
  reason : option Reason;
  promise : Js.PromiseId
}.

(** The object made by [createIntroState]; a cancel hook is given by the
    timer it clears and the promise it resolves. *)
Record IntroState := {
  introCancelled : bool;
  cancelHooks : list (Js.TimerId * Js.PromiseId);
  skipPromise : Js.PromiseId
}.

(** Calls into the collaborators the sequencer drives, in order of
    occurrence (most recent first in the trace). *)
Inductive Action :=
| SetCurrentProduct (c : Collection)
| HideCollectionButtons | ShowCollectionButtons
| HideInteractHint | ShowInteractHint
| HideProductPanel | ShowProductPanel
| UpdateProductInfo (c : Collection)
| ShowSubtitle (c : Collection) | HideSubtitle
| ShowStopCinematic (show : bool)
| ShowSkipIntro (show : bool)
| SetUILocked (locked : bool)
| VoiceMute | VoiceUnmute
| WalkToProduct (c : Collection)
| ActivateProductSpotlight (c : Collection).

(** The audio tracks: the opening and one per collection. *)
Inductive Track := apertura | collezione (c : Collection).

Definition sameCollection (a b : Collection) : bool :=
  match a, b with
  | elegance, elegance | minimal, minimal | luxury, luxury => true
  | _, _ => false
  end.

Definition sameTrack (a b : Track) : bool :=
  match a, b with
  | apertura, apertura => true
  | collezione c, collezione d => sameCollection c d
  | _, _ => false
  end.

(** The part of [AudioSystem] ([src/unnamed/part_002]) the sequencer uses.
    [current] is the track being played, with the [token] and the promise
    its [onended] handler captured; [duration] is what [getDuration]
    returns ([None] for [null]). *)
Record AudioSystem := {
  playToken : nat;
  current : option (Track * nat * Js.PromiseId);
  speaking : bool;
  prepared : option Track;
  duration : Track -> option R
}.

(** The places where the coroutine of one request can be suspended:
    the [await] of [requestCollection] on the skip transition (line 532) or
    on its replacement delay (534); those of [handleCollectionSelect] on the
    300 ms delay (578), the 500 ms delay (583), the walk (587), the product
    shot (591), the race of narration and cinematic against the stop signal
    (622) and the framing shot (650); and [Returned], where
    [handleCollectionSelect] has returned and [requestCollection] is about
    to run its [finally] block. *)
Inductive Await :=
| AwaitSkip (p : Js.PromiseId)
| AwaitSkipDelay (p : Js.PromiseId)
| AwaitPrepare (p : Js.PromiseId)
| AwaitFollowDelay (p walkPromise : Js.PromiseId)
| AwaitWalk (walkPromise : Js.PromiseId)
| AwaitProductShot (p : Js.PromiseId)
| AwaitCinematic (audioPromise cinematicPromise : Js.PromiseId)
                 (localCinematicState : nat) (shouldMuteVoice : bool)
| AwaitFraming (p : Js.PromiseId)
| Returned.

(** A suspended request: the arguments and the [requestId] it captured. *)
Record Task := {
  t_request : Parsed;
  t_requestId : nat;
  t_await : Await
}.

Record Globals := {
  currentCollection : Collection;
  allowProductOrbit : bool;
  introState : option IntroState;
  collectionRequestLock : bool;
  collectionRequestId : nat;
  pendingCollectionRequest : option Parsed;
  cinematicState : option nat
}.

(** [cinematicState] and the local [localCinematicState] are references to
    objects of [cinematics].  [walkInFlight] is what the sequencer observes
    of the avatar: the promise of the walk that has not completed yet.
    [task] is the suspended coroutine of [requestCollection]; it exists only
    while [collectionRequestLock] is held. *)
Record State := {
  globals : Globals;
  cameraController : Camera.State;
  audioSystem : AudioSystem;
  walkInFlight : option Js.PromiseId;
  cinematics : list CinematicState;
  trace : list Action;
  task : option Task
}.

Definition setCurrentCollection (v : Collection) (r : Globals) : Globals :=
  {| currentCollection := v; allowProductOrbit := allowProductOrbit r;
     introState := introState r;
     collectionRequestLock := collectionRequestLock r;
     collectionRequestId := collectionRequestId r;
     pendingCollectionRequest := pendingCollectionRequest r;
     cinematicState := cinematicState r |}.
Definition setAllowProductOrbit (v : bool) (r : Globals) : Globals :=
  {| currentCollection := currentCollection r; allowProductOrbit := v;
     introState := introState r;
     collectionRequestLock := collectionRequestLock r;
     collectionRequestId := collectionRequestId r;
     pendingCollectionRequest := pendingCollectionRequest r;
     cinematicState := cinematicState r |}.
Definition setIntroState (v : option IntroState) (r : Globals) : Globals :=
  {| currentCollection := currentCollection r;
     allowProductOrbit := allowProductOrbit r; introState := v;
     collectionRequestLock := collectionRequestLock r;
     collectionRequestId := collectionRequestId r;
     pendingCollectionRequest := pendingCollectionRequest r;
     cinematicState := cinematicState r |}.
Definition setCollectionRequestLock (v : bool) (r : Globals) : Globals :=
  {| currentCollection := currentCollection r;
     allowProductOrbit := allowProductOrbit r; introState := introState r;
     collectionRequestLock := v;
     collectionRequestId := collectionRequestId r;
     pendingCollectionRequest := pendingCollectionRequest r;
     cinematicState := cinematicState r |}.
Definition setCollectionRequestId (v : nat) (r : Globals) : Globals :=
  {| currentCollection := currentCollection r;
     allowProductOrbit := allowProductOrbit r; introState := introState r;
     collectionRequestLock := collectionRequestLock r;
     collectionRequestId := v;
     pendingCollectionRequest := pendingCollectionRequest r;
     cinematicState := cinematicState r |}.
Definition setPendingCollectionRequest (v : option Parsed) (r : Globals) : Globals :=
  {| currentCollection := currentCollection r;
     allowProductOrbit := allowProductOrbit r; introState := introState r;
     collectionRequestLock := collectionRequestLock r;
     collectionRequestId := collectionRequestId r;
     pendingCollectionRequest := v; cinematicState := cinematicState r |}.
Definition setCinematicState (v : option nat) (r : Globals) : Globals :=
  {| currentCollection := currentCollection r;
     allowProductOrbit := allowProductOrbit r; introState := introState r;
     collectionRequestLock := collectionRequestLock r;
     collectionRequestId := collectionRequestId r;
     pendingCollectionRequest := pendingCollectionRequest r;
     cinematicState := v |}.
Definition setGlobals (v : Globals) (r : State) : State :=
  {| globals := v; cameraController := cameraController r;
     audioSystem := audioSystem r; walkInFlight := walkInFlight r;
     cinematics := cinematics r; trace := trace r; task := task r |}.
Definition setCameraController (v : Camera.State) (r : State) : State :=
  {| globals := globals r; cameraController := v;
     audioSystem := audioSystem r; walkInFlight := walkInFlight r;
     cinematics := cinematics r; trace := trace r; task := task r |}.
Definition setAudioSystem (v : AudioSystem) (r : State) : State :=
  {| globals := globals r; cameraController := cameraController r;
     audioSystem := v; walkInFlight := walkInFlight r;
     cinematics := cinematics r; trace := trace r; task := task r |}.
Definition setWalkInFlight (v : option Js.PromiseId) (r : State) : State :=
  {| globals := globals r; cameraController := cameraController r;
     audioSystem := audioSystem r; walkInFlight := v;
     cinematics := cinematics r; trace := trace r; task := task r |}.
Definition setCinematics (v : list CinematicState) (r : State) : State :=
  {| globals := globals r; cameraController := cameraController r;
     audioSystem := audioSystem r; walkInFlight := walkInFlight r;
     cinematics := v; trace := trace r; task := task r |}.
Definition setTrace (v : list Action) (r : State) : State :=
  {| globals := globals r; cameraController := cameraController r;
     audioSystem := audioSystem r; walkInFlight := walkInFlight r;
     cinematics := cinematics r; trace := v; task := task r |}.
Definition setTask (v : option Task) (r : State) : State :=
  {| globals := globals r; cameraController := cameraController r;
     audioSystem := audioSystem r; walkInFlight := walkInFlight r;
     cinematics := cinematics r; trace := trace r; task := v |}.

Definition withGlobals (f : Globals -> Globals) (s : State) : State :=
  setGlobals (f (globals s)) s.
Definition withCamera (f : Camera.State -> Camera.State) (s : State) : State :=
  setCameraController (f (cameraController s)) s.
Definition act (a : Action) (s : State) : State :=
  setTrace (a :: trace s) s.

Definition resolveLog (s : State) : list Js.PromiseId :=
  Camera.resolveLog (Camera.runtime (cameraController s)).

Definition settled (p : Js.PromiseId) (s : State) : bool :=
  Js.settled p (resolveLog s).

Definition newPromise (s : State) : Js.PromiseId * State :=
  let (p, c) := Camera.newPromise (cameraController s) in
  (p, setCameraController c s).

Definition resolve (p : Js.PromiseId) : State -> State :=
  withCamera (Camera.resolve p).

(** [new Promise(r => setTimeout(r, ms))]. *)
Definition delay (s : State) : Js.PromiseId * State :=
  let (p, s) := newPromise s in
  let (_, c) := Camera.setTimeout (Camera.Resolver p) (cameraController s) in
  (p, setCameraController c s).

(** [AudioSystem.stop()]. *)
Definition audioStop (a : AudioSystem) : AudioSystem :=
  {| playToken := playToken a + 1; current := None; speaking := false;
     prepared := None; duration := duration a |}.

(** [AudioSystem.prepareMoment(key)]. *)
Definition prepareMoment (key : Track) (a : AudioSystem) : AudioSystem :=
  let a := match prepared a with
           | Some k => if sameTrack k key then a
                       else {| playToken := playToken a; current := current a;
                               speaking := speaking a; prepared := None;
                               duration := duration a |}
           | None => a
           end in
  let a := match current a with
           | Some (k, _, _) => if sameTrack k key then a else audioStop a
           | None => a
           end in
  {| playToken := playToken a; current := current a; speaking := speaking a;
     prepared := Some key; duration := duration a |}.

(** [AudioSystem.playMoment(key)]; the muted pre-roll of a prepared track is
    taken to be running. *)
Definition playMoment (key : Track) (s : State) : Js.PromiseId * State :=
  let a := audioSystem s in
  let preparedPlaying := match prepared a with
                         | Some k => sameTrack k key
                         | None => false
                         end in
  let a := if negb preparedPlaying then audioStop a
           else match current a with
                | Some (k, _, _) => if sameTrack k key then a else audioStop a
                | None => a
                end in
  let token := (playToken a + 1)%nat in
  let (p, s) := newPromise s in
  (p, setAudioSystem
        {| playToken := token; current := Some (key, token, p);
           speaking := true;
           prepared := if preparedPlaying then None else prepared a;
           duration := duration a |} s).

(** The [onended] handler of the track being played. *)
Definition audioEnded (s : State) : State :=
  let a := audioSystem s in
  match current a with
  | Some (_, token, p) =>
      if Nat.eqb token (playToken a) then
        resolve p (setAudioSystem
                     {| playToken := playToken a; current := None;
                        speaking := false; prepared := prepared a;
                        duration := duration a |} s)
      else s
  | None => s
  end.

(** [walkToProduct(collection)] as the sequencer sees it: a walk still in
    flight has its promise resolved ([Aria.walkToPosition] does that first),
    and the new walk returns a fresh promise. *)
Definition walkToProduct (c : Collection) (s : State) : Js.PromiseId * State :=
  let s := act (WalkToProduct c) s in
  let (p, s) := newPromise s in
  let s := match walkInFlight s with
           | Some q => resolve q s
           | None => s
           end in
  (p, setWalkInFlight (Some p) s).

(** The avatar completes its walk (by arriving or by its safety timeout). *)
Definition walkCompletes (s : State) : State :=
  match walkInFlight s with
  | Some q => setWalkInFlight None (resolve q s)
  | None => s
  end.

Fixpoint replaceAt {A : Type} (n : nat) (a : A) (l : list A) : list A :=
  match l, n with
  | [], _ => []
  | _ :: t, O => a :: t
  | h :: t, S m => h :: replaceAt m a t
  end.

(** [createCinematicState()]: a new object, and the reference to it. *)
Definition createCinematicState (s : State) : nat * State :=
  let (p, s) := newPromise s in
  (length (cinematics s),
   setCinematics (cinematics s ++ [{| cancelled := false; reason := None;
                                      promise := p |}]) s).

Definition cancelActiveCinematic (why : Reason) (s : State) : State :=
  match cinematicState (globals s) with
  | None => s
  | Some ref =>
      match nth_error (cinematics s) ref with
      | None => s
      | Some cs =>
          if cancelled cs then s
          else
            let s := setCinematics
                       (replaceAt ref {| cancelled := true;
                                         reason := Some why;
                                         promise := promise cs |}
                                  (cinematics s)) s in
            let s := setAudioSystem (audioStop (audioSystem s)) s in
            let s := withCamera Camera.stopTour s in
            let s := act HideSubtitle s in
            let s := act (ShowStopCinematic false) s in
            resolve (promise cs) s
      end
  end.

(** The three calls that follow [cancelActiveCinematic('switch')] in
    [requestCollection] and in [handleCollectionSelect]. *)
Definition cancelCameraWork (s : State) : State :=
  let s := withCamera Camera.cancelTransition s in
  let s := withCamera Camera.stopTour s in
  withCamera Camera.disableOrbitMode s.

(** [skipIntro()]; [None] when it returns without a promise. *)
Definition skipIntro (s : State) : option Js.PromiseId * State :=
  match introState (globals s) with
  | None => (None, s)
  | Some i =>
      if introCancelled i then (None, s)
      else
        let s := fold_left
                   (fun s hook =>
                      resolve (snd hook)
                              (withCamera (Camera.clearTimeout (fst hook)) s))
                   (cancelHooks i) s in
        let s := resolve (skipPromise i) s in
        let s := setAudioSystem (audioStop (audioSystem s)) s in
        let s := withCamera Camera.cancelTransition s in
        let (p, c) := Camera.transitionTo Camera.custom 1.4
                                           (cameraController s) in
        let s := setCameraController c s in
        let s := act ShowCollectionButtons s in
        let s := act (SetUILocked false) s in
        let s := act (ShowSkipIntro false) s in
        (Some p, withGlobals (setIntroState None) s)
  end.

Definition suspend (r : Parsed) (requestId : nat) (a : Await) (s : State)
  : State :=
  setTask (Some {| t_request := r; t_requestId := requestId; t_await := a |}) s.

Definition isActiveRequest (requestId : nat) (s : State) : bool :=
  Nat.eqb requestId (collectionRequestId (globals s)).

(** [handleCollectionSelect] from its entry to its first [await]. *)
Definition handleCollectionSelect (r : Parsed) (requestId : nat) (s : State)
  : State :=
  let s := cancelActiveCinematic switch s in
  let s := cancelCameraWork s in
  if negb (isActiveRequest requestId s) then suspend r requestId Returned s
  else
    let s := withGlobals (setCurrentCollection (collection r)) s in
    let s := act (SetCurrentProduct (collection r)) s in
    let s := act HideCollectionButtons s in
    let s := act HideInteractHint s in
    let s := act HideProductPanel s in
    let s := withGlobals (setAllowProductOrbit false) s in
    let s := setAudioSystem
               (prepareMoment (collezione (collection r)) (audioSystem s)) s in
    let (p, s) := delay s in
    suspend r requestId (AwaitPrepare p) s.

(** [requestCollection] when the lock is free, up to its first [await]. *)
Definition startRequest (r : Parsed) (s : State) : State :=
  let s := withGlobals (setCollectionRequestLock true) s in
  let s := withGlobals
             (fun g => setCollectionRequestId (collectionRequestId g + 1) g) s in
  let requestId := collectionRequestId (globals s) in
  match introState (globals s) with
  | Some i =>
      if negb (introCancelled i) then
        match skipIntro s with
        | (Some p, s) => suspend r requestId (AwaitSkip p) s
        | (None, s) =>
            let (p, s) := delay s in
            suspend r requestId (AwaitSkipDelay p) s
        end
      else handleCollectionSelect r requestId s
  | None => handleCollectionSelect r requestId s
  end.

(** [requestCollection(input, source)]; [input] is [None] when the name is
    not one of [VALID_COLLECTIONS]. *)
Definition requestCollection (input : option Collection) (src : Source)
  (s : State) : State :=
  match input with
  | None => s
  | Some c =>
      let parsed := {| collection := c; source := src |} in
      if collectionRequestLock (globals s) then
        let s := withGlobals (setPendingCollectionRequest (Some parsed)) s in
        let s := withGlobals
                   (fun g => setCollectionRequestId
                               (collectionRequestId g + 1) g) s in
        let s := cancelActiveCinematic switch s in
        cancelCameraWork s
      else startRequest parsed s
  end.

(** The [finally] block of [requestCollection]. *)
Definition finishRequest (s : State) : State :=
  let s := setTask None s in
  let s := withGlobals (setCollectionRequestLock false) s in
  match pendingCollectionRequest (globals s) with
  | Some next =>
      let s := withGlobals (setPendingCollectionRequest None) s in
      requestCollection (Some (collection next)) (source next) s
  | None => s
  end.

(** The cinematic duration requested by line 616-618. *)
Definition cinematicDuration (c : Collection) (a : AudioSystem) : R :=
  Rmax 8 (match duration a (collezione c) with Some d => d | None => 12 end).

(** The coroutine resumes after the [await] it was suspended at and runs to
    its next [await]. *)
Definition resume (t : Task) (s : State) : State :=
  let r := t_request t in
  let c := collection r in
  let requestId := t_requestId t in
  let returned := suspend r requestId Returned in
  match t_await t with
  | AwaitSkip _ | AwaitSkipDelay _ => handleCollectionSelect r requestId s
  | AwaitPrepare _ =>
      if negb (isActiveRequest requestId s) then returned s
      else
        let (walkPromise, s) := walkToProduct c s in
        let (p, s) := delay s in
        suspend r requestId (AwaitFollowDelay p walkPromise) s
  | AwaitFollowDelay _ walkPromise =>
      if negb (isActiveRequest requestId s) then returned s
      else
        let s := withCamera (Camera.followARIA true) s in
        suspend r requestId (AwaitWalk walkPromise) s
  | AwaitWalk _ =>
      if negb (isActiveRequest requestId s) then returned s
      else
        let s := withCamera (Camera.followARIA false) s in
        let (p, cam) := Camera.transitionTo Camera.product_with_aria 1.5
                                             (cameraController s) in
        let s := act (ActivateProductSpotlight c) (setCameraController cam s) in
        suspend r requestId (AwaitProductShot p) s
  | AwaitProductShot _ =>
      if negb (isActiveRequest requestId s) then returned s
      else
        let s := act (UpdateProductInfo c) s in
        let s := act (ShowSubtitle c) s in
        let shouldMuteVoice := match source r with
                               | voice => true
                               | ui => false
                               end in
        let s := if shouldMuteVoice then act VoiceMute s else s in
        let (localCinematicState, s) := createCinematicState s in
        let s := withGlobals (setCinematicState (Some localCinematicState)) s in
        let s := act (ShowStopCinematic true) s in
        let (audioPromise, s) := playMoment (collezione c) s in
        let d := cinematicDuration c (audioSystem s) in
        let (cinematicPromise, cam) :=
          Camera.playProductCinematic (Some d) None (cameraController s) in
        let s := setCameraController cam s in
        suspend r requestId
                (AwaitCinematic audioPromise cinematicPromise
                                localCinematicState shouldMuteVoice) s
  | AwaitCinematic _ _ localCinematicState shouldMuteVoice =>
      let s := if shouldMuteVoice then act VoiceUnmute s else s in
      if negb (isActiveRequest requestId s) then returned s
      else
        let forget (s : State) :=
          match cinematicState (globals s) with
          | Some ref => if Nat.eqb ref localCinematicState
                        then withGlobals (setCinematicState None) s else s
          | None => s
          end in
        let cs := nth_error (cinematics s) localCinematicState in
        let isCancelled := match cs with
                           | Some k => cancelled k
                           | None => false
                           end in
        let why := match cs with Some k => reason k | None => None end in
        let cancelledByUser := isCancelled && match why with
                                              | Some user => true
                                              | _ => false
                                              end in
        if isCancelled && match why with Some switch => true | _ => false end
        then returned (forget (act (ShowStopCinematic false) s))
        else
          let s := forget (act (ShowStopCinematic false) s) in
          let s := act HideSubtitle s in
          if negb (isActiveRequest requestId s) then returned s
          else
            let frameDuration := if cancelledByUser then 0.9 else 1.4 in
            let (p, cam) := Camera.frameAriaAndProduct (Some frameDuration)
                                                       (cameraController s) in
            suspend r requestId (AwaitFraming p) (setCameraController cam s)
  | AwaitFraming _ =>
      if negb (isActiveRequest requestId s) then returned s
      else
        let s := act ShowProductPanel s in
        let s := act ShowInteractHint s in
        returned (withGlobals (setAllowProductOrbit true) s)
  | Returned => finishRequest s
  end.

(** Whether the promise the coroutine awaits is settled. *)
Definition ready (t : Task) (s : State) : bool :=
  match t_await t with
  | AwaitSkip p | AwaitSkipDelay p | AwaitPrepare p | AwaitFollowDelay p _
  | AwaitWalk p | AwaitProductShot p | AwaitFraming p => settled p s
  | AwaitCinematic audioPromise cinematicPromise localCinematicState _ =>
      (settled audioPromise s && settled cinematicPromise s)
      || match nth_error (cinematics s) localCinematicState with
         | Some k => settled (promise k) s
         | None => false
         end
  | Returned => true
  end.

(** The microtask queue: as long as the coroutine can continue, it does. *)
Fixpoint drain (budget : nat) (s : State) : State :=
  match budget with
  | O => s
  | S n =>
      match task s with
      | Some t => if ready t s then drain n (resume t s) else s
      | None => s
      end
  end.

(** One coroutine passes through at most nine suspension points and one
    [finally] block, which may start the pending request. *)
Definition microtaskBudget : nat := 24.

(** What reaches the sequencer from outside. *)
Inductive Event :=
| Request (input : option Collection) (src : Source)
| StopCinematicClick
| TimerFires (h : Js.TimerId)
| TweenCompletes (i : Camera.TweenId)
| Frame (delta : R)
| AudioEnded
| WalkCompletes.

Definition handle (e : Event) (s : State) : State :=
  match e with
  | Request input src => requestCollection input src s
  | StopCinematicClick => cancelActiveCinematic user s
  | TimerFires h => withCamera (Camera.fireTimer h) s
  | TweenCompletes i => withCamera (Camera.completeTween i) s
  | Frame delta => withCamera (Camera.update delta) s
  | AudioEnded => audioEnded s
  | WalkCompletes => walkCompletes s
  end.

Definition step (s : State) (e : Event) : State :=
  drain microtaskBudget (handle e s).

Definition run (s : State) (es : list Event) : State := fold_left step es s.

(** The state once [init] has run and the intro is over: nothing selected
    yet, no request in flight. *)
Definition initial (gsapDefined : bool) (durations : Track -> option R)
  : State :=
  {| globals := {| currentCollection := elegance; allowProductOrbit := false;
                   introState := None; collectionRequestLock := false;
                   collectionRequestId := 0%nat;
                   pendingCollectionRequest := None;
                   cinematicState := None |};
     cameraController := Camera.initial gsapDefined;
     audioSystem := {| playToken := 0%nat; current := None; speaking := false;
                       prepared := None; duration := durations |};
     walkInFlight := None;
     cinematics := [];
     trace := [];
     task := None |}.

(** The number of times a workflow ran to its end, that is, revealed the
    product panel. *)
Definition completedWorkflows (s : State) : nat :=
  length (filter (fun a => match a with ShowProductPanel => true | _ => false end)
                 (trace s)).

(** *** Vocabulary of the statements about a request that cannot continue *)

(** The promise a coroutine waits for, when it waits for a camera
    transition. *)
Definition awaitedTransition (t : Task) : option Js.PromiseId :=
  match t_await t with
  | AwaitSkip p | AwaitProductShot p | AwaitFraming p => Some p
  | _ => None
  end.

(** The lock is held by a coroutine that awaits the promise [p] of a camera
    transition, [p] is not settled, and nothing that is left can settle it. *)
Definition hung (p : Js.PromiseId) (s : State) : bool :=
  collectionRequestLock (globals s)
  && match task s with
     | Some t => match awaitedTransition t with
                 | Some q => Nat.eqb q p
                 | None => false
                 end
     | None => false
     end
  && negb (settled p s)
  && Camera.orphaned p (cameraController s)
  && match current (audioSystem s) with
     | Some (_, _, q) => negb (Nat.eqb q p)
     | None => true
     end
  && match walkInFlight s with
     | Some q => negb (Nat.eqb q p)
     | None => true
     end
  && forallb (fun k => negb (Nat.eqb (promise k) p)) (cinematics s).

(** No coroutine is waiting on a promise that is already settled: the
    microtask queue has been emptied. *)
Definition quiescent (s : State) : bool :=
  match task s with
  | Some t => negb (ready t s)
  | None => true
  end.

(** The number of workflows that got as far as selecting their product. *)
Definition startedWorkflows (s : State) : nat :=
  length (filter (fun a => match a with SetCurrentProduct _ => true | _ => false end)
                 (trace s)).

(** The sequencer is stuck: the coroutine of a request holds the lock and
    cannot continue, and a later request is waiting in the pending slot.
    [a] is the current collection, [n] the number of workflows that have
    started; none has completed. *)
Definition stuck (p : Js.PromiseId) (a : Collection) (n : nat) (s : State)
  : Prop :=
  hung p s = true /\
  currentCollection (globals s) = a /\
  startedWorkflows s = n /\
  completedWorkflows s = 0%nat /\
  pendingCollectionRequest (globals s) <> None.

(** The state while the first shot of the intro plays: [startExperience] has
    locked the UI, created the intro state, shown the skip button and started
    the opening narration, and [playIntroSequence] awaits its first
    transition ([hideIntro] and [showOverlay] only touch the page).  After a
    skip neither coroutine has any further effect: [startExperience] finds
    the intro state gone and returns, [playIntroSequence] is not resumed. *)
Definition introPlaying (gsapDefined : bool) (durations : Track -> option R)
  : State :=
  let s := initial gsapDefined durations in
  let s := act (SetUILocked true) s in
  let (sp, s) := newPromise s in
  let s := withGlobals
             (setIntroState (Some {| introCancelled := false;
                                     cancelHooks := [];
                                     skipPromise := sp |})) s in
  let s := act (ShowSkipIntro true) s in
  let (_, s) := playMoment apertura s in
  let (_, cam) := Camera.transitionTo Camera.custom 5.5 (cameraController s) in
  setCameraController cam s.

(** Three requests one after the other, with nothing in between. *)
Definition rapidBurst (a b c : Collection) (src : Source) : list Event :=
  [Request (Some a) src; Request (Some b) src; Request (Some c) src].

(** A later burst: the request for [a] runs until its product shot is in
    flight (the 300 ms delay, the 500 ms delay and the walk have completed),
    then the requests for [b] and for [c] arrive. *)
Definition burst (a b c : Collection) (src : Source) : list Event :=
  [Request (Some a) src; TimerFires 0%nat; TimerFires 1%nat; WalkCompletes;
   Request (Some b) src; Request (Some c) src].

(** An operation of the sequencer leaves a stuck sequencer stuck. *)
Definition stays (p : Js.PromiseId) (a : Collection) (n : nat)
  (f : State -> State) : Prop :=
  forall s, stuck p a n s -> stuck p a n (f s).

End Main.

(** ** The angle a turn of the avatar has left, [dampRotation] of
       [src/js/aria.js] (lines 269-289) *)

Module Turning.

Import Three JsMath Aria.

(** The signed angle [dampRotation] works with: [diff] after its two
    [while] loops. *)
Definition turn (current target : R) : R :=
  wrapUp (wrapDown (target - current)).

(** The parameters of a call: [speed] positive and [dt] a frame step, that
    is, positive and at most 0.05 (what [frameDelta] produces). *)
Definition frameCall (call : R * R) : Prop :=
  0 < fst call /\ 0 < snd call <= 0.05.

End Turning.

(** ** The ranges the avatar keeps its height, its walk progress and its
       light within *)

Module Envelope.

Import Three JsMath Aria.

(** The avatar stays near the floor: no lower than the idle breathing
    amplitude below it, no higher than the bob of a stride above it. *)
Definition heightOk (s : State) : Prop :=
  match ariaGroup (scene s) with
  | Some g => - idleBreath <= y (position g) <= bobAmplitude
  | None => True
  end.

(** The walk clock does not run backwards and the progress is a fraction. *)
Definition progressOk (s : State) : Prop :=
  0 <= walkElapsed (motion s) /\ 0 <= walkProgress (motion s) <= 1.

(** The smoothed light level stays between its resting value and the peak
    of the speaking pulse, and the highlight is three times that. *)
Definition lightOk (s : State) : Prop :=
  1 <= lightIntensity (light s) <= 2.3 /\
  match highlightLight (scene s) with
  | Some i => 3 <= i <= 6.9
  | None => True
  end.

Definition envelope (s : State) : Prop := heightOk s /\ progressOk s /\ lightOk s.

(** What a per-state update does to what the envelopes read: it places the avatar
    within the height envelope, keeps the walk clock and the progress
    within theirs, and leaves the light alone. *)
Definition updatesWithin (s s' : State) : Prop :=
  heightOk s' /\ progressOk s' /\
  lightIntensity (light s') = lightIntensity (light s) /\
  highlightLight (scene s') = highlightLight (scene s) /\
  isSpeakingState (light s') = isSpeakingState (light s).

End Envelope.

(** ** Walks under way *)

Module Walks.

Import Three JsMath Aria.

(** An event other than a call of [walkToPosition]. *)
Definition notWalkTo (e : Event) : Prop :=
  match e with
  | WalkTo _ => False
  | _ => True
  end.

(** The closure of the current walk request for promise [p]. *)
Definition currentClosure (p : Js.PromiseId) (s : State) : WalkResolve :=
  {| wr_requestId := walkRequestId (completion s); wr_promise := p |}.

(** Smoothstep, the easing [updateWalking] applies to the progress. *)
Definition eased (t : R) : R := t * t * (3 - 2 * t).

(** A loaded avatar in its walking state, the walk clock at one second of a
    walk of 3.6 s from [(0,0,2)] to [(0,0,5)]. *)
Definition midWalk : State :=
  {| scene := {| ariaGroup := Some {| position := vec 0 0 3;
                                      rotation := {| ex := 0; ey := 0; ez := 0 |} |};
                 ariaModel := {| ex := 0; ey := 0; ez := 0 |};
                 mixer := Some 0; highlightLight := Some 3;
                 spotLight := Some (vec 0 0 0) |};
     motion := {| ariaState := walking; targetRotation := 0;
                  walkProgress := 1 / 3.6; walkStartPos := vec 0 0 2;
                  walkEndPos := vec 0 0 5; walkDuration := 3.6;
                  walkElapsed := 1; stepPhase := 0; lastUpdateTime := 0 |};
     light := light initial;
     completion := completion initial;
     runtime := runtime initial |}.

End Walks.

(** ** Series of frames: the calls of [updateARIA] (lines 246-267 of
       [src/js/aria.js]) and the time steps they apply *)

Module Frames.

Import Three JsMath Aria.

(** The arguments of one call of [updateARIA]: the elapsed time, the
    position of the camera and whether the assistant is speaking. *)
Record Frame := {
  f_elapsed : R;
  f_cameraPosition : Vector3;
  f_isSpeaking : bool
}.

Definition frame (f : Frame) : Event :=
  Update (f_elapsed f) (f_cameraPosition f) (f_isSpeaking f).

(** The time steps [updateARIA] applies over a series of calls on a loaded
    avatar: [lastUpdateTime] is the elapsed time of the call before. *)
Fixpoint frameSteps (lastUpdate : R) (fs : list Frame) : list R :=
  match fs with
  | [] => []
  | f :: rest =>
      frameDelta (f_elapsed f) lastUpdate :: frameSteps (f_elapsed f) rest
  end.

(** How far a series of calls advances the clock of the state machine. *)
Definition clockAdvance (s : State) (fs : list Frame) : R :=
  totalTime (frameSteps (lastUpdateTime (motion s)) fs).

(** [n] calls at regular intervals [dt], the first at [dt], with the camera
    at its start position and nobody speaking. *)
Definition evenFrames (dt : R) (n : nat) : list Frame :=
  map (fun k => {| f_elapsed := dt * INR k;
                   f_cameraPosition := vec 0 1.5 6;
                   f_isSpeaking := false |})
      (seq 1 n).

(** The walk has just ended at [p]: the avatar stands at [p] without lean or
    sway in the state [turning_to_camera], with progress 1, and the walk
    clock has reached the duration [D] within the last frame. *)
Definition arrivedAt (p : Vector3) (D : R) (s : State) : Prop :=
  getARIAPosition s = p /\
  ariaState (motion s) = turning_to_camera /\
  walkProgress (motion s) = 1 /\
  D <= walkElapsed (motion s) < D + 0.05 /\
  exists g, ariaGroup (scene s) = Some g /\
            ex (rotation g) = 0 /\ ez (rotation g) = 0.

(** The example walk is under way and the avatar has not reached
    [(0,0,-5)]: it is still turning toward the target, or walking. *)
Definition enRoute (s : State) : Prop :=
  exists g,
    ariaGroup (scene s) = Some g /\
    walkStartPos (motion s) = vec 0 0 2 /\
    walkEndPos (motion s) = vec 0 0 (-5) /\
    walkDuration (motion s) = 70 / 11 /\
    -5 < z (position g) /\
    0 <= walkElapsed (motion s) /\
    (ariaState (motion s) = turning_to_target \/
     ariaState (motion s) = walking).

End Frames.

(** ** The mode flags of the camera and the promises it has not handed
       out yet *)

Module CameraModes.

Import JsMath Camera.

(** Promise [p] is untouched: no closure stored in the controller, in a live
    tween or in an armed timer could resolve it, and it has not been
    resolved. *)
Definition untouched (p : Js.PromiseId) (s : State) : bool :=
  negb (holds p (onTourComplete (controller s)))
  && negb (holds p (transitionResolve (controller s)))
  && forallb (fun t => negb (holds p (tw_onComplete (snd t))))
             (tweens (runtime s))
  && forallb (fun t => negb (mentions p (snd t))) (timers (runtime s))
  && Nat.eqb (resolveCount p s) 0.

(** The promises that have not been handed out yet are untouched. *)
Definition fresh (s : State) : Prop :=
  forall p, (nextPromise (runtime s) <= p)%nat -> untouched p s = true.

(** An operation that hands out no promise and leaves an untouched promise
    untouched. *)
Definition spares (f : State -> State) : Prop :=
  forall s, nextPromise (runtime (f s)) = nextPromise (runtime s) /\
            forall p, untouched p s = true -> untouched p (f s) = true.

(** The mode flags fit together: the orbit controls are enabled exactly in
    orbit mode, in orbit mode the camera neither follows the avatar nor is
    in a transition, and a transition in progress has its [finish] stored. *)
Definition modesOk (s : State) : Prop :=
  let c := controller s in
  controlsEnabled c = isOrbiting c /\
  (isOrbiting c = true ->
   isFollowingARIA c = false /\ isTransitioning c = false) /\
  (isTransitioning c = true -> transitionResolve c <> None).

(** The handles of the live tweens and of the armed timers have been handed
    out already. *)
Definition idsOk (s : State) : Prop :=
  Forall (fun t => (fst t < nextTween (runtime s))%nat) (tweens (runtime s)) /\
  Forall (fun t => (fst t < nextTimer (runtime s))%nat) (timers (runtime s)).

(** [transitionResolve] only ever holds a [finish] closure. *)
Definition finishOnly (s : State) : Prop :=
  match transitionResolve (controller s) with
  | Some (Finish _) | None => True
  | Some _ => False
  end.

(** Both invariants of the stored closures and of the handles. *)
Definition steady (s : State) : Prop := finishOnly s /\ idsOk s.

(** A non-looping tour under way for promise [p]: [t] is its clock, [d] its
    duration; the stored completion closure resolves [p], nothing else
    could, and [p] has not been resolved. *)
Definition touring (p : Js.PromiseId) (inner : option nat) (t d : R)
  (s : State) : Prop :=
  isOrbiting (controller s) = false /\
  isTouring (controller s) = true /\
  tourPath (controller s) = true /\
  tourLoop (controller s) = false /\
  tourTime (controller s) = t /\
  tourDuration (controller s) = d /\
  onTourComplete (controller s) = Some (PlayTourComplete inner p) /\
  (p < nextPromise (runtime s))%nat /\
  untouched p (withController (setOnTourComplete None) s) = true.

(** The event that ends the animation of a transition started in state [s]:
    the timer of a [return_start] transition fires, the tween of any other
    transition completes. *)
Definition animationEnds (type : TransitionType) (s : State) : Event :=
  match type with
  | return_start => TimerFires (nextTimer (runtime s))
  | _ => TweenCompletes (nextTween (runtime s))
  end.

End CameraModes.

(** ** Where the avatar and the camera are sent for a product:
       [walkToProduct] of [src/js/aria.js] (lines 213-244), the
       ['product_with_aria'] branch of [CameraController.transitionTo]
       (lines 289-312 of [src/unnamed/part_001]) and the helpers of
       [src/js/product.js] they read

    The collection name is one of the three names of [VALID_COLLECTIONS]
    (the sequencer validates it before these functions are called); what
    [getProductBounds] returns for it is an argument, [None] for [null]. *)

Module Staging.

Import Three JsMath Cinematic.

(** [PRODUCT_POSITIONS], the same table in [aria.js] and [product.js]. *)
Definition PRODUCT_POSITIONS (c : Main.Collection) : Vector3 :=
  match c with
  | Main.elegance => vec (-6) 0 (-5)
  | Main.minimal => vec 0 0 (-5)
  | Main.luxury => vec 6 0 (-5)
  end.

Definition getProductPosition (c : Main.Collection) : Vector3 :=
  PRODUCT_POSITIONS c.

(** [getProductFocusPosition(name)]. *)
Definition getProductFocusPosition (bounds : option Bounds)
  (c : Main.Collection) : Vector3 :=
  match bounds with
  | Some b => setY (center b) (Rmax 0.5 (y (center b)))
  | None => let base := getProductPosition c in setY base (y base + 0.5)
  end.

(** [v.length()], [v.add(w)], [v.multiplyScalar(k)]. *)
Definition length (v : Vector3) : R := sqrt (x v * x v + y v * y v + z v * z v).
Definition add (v w : Vector3) : Vector3 :=
  vec (x v + x w) (y v + y w) (z v + z w).
Definition multiplyScalar (v : Vector3) (k : R) : Vector3 :=
  vec (x v * k) (y v * k) (z v * k).

(** [v.normalize()], which is [v.divideScalar(v.length() || 1)], and
    [v.setLength(l)], which is [v.normalize().multiplyScalar(l)]. *)
Definition normalize (v : Vector3) : Vector3 :=
  let n := if Req_EM_T (length v) 0 then 1 else length v in
  multiplyScalar v (1 / n).
Definition setLength (v : Vector3) (l : R) : Vector3 :=
  multiplyScalar (normalize v) l.

(** The radius [walkToProduct] works with. *)
Definition walkRadius (bounds : option Bounds) : R :=
  match bounds with Some b => radius b | None => 1.6 end.

Definition clearance : R := 1.1.

(** The centre the avatar keeps away from: [productPos]. *)
Definition productPos (c : Main.Collection) (bounds : option Bounds) : Vector3 :=
  match bounds with Some b => center b | None => PRODUCT_POSITIONS c end.

(** [targetPos] before the distance check: in front of the nominal
    position of the product, to its side for the two outer ones. *)
Definition approachPoint (c : Main.Collection) (bounds : option Bounds)
  : Vector3 :=
  let targetBase := PRODUCT_POSITIONS c in
  let radius := walkRadius bounds in
  let frontOffset := Rmax 1.6 (radius + clearance) in
  let sideOffset := Rmin 1.6 (Rmax 0.9 (radius * 0.35)) in
  match c with
  | Main.minimal =>
      vec (x targetBase + 0) (y targetBase) (z targetBase + frontOffset)
  | Main.luxury =>
      vec (x targetBase - sideOffset) (y targetBase) (z targetBase + frontOffset)
  | Main.elegance =>
      vec (x targetBase + sideOffset) (y targetBase) (z targetBase + frontOffset)
  end.

(** The position [walkToProduct] passes to [walkToPosition]. *)
Definition walkTarget (c : Main.Collection) (bounds : option Bounds)
  : Vector3 :=
  let targetPos := approachPoint c bounds in
  let product := productPos c bounds in
  let offset := setY (subVectors targetPos product) 0 in
  let minDistance := walkRadius bounds + clearance in
  if ltb (length offset) minDistance then
    let offset := setLength offset minDistance in
    setY (add product offset) 0
  else targetPos.

(** [walkToProduct(collectionName)]. *)
Definition walkToProduct (c : Main.Collection) (bounds : option Bounds)
  (s : Aria.State) : Js.PromiseId * Aria.State :=
  Aria.walkToPosition (walkTarget c bounds) s.

(** The distance of two points in the ground plane. *)
Definition groundDistance (a b : Vector3) : R :=
  sqrt ((x a - x b) * (x a - x b) + (z a - z b) * (z a - z b)).

(** The end of a ['product_with_aria'] transition: where the camera stops
    and what it looks at. *)
Record Shot := { finalPosition : Vector3; finalLookAt : Vector3 }.

Definition productShot (c : Main.Collection) (bounds : option Bounds) : Shot :=
  let productPos := match bounds with
                    | Some b => center b
                    | None => getProductPosition c
                    end in
  let productPos := setY productPos (Rmax 0.5 (y productPos)) in
  let radius := match bounds with Some b => radius b | None => 2.8 end in
  let lookLift := match bounds with
                  | Some b => Rmin 1.0 (Rmax 0.5 (y (size b) * 0.22))
                  | None => 0.8
                  end in
  let finalLookAt := setY productPos (y productPos + lookLift) in
  let distance := Rmax 4.6 (radius + 3.2) in
  let finalPosition := vec (x productPos) (Rmax 1.0 (y productPos + 0.6))
                           (z productPos + distance) in
  let sideShift := match bounds with
                   | Some b => Rmin 1.6 (Rmax 0.8 (radius * 0.35))
                   | None => 1.5
                   end in
  let finalPosition :=
    match c with
    | Main.elegance => vec (x finalPosition + sideShift) (y finalPosition)
                           (z finalPosition)
    | Main.luxury => vec (x finalPosition - sideShift) (y finalPosition)
                         (z finalPosition)
    | Main.minimal => finalPosition
    end in
  {| finalPosition := finalPosition; finalLookAt := finalLookAt |}.

End Staging.

(** ** The discipline of the request sequencer, and what the voice bar
       hears of it ([aria:voiceMute] and [aria:voiceUnmute], lines 202-210 of
       [src/js/voice-assistant.js]) *)

Module Sequencing.

Import JsMath Main.

(** The intro is playing: [introState && !introState.cancelled]. *)
Definition introActive (s : State) : bool :=
  match introState (globals s) with
  | Some i => negb (introCancelled i)
  | None => false
  end.

(** A request is being worked on: its coroutine exists and
    [handleCollectionSelect] has not returned yet. *)
Definition working (s : State) : bool :=
  match task s with
  | Some t => match t_await t with Returned => false | _ => true end
  | None => false
  end.

Definition isSome {A : Type} (o : option A) : bool :=
  match o with Some _ => true | None => false end.

(** [speaking] is set exactly while a track is the current one. *)
Definition audioOk (a : AudioSystem) : Prop :=
  speaking a = isSome (current a).

(** The discipline of the single-flight lock and of the flags around it. *)
Definition orderly (s : State) : Prop :=
  collectionRequestLock (globals s) = isSome (task s) /\
  (isSome (pendingCollectionRequest (globals s)) = true ->
   collectionRequestLock (globals s) = true) /\
  (allowProductOrbit (globals s) = true -> working s = false) /\
  (introActive s = true ->
   task s = None /\ allowProductOrbit (globals s) = false) /\
  audioOk (audioSystem s).

(** What [orderly] reads of a state. *)
Definition view (s : State) : Globals * option Task * AudioSystem :=
  (globals s, task s, audioSystem s).

(** [outputVolume] of the voice bar after the actions of a trace (the latest
    comes first): 1 at first, 0 after [aria:voiceMute], 1 after
    [aria:voiceUnmute]. *)
Fixpoint outputVolume (l : list Action) : R :=
  match l with
  | [] => 1
  | VoiceMute :: _ => 0
  | VoiceUnmute :: _ => 1
  | _ :: rest => outputVolume rest
  end.

(** The coroutine awaits the cinematic of a spoken request. *)
Definition cinematicMuted (s : State) : bool :=
  match task s with
  | Some t => match t_await t with
              | AwaitCinematic _ _ _ true => true
              | _ => false
              end
  | None => false
  end.

(** 1 while the coroutine is between selecting its product and revealing the
    product panel. *)
Definition pastSelection (s : State) : nat :=
  match task s with
  | Some t => match t_await t with
              | AwaitSkip _ | AwaitSkipDelay _ | Returned => 0
              | _ => 1
              end
  | None => 0
  end.

Definition accounted (s : State) : Prop :=
  outputVolume (trace s) = (if cinematicMuted s then 0 else 1) /\
  (completedWorkflows s + pastSelection s <= startedWorkflows s)%nat.

(** What [accounted] reads of the trace. *)
Definition tally (s : State) : R * nat * nat :=
  (outputVolume (trace s), startedWorkflows s, completedWorkflows s).

End Sequencing.

(** ** The commands of the voice bar, [dispatchCollection] of
       [src/js/voice-assistant.js] (lines 70-79) *)

Module Voice.

Import Main.

(** [lastCommandAt] (a [Date.now()] value, in milliseconds) and
    [lastCommandCollection] of the voice bar. *)
Record Commands := {
  lastCommandAt : Z;
  lastCommandCollection : option Collection
}.

Definition noCommand : Commands :=
  {| lastCommandAt := 0%Z; lastCommandCollection := None |}.

(** [dispatchCollection(collection)] when [Date.now()] is [now]: whether the
    [aria:collectionSelect] event is dispatched, and the two variables
    afterwards. *)
Definition dispatchCollection (collection : option Collection) (now : Z)
  (v : Commands) : bool * Commands :=
  match collection with
  | None => (false, v)
  | Some c =>
      if match lastCommandCollection v with
         | Some l => sameCollection c l
         | None => false
         end && (now - lastCommandAt v <? 2500)%Z
      then (false, v)
      else (true, {| lastCommandAt := now; lastCommandCollection := Some c |})
  end.

(** The commands dispatched by a series of calls, each with its time. *)
Fixpoint dispatched (calls : list (option Collection * Z)) (v : Commands)
  : list (Collection * Z) :=
  match calls with
  | [] => []
  | (collection, now) :: rest =>
      let (sent, v') := dispatchCollection collection now v in
      match collection, sent with
      | Some c, true => (c, now) :: dispatched rest v'
      | _, _ => dispatched rest v'
      end
  end.

(** Two commands in a row for the same collection are 2500 ms apart or
    more. *)
Fixpoint spaced (l : list (Collection * Z)) : Prop :=
  match l with
  | a :: (b :: _) as rest =>
      (fst a = fst b -> (2500 <= snd b - snd a)%Z) /\ spaced rest
  | _ => True
  end.

End Voice.


(** * Properties *)

(** ** Facts about the runtime notions and the numbers *)

Module JsFacts.

Import JsMath.

Lemma resolveCount_cons (p q : Js.PromiseId) (log : list Js.PromiseId) :
  Js.resolveCount p (q :: log) =
    if Nat.eq_dec q p then S (Js.resolveCount p log) else Js.resolveCount p log.
Proof. unfold Js.resolveCount; simpl; destruct (Nat.eq_dec q p); reflexivity. Qed.

Lemma resolveCount_same (p : Js.PromiseId) (log : list Js.PromiseId) :
  Js.resolveCount p (p :: log) = S (Js.resolveCount p log).
Proof. rewrite resolveCount_cons. destruct (Nat.eq_dec p p); congruence. Qed.

Lemma resolveCount_other (p q : Js.PromiseId) (log : list Js.PromiseId) :
  q <> p -> Js.resolveCount p (q :: log) = Js.resolveCount p log.
Proof. intros H. rewrite resolveCount_cons. destruct (Nat.eq_dec q p); congruence. Qed.

Lemma settled_resolveCount (p : Js.PromiseId) (log : list Js.PromiseId) :
  Js.settled p log = true <-> (0 < Js.resolveCount p log)%nat.
Proof.
  unfold Js.settled, Js.resolveCount. rewrite existsb_exists. split.
  - intros [q [Hin Heq]]. apply Nat.eqb_eq in Heq. subst q.
    apply (count_occ_In Nat.eq_dec); assumption.
  - intros H. exists p. split.
    + apply (count_occ_In Nat.eq_dec); assumption.
    + apply Nat.eqb_refl.
Qed.

Lemma ltb_true (a b : R) : a < b -> ltb a b = true.
Proof. intros H; unfold ltb; destruct (Rlt_dec a b); [reflexivity | contradiction]. Qed.

Lemma ltb_false (a b : R) : b <= a -> ltb a b = false.
Proof. intros H; unfold ltb; destruct (Rlt_dec a b); [lra | reflexivity]. Qed.

Lemma gtb_true (a b : R) : a > b -> gtb a b = true.
Proof. intros H; unfold gtb; destruct (Rgt_dec a b); [reflexivity | contradiction]. Qed.

Lemma gtb_false (a b : R) : a <= b -> gtb a b = false.
Proof. intros H; unfold gtb; destruct (Rgt_dec a b); [lra | reflexivity]. Qed.

Lemma geb_true (a b : R) : a >= b -> geb a b = true.
Proof. intros H; unfold geb; destruct (Rge_dec a b); [reflexivity | contradiction]. Qed.

Lemma geb_false (a b : R) : a < b -> geb a b = false.
Proof. intros H; unfold geb; destruct (Rge_dec a b); [lra | reflexivity]. Qed.

Lemma PI_gt_3 : 3 < PI.
Proof. pose proof PI2_3_2. lra. Qed.

Lemma atan2_zero_right (x : R) : 0 < x -> atan2 0 x = 0.
Proof.
  intros Hx. unfold atan2. destruct (Rlt_dec 0 x); [| contradiction].
  replace (0 / x) with 0 by (unfold Rdiv; ring). apply atan_0.
Qed.

End JsFacts.

(** ** The avatar controller *)

Module AriaFacts.

Import Three JsMath Aria JsFacts.

(** *** The loops of [dampRotation] terminate within their budget *)

Lemma iterations_enough (d : R) : Rabs d < PI * 2 * INR (iterations d).
Proof.
  unfold iterations.
  pose proof PI_gt_3 as Hpi.
  set (q := Rabs d / (PI * 2)).
  destruct (archimed q) as [Hup _].
  assert (Hq : 0 <= q).
  { unfold q. apply Rmult_le_pos; [apply Rabs_pos |].
    left. apply Rinv_0_lt_compat. lra. }
  assert (Hz : (0 < up q)%Z) by (apply lt_IZR; lra).
  rewrite INR_IZR_INZ, Z2Nat.id by lia.
  assert (Hd : Rabs d = q * (PI * 2)) by (unfold q; field; lra).
  rewrite Hd. nra.
Qed.

Lemma wrapDownLoop_stable (n : nat) :
  forall (m : nat) (d : R),
    d <= PI + PI * 2 * INR n -> (n <= m)%nat ->
    wrapDownLoop m d = wrapDownLoop n d.
Proof.
  induction n as [| n IH]; intros m d Hd Hle.
  - simpl in Hd. destruct m as [| m]; simpl; [reflexivity |].
    destruct (Rgt_dec d PI); [lra | reflexivity].
  - destruct m as [| m]; [lia |]. simpl.
    destruct (Rgt_dec d PI); [| reflexivity].
    apply IH; [| lia]. rewrite S_INR in Hd. lra.
Qed.

Lemma wrapUpLoop_stable (n : nat) :
  forall (m : nat) (d : R),
    - PI - PI * 2 * INR n <= d -> (n <= m)%nat ->
    wrapUpLoop m d = wrapUpLoop n d.
Proof.
  induction n as [| n IH]; intros m d Hd Hle.
  - simpl in Hd. destruct m as [| m]; simpl; [reflexivity |].
    destruct (Rlt_dec d (- PI)); [lra | reflexivity].
  - destruct m as [| m]; [lia |]. simpl.
    destruct (Rlt_dec d (- PI)); [| reflexivity].
    apply IH; [| lia]. rewrite S_INR in Hd. lra.
Qed.

(** [wrapDown] is the loop [while (diff > Math.PI) diff -= Math.PI * 2]. *)
Lemma wrapDown_unfold (d : R) :
  wrapDown d = if Rgt_dec d PI then wrapDown (d - PI * 2) else d.
Proof.
  unfold wrapDown. pose proof PI_gt_3 as Hpi.
  pose proof (iterations_enough d) as Hd.
  pose proof (iterations_enough (d - PI * 2)) as Hd'.
  destruct (Rgt_dec d PI) as [Hgt | Hle].
  - destruct (iterations d) as [| n] eqn:En.
    + simpl in Hd. pose proof (Rabs_pos d). lra.
    + simpl. destruct (Rgt_dec d PI); [| contradiction].
      rewrite S_INR in Hd. pose proof (Rle_abs d).
      pose proof (Rle_abs (d - PI * 2)).
      destruct (Nat.le_ge_cases n (iterations (d - PI * 2))) as [Hc | Hc].
      * symmetry. apply wrapDownLoop_stable; [lra | exact Hc].
      * apply wrapDownLoop_stable; [lra | exact Hc].
  - destruct (iterations d); simpl; [reflexivity |].
    destruct (Rgt_dec d PI); [contradiction | reflexivity].
Qed.

(** [wrapUp] is the loop [while (diff < -Math.PI) diff += Math.PI * 2]. *)
Lemma wrapUp_unfold (d : R) :
  wrapUp d = if Rlt_dec d (- PI) then wrapUp (d + PI * 2) else d.
Proof.
  unfold wrapUp. pose proof PI_gt_3 as Hpi.
  pose proof (iterations_enough d) as Hd.
  pose proof (iterations_enough (d + PI * 2)) as Hd'.
  destruct (Rlt_dec d (- PI)) as [Hlt | Hge].
  - destruct (iterations d) as [| n] eqn:En.
    + simpl in Hd. pose proof (Rabs_pos d). lra.
    + simpl. destruct (Rlt_dec d (- PI)); [| contradiction].
      rewrite S_INR in Hd.
      assert (- d <= Rabs d) by (rewrite <- Rabs_Ropp; apply Rle_abs).
      assert (- (d + PI * 2) <= Rabs (d + PI * 2))
        by (rewrite <- Rabs_Ropp; apply Rle_abs).
      destruct (Nat.le_ge_cases n (iterations (d + PI * 2))) as [Hc | Hc].
      * symmetry. apply wrapUpLoop_stable; [lra | exact Hc].
      * apply wrapUpLoop_stable; [lra | exact Hc].
  - destruct (iterations d); simpl; [reflexivity |].
    destruct (Rlt_dec d (- PI)); [contradiction | reflexivity].
Qed.

Lemma wrap_small (d : R) : Rabs d < ANGLE_TOLERANCE -> wrapUp (wrapDown d) = d.
Proof.
  intros H. unfold ANGLE_TOLERANCE in H. pose proof PI_gt_3.
  apply Rabs_def2 in H. destruct H as [H1 H2].
  rewrite wrapDown_unfold. destruct (Rgt_dec d PI); [lra |].
  rewrite wrapUp_unfold. destruct (Rlt_dec d (- PI)); [lra | reflexivity].
Qed.

Lemma dampRotation_within_tolerance (current target speed dt : R) :
  Rabs (target - current) < ANGLE_TOLERANCE ->
  dampRotation current target speed dt = {| value := target; finished := true |}.
Proof.
  intros H. unfold dampRotation. rewrite (wrap_small _ H).
  rewrite (ltb_true _ _ H). reflexivity.
Qed.

(** C7. Within the angular tolerance [dampRotation] is at its fixed point:
    whenever [|target - current| < 0.004] the call reports [finished = true]
    and returns [target]; fed back its own value it returns the same result
    again, and so does every later call of a sequence of repeated calls,
    whatever [speed] and [dt] they are given. *)
Theorem dampRotation_fixed_point :
  forall (current target speed dt : R),
    Rabs (target - current) < ANGLE_TOLERANCE ->
    let res := dampRotation current target speed dt in
    finished res = true /\
    value res = target /\
    (forall speed' dt', dampRotation (value res) target speed' dt' = res) /\
    (forall call calls,
        dampRepeatedly (value res) target call calls = res).
Proof.
  intros current target speed dt H res.
  assert (Hres : res = {| value := target; finished := true |})
    by (apply dampRotation_within_tolerance; exact H).
  assert (Hself : Rabs (target - target) < ANGLE_TOLERANCE).
  { replace (target - target) with 0 by ring. rewrite Rabs_R0.
    unfold ANGLE_TOLERANCE. lra. }
  rewrite Hres. simpl. repeat split.
  - intros speed' dt'. apply dampRotation_within_tolerance. exact Hself.
  - intros call calls. revert call.
    induction calls as [| next rest IH]; intros call; simpl.
    + apply dampRotation_within_tolerance. exact Hself.
    + rewrite (dampRotation_within_tolerance _ _ _ _ Hself). simpl. apply IH.
Qed.

Lemma dampRotation_fixed_point_witness :
  Rabs (1.002 - 1) < ANGLE_TOLERANCE /\
  finished (dampRotation 1 1.002 2.4 0.016) = true /\
  value (dampRotation 1 1.002 2.4 0.016) = 1.002.
Proof.
  assert (H : Rabs (1.002 - 1) < ANGLE_TOLERANCE).
  { unfold ANGLE_TOLERANCE. apply Rabs_def1; lra. }
  split; [exact H |].
  destruct (dampRotation_fixed_point 1 1.002 2.4 0.016 H) as [Hf [Hv _]].
  split; [exact Hf | exact Hv].
Defined.

(** *** Frames of the state machine *)

Ltac break_state s :=
  destruct s as [[ag am mx hl sl] mo li [owc wid pwr pwt] [tm nt np rl cl wn]].

Lemma frameDelta_bounds (elapsed last : R) :
  0 < frameDelta elapsed last <= 0.05 /\
  (elapsed - last <= 0 -> frameDelta elapsed last = 0.016).
Proof.
  unfold frameDelta, gtb.
  destruct (Rgt_dec (elapsed - last) 0) as [Hgt | Hle].
  - split; [| lra]. unfold Rmin. destruct (Rle_dec 0.05 (elapsed - last)); lra.
  - split; [| intros _]; unfold Rmin; destruct (Rle_dec 0.05 0.016); lra.
Qed.

(** What [walkToPosition] leaves in the walk variables of a loaded avatar. *)
Lemma walkToPosition_motion (s : State) (g : Object3D) (target : Vector3) :
  ariaGroup (scene s) = Some g ->
  let s' := snd (walkToPosition target s) in
  scene s' = scene s /\
  motion s' =
    {| ariaState := turning_to_target;
       targetRotation :=
         atan2 (x (subVectors (setY target 0) (position g)))
               (z (subVectors (setY target 0) (position g)));
       walkProgress := 0;
       walkStartPos := position g;
       walkEndPos := setY target 0;
       walkDuration :=
         Rmax 3.6 (distanceTo (position g) (setY target 0) / walkSpeed);
       walkElapsed := 0;
       stepPhase := 0;
       lastUpdateTime := lastUpdateTime (motion s) |}.
Proof.
  intros Hg. destruct s as [sc mo li [owc wid pwr pwt] rt]. simpl in Hg.
  unfold walkToPosition. simpl. rewrite Hg.
  destruct pwr as [c |]; simpl.
  - unfold runWalkResolve. simpl.
    destruct (negb (wr_requestId c =? wid)%nat); simpl;
      destruct pwt; simpl; split; reflexivity.
  - destruct pwt; simpl; split; reflexivity.
Qed.

Lemma updateLightState_frame (elapsed : R) (s : State) :
  let s' := updateLightState elapsed s in
  motion s' = motion s /\ completion s' = completion s /\
  runtime s' = runtime s /\ ariaGroup (scene s') = ariaGroup (scene s) /\
  mixer (scene s') = mixer (scene s).
Proof.
  destruct s as [sc mo li co rt]. unfold updateLightState. simpl.
  destruct (highlightLight sc); simpl; repeat split; reflexivity.
Qed.

(** A frame of the walking state that reaches the end of the walk. *)
Lemma updateWalking_arrives (elapsed delta : R) (g : Object3D) (s : State) :
  walkElapsed (motion s) + delta >= Rmax (walkDuration (motion s)) 0.001 ->
  let s' := updateWalking elapsed delta g s in
  ariaState (motion s') = turning_to_camera /\
  ariaGroup (scene s') =
    Some {| position := setY (walkEndPos (motion s)) 0;
            rotation := {| ex := 0; ey := ey (rotation g); ez := 0 |} |} /\
  walkElapsed (motion s') = walkElapsed (motion s) + delta /\
  walkProgress (motion s') = 1 /\
  walkEndPos (motion s') = walkEndPos (motion s) /\
  walkDuration (motion s') = walkDuration (motion s) /\
  stepPhase (motion s') = stepPhase (motion s) /\
  mixer (scene s') = mixer (scene s) /\
  completion s' = completion s /\ runtime s' = runtime s.
Proof.
  intros H. destruct s as [sc mo li co rt]. simpl in H.
  unfold updateWalking. simpl.
  assert (Hd : 0 < Rmax (walkDuration mo) 0.001).
  { unfold Rmax. destruct (Rle_dec (walkDuration mo) 0.001); lra. }
  assert (Hp : Rmin 1 ((walkElapsed mo + delta) / Rmax (walkDuration mo) 0.001) >= 1).
  { unfold Rmin.
    destruct (Rle_dec 1 ((walkElapsed mo + delta) / Rmax (walkDuration mo) 0.001)) as [Hc | Hc];
      [lra |].
    exfalso. apply Hc. apply Rmult_le_reg_r with (Rmax (walkDuration mo) 0.001); [exact Hd |].
    unfold Rdiv. rewrite Rmult_assoc, Rinv_l by lra. lra. }
  rewrite (geb_true _ _ Hp). simpl. repeat split; reflexivity.
Qed.

(** A frame of the walking state that does not reach the end. *)
Lemma updateWalking_continues (elapsed delta : R) (g : Object3D) (s : State) :
  walkElapsed (motion s) + delta < Rmax (walkDuration (motion s)) 0.001 ->
  let s' := updateWalking elapsed delta g s in
  ariaState (motion s') = ariaState (motion s) /\
  (exists g' bob,
      ariaGroup (scene s') = Some g' /\
      position g' =
        setY (lerpVectors (walkStartPos (motion s)) (walkEndPos (motion s))
                (let t := Rmin 1 ((walkElapsed (motion s) + delta)
                                  / Rmax (walkDuration (motion s)) 0.001) in
                 t * t * (3 - 2 * t))) bob) /\
  walkElapsed (motion s') = walkElapsed (motion s) + delta /\
  walkEndPos (motion s') = walkEndPos (motion s) /\
  walkStartPos (motion s') = walkStartPos (motion s) /\
  walkDuration (motion s') = walkDuration (motion s) /\
  stepPhase (motion s') = stepPhase (motion s) + delta * bobFrequency * 1.15 /\
  mixer (scene s') = mixer (scene s) /\
  completion s' = completion s /\ runtime s' = runtime s.
Proof.
  intros H. destruct s as [sc mo li co rt]. simpl in H.
  unfold updateWalking. simpl.
  assert (Hd : 0 < Rmax (walkDuration mo) 0.001).
  { unfold Rmax. destruct (Rle_dec (walkDuration mo) 0.001); lra. }
  assert (Hp : Rmin 1 ((walkElapsed mo + delta) / Rmax (walkDuration mo) 0.001) < 1).
  { apply Rle_lt_trans with ((walkElapsed mo + delta) / Rmax (walkDuration mo) 0.001);
      [apply Rmin_r |].
    apply Rmult_lt_reg_r with (Rmax (walkDuration mo) 0.001); [exact Hd |].
    unfold Rdiv. rewrite Rmult_assoc, Rinv_l by lra. lra. }
  rewrite (geb_false _ _ Hp). simpl.
  destruct (mixer sc) eqn:Em; simpl; rewrite ?Em; repeat split; try reflexivity.
  all: eexists; eexists; split; reflexivity.
Qed.

(** *** The completion protocol keeps the state consistent *)

Lemma updateIdle_control elapsed delta cam g s :
  sameControl s (updateIdle elapsed delta cam g s).
Proof. unfold sameControl, updateIdle. repeat split; try reflexivity. intros _; discriminate. Qed.

Lemma updateTurningToTarget_control delta g s :
  sameControl s (updateTurningToTarget delta g s).
Proof.
  unfold sameControl, updateTurningToTarget.
  destruct (finished _); repeat split; try reflexivity; intros _; discriminate.
Qed.

Lemma updateWalking_control elapsed delta g s :
  sameControl s (updateWalking elapsed delta g s).
Proof.
  unfold sameControl, updateWalking.
  destruct (geb _ _); [repeat split; try reflexivity; intros _; discriminate |].
  cbv zeta.
  match goal with |- context [match mixer ?a with _ => _ end] => destruct (mixer a) end;
    repeat split; try reflexivity; intros _; discriminate.
Qed.

Lemma updateSpeaking_control elapsed delta cam g s :
  sameControl s (updateSpeaking elapsed delta cam g s).
Proof.
  unfold sameControl, updateSpeaking. cbv zeta.
  match goal with |- context [match mixer ?a with _ => _ end] => destruct (mixer a) end;
    [| destruct (isSpeakingState _)];
    repeat split; try reflexivity; intros _; discriminate.
Qed.

Lemma updateLightState_control elapsed s :
  sameControl s (updateLightState elapsed s).
Proof.
  unfold sameControl, updateLightState. cbv zeta.
  match goal with |- context [match highlightLight ?a with _ => _ end] =>
    destruct (highlightLight a) eqn:E end.
  - repeat split; try reflexivity. intros H; exact H.
  - repeat split; try reflexivity. intros H; exact H.
Qed.

Lemma sameControl_refl s : sameControl s s.
Proof. unfold sameControl. repeat split; auto. Qed.

Lemma sameControl_trans s1 s2 s3 :
  sameControl s1 s2 -> sameControl s2 s3 -> sameControl s1 s3.
Proof.
  unfold sameControl. intros [A [B C]] [D [E F]].
  rewrite D, E. repeat split; auto.
Qed.

Lemma consistent_ext (s s' : State) :
  sameControl s s' -> consistent s -> consistent s'.
Proof.
  intros [Hc [Hr Hg]] [Hfresh Hshape].
  unfold consistent, noWalkPending, walkPending, resolveCount in *.
  rewrite Hc, Hr. split; [exact Hfresh |].
  destruct Hshape as [Hq | [p Hp]]; [left; exact Hq | right; exists p].
  destruct Hp as [Hag Hrest]. split; [apply Hg; exact Hag | exact Hrest].
Qed.

(** The frame prologue of [updateARIA]. *)
Lemma updateTurningToCamera_control delta cam g s :
  let s' := updateTurningToCamera delta cam g s in
  sameControl s s' \/
  (exists cb s0,
      sameControl s s0 /\ onWalkComplete (completion s) = Some cb /\
      s' = runWalkResolve cb (setOnWalkComplete None s0)).
Proof.
  unfold updateTurningToCamera. cbv zeta.
  destruct (finished _).
  - match goal with |- context [match mixer ?a with _ => _ end] =>
      destruct (mixer a) end.
    + destruct (onWalkComplete (completion s)) as [cb |] eqn:E.
      * right. eexists. eexists. split; [| split; [reflexivity |]].
        2:{ simpl. rewrite E. reflexivity. }
        unfold sameControl. repeat split; try reflexivity. intros _; discriminate.
      * left. simpl. rewrite E. unfold sameControl.
        repeat split; try reflexivity. intros _; discriminate.
    + destruct (onWalkComplete (completion s)) as [cb |] eqn:E.
      * right. eexists. eexists. split; [| split; [reflexivity |]].
        2:{ simpl. rewrite E. reflexivity. }
        unfold sameControl. repeat split; try reflexivity. intros _; discriminate.
      * left. simpl. rewrite E. unfold sameControl.
        repeat split; try reflexivity. intros _; discriminate.
  - left. unfold sameControl. repeat split; try reflexivity. intros _; discriminate.
Qed.


Lemma stepOk_same (s s' : State) :
  sameControl s s' -> consistent s -> stepOk s s'.
Proof.
  intros Hs Hc. split; [apply (consistent_ext s s' Hs Hc) |].
  destruct Hs as [_ [Hr _]]. unfold resolveCount. rewrite Hr.
  split; [lia | reflexivity].
Qed.

Lemma stepOk_then_same (s s' s'' : State) :
  stepOk s s' -> sameControl s' s'' -> stepOk s s''.
Proof.
  intros [Hc [Hn Hq]] Hs. split; [apply (consistent_ext s' s'' Hs Hc) |].
  destruct Hs as [_ [Hr _]]. unfold resolveCount in *. rewrite Hr.
  split; assumption.
Qed.

Lemma clearTimeout_single (h : Js.TimerId) (t : WalkTimeout) :
  Js.clearTimeout h [(h, t)] = [].
Proof. unfold Js.clearTimeout. simpl. rewrite Nat.eqb_refl. reflexivity. Qed.

(** The completion closure of the pending walk runs. *)
Lemma callback_completes (s s0 : State) (cb : WalkResolve) :
  consistent s -> sameControl s s0 ->
  onWalkComplete (completion s) = Some cb ->
  stepOk s (runWalkResolve cb (setOnWalkComplete None s0)).
Proof.
  intros [Hfresh Hshape] [Hc [Hr _]] Hcb.
  destruct Hshape as [[_ [Hnone _]] | [p Hp]]; [congruence |].
  destruct Hp as [_ [Hpwr [Howc [Hlt [Hzero [Hothers Htimers]]]]]].
  rewrite Hcb in Howc. injection Howc as Ecb. subst cb.
  unfold stepOk, consistent, noWalkPending, walkPending, resolveCount in *.
  destruct s0 as [sc0 mo0 li0 co0 rt0]. break_state s. simpl in *. subst co0 rt0.
  unfold runWalkResolve. simpl. rewrite Nat.eqb_refl. simpl.
  assert (Ht : match pwt with
               | Some h => Js.clearTimeout h tm
               | None => tm
               end = []).
  { destruct Htimers as [-> | [h [d [-> Eh]]]].
    - destruct pwt; reflexivity.
    - rewrite Eh. apply clearTimeout_single. }
  destruct pwt as [h |]; simpl in *; rewrite Ht.
  all: split; [split | split; [lia |]].
  all: try (intros q Hq; destruct (Nat.eq_dec p q);
            [subst; lia | apply Hfresh; exact Hq]).
  all: try (left; repeat split; try reflexivity; intros q Hq;
            destruct (Nat.eq_dec p q);
            [lia | apply Hothers; [exact Hq | congruence]]).
  all: intros q Hq Hone; destruct (Nat.eq_dec p q); [subst; lia | reflexivity].
Qed.

Lemma updateARIA_ok (elapsed : R) (cam : Vector3) (sp : bool) (s : State) :
  consistent s -> stepOk s (updateARIA elapsed cam sp s).
Proof.
  intros Hc. unfold updateARIA.
  destruct (ariaGroup (scene s)) as [g |] eqn:Eg;
    [| apply stepOk_same; [apply sameControl_refl | exact Hc]].
  cbv zeta.
  match goal with
  | |- stepOk s (updateLightState _ (match ariaState (motion ?s1) with _ => _ end)) =>
      assert (H1 : sameControl s s1); [| set (s1' := s1) in *]
  end.
  { unfold sameControl.
    destruct (mixer (scene (setLastUpdateTime elapsed s)));
      match goal with
      | |- context [match spotLight ?a with _ => _ end] => destruct (spotLight a)
      end; repeat split; try reflexivity; simpl; rewrite Eg; intros _; discriminate. }
  assert (Hc1 : consistent s1') by (apply (consistent_ext s s1' H1 Hc)).
  assert (Hcb : onWalkComplete (completion s1') = onWalkComplete (completion s)).
  { destruct H1 as [E _]. rewrite E. reflexivity. }
  apply stepOk_then_same with
    (s' := match ariaState (motion s1') with
           | idle => updateIdle elapsed (frameDelta elapsed (lastUpdateTime (motion s))) cam g s1'
           | turning_to_target => updateTurningToTarget (frameDelta elapsed (lastUpdateTime (motion s))) g s1'
           | walking => updateWalking elapsed (frameDelta elapsed (lastUpdateTime (motion s))) g s1'
           | turning_to_camera => updateTurningToCamera (frameDelta elapsed (lastUpdateTime (motion s))) cam g s1'
           | speaking => updateSpeaking elapsed (frameDelta elapsed (lastUpdateTime (motion s))) cam g s1'
           end);
    [| apply updateLightState_control].
  destruct (ariaState (motion s1')).
  - apply stepOk_same; [| exact Hc].
    apply sameControl_trans with s1'; [exact H1 | apply updateIdle_control].
  - apply stepOk_same; [| exact Hc].
    apply sameControl_trans with s1'; [exact H1 | apply updateTurningToTarget_control].
  - apply stepOk_same; [| exact Hc].
    apply sameControl_trans with s1'; [exact H1 | apply updateWalking_control].
  - destruct (updateTurningToCamera_control
                (frameDelta elapsed (lastUpdateTime (motion s))) cam g s1')
      as [Hs | [cb [s0 [Hs0 [Ecb ->]]]]].
    + apply stepOk_same; [| exact Hc].
      apply sameControl_trans with s1'; [exact H1 | exact Hs].
    + apply callback_completes; [exact Hc | | congruence].
      apply sameControl_trans with s1'; assumption.
  - apply stepOk_same; [| exact Hc].
    apply sameControl_trans with s1'; [exact H1 | apply updateSpeaking_control].
Qed.

Lemma findTimer_single (h h0 : Js.TimerId) (t t0 : WalkTimeout) :
  Js.findTimer h [(h0, t0)] = Some t -> h = h0 /\ t = t0.
Proof.
  unfold Js.findTimer. simpl. destruct (Nat.eqb h0 h) eqn:E; [| discriminate].
  apply Nat.eqb_eq in E. intros H. injection H as <-. split; congruence.
Qed.

Lemma fireTimer_ok (h : Js.TimerId) (s : State) :
  consistent s -> stepOk s (fireTimer h s).
Proof.
  intros Hc. unfold fireTimer.
  destruct (Js.findTimer h (timers (runtime s))) as [t |] eqn:Ef;
    [| apply stepOk_same; [apply sameControl_refl | exact Hc]].
  destruct Hc as [Hfresh Hshape].
  destruct Hshape as [[_ [_ [Hnil _]]] | [p Hp]];
    [rewrite Hnil in Ef; discriminate |].
  destruct Hp as [Hag [Hpwr [Howc [Hlt [Hzero [Hothers Htimers]]]]]].
  destruct Htimers as [Hnil | [h0 [d [Etm Eh]]]];
    [rewrite Hnil in Ef; discriminate |].
  rewrite Etm in Ef. apply findTimer_single in Ef. destruct Ef as [-> ->].
  unfold stepOk, consistent, noWalkPending, walkPending, resolveCount in *.
  break_state s. simpl in *. subst.
  unfold runWalkTimeout, clearTimeout, Js.clearTimeout. simpl.
  rewrite !Nat.eqb_refl. simpl.
  destruct (ariaState mo); simpl.
  1, 5: (split; [split | split; [lia | reflexivity]];
         [exact Hfresh |
          right; exists p; repeat split; auto]).
  all: destruct ag as [g |]; [| congruence]; simpl.
  all: unfold runWalkResolve; simpl; rewrite ?Nat.eqb_refl; simpl.
  all: split; [split | split; [lia |]].
  all: try (intros q Hq; destruct (Nat.eq_dec p q);
            [subst; lia | apply Hfresh; exact Hq]).
  all: try (left; repeat split; try reflexivity; intros q Hq;
            destruct (Nat.eq_dec p q);
            [lia | apply Hothers; [exact Hq | congruence]]).
  all: intros q Hq Hone; destruct (Nat.eq_dec p q); [subst; lia | reflexivity].
Qed.

Lemma walkToPosition_ok (target : Vector3) (s : State) :
  consistent s ->
  stepOk s (snd (walkToPosition target s)) /\
  fst (walkToPosition target s) = nextPromise (runtime s) /\
  nextPromise (runtime (snd (walkToPosition target s))) =
    S (nextPromise (runtime s)) /\
  (forall p, walkPending p s ->
             resolveCount p (snd (walkToPosition target s)) = 1%nat).
Proof.
  intros [Hfresh Hshape].
  unfold stepOk, consistent, noWalkPending, walkPending, resolveCount in *.
  break_state s. simpl in *.
  unfold walkToPosition. simpl.
  destruct ag as [g |]; simpl.
  - destruct Hshape as [[Hpwr [Howc [Htm Hall]]] | [p Hp]].
    + subst pwr owc tm.
      assert (E : match pwt with
                  | Some h => Js.clearTimeout h (@nil (Js.TimerId * WalkTimeout))
                  | None => []
                  end = []) by (destruct pwt; reflexivity).
      destruct pwt as [h |]; simpl.
      all: repeat split; try reflexivity; try lia.
      all: try (intros q Hq; apply Hfresh; lia).
      all: try (right; exists np; repeat split; try reflexivity; try lia;
                [discriminate | apply Hfresh; lia |
                 intros q Hq Hne; apply Hall; lia |
                 right; eexists; eexists; split; reflexivity]).
      all: intros p [_ [Hcontra _]]; discriminate.
    + destruct Hp as [_ [Hpwr [Howc [Hlt [Hzero [Hothers Htimers]]]]]].
      subst pwr owc. unfold runWalkResolve. simpl. rewrite Nat.eqb_refl. simpl.
      assert (Ht : match pwt with
                   | Some h => Js.clearTimeout h tm
                   | None => tm
                   end = []).
      { destruct Htimers as [-> | [h [d [-> Eh]]]].
        - destruct pwt; reflexivity.
        - rewrite Eh. apply clearTimeout_single. }
      destruct pwt as [h |]; simpl in *; rewrite Ht; simpl.
      all: repeat split; try reflexivity; try lia.
      all: try (intros q Hq; destruct (Nat.eq_dec p q);
                [subst; lia | apply Hfresh; lia]).
      all: try (right; exists np; repeat split; try reflexivity; try lia;
                [discriminate |
                 destruct (Nat.eq_dec p np); [lia | apply Hfresh; lia] |
                 intros q Hq Hne; destruct (Nat.eq_dec p q);
                 [lia | apply Hothers; [lia | congruence]] |
                 right; eexists; eexists; split; reflexivity]).
      all: try (intros q Hq Hone; destruct (Nat.eq_dec p q);
                [subst; lia | reflexivity]).
      all: intros p' [_ [Hp' _]]; injection Hp' as <-;
        destruct (Nat.eq_dec p p); [lia | congruence].
  - repeat split; try reflexivity; try lia.
    + intros q Hq. destruct (Nat.eq_dec np q); [lia | apply Hfresh; lia].
    + destruct Hshape as [[Hpwr [Howc [Htm Hall]]] | [p [Hcontra _]]];
        [| congruence].
      left. repeat split; try assumption.
      intros q Hq. destruct (Nat.eq_dec np q); [lia | apply Hall; lia].
    + intros q Hq Hone. destruct (Nat.eq_dec np q); [lia | reflexivity].
    + intros p [Hcontra _]. congruence.
Qed.

Lemma initial_consistent : consistent initial.
Proof.
  split; [intros q _; reflexivity |].
  left. repeat split; try reflexivity. simpl. intros q Hq. lia.
Qed.

Lemma loadARIA_control (a : bool) (s : State) : sameControl s (loadARIA a s).
Proof.
  unfold sameControl, loadARIA.
  destruct a; repeat split; try reflexivity; intros _; discriminate.
Qed.

Lemma resetToStart_control (s : State) : sameControl s (resetToStart s).
Proof.
  unfold sameControl, resetToStart.
  destruct (ariaGroup (scene s)) eqn:E; [| repeat split; auto].
  cbv zeta.
  match goal with
  | |- context [match mixer ?a with _ => _ end] => destruct (mixer a)
  end; repeat split; try reflexivity; intros _; discriminate.
Qed.

Lemma step_ok (s : State) (e : Event) : consistent s -> stepOk s (step s e).
Proof.
  intros Hc. destruct e as [a | t | elapsed cam sp | h |]; simpl.
  - apply stepOk_same; [apply loadARIA_control | exact Hc].
  - apply walkToPosition_ok. exact Hc.
  - apply updateARIA_ok. exact Hc.
  - apply fireTimer_ok. exact Hc.
  - apply stepOk_same; [apply resetToStart_control | exact Hc].
Qed.

Lemma run_ok (es : list Event) :
  forall s, consistent s -> stepOk s (run s es).
Proof.
  induction es as [| e es IH]; intros s Hc; simpl.
  - apply stepOk_same; [apply sameControl_refl | exact Hc].
  - destruct (step_ok s e Hc) as [Hc1 [Hn1 Hq1]].
    destruct (IH (step s e) Hc1) as [Hc2 [Hn2 Hq2]].
    split; [exact Hc2 | split; [lia |]].
    intros q Hq Hone. rewrite Hq2; [apply Hq1; assumption | lia |].
    rewrite Hq1; assumption.
Qed.

Lemma run_consistent (es : list Event) : consistent (run initial es).
Proof. apply (run_ok es initial initial_consistent). Qed.

(** *** A second walk resolves the first *)

Lemma walkToPosition_closure (target : Vector3) (s : State) (g : Object3D) :
  ariaGroup (scene s) = Some g ->
  let s' := snd (walkToPosition target s) in
  pendingWalkResolve (completion s') =
    Some {| wr_requestId := walkRequestId (completion s');
            wr_promise := nextPromise (runtime s) |}.
Proof.
  intros Hg. break_state s. simpl in Hg. subst ag.
  unfold walkToPosition. simpl.
  destruct pwr as [c |]; simpl.
  - unfold runWalkResolve. simpl.
    destruct (negb (wr_requestId c =? wid)%nat); simpl;
      destruct pwt; reflexivity.
  - destruct pwt; reflexivity.
Qed.

(** C2. Calling [walkToPosition] a second time before the promise of the
    first call has been resolved resolves that promise exactly once: its
    [resolve] function has been called once when the second call returns, and
    whatever happens afterwards (frames, timers, resets, further walks) it is
    never called again.  The first walk is cancelled without any other
    effect: after the second call the only pending promise is the second
    one, both completion variables hold the second request's closure and the
    only timer that can still be armed is the second request's. *)
Theorem second_walk_resolves_first_once :
  forall (before between after : list Event) (target1 target2 : Vector3),
    let s0 := run initial before in
    let p1 := fst (walkToPosition target1 s0) in
    let s1 := run (snd (walkToPosition target1 s0)) between in
    resolveCount p1 s1 = 0%nat ->
    let p2 := fst (walkToPosition target2 s1) in
    let s2 := snd (walkToPosition target2 s1) in
    resolveCount p1 s2 = 1%nat /\
    resolveCount p1 (run s2 after) = 1%nat /\
    p2 <> p1 /\
    walkPending p2 s2.
Proof.
  intros before between after target1 target2 s0 p1 s1 Hzero p2 s2.
  pose proof (run_consistent before) as Hc0. fold s0 in Hc0.
  destruct (walkToPosition_ok target1 s0 Hc0) as [[Hc0' _] [Ep1 [En0 _]]].
  destruct (run_ok between _ Hc0') as [Hc1 [Hn1 _]]. fold s1 in Hc1, Hn1.
  assert (Hlt : (p1 < nextPromise (runtime s1))%nat) by (unfold p1; lia).
  assert (Hpend : walkPending p1 s1).
  { destruct Hc1 as [_ [[_ [_ [_ Hall]]] | [p Hp]]].
    - specialize (Hall p1 Hlt). lia.
    - destruct (Nat.eq_dec p p1) as [-> | Hne]; [exact Hp |].
      destruct Hp as [_ [_ [_ [_ [_ [Hothers _]]]]]].
      specialize (Hothers p1 Hlt (not_eq_sym Hne)). lia. }
  destruct (walkToPosition_ok target2 s1 Hc1) as [[Hc2 [Hn2 _]] [Ep2 [_ Hone]]].
  fold s2 in Hc2, Hn2. fold p2 in Ep2. specialize (Hone p1 Hpend). fold s2 in Hone.
  split; [exact Hone |].
  split.
  { destruct (run_ok after s2 Hc2) as [_ [_ Hstable]].
    rewrite Hstable; [exact Hone | lia | lia]. }
  split; [lia |].
  destruct Hpend as [Hag _].
  destruct (ariaGroup (scene s1)) as [g |] eqn:Eg; [| congruence].
  pose proof (walkToPosition_closure target2 s1 g Eg) as Hcl. fold s2 in Hcl.
  destruct Hc2 as [_ [[Hnone _] | [p Hp]]]; [congruence |].
  assert (p = p2).
  { destruct Hp as [_ [Hpwr _]]. rewrite Hcl in Hpwr.
    injection Hpwr as E. congruence. }
  subst p. exact Hp.
Qed.

Lemma second_walk_resolves_first_once_witness :
  resolveCount
    (fst (walkToPosition (vec (-6) 0 (-5)) (run initial [Loaded true])))
    (run (snd (walkToPosition (vec (-6) 0 (-5)) (run initial [Loaded true])))
         [Reset]) = 0%nat /\
  resolveCount
    (fst (walkToPosition (vec (-6) 0 (-5)) (run initial [Loaded true])))
    (run (snd (walkToPosition (vec 6 0 (-5))
                 (run (snd (walkToPosition (vec (-6) 0 (-5))
                              (run initial [Loaded true])))
                      [Reset])))
         [TimerFires 0%nat; TimerFires 1%nat]) = 1%nat.
Proof.
  assert (H : resolveCount
    (fst (walkToPosition (vec (-6) 0 (-5)) (run initial [Loaded true])))
    (run (snd (walkToPosition (vec (-6) 0 (-5)) (run initial [Loaded true])))
         [Reset]) = 0%nat) by reflexivity.
  split; [exact H |].
  exact (proj1 (proj2 (second_walk_resolves_first_once
                  [Loaded true] [Reset] [TimerFires 0%nat; TimerFires 1%nat]
                  (vec (-6) 0 (-5)) (vec 6 0 (-5)) H))).
Defined.

(** *** The example walk *)

Lemma example_distance :
  distanceTo (vec 0 0 2) (setY (vec 0 0 (-5)) 0) = 7.
Proof.
  unfold distanceTo, setY, vec. simpl.
  replace ((0 - 0) * (0 - 0) + (0 - 0) * (0 - 0) + (2 - -5) * (2 - -5))
    with (7 * 7) by ring.
  apply sqrt_square. lra.
Qed.

Lemma example_duration : Rmax 3.6 (7 / walkSpeed) = 70 / 11.
Proof.
  unfold walkSpeed.
  assert (E : 7 / 1.1 = 70 / 11) by lra.
  rewrite E. unfold Rmax. destruct (Rle_dec 3.6 (70 / 11)); lra.
Qed.

Lemma walkFrames_not_walking (deltas : list R) (s : State) :
  ariaState (motion s) <> walking -> walkFrames deltas s = s.
Proof.
  induction deltas as [| d rest IH]; intros H; [reflexivity |].
  simpl. destruct (ariaGroup (scene s)); [| apply IH; exact H].
  destruct (ariaState (motion s)) eqn:E; try (apply IH; congruence).
  congruence.
Qed.

(** Frames that together stay short of the duration leave the walk in
    progress. *)
Lemma walkFrames_in_progress (deltas : list R) :
  forall (s : State) (g : Object3D),
    ariaGroup (scene s) = Some g ->
    ariaState (motion s) = walking ->
    (forall d, In d deltas -> 0 <= d) ->
    walkElapsed (motion s) + totalTime deltas
      < Rmax (walkDuration (motion s)) 0.001 ->
    let s' := walkFrames deltas s in
    ariaState (motion s') = walking /\
    ariaGroup (scene s') <> None /\
    walkElapsed (motion s') = walkElapsed (motion s) + totalTime deltas /\
    walkDuration (motion s') = walkDuration (motion s) /\
    walkStartPos (motion s') = walkStartPos (motion s) /\
    walkEndPos (motion s') = walkEndPos (motion s).
Proof.
  induction deltas as [| d rest IH]; intros s g Hg Hw Hpos Hlt; simpl in *.
  - repeat split; try assumption; try lra. congruence.
  - rewrite Hg, Hw.
    assert (Hrest : 0 <= totalTime rest).
    { clear - Hpos. induction rest as [| a r IHr]; simpl; [lra |].
      assert (0 <= a) by (apply Hpos; right; left; reflexivity).
      assert (0 <= totalTime r).
      { apply IHr. intros x [Hx | Hx]; apply Hpos; [left | right; right]; assumption. }
      unfold totalTime in *. simpl. lra. }
    unfold totalTime in Hlt, Hrest |- *. simpl in Hlt |- *.
    fold (totalTime rest) in Hlt, Hrest |- *.
    assert (Hd : walkElapsed (motion s) + d < Rmax (walkDuration (motion s)) 0.001) by lra.
    destruct (updateWalking_continues 0 d g s Hd)
      as [Hst [[g' [bob [Hg' _]]] [Hel [Hend [Hstart [Hdur _]]]]]].
    destruct (IH (updateWalking 0 d g s) g' Hg') as [A [B [C [D [E F]]]]].
    + congruence.
    + intros x Hx. apply Hpos. right. exact Hx.
    + rewrite Hel, Hdur. lra.
    + repeat split; try assumption.
      * rewrite C, Hel. lra.
      * congruence.
      * congruence.
      * congruence.
Qed.

(** Frames that together reach the duration complete the walk. *)
Lemma walkFrames_arrive (deltas : list R) :
  forall (s : State) (g : Object3D),
    ariaGroup (scene s) = Some g ->
    ariaState (motion s) = walking ->
    (forall d, In d deltas -> 0 <= d) ->
    walkElapsed (motion s) < Rmax (walkDuration (motion s)) 0.001 ->
    walkElapsed (motion s) + totalTime deltas
      >= Rmax (walkDuration (motion s)) 0.001 ->
    let s' := walkFrames deltas s in
    ariaState (motion s') = turning_to_camera /\
    walkProgress (motion s') = 1 /\
    exists g', ariaGroup (scene s') = Some g' /\
               position g' = setY (walkEndPos (motion s)) 0 /\
               ex (rotation g') = 0 /\ ez (rotation g') = 0.
Proof.
  induction deltas as [| d rest IH]; intros s g Hg Hw Hpos Hlt Hge.
  - unfold totalTime in Hge. simpl in Hge. lra.
  - simpl. rewrite Hg, Hw.
    unfold totalTime in Hge. simpl in Hge. fold (totalTime rest) in Hge.
    destruct (Rlt_dec (walkElapsed (motion s) + d)
                      (Rmax (walkDuration (motion s)) 0.001)) as [Hc | Hc].
    + destruct (updateWalking_continues 0 d g s Hc)
        as [Hst [[g' [bob [Hg' _]]] [Hel [Hend [Hstart [Hdur _]]]]]].
      destruct (IH (updateWalking 0 d g s) g' Hg') as [A [B [g2 [C [D [E F]]]]]].
      * congruence.
      * intros x Hx. apply Hpos. right. exact Hx.
      * rewrite Hel, Hdur. exact Hc.
      * rewrite Hel, Hdur. lra.
      * repeat split; try assumption. exists g2. repeat split; try assumption.
        rewrite D, Hend. reflexivity.
    + assert (Hd : walkElapsed (motion s) + d >= Rmax (walkDuration (motion s)) 0.001) by lra.
      destruct (updateWalking_arrives 0 d g s Hd)
        as [Hst [Hg' [Hel [Hpr _]]]].
      rewrite walkFrames_not_walking by congruence.
      repeat split; try assumption.
      eexists. split; [exact Hg' |]. simpl. repeat split; reflexivity.
Qed.

Lemma totalTime_repeat (a : R) (n : nat) : totalTime (repeat a n) = INR n * a.
Proof.
  induction n as [| n IH]; [simpl; unfold totalTime; simpl; ring |].
  rewrite S_INR. unfold totalTime in *. simpl. rewrite IH. ring.
Qed.

(** The walk variables after [walkToPosition((0,0,-5))] from [(0,0,2)]. *)
Lemma example_walk_plan (s : State) (g : Object3D) :
  ariaGroup (scene s) = Some g ->
  position g = vec 0 0 2 ->
  let s1 := snd (walkToPosition (vec 0 0 (-5)) s) in
  walkDuration (motion s1) = 70 / 11 /\
  ariaState (motion s1) = turning_to_target /\
  walkStartPos (motion s1) = vec 0 0 2 /\
  walkEndPos (motion s1) = vec 0 0 (-5) /\
  walkElapsed (motion s1) = 0 /\
  scene s1 = scene s.
Proof.
  intros Hg Hpos s1.
  destruct (walkToPosition_motion s g (vec 0 0 (-5)) Hg) as [Hsc Hm].
  fold s1 in Hm, Hsc. rewrite Hpos in Hm.
  split.
  { rewrite Hm. simpl. rewrite example_distance. apply example_duration. }
  rewrite Hm. repeat split; try reflexivity. exact Hsc.
Qed.

Lemma INR_128 : INR 128 = 128.
Proof. rewrite INR_IZR_INZ. reflexivity. Qed.

Lemma loaded_group (a : bool) (s : State) :
  ariaGroup (scene (loadARIA a s)) =
    Some {| position := ARIA_START_POS;
            rotation := {| ex := 0; ey := 0; ez := 0 |} |}.
Proof. unfold loadARIA. destruct a; reflexivity. Qed.

(** *** The time step of a frame *)

Lemma runWalkResolve_clocks (c : WalkResolve) (s : State) :
  sameClocks s (runWalkResolve c s).
Proof.
  unfold sameClocks, runWalkResolve. cbv zeta.
  destruct (negb _); [repeat split; reflexivity |].
  destruct (pendingWalkTimeout _); repeat split; reflexivity.
Qed.

Lemma updateIdle_clocks elapsed delta cam g s :
  sameClocks s (updateIdle elapsed delta cam g s).
Proof. unfold sameClocks, updateIdle. repeat split; reflexivity. Qed.

Lemma updateTurningToTarget_clocks delta g s :
  sameClocks s (updateTurningToTarget delta g s).
Proof.
  unfold sameClocks, updateTurningToTarget.
  destruct (finished _); repeat split; reflexivity.
Qed.

Lemma updateSpeaking_clocks elapsed delta cam g s :
  sameClocks s (updateSpeaking elapsed delta cam g s).
Proof.
  unfold sameClocks, updateSpeaking. cbv zeta.
  match goal with |- context [match mixer ?a with _ => _ end] =>
    destruct (mixer a) eqn:E end; simpl in E;
    [| destruct (isSpeakingState _)];
    repeat split; try reflexivity; simpl; rewrite ?E; reflexivity.
Qed.

Lemma updateTurningToCamera_clocks delta cam g s :
  sameClocks s (updateTurningToCamera delta cam g s).
Proof.
  unfold updateTurningToCamera. cbv zeta.
  destruct (finished _); [| repeat split; reflexivity].
  match goal with |- context [match mixer ?a with _ => _ end] =>
    destruct (mixer a) eqn:E end; simpl in E.
  - match goal with |- context [match onWalkComplete ?a with _ => _ end] =>
      destruct (onWalkComplete a) end.
    + match goal with |- sameClocks _ (runWalkResolve ?c ?s0) =>
        destruct (runWalkResolve_clocks c s0) as [A [B [C D]]] end.
      unfold sameClocks. rewrite A, B, C, D. repeat split; try reflexivity.
    + repeat split; reflexivity.
  - match goal with |- context [match onWalkComplete ?a with _ => _ end] =>
      destruct (onWalkComplete a) end.
    + match goal with |- sameClocks _ (runWalkResolve ?c ?s0) =>
        destruct (runWalkResolve_clocks c s0) as [A [B [C D]]] end.
      unfold sameClocks. rewrite A, B, C, D. repeat split; try reflexivity.
    + repeat split; reflexivity.
Qed.

Lemma updateLightState_clocks elapsed s :
  sameClocks s (updateLightState elapsed s).
Proof.
  unfold sameClocks, updateLightState. cbv zeta.
  match goal with |- context [match highlightLight ?a with _ => _ end] =>
    destruct (highlightLight a) end; repeat split; reflexivity.
Qed.

Lemma updateWalking_clocks elapsed delta g s :
  0 <= delta ->
  let s' := updateWalking elapsed delta g s in
  walkElapsed (motion s') = walkElapsed (motion s) + delta /\
  (stepPhase (motion s') = stepPhase (motion s) \/
   stepPhase (motion s') = stepPhase (motion s) + delta * bobFrequency * 1.15) /\
  mixer (scene s') = mixer (scene s).
Proof.
  intros Hd s'.
  destruct (Rlt_dec (walkElapsed (motion s) + delta)
                    (Rmax (walkDuration (motion s)) 0.001)) as [Hc | Hc].
  - destruct (updateWalking_continues elapsed delta g s Hc)
      as [_ [_ [A [_ [_ [_ [B [C _]]]]]]]].
    repeat split; [exact A | right; exact B | exact C].
  - assert (Hge : walkElapsed (motion s) + delta
                  >= Rmax (walkDuration (motion s)) 0.001) by lra.
    destruct (updateWalking_arrives elapsed delta g s Hge)
      as [_ [_ [A [_ [_ [_ [B [C _]]]]]]]].
    repeat split; [exact A | left; exact B | exact C].
Qed.

Lemma updateTurningToTarget_yaw delta g s :
  exists g', ariaGroup (scene (updateTurningToTarget delta g s)) = Some g' /\
    ey (rotation g') =
      value (dampRotation (ey (rotation g)) (targetRotation (motion s))
                          turnSpeed delta).
Proof.
  unfold updateTurningToTarget. cbv zeta.
  destruct (finished _); eexists; split; reflexivity.
Qed.

Lemma runWalkResolve_frame (c : WalkResolve) (s : State) :
  scene (runWalkResolve c s) = scene s /\
  motion (runWalkResolve c s) = motion s.
Proof.
  unfold runWalkResolve. cbv zeta.
  destruct (negb _); [split; reflexivity |].
  destruct (pendingWalkTimeout _); split; reflexivity.
Qed.

Lemma updateTurningToCamera_yaw delta cam g s :
  exists g', ariaGroup (scene (updateTurningToCamera delta cam g s)) = Some g' /\
    ey (rotation g') =
      value (dampRotation (ey (rotation g))
               (atan2 (x (subVectors cam (position g)))
                      (z (subVectors cam (position g))))
               turnSpeed delta).
Proof.
  unfold updateTurningToCamera. cbv zeta.
  destruct (finished _); [| eexists; split; reflexivity].
  match goal with |- context [match mixer ?a with _ => _ end] =>
    destruct (mixer a) end.
  all: match goal with |- context [match onWalkComplete ?a with _ => _ end] =>
         destruct (onWalkComplete a) end.
  all: try match goal with
           | |- context [runWalkResolve ?c ?s0] =>
               destruct (runWalkResolve_frame c s0) as [E _]; rewrite E
           end.
  all: eexists; split; reflexivity.
Qed.

(** The time step of a frame whose elapsed time has advanced. *)
Lemma frameDelta_advanced (elapsed last : R) :
  0 < elapsed - last -> frameDelta elapsed last = Rmin 0.05 (elapsed - last).
Proof.
  intros H. unfold frameDelta. cbv zeta. rewrite gtb_true by lra. reflexivity.
Qed.

(** C9. Every call of [updateARIA] applies to the state machine the time
    step [d] that is the raw delta [elapsed - lastUpdateTime] clamped to at
    most 0.05 when the elapsed time has advanced, and 0.016 when it has not
    (raw delta [<= 0]); so [0 < d <= 0.05].  No frame advances the walk time
    by more than 0.05, the stride phase by more than 0.05 times its
    frequency factor, or the mixer clock by more than 0.05; on a loaded
    avatar the mixer advances by [d], the walking state advances the walk
    time by [d], and the turns toward the target and toward the camera are
    damped with [dt = d]. *)
Theorem frame_step_clamped :
  forall (s : State) (elapsed : R) (cameraPosition : Vector3)
         (isSpeaking : bool),
    let d := frameDelta elapsed (lastUpdateTime (motion s)) in
    let s' := updateARIA elapsed cameraPosition isSpeaking s in
    0 < d <= 0.05 /\
    (elapsed - lastUpdateTime (motion s) <= 0 -> d = 0.016) /\
    (0 < elapsed - lastUpdateTime (motion s) ->
     d = Rmin 0.05 (elapsed - lastUpdateTime (motion s))) /\
    0 <= walkElapsed (motion s') - walkElapsed (motion s) <= 0.05 /\
    0 <= stepPhase (motion s') - stepPhase (motion s)
      <= 0.05 * (bobFrequency * 1.15) /\
    (forall t, mixer (scene s) = Some t ->
               exists t', mixer (scene s') = Some t' /\ 0 <= t' - t <= 0.05) /\
    (forall g, ariaGroup (scene s) = Some g ->
       (forall t, mixer (scene s) = Some t ->
                  mixer (scene s') = Some (t + d)) /\
       (ariaState (motion s) = walking ->
        walkElapsed (motion s') = walkElapsed (motion s) + d) /\
       (ariaState (motion s) = turning_to_target ->
        exists g', ariaGroup (scene s') = Some g' /\
          ey (rotation g') =
            value (dampRotation (ey (rotation g)) (targetRotation (motion s))
                                turnSpeed d)) /\
       (ariaState (motion s) = turning_to_camera ->
        exists g', ariaGroup (scene s') = Some g' /\
          ey (rotation g') =
            value (dampRotation (ey (rotation g))
                     (atan2 (x (subVectors cameraPosition (position g)))
                            (z (subVectors cameraPosition (position g))))
                     turnSpeed d))).
Proof.
  intros s elapsed cam sp d s'.
  destruct (frameDelta_bounds elapsed (lastUpdateTime (motion s))) as [Hd Hz].
  fold d in Hd, Hz.
  split; [exact Hd |]. split; [exact Hz |].
  split; [intros Hadv; apply frameDelta_advanced; exact Hadv |].
  unfold s', updateARIA.
  destruct (ariaGroup (scene s)) as [g |] eqn:Eg.
  2:{ replace (walkElapsed (motion s) - walkElapsed (motion s)) with 0 by ring.
      replace (stepPhase (motion s) - stepPhase (motion s)) with 0 by ring.
      unfold bobFrequency.
      repeat split; try lra.
      - intros t Ht. exists t. split; [exact Ht | lra].
      - discriminate.
      - discriminate.
      - discriminate.
      - discriminate. }
  cbv zeta. fold d.
  match goal with
  | |- context [updateLightState _ (match ariaState (motion ?s1) with _ => _ end)] =>
      remember s1 as s1' eqn:Es1
  end.
  assert (H1 : walkElapsed (motion s1') = walkElapsed (motion s) /\
               stepPhase (motion s1') = stepPhase (motion s) /\
               ariaState (motion s1') = ariaState (motion s) /\
               targetRotation (motion s1') = targetRotation (motion s) /\
               mixer (scene s1') = match mixer (scene s) with
                                   | Some t => Some (t + d)
                                   | None => None
                                   end).
  { subst s1'.
    destruct (mixer (scene s)) eqn:Em; simpl; rewrite ?Em;
      destruct (spotLight (scene s)) eqn:Esp; simpl; rewrite ?Esp;
      repeat split; try reflexivity; simpl; rewrite ?Em; reflexivity. }
  destruct H1 as [Hw1 [Hp1 [Hs1 [Ht1 Hm1]]]].
  remember (match ariaState (motion s1') with
            | idle => updateIdle elapsed d cam g s1'
            | turning_to_target => updateTurningToTarget d g s1'
            | walking => updateWalking elapsed d g s1'
            | turning_to_camera => updateTurningToCamera d cam g s1'
            | speaking => updateSpeaking elapsed d cam g s1'
            end) as s2 eqn:Es2.
  destruct (updateLightState_clocks elapsed s2) as [Lw [Lp [Lm _]]].
  destruct (updateLightState_frame elapsed s2) as [_ [_ [_ [Lg _]]]].
  rewrite Lw, Lp, Lm, Lg.
  assert (H2 : (walkElapsed (motion s2) = walkElapsed (motion s1') \/
                (ariaState (motion s1') = walking /\
                 walkElapsed (motion s2) = walkElapsed (motion s1') + d)) /\
               (ariaState (motion s1') = walking ->
                walkElapsed (motion s2) = walkElapsed (motion s1') + d) /\
               (stepPhase (motion s2) = stepPhase (motion s1') \/
                stepPhase (motion s2)
                  = stepPhase (motion s1') + d * bobFrequency * 1.15) /\
               mixer (scene s2) = mixer (scene s1')).
  { subst s2. destruct (ariaState (motion s1')).
    - destruct (updateIdle_clocks elapsed d cam g s1') as [A [B [C _]]].
      repeat split; auto; discriminate.
    - destruct (updateTurningToTarget_clocks d g s1') as [A [B [C _]]].
      repeat split; auto; discriminate.
    - destruct (updateWalking_clocks elapsed d g s1') as [A [B C]]; [lra |].
      repeat split; auto.
    - destruct (updateTurningToCamera_clocks d cam g s1') as [A [B [C _]]].
      repeat split; auto; discriminate.
    - destruct (updateSpeaking_clocks elapsed d cam g s1') as [A [B [C _]]].
      repeat split; auto; discriminate. }
  destruct H2 as [Hw2 [Hw2' [Hp2 Hm2]]].
  rewrite Hm2, Hm1.
  assert (Hfreq : 0 <= d * bobFrequency * 1.15 <= 0.05 * (bobFrequency * 1.15)).
  { unfold bobFrequency. lra. }
  split.
  { destruct Hw2 as [E | [_ E]]; rewrite E, Hw1; lra. }
  split.
  { destruct Hp2 as [E | E]; rewrite E, Hp1; lra. }
  split.
  { intros t Ht. rewrite Ht. exists (t + d). split; [reflexivity | lra]. }
  intros g0 Hg0. injection Hg0 as <-.
  split; [intros t Ht; rewrite Ht; reflexivity |].
  split.
  { intros Hwalk. rewrite Hw2', Hw1; [reflexivity | congruence]. }
  split.
  { intros Hturn. subst s2. rewrite Hs1, Hturn.
    destruct (updateTurningToTarget_yaw d g s1') as [g' [Hg' Hy]].
    exists g'. split; [exact Hg' |]. rewrite Hy, Ht1. reflexivity. }
  intros Hturn. subst s2. rewrite Hs1, Hturn.
  destruct (updateTurningToCamera_yaw d cam g s1') as [g' [Hg' Hy]].
  exists g'. split; [exact Hg' | exact Hy].
Qed.

(** *** Completion on the ground plane and the safety timeout *)

Lemma run_app (s : State) (l1 l2 : list Event) :
  run s (l1 ++ l2) = run (run s l1) l2.
Proof. unfold run. apply fold_left_app. Qed.

Lemma fireTimer_motion (h : Js.TimerId) (s : State) :
  motion (fireTimer h s) = motion s.
Proof.
  unfold fireTimer. destruct (Js.findTimer _ _); [| reflexivity].
  unfold runWalkTimeout.
  destruct (negb _); [reflexivity |].
  change (ariaState (motion (clearTimeout h s))) with (ariaState (motion s)).
  destruct (ariaState (motion s)); try reflexivity; cbv zeta.
  all: match goal with
       | |- context [match onWalkComplete ?a with _ => _ end] =>
           destruct (onWalkComplete a)
       end.
  all: try match goal with
       | |- context [runWalkResolve ?c ?s0] =>
           destruct (runWalkResolve_frame c s0) as [_ E]
       end.
  all: change (motion (resolve ?p ?x)) with (motion x); rewrite ?E.
  all: destruct (ariaGroup (scene s)) eqn:Eg; simpl; rewrite Eg; reflexivity.
Qed.

Lemma updateARIA_endpos elapsed cam sp s :
  walkEndPos (motion (updateARIA elapsed cam sp s)) = walkEndPos (motion s).
Proof.
  unfold updateARIA.
  destruct (ariaGroup (scene s)) as [g |] eqn:Eg; [| reflexivity].
  cbv zeta.
  match goal with
  | |- context [updateLightState _ (match ariaState (motion ?s1) with _ => _ end)] =>
      remember s1 as s1' eqn:Es1
  end.
  assert (H1 : walkEndPos (motion s1') = walkEndPos (motion s)).
  { subst s1'.
    destruct (mixer (scene s)) eqn:Em; simpl; rewrite ?Em;
      destruct (spotLight (scene s)) eqn:Esp; simpl; rewrite ?Esp;
      reflexivity. }
  match goal with
  | |- walkEndPos (motion (updateLightState _ ?s2)) = _ =>
      destruct (updateLightState_clocks elapsed s2) as [_ [_ [_ E]]]; rewrite E
  end.
  rewrite <- H1.
  set (d := frameDelta elapsed (lastUpdateTime (motion s))).
  destruct (ariaState (motion s1')).
  - apply updateIdle_clocks.
  - apply updateTurningToTarget_clocks.
  - destruct (Rlt_dec (walkElapsed (motion s1') + d)
                      (Rmax (walkDuration (motion s1')) 0.001)) as [Hc | Hc].
    + apply (updateWalking_continues elapsed d g s1' Hc).
    + assert (Hge : walkElapsed (motion s1') + d
                    >= Rmax (walkDuration (motion s1')) 0.001) by lra.
      apply (updateWalking_arrives elapsed d g s1' Hge).
  - apply updateTurningToCamera_clocks.
  - apply updateSpeaking_clocks.
Qed.

Lemma walkToPosition_endpos (target : Vector3) (s : State) :
  walkEndPos (motion (snd (walkToPosition target s))) =
    match ariaGroup (scene s) with
    | Some _ => vec (x target) 0 (z target)
    | None => walkEndPos (motion s)
    end.
Proof.
  destruct (ariaGroup (scene s)) as [g |] eqn:Eg.
  - destruct (walkToPosition_motion s g target Eg) as [_ E]. rewrite E. reflexivity.
  - unfold walkToPosition. simpl. rewrite Eg. reflexivity.
Qed.

(** The end point of the walk is on the ground plane in every state the
    module can reach. *)
Lemma run_ground (es : list Event) :
  forall s, y (walkEndPos (motion s)) = 0 ->
            y (walkEndPos (motion (run s es))) = 0.
Proof.
  induction es as [| e es IH]; intros s H; [exact H |].
  simpl. apply IH. destruct e as [a | t | elapsed cam sp | h |]; simpl.
  - unfold loadARIA. destruct a; exact H.
  - rewrite walkToPosition_endpos. destruct (ariaGroup (scene s)); [reflexivity | exact H].
  - rewrite updateARIA_endpos. exact H.
  - rewrite fireTimer_motion. exact H.
  - unfold resetToStart. destruct (ariaGroup (scene s)); [| exact H].
    cbv zeta.
    match goal with
    | |- context [match mixer ?a with _ => _ end] => destruct (mixer a)
    end; exact H.
Qed.

Lemma setY_ground (v : Vector3) : y v = 0 -> setY v 0 = v.
Proof. destruct v as [a b c]. simpl. intros ->. reflexivity. Qed.

Lemma updateARIA_walking elapsed cam sp s g :
  ariaGroup (scene s) = Some g ->
  ariaState (motion s) = walking ->
  exists s1,
    updateARIA elapsed cam sp s =
      updateLightState elapsed
        (updateWalking elapsed (frameDelta elapsed (lastUpdateTime (motion s)))
                       g s1) /\
    walkElapsed (motion s1) = walkElapsed (motion s) /\
    walkDuration (motion s1) = walkDuration (motion s) /\
    walkEndPos (motion s1) = walkEndPos (motion s) /\
    ariaState (motion s1) = walking.
Proof.
  intros Hg Hw. unfold updateARIA. rewrite Hg. cbv zeta.
  match goal with
  | |- context [updateLightState _ (match ariaState (motion ?s1) with _ => _ end)] =>
      exists s1
  end.
  destruct (mixer (scene s)) eqn:Em; simpl; rewrite ?Em;
    destruct (spotLight (scene s)) eqn:Esp; simpl; rewrite ?Esp;
    repeat split; try reflexivity; try exact Hw.
  all: match goal with
       | |- context [match ariaState (motion ?X) with _ => _ end] =>
           replace (ariaState (motion X)) with walking by (symmetry; exact Hw)
       end; reflexivity.
Qed.

(** What a firing safety timeout does, in a consistent state. *)
Lemma fireTimer_cases (h : Js.TimerId) (t : WalkTimeout) (s : State) :
  consistent s ->
  Js.findTimer h (timers (runtime s)) = Some t ->
  let s' := fireTimer h s in
  let cb := {| wr_requestId := wt_requestId t; wr_promise := wt_promise t |} in
  resolveCount (wt_promise t) s = 0%nat /\
  onWalkComplete (completion s) = Some cb /\
  ((ariaState (motion s) = idle \/ ariaState (motion s) = speaking) ->
   scene s' = scene s /\ completion s' = completion s /\
   resolveLog (runtime s') = resolveLog (runtime s) /\
   callbackLog (runtime s') = callbackLog (runtime s) /\
   warnings (runtime s') = warnings (runtime s)) /\
  (ariaState (motion s) <> idle -> ariaState (motion s) <> speaking ->
   (exists g g',
       ariaGroup (scene s) = Some g /\ ariaGroup (scene s') = Some g' /\
       position g' = setY (walkEndPos (motion s)) 0 /\
       rotation g' = rotation g) /\
   callbackLog (runtime s') = cb :: callbackLog (runtime s) /\
   resolveLog (runtime s') =
     wt_promise t :: wt_promise t :: resolveLog (runtime s) /\
   warnings (runtime s') = S (warnings (runtime s)) /\
   noWalkPending s').
Proof.
  intros [Hfresh Hshape] Ef.
  destruct Hshape as [[_ [_ [Hnil _]]] | [p Hp]];
    [rewrite Hnil in Ef; discriminate |].
  destruct Hp as [Hag [Hpwr [Howc [Hlt [Hzero [Hothers Htimers]]]]]].
  destruct Htimers as [Hnil | [h0 [d [Etm Eh]]]];
    [rewrite Hnil in Ef; discriminate |].
  rewrite Etm in Ef. apply findTimer_single in Ef. destruct Ef as [-> ->].
  unfold noWalkPending, resolveCount in *.
  break_state s. simpl in *. subst.
  destruct ag as [g |]; [| congruence].
  split; [exact Hzero |]. split; [reflexivity |].
  unfold fireTimer, Js.findTimer. simpl. rewrite Nat.eqb_refl.
  unfold runWalkTimeout, clearTimeout, Js.clearTimeout. simpl.
  rewrite !Nat.eqb_refl. simpl.
  split.
  - intros [E | E]; rewrite E; simpl; repeat split; reflexivity.
  - intros Hi Hs.
    destruct (ariaState mo); try congruence; simpl.
    all: unfold runWalkResolve; simpl; rewrite ?Nat.eqb_refl; simpl.
    all: split; [exists g; eexists; repeat split; reflexivity |].
    all: repeat split; try reflexivity.
    all: intros q Hq; destruct (Nat.eq_dec p q);
      [lia | apply Hothers; [exact Hq | congruence]].
Qed.

(** C10. In every state the module can reach, [walkToPosition] leaves a walk
    end point whose [y] is 0, and on a loaded avatar that end point is the
    requested target with its [y] forced to 0.  Consequently, when a walk
    completes, the position of the avatar has [y] exactly 0 and is the walk
    end point: both when a frame of the walking state reaches progress 1
    (the state becomes [turning_to_camera]) and when the safety timeout
    forces completion (the one place that warns). *)
Theorem walk_completes_on_ground :
  forall (es : list Event) (target : Vector3),
    let s := run initial es in
    let s1 := snd (walkToPosition target s) in
    y (walkEndPos (motion s1)) = 0 /\
    (ariaGroup (scene s) <> None ->
     walkEndPos (motion s1) = vec (x target) 0 (z target)) /\
    (forall elapsed cameraPosition isSpeaking,
        let s' := updateARIA elapsed cameraPosition isSpeaking s in
        ariaState (motion s) = walking ->
        ariaState (motion s') = turning_to_camera ->
        exists g, ariaGroup (scene s') = Some g /\
                  position g = walkEndPos (motion s) /\
                  y (position g) = 0) /\
    (forall h,
        let s' := fireTimer h s in
        (warnings (runtime s) < warnings (runtime s'))%nat ->
        exists g, ariaGroup (scene s') = Some g /\
                  position g = walkEndPos (motion s) /\
                  y (position g) = 0).
Proof.
  intros es target s s1.
  assert (Hground : y (walkEndPos (motion s)) = 0)
    by (apply run_ground; reflexivity).
  assert (Hcons : consistent s) by apply run_consistent.
  split.
  { unfold s1. rewrite walkToPosition_endpos.
    destruct (ariaGroup (scene s)); [reflexivity | exact Hground]. }
  split.
  { intros Hne. unfold s1. rewrite walkToPosition_endpos.
    destruct (ariaGroup (scene s)); [reflexivity | congruence]. }
  split.
  - intros elapsed cam sp s' Hw Ht.
    destruct (ariaGroup (scene s)) as [g |] eqn:Eg.
    2:{ unfold s', updateARIA in Ht. rewrite Eg in Ht. congruence. }
    destruct (updateARIA_walking elapsed cam sp s g Eg Hw)
      as [s0 [E [He [Hd [Hend Hw0]]]]].
    fold s' in E.
    destruct (updateLightState_frame elapsed
                (updateWalking elapsed
                   (frameDelta elapsed (lastUpdateTime (motion s))) g s0))
      as [Lm [_ [_ [Lg _]]]].
    rewrite <- E in Lm, Lg.
    set (d := frameDelta elapsed (lastUpdateTime (motion s))) in *.
    destruct (Rlt_dec (walkElapsed (motion s0) + d)
                      (Rmax (walkDuration (motion s0)) 0.001)) as [Hc | Hc].
    + destruct (updateWalking_continues elapsed d g s0 Hc) as [Hst _].
      rewrite Lm, Hst, Hw0 in Ht. discriminate.
    + assert (Hge : walkElapsed (motion s0) + d
                    >= Rmax (walkDuration (motion s0)) 0.001) by lra.
      destruct (updateWalking_arrives elapsed d g s0 Hge) as [_ [Hg' _]].
      rewrite Lg, Hg'. eexists. split; [reflexivity |]. cbn [position].
      rewrite Hend. split; [apply setY_ground; exact Hground | reflexivity].
  - intros h s' Hwarn.
    destruct (Js.findTimer h (timers (runtime s))) as [t |] eqn:Ef.
    2:{ unfold s', fireTimer in Hwarn. rewrite Ef in Hwarn. lia. }
    destruct (fireTimer_cases h t s Hcons Ef) as [_ [_ [Hidle Hforced]]].
    fold s' in Hidle, Hforced.
    destruct (ariaState (motion s)) eqn:Est.
    1, 5: (destruct Hidle as [_ [_ [_ [_ Hw]]]]; [auto | lia]).
    all: destruct Hforced as [[g [g' [_ [Hg' [Hp _]]]]] _]; try discriminate.
    all: exists g'; rewrite Hp, (setY_ground _ Hground);
      repeat split; [exact Hg' | exact Hground].
Qed.

Lemma walk_completes_on_ground_witness :
  y (walkEndPos
       (motion (snd (walkToPosition (vec 3 1.7 (-4))
                       (run initial [Loaded true]))))) = 0 /\
  walkEndPos
    (motion (snd (walkToPosition (vec 3 1.7 (-4))
                    (run initial [Loaded true])))) = vec 3 0 (-4).
Proof.
  destruct (walk_completes_on_ground [Loaded true] (vec 3 1.7 (-4)))
    as [H0 [H1 _]].
  split; [exact H0 |]. apply H1. discriminate.
Defined.

(** C8, as amended.  Every [walkToPosition] call on a loaded avatar arms
    one safety timeout, with a delay of [max(8000, duration * 1500)] ms, that
    is [max(8, duration * 1.5)] s, and leaves no other timer armed.  When an
    armed safety timeout fires, its promise has not been resolved yet; if
    the state is [idle] or [speaking] nothing is forced (scene, resolve log
    and callback log are unchanged); in any other state the position is
    snapped to the walk end point, the pending completion closure is invoked
    exactly once, the promise is settled, and no walk is left pending. *)
Theorem safety_timeout :
  forall (es later : list Event) (g : Object3D) (target : Vector3),
    let s := run initial es in
    ariaGroup (scene s) = Some g ->
    let p := fst (walkToPosition target s) in
    let s1 := snd (walkToPosition target s) in
    (exists h,
        pendingWalkTimeout (completion s1) = Some h /\
        timers (runtime s1) =
          [(h, {| wt_requestId := walkRequestId (completion s1);
                  wt_promise := p;
                  wt_delayMs := Rmax 8000 (walkDuration (motion s1) * 1500) |})] /\
        Rmax 8000 (walkDuration (motion s1) * 1500) / 1000
          = Rmax 8 (walkDuration (motion s1) * 1.5)) /\
    forall (h : Js.TimerId) (t : WalkTimeout),
      let s2 := run s1 later in
      Js.findTimer h (timers (runtime s2)) = Some t ->
      let s3 := fireTimer h s2 in
      let cb := {| wr_requestId := wt_requestId t;
                   wr_promise := wt_promise t |} in
      resolveCount (wt_promise t) s2 = 0%nat /\
      ((ariaState (motion s2) = idle \/ ariaState (motion s2) = speaking) ->
       scene s3 = scene s2 /\
       resolveLog (runtime s3) = resolveLog (runtime s2) /\
       callbackLog (runtime s3) = callbackLog (runtime s2)) /\
      (ariaState (motion s2) <> idle -> ariaState (motion s2) <> speaking ->
       (exists g3, ariaGroup (scene s3) = Some g3 /\
                   position g3 = walkEndPos (motion s2)) /\
       callbackLog (runtime s3) = cb :: callbackLog (runtime s2) /\
       Js.settled (wt_promise t) (resolveLog (runtime s3)) = true /\
       noWalkPending s3).
Proof.
  intros es later g target s Hg p s1.
  assert (Hcons : consistent s) by apply run_consistent.
  split.
  - destruct (walkToPosition_motion s g target Hg) as [_ Hm]. fold s1 in Hm.
    assert (Hdur : forall w, Rmax 8000 (w * 1500) / 1000 = Rmax 8 (w * 1.5)).
    { intros w. unfold Rmax.
      destruct (Rle_dec 8000 (w * 1500)), (Rle_dec 8 (w * 1.5)); lra. }
    destruct Hcons as [Hfresh Hshape].
    unfold s1, p in *. clear s1 p.
    unfold noWalkPending, walkPending, resolveCount in *.
    break_state s. simpl in *. subst ag.
    unfold walkToPosition in *. simpl in *.
    destruct Hshape as [[Hpwr [Howc [Htm Hall]]] | [q Hq]].
    + subst pwr owc tm.
      destruct pwt as [h0 |]; simpl in *; exists nt;
        (split; [reflexivity | split; [reflexivity | apply Hdur]]).
    + destruct Hq as [_ [Hpwr [Howc [Hlt [Hzero [Hothers Htimers]]]]]].
      subst pwr owc. unfold runWalkResolve in *. simpl in *.
      rewrite Nat.eqb_refl in *. simpl in *.
      assert (Ht : match pwt with
                   | Some h => Js.clearTimeout h tm
                   | None => tm
                   end = []).
      { destruct Htimers as [-> | [h [d [-> Eh]]]].
        - destruct pwt; reflexivity.
        - rewrite Eh. apply clearTimeout_single. }
      destruct pwt as [h0 |]; simpl in *; rewrite Ht; exists nt;
        (split; [reflexivity | split; [reflexivity | apply Hdur]]).
  - intros h t s2 Ef s3 cb.
    assert (Hs2 : s2 = run initial (es ++ WalkTo target :: later)).
    { unfold s2, s1, s. rewrite run_app. reflexivity. }
    assert (Hcons2 : consistent s2) by (rewrite Hs2; apply run_consistent).
    assert (Hground : y (walkEndPos (motion s2)) = 0)
      by (rewrite Hs2; apply run_ground; reflexivity).
    destruct (fireTimer_cases h t s2 Hcons2 Ef) as [Hz [_ [Hidle Hforced]]].
    fold s3 in Hidle, Hforced.
    split; [exact Hz |]. split.
    + intros Hi. destruct (Hidle Hi) as [A [_ [B [C _]]]]. repeat split; assumption.
    + intros Hi Hsp.
      destruct (Hforced Hi Hsp) as [[g2 [g3 [_ [Hg3 [Hp _]]]]] [Hcb [Hlog [_ Hnone]]]].
      split; [exists g3; split; [exact Hg3 |];
              rewrite Hp; apply setY_ground; exact Hground |].
      split; [exact Hcb |]. split; [| exact Hnone].
      rewrite Hlog. simpl. rewrite Nat.eqb_refl. reflexivity.
Qed.

Lemma safety_timeout_witness :
  ariaGroup (scene (run initial [Loaded true]))
    = Some {| position := ARIA_START_POS;
              rotation := {| ex := 0; ey := 0; ez := 0 |} |} /\
  exists h,
    pendingWalkTimeout
      (completion (snd (walkToPosition (vec 6 0 (-5))
                          (run initial [Loaded true])))) = Some h.
Proof.
  assert (H : ariaGroup (scene (run initial [Loaded true]))
              = Some {| position := ARIA_START_POS;
                        rotation := {| ex := 0; ey := 0; ez := 0 |} |})
    by reflexivity.
  split; [exact H |].
  destruct (safety_timeout [Loaded true] [] _ (vec 6 0 (-5)) H)
    as [[h [Hh _]] _].
  exists h. exact Hh.
Defined.

(** C8, as stated, fails before the avatar has loaded: the call resolves
    its promise at once and arms no timeout. *)
Lemma safety_timeout_not_armed_without_avatar :
  timers (runtime (snd (walkToPosition (vec 6 0 (-5)) initial))) = [] /\
  pendingWalkTimeout (completion (snd (walkToPosition (vec 6 0 (-5)) initial)))
    = None /\
  resolveLog (runtime (snd (walkToPosition (vec 6 0 (-5)) initial)))
    = [fst (walkToPosition (vec 6 0 (-5)) initial)].
Proof. repeat split; reflexivity. Qed.

End AriaFacts.

(** ** The path of the product cinematic *)

Module CinematicFacts.

Import Three JsMath Cinematic JsFacts.

Lemma pathPoints_length bounds productPosition options cameraPosition :
  length (pathPoints bounds productPosition options cameraPosition)
    = S (S (orElse (o_segments options) 7%nat)).
Proof.
  unfold pathPoints. cbv zeta. simpl length.
  rewrite length_map, length_seq. reflexivity.
Qed.

Lemma pathPoints_orbit bounds productPosition options cameraPosition (i : nat) :
  (i <= orElse (o_segments options) 7%nat)%nat ->
  nth_error (pathPoints bounds productPosition options cameraPosition) (S i) =
    Some (orbitPoint (cinematicTarget bounds productPosition)
            (cinematicRadius bounds (cinematicTarget bounds productPosition)
                             options)
            (cinematicHeight bounds (cinematicTarget bounds productPosition)
                             options)
            (startAngle cameraPosition
                        (cinematicTarget bounds productPosition))
            (orElse (o_segments options) 7%nat) i).
Proof.
  intros Hi. unfold pathPoints. cbv zeta. cbn [nth_error].
  rewrite nth_error_map.
  assert (E : nth_error (seq 0 (S (orElse (o_segments options) 7%nat))) i = Some i).
  { rewrite nth_error_seq.
    destruct (Nat.ltb_spec i (S (orElse (o_segments options) 7%nat))); [reflexivity | lia]. }
  rewrite E. reflexivity.
Qed.

Lemma orbitPoint_first target radius height angle0 segments :
  (0 < segments)%nat ->
  orbitPoint target radius height angle0 segments 0 =
    Some (vec (x target + cos angle0 * radius) height
              (z target + sin angle0 * radius)).
Proof.
  intros Hs. unfold orbitPoint. destruct segments as [| n]; [lia |].
  cbv zeta. simpl (INR 0).
  replace (0 / INR (S n)) with 0 by (unfold Rdiv; ring).
  replace (angle0 + PI * 2 * 0) with angle0 by ring.
  replace (0 * PI * 2) with 0 by ring.
  rewrite sin_0. f_equal. f_equal. ring.
Qed.

Lemma orbitPoint_last target radius height angle0 segments :
  (0 < segments)%nat ->
  orbitPoint target radius height angle0 segments segments =
    Some (vec (x target + cos angle0 * radius) height
              (z target + sin angle0 * radius)).
Proof.
  intros Hs. unfold orbitPoint. destruct segments as [| n]; [lia |].
  cbv zeta.
  assert (Hn : INR (S n) <> 0) by (apply not_0_INR; lia).
  replace (INR (S n) / INR (S n)) with 1 by (field; exact Hn).
  replace (angle0 + PI * 2 * 1) with (angle0 + 2 * PI) by ring.
  replace (1 * PI * 2) with (2 * PI) by ring.
  rewrite cos_plus, sin_plus, cos_2PI, sin_2PI. f_equal. f_equal; ring.
Qed.

Lemma orbitPoint_numbers target radius height angle0 segments i :
  (0 < segments)%nat ->
  orbitPoint target radius height angle0 segments i =
    Some (vec (x target
               + cos (angle0 + PI * 2 * (INR i / INR segments)) * radius)
              (height + sin (INR i / INR segments * PI * 2) * 0.2)
              (z target
               + sin (angle0 + PI * 2 * (INR i / INR segments)) * radius)).
Proof.
  intros Hs. unfold orbitPoint. destruct segments as [| n]; [lia |].
  reflexivity.
Qed.

(** C6, as amended.  The path of the product cinematic starts with the
    current position of the camera and continues with exactly [segments + 1]
    orbit points, [segments + 2] control points in all.  When [segments] is
    not 0, orbit point [i] lies at the angle [startAngle + 2 PI i / segments]
    around the target, where [startAngle] is the bearing of the camera, at
    the given radius, lifted by [0.2 sin (2 PI i / segments)] above the
    given height; when [segments] is 0, the one orbit point has no numbers
    for coordinates.  For centre [(0,0,-5)], radius 3, height 1.5, 4
    segments and start angle 0 the path has 6 points; orbit point 0 (entry 1
    of the path) is [(3, 1.5, -5)] and orbit point 4 (entry 5), at the angle
    [2 PI], coincides with it. *)
Theorem cinematic_path_points :
  forall (bounds : option Bounds) (productPosition : Vector3)
         (options : Options) (cameraPosition : Vector3),
    let target := cinematicTarget bounds productPosition in
    let radius := cinematicRadius bounds target options in
    let height := cinematicHeight bounds target options in
    let segments := orElse (o_segments options) 7%nat in
    let angle0 := startAngle cameraPosition target in
    let path := pathPoints bounds productPosition options cameraPosition in
    length path = S (S segments) /\
    nth_error path 0 = Some (Some cameraPosition) /\
    (segments <> 0%nat ->
     forall i, (i <= segments)%nat ->
       nth_error path (S i) =
         Some (Some
           (vec (x target
                 + cos (angle0 + PI * 2 * (INR i / INR segments)) * radius)
                (height + sin (INR i / INR segments * PI * 2) * 0.2)
                (z target
                 + sin (angle0 + PI * 2 * (INR i / INR segments)) * radius)))) /\
    (segments = 0%nat -> nth_error path 1 = Some None) /\
    (bounds = None -> productPosition = vec 0 0 (-5) ->
     o_radius options = Some 3 -> o_height options = Some 1.5 ->
     o_segments options = Some 4%nat -> angle0 = 0 ->
     length path = 6%nat /\
     nth_error path 1 = Some (Some (vec 3 1.5 (-5))) /\
     nth_error path 5 = Some (Some (vec 3 1.5 (-5)))).
Proof.
  intros bounds productPosition options cameraPosition
         target radius height segments angle0 path.
  split; [apply pathPoints_length |].
  split; [reflexivity |].
  split.
  { intros Hne i Hi. unfold path. rewrite pathPoints_orbit by exact Hi.
    fold target radius height angle0 segments.
    rewrite orbitPoint_numbers by lia. reflexivity. }
  split.
  { intros Hz. unfold path. rewrite pathPoints_orbit by lia.
    fold target radius height angle0 segments. rewrite Hz. reflexivity. }
  intros Hb Hp Hr Hh Hs Ha.
  assert (Eseg : segments = 4%nat) by (unfold segments; rewrite Hs; reflexivity).
  assert (Etx : x target = 0)
    by (unfold target; rewrite Hb, Hp; reflexivity).
  assert (Etz : z target = -5)
    by (unfold target; rewrite Hb, Hp; reflexivity).
  assert (Erad : radius = 3).
  { unfold radius, cinematicRadius. fold target. rewrite Etx, Hr, Rabs_R0.
    rewrite gtb_false by lra. reflexivity. }
  assert (Ehei : height = 1.5)
    by (unfold height, cinematicHeight; rewrite Hh; reflexivity).
  split.
  { unfold path. rewrite pathPoints_length. fold segments. rewrite Eseg. reflexivity. }
  split.
  - unfold path. rewrite pathPoints_orbit by lia.
    fold target radius height angle0 segments.
    rewrite orbitPoint_first by lia.
    rewrite Ha, Etx, Etz, Erad, Ehei, cos_0, sin_0.
    f_equal. f_equal. unfold vec. f_equal; ring.
  - unfold path.
    rewrite (pathPoints_orbit bounds productPosition options cameraPosition 4)
      by (fold segments; lia).
    fold target radius height angle0 segments. rewrite Eseg.
    rewrite orbitPoint_last by lia.
    rewrite Ha, Etx, Etz, Erad, Ehei, cos_0, sin_0.
    f_equal. f_equal. unfold vec. f_equal; ring.
Qed.

Lemma example_startAngle :
  startAngle (vec 5 2 (-5)) (cinematicTarget None (vec 0 0 (-5))) = 0.
Proof.
  unfold startAngle, cinematicTarget. simpl.
  replace (-5 - -5) with 0 by ring. apply atan2_zero_right. lra.
Qed.

Lemma cinematic_path_points_witness :
  nth_error (pathPoints None (vec 0 0 (-5)) exampleOptions (vec 5 2 (-5))) 1
    = Some (Some (vec 3 1.5 (-5))) /\
  nth_error (pathPoints None (vec 0 0 (-5)) exampleOptions (vec 5 2 (-5))) 5
    = Some (Some (vec 3 1.5 (-5))).
Proof.
  destruct (cinematic_path_points None (vec 0 0 (-5)) exampleOptions
              (vec 5 2 (-5))) as [_ [_ [_ [_ H]]]].
  destruct (H eq_refl eq_refl eq_refl eq_refl eq_refl example_startAngle)
    as [_ [A B]].
  split; [exact A | exact B].
Defined.

(** C6, as stated, fails: for the example the path has 6 position points,
    not 5; its point 0 is the position of the camera, not [(3, 1.5, -5)];
    and its point 4 (the orbit point at three quarters of the turn) does not
    coincide with its point 0. *)
Lemma cinematic_path_has_six_points :
  startAngle (vec 5 2 (-5)) (cinematicTarget None (vec 0 0 (-5))) = 0 /\
  length (pathPoints None (vec 0 0 (-5)) exampleOptions (vec 5 2 (-5)))
    = 6%nat /\
  nth_error (pathPoints None (vec 0 0 (-5)) exampleOptions (vec 5 2 (-5))) 0
    = Some (Some (vec 5 2 (-5))) /\
  nth_error (pathPoints None (vec 0 0 (-5)) exampleOptions (vec 5 2 (-5))) 0
    <> Some (Some (vec 3 1.5 (-5))) /\
  nth_error (pathPoints None (vec 0 0 (-5)) exampleOptions (vec 5 2 (-5))) 4
    <> nth_error (pathPoints None (vec 0 0 (-5)) exampleOptions (vec 5 2 (-5))) 0.
Proof.
  split; [exact example_startAngle |].
  split; [apply pathPoints_length |].
  split; [reflexivity |].
  split.
  - cbn [pathPoints nth_error]. intros H.
    apply (f_equal (fun o => match o with
                             | Some (Some v) => x v
                             | _ => 0
                             end)) in H.
    simpl in H. lra.
  - rewrite (pathPoints_orbit None (vec 0 0 (-5)) exampleOptions (vec 5 2 (-5)) 3)
      by (simpl; lia).
    cbn [pathPoints nth_error]. intros H.
    apply (f_equal (fun o => match o with
                             | Some (Some v) => y v
                             | _ => 0
                             end)) in H.
    unfold orbitPoint, cinematicHeight, exampleOptions, orElse in H. simpl in H.
    assert (E : (1 + 1 + 1) / (1 + 1 + 1 + 1) * PI * 2 = 3 * (PI / 2)) by field.
    rewrite E, sin_3PI2 in H. lra.
Qed.

End CinematicFacts.

(** ** The camera controller *)

Module CameraFacts.

Import JsMath Camera JsFacts.

Local Arguments Js.resolveCount : simpl never.

Ltac cam_break s :=
  destruct s as [[it ifa io ito tp tt td tl tb otc tr ttw ce]
                 [gs tws tms ntw nti npr rlog ulog]].

Lemma orphaned_spec (p : Js.PromiseId) (s : State) :
  orphaned p s = true <->
  (p < nextPromise (runtime s))%nat /\
  holds p (onTourComplete (controller s)) = false /\
  holds p (transitionResolve (controller s)) = false /\
  Forall (fun t => holds p (tw_onComplete (snd t)) = false) (tweens (runtime s)) /\
  Forall (fun t => mentions p (snd t) = false) (timers (runtime s)).
Proof.
  unfold orphaned. rewrite !andb_true_iff, !negb_true_iff, !forallb_forall, !Forall_forall.
  rewrite Nat.ltb_lt.
  split.
  - intros [[[[A B] C] D] E]. repeat split; auto.
    + intros t Ht. apply negb_true_iff. apply D. exact Ht.
    + intros t Ht. apply negb_true_iff. apply E. exact Ht.
  - intros [A [B [C [D E]]]]. repeat split; auto.
    + intros t Ht. apply negb_true_iff. apply D. exact Ht.
    + intros t Ht. apply negb_true_iff. apply E. exact Ht.
Qed.

Lemma Forall_filter {A : Type} (P : A -> Prop) (f : A -> bool) (l : list A) :
  Forall P l -> Forall P (filter f l).
Proof.
  intros H. apply (incl_Forall (incl_filter f l) H).
Qed.

Lemma keeps_id p : keeps p (fun s => s).
Proof. intros s H. split; [exact H | reflexivity]. Qed.

Lemma keeps_compose p f g : keeps p f -> keeps p g -> keeps p (fun s => g (f s)).
Proof.
  intros Hf Hg s H. destruct (Hf s H) as [A B]. destruct (Hg (f s) A) as [C D].
  split; [exact C | congruence].
Qed.

Lemma keeps_call p c : mentions p c = false -> keeps p (call c).
Proof.
  intros Hm s H. apply orphaned_spec in H. destruct H as [A [B [C [D E]]]].
  rewrite orphaned_spec. unfold resolveCount.
  cam_break s. simpl in *.
  destruct c as [q | inner q | q | n]; simpl in *.
  - destruct tr; simpl.
    + apply Nat.eqb_neq in Hm. rewrite resolveCount_other by congruence.
      repeat split; auto.
    + repeat split; auto.
  - apply Nat.eqb_neq in Hm.
    destruct inner; simpl; rewrite resolveCount_other by congruence; repeat split; auto.
  - apply Nat.eqb_neq in Hm. rewrite resolveCount_other by congruence. repeat split; auto.
  - repeat split; auto.
Qed.

Ltac keeps_start s H :=
  intros s H; apply orphaned_spec in H;
  destruct H as [Hlt [Hotc [Htr [Htw Htm]]]];
  rewrite orphaned_spec; unfold resolveCount;
  cam_break s; simpl in *.

Ltac keeps_finish :=
  repeat split; auto; repeat apply Forall_filter; auto.

Lemma keeps_followARIA p a : keeps p (followARIA a).
Proof. keeps_start s H. unfold followARIA. simpl. destruct io; simpl; keeps_finish. Qed.

Lemma keeps_enableOrbitMode p : keeps p enableOrbitMode.
Proof. keeps_start s H. keeps_finish. Qed.

Lemma keeps_disableOrbitMode p : keeps p disableOrbitMode.
Proof. keeps_start s H. keeps_finish. Qed.

Lemma keeps_resolve p q : q <> p -> keeps p (resolve q).
Proof.
  intros Hq. keeps_start s H. rewrite resolveCount_other by exact Hq. keeps_finish.
Qed.

Lemma keeps_clearTimeout p h : keeps p (clearTimeout h).
Proof. keeps_start s H. unfold Js.clearTimeout. keeps_finish. Qed.

Lemma keeps_cancelTransition p : keeps p cancelTransition.
Proof.
  keeps_start s H. unfold cancelTransition. simpl.
  destruct gs; simpl.
  - destruct ttw as [i |]; simpl; destruct tr as [c |]; simpl;
      try (destruct c; simpl in *);
      try (apply Nat.eqb_neq in Htr);
      try (match goal with |- context [match ?o with Some _ => _ | None => _ end] =>
             destruct o end; simpl);
      rewrite ?resolveCount_other by congruence; keeps_finish.
  - destruct tr as [c |]; simpl;
      try (destruct c; simpl in *);
      try (apply Nat.eqb_neq in Htr);
      try (match goal with |- context [match ?o with Some _ => _ | None => _ end] =>
             destruct o end; simpl);
      rewrite ?resolveCount_other by congruence; keeps_finish.
Qed.

Lemma keeps_stopTour p : keeps p stopTour.
Proof.
  keeps_start s H. unfold stopTour. simpl.
  destruct ito; simpl; [| keeps_finish].
  destruct otc as [c |]; simpl; [| keeps_finish].
  destruct c as [q | inner q | q | n]; simpl in *;
    try (apply Nat.eqb_neq in Hotc).
  - destruct tr; simpl; rewrite ?resolveCount_other by congruence; keeps_finish.
  - destruct inner; simpl; rewrite ?resolveCount_other by congruence; keeps_finish.
  - rewrite ?resolveCount_other by congruence; keeps_finish.
  - keeps_finish.
Qed.

Lemma keeps_stopShowroomTour p : keeps p stopShowroomTour.
Proof. keeps_start s H. keeps_finish. Qed.

Lemma neq_of_lt (p n : nat) : (p < n)%nat -> (p =? n)%nat = false.
Proof. intros H. apply Nat.eqb_neq. lia. Qed.

Ltac keeps_cases :=
  repeat (first
    [ match goal with
      | |- context [if ?b then _ else _] => is_var b; destruct b
      | |- context [match ?o with Some _ => _ | None => _ end] =>
          is_var o; destruct o
      | |- context [match ?c with Finish _ => _ | PlayTourComplete _ _ => _
                                | Resolver _ => _ | User _ => _ end] =>
          is_var c; destruct c
      end ]; simpl in *).

Ltac keeps_solve :=
  repeat match goal with
         | H : (_ =? _)%nat = false |- _ => apply Nat.eqb_neq in H
         end;
  rewrite ?resolveCount_other by congruence;
  repeat split; auto; try lia;
  rewrite ?Forall_app; repeat split;
  repeat apply Forall_filter; auto;
  try (repeat constructor; simpl; try (apply Nat.eqb_neq; lia); auto).

Lemma keeps_startTour p loop duration blend onComplete :
  holds p onComplete = false ->
  keeps p (startTour loop duration blend onComplete).
Proof.
  intros Hoc. keeps_start s H.
  unfold startTour, cancelTransition, disableOrbitMode, call. simpl.
  destruct loop as [[|] |]; simpl; keeps_cases; keeps_solve.
Qed.

Lemma keeps_transitionTo p type duration :
  keeps p (fun s => snd (transitionTo type duration s)).
Proof.
  keeps_start s H.
  unfold transitionTo, cancelTransition, disableOrbitMode, call. simpl.
  pose proof (neq_of_lt p npr Hlt) as Hfresh.
  destruct type; simpl; keeps_cases; rewrite ?Hfresh; keeps_solve.
Qed.

Lemma keeps_newPromise p : keeps p (fun s => snd (newPromise s)).
Proof. keeps_start s H. keeps_solve. Qed.

Lemma keeps_killTween p i : keeps p (killTween i).
Proof. keeps_start s H. keeps_solve. Qed.

Lemma keeps_setter p f :
  (forall c, onTourComplete (f c) = onTourComplete c) ->
  (forall c, transitionResolve (f c) = transitionResolve c) ->
  keeps p (withController f).
Proof.
  intros Ha Hb. intros s H. apply orphaned_spec in H.
  destruct H as [Hlt [Hotc [Htr [Htw Htm]]]].
  rewrite orphaned_spec. unfold resolveCount. simpl. rewrite Ha, Hb.
  repeat split; auto.
Qed.

Lemma keeps_dropTourCallback p :
  keeps p (withController (setOnTourComplete None)).
Proof. keeps_start s H. keeps_solve. Qed.

Lemma keeps_playTour p loop duration blend onComplete :
  keeps p (fun s => snd (playTour loop duration blend onComplete s)).
Proof.
  intros s H. unfold playTour.
  destruct (keeps_newPromise p s H) as [A B].
  assert (Hlt : (p < nextPromise (runtime s))%nat).
  { apply orphaned_spec in H. tauto. }
  change (snd (let (p0, s0) := newPromise s in
               (p0, startTour (Some match loop with Some b => b | None => false end)
                              duration blend
                              (Some (PlayTourComplete onComplete p0)) s0)))
    with (startTour (Some match loop with Some b => b | None => false end)
                    duration blend
                    (Some (PlayTourComplete onComplete (nextPromise (runtime s))))
                    (snd (newPromise s))).
  destruct (keeps_startTour p
              (Some match loop with Some b => b | None => false end)
              duration blend
              (Some (PlayTourComplete onComplete (nextPromise (runtime s))))
              (neq_of_lt _ _ Hlt) _ A) as [C D].
  split; [exact C | congruence].
Qed.

Lemma keeps_playProductCinematic p duration blend :
  keeps p (fun s => snd (playProductCinematic duration blend s)).
Proof. unfold playProductCinematic. apply keeps_playTour. Qed.

Lemma keeps_frameAriaAndProduct p duration :
  keeps p (fun s => snd (frameAriaAndProduct duration s)).
Proof. unfold frameAriaAndProduct. apply keeps_transitionTo. Qed.

Lemma keeps_update p delta : keeps p (update delta).
Proof.
  intros s H. unfold update. cbv zeta.
  destruct (isOrbiting (controller s)); [apply keeps_id; exact H |].
  destruct (isTouring (controller s)); [| apply keeps_id; exact H].
  destruct (negb (tourPath (controller s))); [apply keeps_id; exact H |].
  match goal with
  | |- context [if ?b then _ else _] => destruct b
  end.
  - assert (Hotc : holds p (onTourComplete (controller s)) = false)
      by (apply orphaned_spec in H; tauto).
    assert (K1 : keeps p (withController (setTourTime (tourTime (controller s) + delta))))
      by (apply keeps_setter; reflexivity).
    assert (K2 : keeps p (withController (setIsTouring false)))
      by (apply keeps_setter; reflexivity).
    destruct (K1 s H) as [A1 B1]. destruct (K2 _ A1) as [A2 B2].
    change (onTourComplete (controller (withController (setIsTouring false)
              (withController (setTourTime (tourTime (controller s) + delta)) s))))
      with (onTourComplete (controller s)).
    destruct (onTourComplete (controller s)) as [c |].
    + destruct (keeps_dropTourCallback p _ A2) as [A3 B3].
      destruct (keeps_call p c Hotc _ A3) as [A4 B4].
      split; [exact A4 | congruence].
    + split; [exact A2 | congruence].
  - apply (keeps_setter p (setTourTime (tourTime (controller s) + delta)));
      [reflexivity | reflexivity | exact H].
Qed.

Lemma keeps_completeTween p i : keeps p (completeTween i).
Proof.
  intros s H. unfold completeTween.
  destruct (find (fun t => Nat.eqb (fst t) i) (tweens (runtime s)))
    as [t |] eqn:Ef;
    [| apply keeps_id; exact H].
  apply find_some in Ef. destruct Ef as [Hin _].
  assert (Ht : holds p (tw_onComplete (snd t)) = false).
  { apply orphaned_spec in H. destruct H as [_ [_ [_ [Htw _]]]].
    rewrite Forall_forall in Htw. apply Htw. exact Hin. }
  destruct (keeps_killTween p i s H) as [A B].
  destruct (tw_onComplete (snd t)) as [c |]; [| split; assumption].
  destruct (keeps_call p c Ht _ A) as [C D]. split; [exact C | congruence].
Qed.

Lemma keeps_fireTimer p h : keeps p (fireTimer h).
Proof.
  intros s H. unfold fireTimer, Js.findTimer.
  destruct (find (fun t => Nat.eqb (fst t) h) (timers (runtime s)))
    as [t |] eqn:Ef;
    [| apply keeps_id; exact H].
  apply find_some in Ef. destruct Ef as [Hin _].
  assert (Ht : mentions p (snd t) = false).
  { apply orphaned_spec in H. destruct H as [_ [_ [_ [_ Htm]]]].
    rewrite Forall_forall in Htm. apply Htm. exact Hin. }
  destruct (keeps_clearTimeout p h s H) as [A B].
  destruct (keeps_call p (snd t) Ht _ A) as [C D]. split; [exact C | congruence].
Qed.

Lemma keeps_step p e : keeps p (fun s => step s e).
Proof.
  destruct e; simpl.
  - apply keeps_transitionTo.
  - apply keeps_frameAriaAndProduct.
  - apply keeps_cancelTransition.
  - apply keeps_startTour. destruct onComplete; reflexivity.
  - apply keeps_playTour.
  - apply keeps_playProductCinematic.
  - apply keeps_stopTour.
  - apply keeps_stopShowroomTour.
  - apply keeps_enableOrbitMode.
  - apply keeps_disableOrbitMode.
  - apply keeps_followARIA.
  - apply keeps_update.
  - apply keeps_completeTween.
  - apply keeps_fireTimer.
Qed.

Lemma keeps_run p es : keeps p (fun s => run s es).
Proof.
  induction es as [| e es IH]; intros s H; simpl.
  - split; [exact H | reflexivity].
  - destruct (keeps_step p e s H) as [A B].
    destruct (IH _ A) as [C D]. split; [exact C | congruence].
Qed.

(** C4, evaluated where it fails.  On a controller with [gsap] defined, a
    first [transitionTo('custom', d1, ...)] is in flight when a second
    [transitionTo] is called.  After the second call exactly one transition
    is in flight (one live tween, [transitionResolve] holds the second call's
    [finish]), but the promise of the first call has not been resolved:
    [cancelTransition] clears [transitionResolve] before it calls [finish],
    and [finish] returns at once when [transitionResolve] is empty.  No
    closure that could resolve the first promise is left, and whatever
    happens afterwards it is never resolved. *)
Theorem second_transition_strands_first :
  forall (type2 : TransitionType) (d1 d2 : R) (es : list Event),
    let p1 := fst (transitionTo custom d1 (initial true)) in
    let s1 := snd (transitionTo custom d1 (initial true)) in
    let p2 := fst (transitionTo type2 d2 s1) in
    let s2 := snd (transitionTo type2 d2 s1) in
    isTransitioning (controller s1) = true /\
    transitionResolve (controller s1) = Some (Finish p1) /\
    transitionResolve (controller s2) = Some (Finish p2) /\
    p2 <> p1 /\
    length (tweens (runtime s2)) = 1%nat /\
    resolveCount p1 s2 = 0%nat /\
    orphaned p1 s2 = true /\
    resolveCount p1 (run s2 es) = 0%nat.
Proof.
  intros type2 d1 d2 es p1 s1 p2 s2.
  assert (H : orphaned p1 s2 = true /\ resolveCount p1 s2 = 0%nat).
  { unfold s2, s1, p1. destruct type2; split; reflexivity. }
  destruct H as [Ho Hc].
  split; [reflexivity |]. split; [reflexivity |].
  split; [unfold s2, p2, s1; destruct type2; reflexivity |].
  split; [unfold p2, p1, s1; destruct type2; simpl; lia |].
  split; [unfold s2, s1; destruct type2; reflexivity |].
  split; [exact Hc |]. split; [exact Ho |].
  destruct (keeps_run p1 es s2 Ho) as [_ E]. rewrite E. exact Hc.
Qed.

(** C3, evaluated where it fails.  A non-looping tour started by [playTour]
    stores the closure that resolves its promise in [onTourComplete].
    Switching to a transition with [transitionTo], or calling
    [stopShowroomTour], clears [onTourComplete] without calling it: the tour
    is no longer active, and its promise is never resolved, whatever happens
    afterwards.  The sibling [stopTour] does call the closure and resolves
    the promise once. *)
Theorem mode_switch_drops_tour_completion :
  forall (gsapDefined : bool) (duration blend : option R)
         (type : TransitionType) (d : R) (es : list Event),
    let p := fst (playTour None duration blend None (initial gsapDefined)) in
    let s1 := snd (playTour None duration blend None (initial gsapDefined)) in
    isTouring (controller s1) = true /\
    tourLoop (controller s1) = false /\
    onTourComplete (controller s1) = Some (PlayTourComplete None p) /\
    resolveCount p s1 = 0%nat /\
    (let s2 := snd (transitionTo type d s1) in
     isTouring (controller s2) = false /\
     onTourComplete (controller s2) = None /\
     resolveCount p (run s2 es) = 0%nat) /\
    (let s2 := stopShowroomTour s1 in
     isTouring (controller s2) = false /\
     onTourComplete (controller s2) = None /\
     resolveCount p (run s2 es) = 0%nat) /\
    resolveCount p (stopTour s1) = 1%nat.
Proof.
  intros gsapDefined duration blend type d es p s1.
  split; [unfold s1; destruct gsapDefined; reflexivity |].
  split; [unfold s1; destruct gsapDefined; reflexivity |].
  split; [unfold s1, p; destruct gsapDefined; reflexivity |].
  split; [unfold s1, p; destruct gsapDefined; reflexivity |].
  split; [| split].
  - intros s2.
    assert (H : orphaned p s2 = true /\ resolveCount p s2 = 0%nat).
    { unfold s2, s1, p. destruct gsapDefined, type; split; reflexivity. }
    destruct H as [Ho Hc].
    split; [unfold s2, s1; destruct gsapDefined, type; reflexivity |].
    split; [unfold s2, s1; destruct gsapDefined, type; reflexivity |].
    destruct (keeps_run p es s2 Ho) as [_ E]. rewrite E. exact Hc.
  - intros s2.
    assert (H : orphaned p s2 = true /\ resolveCount p s2 = 0%nat).
    { unfold s2, s1, p. destruct gsapDefined; split; reflexivity. }
    destruct H as [Ho Hc].
    split; [reflexivity |]. split; [reflexivity |].
    destruct (keeps_run p es s2 Ho) as [_ E]. rewrite E. exact Hc.
  - unfold s1, p. destruct gsapDefined; reflexivity.
Qed.

(** A [return_start] transition arms a timer that [cancelTransition] does not
    clear.  When a second transition has replaced it, the first promise is
    resolved only when that timer fires, and the firing empties
    [transitionResolve], so that the second transition, when its tween
    completes, is not resolved either. *)
Lemma stale_return_start_timer (d1 d2 : R) (es : list Event) :
  let p1 := fst (transitionTo return_start d1 (initial true)) in
  let s1 := snd (transitionTo return_start d1 (initial true)) in
  let p2 := fst (transitionTo custom d2 s1) in
  let s2 := snd (transitionTo custom d2 s1) in
  let s3 := fireTimer 0%nat s2 in
  let s4 := completeTween 1%nat s3 in
  resolveCount p1 s2 = 0%nat /\
  resolveCount p1 s3 = 1%nat /\
  transitionResolve (controller s3) = None /\
  tweens (runtime s3) <> [] /\
  resolveCount p2 s4 = 0%nat /\
  resolveCount p2 (run s4 es) = 0%nat.
Proof.
  intros p1 s1 p2 s2 s3 s4.
  split; [reflexivity |]. split; [reflexivity |]. split; [reflexivity |].
  split; [discriminate |]. split; [reflexivity |].
  assert (Ho : orphaned p2 s4 = true) by reflexivity.
  destruct (keeps_run p2 es s4 Ho) as [_ E]. rewrite E. reflexivity.
Qed.

End CameraFacts.

(** ** The request sequencer *)

Module MainFacts.

Import JsMath Main JsFacts CameraFacts.

Local Arguments Js.resolveCount : simpl never.

Lemma hung_spec (p : Js.PromiseId) (s : State) :
  hung p s = true <->
  collectionRequestLock (globals s) = true /\
  (exists t, task s = Some t /\ awaitedTransition t = Some p) /\
  settled p s = false /\
  Camera.orphaned p (cameraController s) = true /\
  (forall k n q, current (audioSystem s) = Some (k, n, q) -> q <> p) /\
  walkInFlight s <> Some p /\
  Forall (fun k => promise k <> p) (cinematics s).
Proof.
  unfold hung. rewrite !andb_true_iff, negb_true_iff, forallb_forall, Forall_forall.
  split.
  - intros [[[[[[A B] C] D] E] F] G]. repeat split; auto.
    + destruct (task s) as [t |]; [| discriminate]. exists t. split; [reflexivity |].
      destruct (awaitedTransition t); [| discriminate].
      apply Nat.eqb_eq in B. congruence.
    + intros k n q Hq. rewrite Hq in E. apply negb_true_iff, Nat.eqb_neq in E. exact E.
    + destruct (walkInFlight s) as [q |]; [| discriminate].
      apply negb_true_iff, Nat.eqb_neq in F. congruence.
    + intros k Hk. specialize (G k Hk). apply negb_true_iff, Nat.eqb_neq in G. exact G.
  - intros [A [[t [Ht Hp]] [C [D [E [F G]]]]]]. repeat split; auto.
    + rewrite Ht, Hp. apply Nat.eqb_refl.
    + destruct (current (audioSystem s)) as [[[k n] q] |]; [| reflexivity].
      apply negb_true_iff, Nat.eqb_neq. apply (E k n q). reflexivity.
    + destruct (walkInFlight s) as [q |]; [| reflexivity].
      apply negb_true_iff, Nat.eqb_neq. congruence.
    + intros k Hk. apply negb_true_iff, Nat.eqb_neq. apply G. exact Hk.
Qed.

Lemma settled_false_count (p : Js.PromiseId) (log : list Js.PromiseId) :
  Js.settled p log = false <-> Js.resolveCount p log = 0%nat.
Proof.
  pose proof (settled_resolveCount p log) as H.
  destruct (Js.settled p log).
  - split; [discriminate |]. intros E. destruct H as [H _].
    specialize (H eq_refl). lia.
  - split; [| reflexivity]. intros _.
    destruct (Js.resolveCount p log); [reflexivity |].
    destruct H as [_ H]. discriminate H. lia.
Qed.

(** A hung coroutine is never ready, so the microtask queue stays empty. *)
Lemma drain_hung (p : Js.PromiseId) (n : nat) (s : State) :
  hung p s = true -> drain n s = s.
Proof.
  intros H. apply hung_spec in H.
  destruct H as [_ [[t [Ht Hp]] [Hs _]]].
  destruct n as [| n]; [reflexivity |]. simpl. rewrite Ht.
  assert (E : ready t s = false).
  { unfold ready. unfold awaitedTransition in Hp.
    destruct (t_await t); try discriminate; injection Hp as ->; exact Hs. }
  rewrite E. reflexivity.
Qed.

Lemma stays_withCamera p a w f : Camera.keeps p f -> stays p a w (withCamera f).
Proof.
  intros Hk s [Hh [Hc [Hst [Hco Hpe]]]].
  apply hung_spec in Hh.
  destruct Hh as [A [B [C [D [E [F G]]]]]].
  destruct (Hk _ D) as [D' Hcount].
  split; [| repeat split; assumption].
  apply hung_spec. repeat split; auto.
  unfold settled, resolveLog, withCamera. simpl.
  apply settled_false_count. unfold Camera.resolveCount in Hcount. rewrite Hcount.
  apply settled_false_count. exact C.
Qed.

Lemma stays_resolve p a w q : q <> p -> stays p a w (resolve q).
Proof. intros H. apply stays_withCamera. apply keeps_resolve. exact H. Qed.

Lemma stays_act p a w x :
  match x with ShowProductPanel | SetCurrentProduct _ => False | _ => True end ->
  stays p a w (act x).
Proof.
  intros Hx s [Hh [Hc [Hst [Hco Hpe]]]].
  split; [exact Hh |]. split; [exact Hc |].
  unfold startedWorkflows, completedWorkflows in *. simpl.
  destruct x; simpl; try contradiction; repeat split; assumption.
Qed.

Lemma stays_audioStop p a w :
  stays p a w (fun s => setAudioSystem (audioStop (audioSystem s)) s).
Proof.
  intros s [Hh [Hc [Hst [Hco Hpe]]]].
  split; [| repeat split; assumption].
  apply hung_spec in Hh. destruct Hh as [A [B [C [D [E [F G]]]]]].
  apply hung_spec. repeat split; auto. simpl. intros k n q Hq. discriminate.
Qed.

Lemma replaceAt_promises (p : Js.PromiseId) (n : nat) (k : CinematicState)
  (l : list CinematicState) :
  promise k <> p ->
  Forall (fun k => promise k <> p) l ->
  Forall (fun k => promise k <> p) (replaceAt n k l).
Proof.
  intros Hk. revert n. induction l as [| h t IH]; intros n H.
  - destruct n; constructor.
  - inversion H as [| ? ? Hh Ht]; subst.
    destruct n; simpl; constructor; auto.
Qed.

Lemma stays_cancelActiveCinematic p a w why :
  stays p a w (cancelActiveCinematic why).
Proof.
  intros s Hs. unfold cancelActiveCinematic.
  destruct (cinematicState (globals s)) as [ref |]; [| exact Hs].
  destruct (nth_error (cinematics s) ref) as [cs |] eqn:En; [| exact Hs].
  destruct (cancelled cs); [exact Hs |].
  assert (Hcs : promise cs <> p).
  { destruct Hs as [Hh _]. apply hung_spec in Hh.
    destruct Hh as [_ [_ [_ [_ [_ [_ G]]]]]].
    rewrite Forall_forall in G. apply G. eapply nth_error_In. exact En. }
  apply stays_resolve; [exact Hcs |].
  apply (stays_act p a w (ShowStopCinematic false)); [exact I |].
  apply (stays_act p a w HideSubtitle); [exact I |].
  apply (stays_withCamera p a w Camera.stopTour); [apply keeps_stopTour |].
  apply stays_audioStop.
  destruct Hs as [Hh [Hc [Hst [Hco Hpe]]]].
  split; [| repeat split; assumption].
  apply hung_spec in Hh. destruct Hh as [A [B [C [D [E [F G]]]]]].
  apply hung_spec. repeat split; auto. simpl.
  apply replaceAt_promises; [exact Hcs | exact G].
Qed.

Lemma stays_cancelCameraWork p a w : stays p a w cancelCameraWork.
Proof.
  intros s Hs. unfold cancelCameraWork.
  apply (stays_withCamera p a w Camera.disableOrbitMode); [apply keeps_disableOrbitMode |].
  apply (stays_withCamera p a w Camera.stopTour); [apply keeps_stopTour |].
  apply (stays_withCamera p a w Camera.cancelTransition); [apply keeps_cancelTransition |].
  exact Hs.
Qed.

Lemma stays_requestCollection p a w input src :
  stays p a w (requestCollection input src).
Proof.
  intros s Hs. unfold requestCollection.
  destruct input as [c |]; [| exact Hs].
  assert (Hlock : collectionRequestLock (globals s) = true).
  { destruct Hs as [Hh _]. apply hung_spec in Hh. tauto. }
  rewrite Hlock.
  apply stays_cancelCameraWork. apply stays_cancelActiveCinematic.
  destruct Hs as [Hh [Hc [Hst [Hco Hpe]]]].
  split.
  - apply hung_spec in Hh. destruct Hh as [A [B [C [D [E [F G]]]]]].
    apply hung_spec. repeat split; auto.
  - repeat split; try assumption. simpl. discriminate.
Qed.

Lemma stays_audioEnded p a w : stays p a w audioEnded.
Proof.
  intros s Hs. unfold audioEnded.
  destruct (current (audioSystem s)) as [[[k n] q] |] eqn:Ec; [| exact Hs].
  destruct (Nat.eqb n (playToken (audioSystem s))); [| exact Hs].
  assert (Hq : q <> p).
  { destruct Hs as [Hh _]. apply hung_spec in Hh.
    destruct Hh as [_ [_ [_ [_ [E _]]]]]. apply (E k n q). exact Ec. }
  apply stays_resolve; [exact Hq |].
  destruct Hs as [Hh [Hc [Hst [Hco Hpe]]]].
  split; [| repeat split; assumption].
  apply hung_spec in Hh. destruct Hh as [A [B [C [D [E [F G]]]]]].
  apply hung_spec. repeat split; auto. simpl. intros k' n' q' Hq'. discriminate.
Qed.

Lemma stays_walkCompletes p a w : stays p a w walkCompletes.
Proof.
  intros s Hs. unfold walkCompletes.
  destruct (walkInFlight s) as [q |] eqn:Ew; [| exact Hs].
  assert (Hq : q <> p).
  { destruct Hs as [Hh _]. apply hung_spec in Hh.
    destruct Hh as [_ [_ [_ [_ [_ [F _]]]]]]. congruence. }
  pose proof (stays_resolve p a w q Hq s Hs) as [Hh [Hc [Hst [Hco Hpe]]]].
  split; [| repeat split; assumption].
  apply hung_spec in Hh. destruct Hh as [A [B [C [D [E [F G]]]]]].
  apply hung_spec. repeat split; auto. simpl. discriminate.
Qed.

Lemma stays_step p a w e : stays p a w (fun s => step s e).
Proof.
  intros s Hs. unfold step.
  assert (H : stuck p a w (handle e s)).
  { destruct e; simpl.
    - apply stays_requestCollection. exact Hs.
    - apply stays_cancelActiveCinematic. exact Hs.
    - apply stays_withCamera; [apply keeps_fireTimer | exact Hs].
    - apply stays_withCamera; [apply keeps_completeTween | exact Hs].
    - apply stays_withCamera; [apply keeps_update | exact Hs].
    - apply stays_audioEnded. exact Hs.
    - apply stays_walkCompletes. exact Hs. }
  rewrite (drain_hung p); [exact H | apply H].
Qed.

Lemma stays_run p a w es : stays p a w (fun s => run s es).
Proof.
  induction es as [| e es IH]; intros s Hs; simpl; [exact Hs |].
  apply IH. apply stays_step. exact Hs.
Qed.

(** C1, evaluated where it fails.  [gsap] is defined.

    First input: the intro is playing and three requests arrive one after
    the other.  The request for [a] skips the intro and awaits the promise of
    the skip transition; the requests for [b] and then [c] take the locked
    branch of [requestCollection]: [c] ends up alone in the pending slot
    (last write wins, one active and one pending request), and
    [cancelTransition] is called, which kills the tween but does not resolve
    the awaited promise.

    Second input: the intro is over and the request for [a] has reached its
    product shot (it awaits [transitionTo('product_with_aria', 1.5, a)]) when
    the requests for [b] and then [c] arrive; the same happens.

    From then on the sequencer is stuck: whatever events follow, the lock
    stays held, no further workflow starts and none ever completes; the
    workflow for [c] never runs. *)
Theorem burst_during_transition_deadlocks :
  forall (durations : Track -> option R) (a b c : Collection) (src : Source)
         (es : list Event),
    (let s := run (introPlaying true durations) (rapidBurst a b c src) in
     let s' := run s es in
     task s = Some {| t_request := {| collection := a; source := src |};
                      t_requestId := 1%nat;
                      t_await := AwaitSkip 3%nat |} /\
     pendingCollectionRequest (globals s)
       = Some {| collection := c; source := src |} /\
     stuck 3%nat elegance 0%nat s' /\
     collectionRequestLock (globals s') = true /\
     startedWorkflows s' = 0%nat /\
     completedWorkflows s' = 0%nat) /\
    (let s := run (initial true durations) (burst a b c src) in
     let s' := run s es in
     task s = Some {| t_request := {| collection := a; source := src |};
                      t_requestId := 1%nat;
                      t_await := AwaitProductShot 3%nat |} /\
     pendingCollectionRequest (globals s)
       = Some {| collection := c; source := src |} /\
     stuck 3%nat a 1%nat s' /\
     collectionRequestLock (globals s') = true /\
     currentCollection (globals s') = a /\
     startedWorkflows s' = 1%nat /\
     completedWorkflows s' = 0%nat).
Proof.
  intros durations a b c src es. split.
  - intros s s'.
    assert (H0 : task s = Some {| t_request := {| collection := a; source := src |};
                                  t_requestId := 1%nat;
                                  t_await := AwaitSkip 3%nat |} /\
                 pendingCollectionRequest (globals s)
                   = Some {| collection := c; source := src |} /\
                 hung 3%nat s = true /\
                 currentCollection (globals s) = elegance /\
                 startedWorkflows s = 0%nat /\
                 completedWorkflows s = 0%nat).
    { unfold s, rapidBurst.
      destruct a, b, c, src; vm_compute; repeat split; reflexivity. }
    destruct H0 as [Ht [Hp [Hh [Hc [Hst Hco]]]]].
    assert (Hs : stuck 3%nat elegance 0%nat s).
    { repeat split; try assumption. rewrite Hp. discriminate. }
    pose proof (stays_run 3%nat elegance 0%nat es s Hs) as Hs'. fold s' in Hs'.
    split; [exact Ht |]. split; [exact Hp |]. split; [exact Hs' |].
    destruct Hs' as [Hh' [Hc' [Hst' [Hco' _]]]].
    apply hung_spec in Hh'. destruct Hh' as [Hl _].
    repeat split; assumption.
  - intros s s'.
    assert (H0 : task s = Some {| t_request := {| collection := a; source := src |};
                                  t_requestId := 1%nat;
                                  t_await := AwaitProductShot 3%nat |} /\
                 pendingCollectionRequest (globals s)
                   = Some {| collection := c; source := src |} /\
                 hung 3%nat s = true /\
                 currentCollection (globals s) = a /\
                 startedWorkflows s = 1%nat /\
                 completedWorkflows s = 0%nat).
    { unfold s, burst.
      destruct a, b, c, src; vm_compute; repeat split; reflexivity. }
    destruct H0 as [Ht [Hp [Hh [Hc [Hst Hco]]]]].
    assert (Hs : stuck 3%nat a 1%nat s).
    { repeat split; try assumption. rewrite Hp. discriminate. }
    pose proof (stays_run 3%nat a 1%nat es s Hs) as Hs'. fold s' in Hs'.
    split; [exact Ht |]. split; [exact Hp |]. split; [exact Hs' |].
    destruct Hs' as [Hh' [Hc' [Hst' [Hco' _]]]].
    apply hung_spec in Hh'. destruct Hh' as [Hl _].
    repeat split; assumption.
Qed.

(** When the three requests arrive one after the other after the intro, that
    is, during the first delay of the workflow for [a], the sequencer does
    what is intended: the workflow for [a] is
    abandoned, the request for [b] is overwritten, and the workflow for [c]
    runs to its end (here with the cinematic stopped by the user). *)
Lemma burst_during_first_delay_runs_last :
  forall (durations : Track -> option R) (a b c : Collection) (src : Source),
    let s := run (initial true durations)
               (rapidBurst a b c src ++
               [TimerFires 0%nat; TimerFires 1%nat; TimerFires 2%nat;
                WalkCompletes; TweenCompletes 0%nat; StopCinematicClick;
                TweenCompletes 1%nat]) in
    collectionRequestLock (globals s) = false /\
    task s = None /\
    pendingCollectionRequest (globals s) = None /\
    currentCollection (globals s) = c /\
    completedWorkflows s = 1%nat /\
    hd_error (trace s) = Some ShowInteractHint /\
    In (UpdateProductInfo c) (trace s).
Proof.
  intros durations a b c src s. unfold s.
  destruct a, b, c, src; vm_compute; repeat split; try reflexivity; tauto.
Qed.

(** Along these runs the microtask budget is never exhausted: after every
    event the coroutine, if there is one, waits on an unsettled promise. *)
Lemma bursts_quiescent :
  forall (durations : Track -> option R) (a b c : Collection) (src : Source)
         (n : nat),
    quiescent (run (introPlaying true durations)
                   (firstn n (rapidBurst a b c src))) = true /\
    quiescent (run (initial true durations) (firstn n (burst a b c src)))
      = true /\
    quiescent
      (run (initial true durations)
           (firstn n [Request (Some a) src; Request (Some b) src;
                      Request (Some c) src;
                      TimerFires 0%nat; TimerFires 1%nat; TimerFires 2%nat;
                      WalkCompletes; TweenCompletes 0%nat; StopCinematicClick;
                      TweenCompletes 1%nat])) = true.
Proof.
  intros durations a b c src n.
  do 11 (destruct n as [| n];
         [destruct a, b, c, src; vm_compute; repeat split; reflexivity |]).
  destruct a, b, c, src; vm_compute; repeat split; reflexivity.
Qed.

End MainFacts.

(** ** Turning toward a target *)

Module TurningFacts.

Import Three JsMath Aria JsFacts AriaFacts Turning.

Lemma wrapDownLoop_range (n : nat) :
  forall d, d <= PI + PI * 2 * INR n ->
    wrapDownLoop n d <= PI /\
    (wrapDownLoop n d = d \/ - PI < wrapDownLoop n d) /\
    exists k : Z, wrapDownLoop n d = d + IZR k * (PI * 2).
Proof.
  pose proof PI_gt_3 as Hpi.
  induction n as [| n IH]; intros d Hd.
  - simpl in *. split; [lra |]. split; [left; reflexivity |].
    exists 0%Z. lra.
  - simpl. destruct (Rgt_dec d PI) as [Hgt | Hle].
    + rewrite S_INR in Hd.
      destruct (IH (d - PI * 2)) as [H1 [H2 [k Hk]]]; [lra |].
      split; [exact H1 |]. split.
      * right. destruct H2 as [E | H2]; [rewrite E; lra | exact H2].
      * exists (k - 1)%Z. rewrite Hk, minus_IZR. lra.
    + split; [lra |]. split; [left; reflexivity |]. exists 0%Z. lra.
Qed.

Lemma wrapUpLoop_range (n : nat) :
  forall d, - PI - PI * 2 * INR n <= d -> d <= PI ->
    - PI <= wrapUpLoop n d <= PI /\
    exists k : Z, wrapUpLoop n d = d + IZR k * (PI * 2).
Proof.
  pose proof PI_gt_3 as Hpi.
  induction n as [| n IH]; intros d Hd Hle.
  - simpl in *. split; [lra |]. exists 0%Z. lra.
  - simpl. destruct (Rlt_dec d (- PI)) as [Hlt | Hge].
    + rewrite S_INR in Hd.
      destruct (IH (d + PI * 2)) as [H1 [k Hk]]; [lra | lra |].
      split; [exact H1 |].
      exists (k + 1)%Z. rewrite Hk, plus_IZR. lra.
    + split; [lra |]. exists 0%Z. lra.
Qed.

Lemma turn_range_aux (d : R) :
  - PI <= wrapUp (wrapDown d) <= PI /\
  exists k : Z, wrapUp (wrapDown d) = d + IZR k * (PI * 2).
Proof.
  pose proof PI_gt_3 as Hpi.
  pose proof (iterations_enough d) as Hd.
  assert (Hd1 : d <= PI + PI * 2 * INR (iterations d)).
  { pose proof (Rle_abs d). lra. }
  destruct (wrapDownLoop_range _ d Hd1) as [H1 [H2 [k Hk]]].
  fold (wrapDown d) in H1, H2, Hk.
  pose proof (iterations_enough (wrapDown d)) as Hd2.
  assert (Hd3 : - PI - PI * 2 * INR (iterations (wrapDown d)) <= wrapDown d).
  { assert (- wrapDown d <= Rabs (wrapDown d))
      by (rewrite <- Rabs_Ropp; apply Rle_abs). lra. }
  destruct (wrapUpLoop_range _ (wrapDown d) Hd3 H1) as [H3 [k' Hk']].
  fold (wrapUp (wrapDown d)) in H3, Hk'.
  split; [exact H3 |].
  exists (k + k')%Z. rewrite Hk', Hk, plus_IZR. lra.
Qed.

(** X1. The difference [dampRotation] works with, after its two [while]
    loops, lies between [-PI] and [PI] and differs from [target - current]
    by a whole number of turns: the avatar always turns the short way
    round. *)
Theorem turn_range :
  forall current target : R,
    - PI <= turn current target <= PI /\
    exists k : Z, turn current target = target - current + IZR k * (PI * 2).
Proof. intros current target. apply turn_range_aux. Qed.

Lemma turn_unique (v d : R) (k : Z) :
  - PI < v < PI -> d = v + IZR k * (PI * 2) -> wrapUp (wrapDown d) = v.
Proof.
  intros Hv Hd. pose proof PI_gt_3 as Hpi.
  destruct (turn_range_aux d) as [Hr [k' Hk']].
  rewrite Hk', Hd.
  assert (Hm : IZR (k + k') * (PI * 2) = wrapUp (wrapDown d) - v).
  { rewrite Hk', Hd, plus_IZR. lra. }
  assert (Hz : (k + k' = 0)%Z).
  { assert (H1 : -1 < IZR (k + k') < 1) by (split; nra).
    destruct H1 as [Ha Hb].
    apply lt_IZR in Hb. change (-1) with (IZR (-1)) in Ha. apply lt_IZR in Ha. lia. }
  rewrite plus_IZR in Hm.
  assert (IZR k + IZR k' = 0) by (rewrite <- plus_IZR, Hz; reflexivity).
  nra.
Qed.

Lemma factor_bounds (speed dt : R) :
  0 < speed -> 0 < dt -> 0 < 1 - exp (- speed * dt * 2) < 1.
Proof.
  intros Hs Hd.
  assert (Hx : - speed * dt * 2 < 0) by nra.
  pose proof (exp_pos (- speed * dt * 2)).
  pose proof (exp_increasing _ _ Hx) as Hi. rewrite exp_0 in Hi. lra.
Qed.

(** The three facts about one unfinished call. *)
Lemma dampRotation_step (current target speed dt : R) :
  0 < speed -> 0 < dt <= 0.05 ->
  let res := dampRotation current target speed dt in
  (Rabs (turn current target) < ANGLE_TOLERANCE ->
   finished res = true /\ value res = target) /\
  (ANGLE_TOLERANCE <= Rabs (turn current target) ->
   finished res = false /\
   Rabs (turn (value res) target) < Rabs (turn current target) /\
   (Rabs (turn (value res) target) < ANGLE_TOLERANCE \/
    Rabs (turn (value res) target) <= Rabs (turn current target) - 0.1 * dt)).
Proof.
  intros Hs Hdt res. pose proof PI_gt_3 as Hpi.
  destruct (turn_range_aux (target - current)) as [Hr [k Hk]].
  fold (turn current target) in Hr, Hk.
  destruct (factor_bounds speed dt Hs (proj1 Hdt)) as [Hf0 Hf1].
  unfold res, dampRotation. fold (turn current target).
  set (d := turn current target) in *.
  set (f := 1 - exp (- speed * dt * 2)) in *.
  unfold ANGLE_TOLERANCE in *.
  split.
  - intros Hlt. rewrite (ltb_true _ _ Hlt). simpl. split; reflexivity.
  - intros Hge.
    rewrite (ltb_false _ _ Hge).
    cbv zeta.
    match goal with
    | |- context [if ?c then sign d * (0.1 * dt) else d * f] =>
        set (step := if c then sign d * (0.1 * dt) else d * f);
        assert (Hstep : Rabs (d - step) < Rabs d /\
                        (Rabs (d - step) < 0.004 \/
                         Rabs (d - step) <= Rabs d - 0.1 * dt))
    end.
    { unfold step. clear step.
      destruct (Rlt_dec (Rabs (d * f)) (0.1 * dt)) as [Hsmall | Hbig].
      - rewrite (ltb_true _ _ Hsmall).
        destruct (Rgt_dec (Rabs d) 0.004) as [Hg | Hng].
        + rewrite (gtb_true _ _ Hg). simpl.
          unfold sign.
          destruct (Rlt_dec 0 d) as [Hp | Hnp].
          * rewrite (Rabs_pos_eq d) in * by lra.
            destruct (Rle_dec (0.1 * dt) d).
            -- rewrite Rabs_pos_eq by lra. split; [lra | right; lra].
            -- rewrite Rabs_left by lra. split; [lra | left; lra].
          * destruct (Rlt_dec d 0) as [Hn | Hnn].
            -- rewrite (Rabs_left d) in * by lra.
               destruct (Rle_dec (0.1 * dt) (- d)).
               ++ rewrite Rabs_left1 by lra. split; [lra | right; lra].
               ++ rewrite Rabs_pos_eq by lra. split; [lra | left; lra].
            -- assert (d = 0) by lra. subst d.
               exfalso. rewrite H in Hg. rewrite Rabs_R0 in Hg. lra.
        + rewrite (gtb_false (Rabs d) 0.004) by lra. simpl.
          replace (d - d * f) with (d * (1 - f)) by ring.
          rewrite Rabs_mult, (Rabs_pos_eq (1 - f)) by lra.
          split; [nra | left; nra].
      - rewrite (ltb_false (Rabs (d * f)) (0.1 * dt)) by lra. simpl.
        replace (d - d * f) with (d * (1 - f)) by ring.
        rewrite Rabs_mult, (Rabs_pos_eq (1 - f)) by lra.
        rewrite Rabs_mult, (Rabs_pos_eq f) in Hbig by lra.
        split; [nra | right; nra]. }
    simpl.
    assert (Hd : Rabs d <= PI) by (apply Rabs_le; lra).
    assert (Eturn : turn (current + step) target = d - step).
    { unfold turn. apply (turn_unique (d - step) _ (- k)%Z).
      - destruct Hstep as [Hlt _].
        assert (Hb : Rabs (d - step) < PI) by lra.
        apply Rabs_def2 in Hb. lra.
      - rewrite opp_IZR. rewrite Hk. lra. }
    rewrite Eturn. split; [reflexivity | exact Hstep].
Qed.

(** X2. One call of [dampRotation] with a positive [speed] and a frame step
    [dt] (positive, at most 0.05): it reports [finished] exactly when the
    remaining angle is below the tolerance; otherwise the value it returns is
    strictly closer to the target, and either within the tolerance already
    or closer by at least the minimum step [0.1 * dt]. *)
Theorem dampRotation_progress :
  forall current target speed dt : R,
    0 < speed -> 0 < dt <= 0.05 ->
    let res := dampRotation current target speed dt in
    (finished res = true <-> Rabs (turn current target) < ANGLE_TOLERANCE) /\
    (finished res = false ->
     Rabs (turn (value res) target) < Rabs (turn current target) /\
     (Rabs (turn (value res) target) < ANGLE_TOLERANCE \/
      Rabs (turn (value res) target)
        <= Rabs (turn current target) - 0.1 * dt)).
Proof.
  intros current target speed dt Hs Hdt res.
  destruct (dampRotation_step current target speed dt Hs Hdt) as [Hfin Hnot].
  fold res in Hfin, Hnot.
  destruct (Rlt_dec (Rabs (turn current target)) ANGLE_TOLERANCE) as [Hlt | Hge].
  - destruct (Hfin Hlt) as [Hf _]. split.
    + split; [intros _; exact Hlt | intros _; exact Hf].
    + intros Hc. rewrite Hf in Hc. discriminate.
  - assert (Hge' : ANGLE_TOLERANCE <= Rabs (turn current target)) by lra.
    destruct (Hnot Hge') as [Hf Hp]. split.
    + split; [intros Hc; rewrite Hf in Hc; discriminate | intros Hc; contradiction].
    + intros _. exact Hp.
Qed.

Lemma turn_small (current target : R) :
  - PI < target - current < PI -> turn current target = target - current.
Proof.
  intros H. unfold turn. apply (turn_unique _ _ 0%Z); [exact H | lra].
Qed.

Lemma dampRotation_progress_witness :
  finished (dampRotation 0 1 2.4 0.05) = false /\
  Rabs (turn (value (dampRotation 0 1 2.4 0.05)) 1) < Rabs (turn 0 1).
Proof.
  assert (Hs : 0 < 2.4) by lra.
  assert (Hdt : 0 < 0.05 <= 0.05) by lra.
  destruct (dampRotation_progress 0 1 2.4 0.05 Hs Hdt) as [Hiff Hp].
  assert (Hf : finished (dampRotation 0 1 2.4 0.05) = false).
  { destruct (finished (dampRotation 0 1 2.4 0.05)); [| reflexivity].
    exfalso. destruct Hiff as [Hi _]. specialize (Hi eq_refl).
    pose proof PI_gt_3.
    rewrite turn_small in Hi by lra.
    unfold ANGLE_TOLERANCE in Hi. rewrite Rabs_pos_eq in Hi; lra. }
  split; [exact Hf | exact (proj1 (Hp Hf))].
Defined.

Lemma turn_self (target : R) : turn target target = 0.
Proof.
  pose proof PI_gt_3. rewrite turn_small; lra.
Qed.

Lemma dampRepeatedly_finishes (target : R) (calls : list (R * R)) :
  forall (call : R * R) (current : R),
    Forall frameCall (call :: calls) ->
    Rabs (turn current target) < ANGLE_TOLERANCE \/
    Rabs (turn current target)
      <= 0.1 * totalTime (map snd (removelast (call :: calls))) ->
    dampRepeatedly current target call calls
      = {| value := target; finished := true |}.
Proof.
  induction calls as [| next rest IH]; intros call current Hall Hm.
  - inversion Hall as [| ? ? [Hs Hdt] _]; subst.
    destruct (dampRotation_step current target (fst call) (snd call) Hs Hdt)
      as [Hfin _].
    assert (Hlt : Rabs (turn current target) < ANGLE_TOLERANCE).
    { destruct Hm as [Hm | Hm]; [exact Hm |].
      simpl in Hm. unfold ANGLE_TOLERANCE. lra. }
    destruct (Hfin Hlt) as [Hf Hv]. simpl.
    destruct (dampRotation current target (fst call) (snd call)) as [v f].
    simpl in *. subst. reflexivity.
  - inversion Hall as [| ? ? [Hs Hdt] Hrest]; subst.
    destruct (dampRotation_step current target (fst call) (snd call) Hs Hdt)
      as [Hfin Hnot].
    change (dampRepeatedly current target call (next :: rest))
      with (dampRepeatedly
              (value (dampRotation current target (fst call) (snd call)))
              target next rest).
    apply IH; [exact Hrest |].
    destruct (Rlt_dec (Rabs (turn current target)) ANGLE_TOLERANCE) as [Hlt | Hge].
    + destruct (Hfin Hlt) as [_ Hv]. rewrite Hv, turn_self, Rabs_R0.
      left. unfold ANGLE_TOLERANCE. lra.
    + assert (Hge' : ANGLE_TOLERANCE <= Rabs (turn current target)) by lra.
      destruct (Hnot Hge') as [_ [_ Hp]].
      destruct Hp as [Hp | Hp]; [left; exact Hp |].
      destruct Hm as [Hm | Hm]; [lra |].
      right.
      change (removelast (call :: next :: rest))
        with (call :: removelast (next :: rest)) in Hm.
      set (l := removelast (next :: rest)) in *.
      unfold totalTime in *. cbn [map fold_right] in Hm. lra.
Qed.

(** X3. A turn toward a fixed target finishes.  Successive calls of
    [dampRotation], each on the value the previous one returned, each with
    a positive speed and a frame step of its own: once the frame steps
    before the last call add up to ten times the angle to turn (in
    seconds per radian: the minimum step is [0.1 * dt]), the last call
    reports [finished] and returns the target.  Ten times [PI] seconds are
    enough for every turn. *)
Theorem turning_finishes :
  forall (current target : R) (call : R * R) (calls : list (R * R)),
    Forall frameCall (call :: calls) ->
    Rabs (turn current target)
      <= 0.1 * totalTime (map snd (removelast (call :: calls))) \/
    PI <= 0.1 * totalTime (map snd (removelast (call :: calls))) ->
    dampRepeatedly current target call calls
      = {| value := target; finished := true |}.
Proof.
  intros current target call calls Hall Hm.
  apply dampRepeatedly_finishes; [exact Hall |].
  right. destruct Hm as [Hm | Hm]; [exact Hm |].
  destruct (turn_range_aux (target - current)) as [Hr _].
  fold (turn current target) in Hr.
  assert (Rabs (turn current target) <= PI) by (apply Rabs_le; lra).
  lra.
Qed.

Lemma turning_finishes_witness :
  dampRepeatedly 0 0.01 (2.4, 0.05) [(2.4, 0.05); (2.4, 0.05); (2.4, 0.05)]
    = {| value := 0.01; finished := true |}.
Proof.
  apply turning_finishes.
  - repeat constructor; simpl; lra.
  - left. pose proof PI_gt_3. rewrite turn_small by lra.
    unfold totalTime. simpl. rewrite Rabs_pos_eq; lra.
Defined.

End TurningFacts.

(** ** Height, walk progress and light stay in range *)

Module EnvelopeFacts.

Import Three JsMath Aria JsFacts AriaFacts Envelope.

Lemma sin_scaled (a k : R) : 0 <= k -> - k <= sin a * k <= k.
Proof. intros Hk. pose proof (SIN_bound a). nra. Qed.

Lemma abs_sin_scaled (a k : R) : 0 <= k -> 0 <= Rabs (sin a) * k <= k.
Proof.
  intros Hk. pose proof (SIN_bound a). pose proof (Rabs_pos (sin a)).
  assert (Rabs (sin a) <= 1) by (apply Rabs_le; lra). nra.
Qed.

Lemma envelope_walkToPosition t s :
  envelope s -> envelope (snd (walkToPosition t s)).
Proof.
  unfold envelope, heightOk, progressOk, lightOk.
  destruct s as [sc mo li [owc wid pwr pwt] rt]. simpl.
  intros H. unfold walkToPosition. simpl.
  destruct (ariaGroup sc) as [g |] eqn:Hg; simpl; [| rewrite Hg; exact H].
  destruct pwr as [c |]; simpl.
  - unfold runWalkResolve. simpl.
    destruct (negb (wr_requestId c =? wid)%nat); simpl;
      destruct pwt; simpl; rewrite Hg; repeat split; try tauto; lra.
  - destruct pwt; simpl; rewrite Hg; repeat split; try tauto; lra.
Qed.

Lemma envelope_loadARIA a s : envelope s -> envelope (loadARIA a s).
Proof.
  unfold envelope, heightOk, progressOk, lightOk, loadARIA.
  unfold idleBreath, bobAmplitude.
  intros H. destruct a; simpl; repeat split; try tauto; lra.
Qed.

Lemma envelope_resetToStart s : envelope s -> envelope (resetToStart s).
Proof.
  unfold envelope, heightOk, progressOk, lightOk, resetToStart.
  unfold idleBreath, bobAmplitude.
  intros H. destruct s as [sc mo li co rt]. simpl in *.
  destruct (ariaGroup sc) as [g |] eqn:Hg; simpl; [| rewrite Hg; exact H].
  destruct (mixer sc) eqn:Hm; simpl; rewrite ?Hm; simpl;
    repeat split; try tauto; lra.
Qed.

Lemma envelope_fireTimer h s : envelope s -> envelope (fireTimer h s).
Proof.
  unfold envelope, heightOk, progressOk, lightOk, fireTimer.
  unfold idleBreath, bobAmplitude.
  intros H. destruct s as [sc mo li [owc wid pwr pwt] [tm nt np rl cl wn]].
  simpl in *.
  destruct (Js.findTimer h tm) as [t |]; [| exact H].
  unfold runWalkTimeout. simpl.
  destruct (negb _); simpl; [exact H |].
  destruct (ariaState mo); simpl; try exact H.
  all: destruct (ariaGroup sc) as [g |] eqn:Hg; simpl.
  all: destruct owc as [cb |]; simpl; rewrite ?Hg.
  all: try (unfold runWalkResolve; simpl; destruct (negb _); simpl; rewrite ?Hg).
  all: try (destruct pwt; simpl; rewrite ?Hg).
  all: repeat split; try tauto; try lra.
Qed.

Lemma updateIdle_within elapsed delta cam g s :
  progressOk s -> updatesWithin s (updateIdle elapsed delta cam g s).
Proof.
  intros Hp. unfold updatesWithin, heightOk, progressOk in *.
  unfold updateIdle. simpl.
  pose proof (sin_scaled (elapsed * 0.7) idleBreath) as Hs.
  unfold idleBreath, bobAmplitude in *.
  repeat split; try tauto; lra.
Qed.

Lemma updateSpeaking_within elapsed delta cam g s :
  progressOk s -> updatesWithin s (updateSpeaking elapsed delta cam g s).
Proof.
  intros Hp. unfold updatesWithin, heightOk, progressOk in *.
  unfold updateSpeaking. cbv zeta.
  pose proof (sin_scaled (elapsed * 0.8) idleBreath) as Hs.
  unfold idleBreath, bobAmplitude in *.
  destruct s as [sc mo li co rt]. simpl in *.
  destruct (mixer sc) eqn:Hm; simpl; rewrite ?Hm;
    [| destruct (isSpeakingState li) eqn:Hsp]; simpl;
    repeat split; try tauto; try lra.
Qed.

Lemma updateTurningToTarget_within delta g s :
  - idleBreath <= y (position g) <= bobAmplitude ->
  progressOk s -> updatesWithin s (updateTurningToTarget delta g s).
Proof.
  intros Hg Hp. unfold updatesWithin, heightOk, progressOk in *.
  unfold updateTurningToTarget. cbv zeta.
  destruct (finished _); simpl; repeat split; tauto.
Qed.

Lemma updateTurningToCamera_within delta cam g s :
  - idleBreath <= y (position g) <= bobAmplitude ->
  progressOk s -> updatesWithin s (updateTurningToCamera delta cam g s).
Proof.
  intros Hg Hp. unfold updatesWithin, heightOk, progressOk in *.
  unfold updateTurningToCamera. cbv zeta.
  destruct s as [sc mo li [owc wid pwr pwt] rt]. simpl in *.
  destruct (finished _); simpl; [| repeat split; tauto].
  destruct (mixer sc) eqn:Hm; simpl; rewrite ?Hm; simpl.
  all: destruct owc as [cb |]; simpl; [| repeat split; tauto].
  all: unfold runWalkResolve; simpl; destruct (negb _); simpl;
    [| destruct pwt; simpl]; repeat split; tauto.
Qed.

Lemma updateWalking_within elapsed delta g s :
  0 < delta ->
  progressOk s -> updatesWithin s (updateWalking elapsed delta g s).
Proof.
  intros Hd Hp. unfold updatesWithin, heightOk, progressOk in *.
  unfold updateWalking. cbv zeta.
  destruct s as [sc mo li co rt]. simpl in *.
  set (safe := Rmax (walkDuration mo) 0.001).
  assert (Hsafe : 0 < safe) by (unfold safe; pose proof (Rmax_r (walkDuration mo) 0.001); lra).
  set (p := Rmin 1 ((walkElapsed mo + delta) / safe)).
  assert (Hq : 0 <= (walkElapsed mo + delta) / safe).
  { apply Rmult_le_pos; [lra |]. left. apply Rinv_0_lt_compat. exact Hsafe. }
  assert (Hpr : 0 <= p <= 1).
  { unfold p. split; [apply Rmin_glb; lra | apply Rmin_l]. }
  pose proof (abs_sin_scaled
                (stepPhase mo + delta * bobFrequency * 1.15) bobAmplitude) as Hb.
  unfold idleBreath, bobAmplitude in *.
  destruct (geb p 1); simpl.
  - repeat split; try tauto; lra.
  - destruct (mixer sc) eqn:Hm; simpl; rewrite ?Hm; simpl;
      repeat split; try tauto; lra.
Qed.

Lemma updateLightState_envelope elapsed s :
  heightOk s -> progressOk s -> 1 <= lightIntensity (light s) <= 2.3 ->
  envelope (updateLightState elapsed s).
Proof.
  intros Hh Hp Hl. unfold envelope, heightOk, progressOk, lightOk in *.
  unfold updateLightState. cbv zeta.
  destruct s as [sc mo li co rt]. simpl in *.
  pose proof (sin_scaled (elapsed * 5) 0.3) as Hs.
  assert (Ht : 1 <= (if isSpeakingState li then 2.0 + sin (elapsed * 5) * 0.3
                     else 1.0) <= 2.3).
  { destruct (isSpeakingState li); lra. }
  set (t := if isSpeakingState li then 2.0 + sin (elapsed * 5) * 0.3 else 1.0) in *.
  destruct (highlightLight sc) eqn:Hhl; simpl; rewrite ?Hhl;
    repeat split; try tauto; lra.
Qed.

Lemma envelope_updateARIA elapsed cam sp s :
  envelope s -> envelope (updateARIA elapsed cam sp s).
Proof.
  intros H. unfold updateARIA.
  destruct (ariaGroup (scene s)) as [g |] eqn:Hg; [| exact H].
  cbv zeta.
  destruct (frameDelta_bounds elapsed (lastUpdateTime (motion s))) as [Hd _].
  set (d := frameDelta elapsed (lastUpdateTime (motion s))) in *.
  match goal with
  | |- context [updateLightState _ (match ariaState (motion ?s1) with _ => _ end)] =>
      remember s1 as s1' eqn:Es1
  end.
  destruct H as [Hh [Hp [Hl Hhl]]].
  assert (Hg' : - idleBreath <= y (position g) <= bobAmplitude).
  { unfold heightOk in Hh. rewrite Hg in Hh. exact Hh. }
  assert (H1 : progressOk s1' /\
               lightIntensity (light s1') = lightIntensity (light s) /\
               highlightLight (scene s1') = highlightLight (scene s)).
  { subst s1'. unfold progressOk in *.
    destruct (mixer (scene s)) eqn:Em; simpl; rewrite ?Em;
      destruct (spotLight (scene s)) eqn:Esp; simpl; rewrite ?Esp;
      repeat split; tauto. }
  destruct H1 as [Hp1 [El Ehl]].
  assert (Hw : updatesWithin s1'
                 (match ariaState (motion s1') with
                  | idle => updateIdle elapsed d cam g s1'
                  | turning_to_target => updateTurningToTarget d g s1'
                  | walking => updateWalking elapsed d g s1'
                  | turning_to_camera => updateTurningToCamera d cam g s1'
                  | speaking => updateSpeaking elapsed d cam g s1'
                  end)).
  { destruct (ariaState (motion s1')).
    - apply updateIdle_within; exact Hp1.
    - apply updateTurningToTarget_within; assumption.
    - apply updateWalking_within; [lra | exact Hp1].
    - apply updateTurningToCamera_within; assumption.
    - apply updateSpeaking_within; exact Hp1. }
  destruct Hw as [A [B [C [D _]]]].
  apply updateLightState_envelope; [exact A | exact B |].
  rewrite C, El. exact Hl.
Qed.

Lemma envelope_initial : envelope initial.
Proof.
  unfold envelope, heightOk, progressOk, lightOk. simpl. lra.
Qed.

Lemma envelope_run (es : list Event) :
  forall s, envelope s -> envelope (run s es).
Proof.
  induction es as [| e es IH]; intros s H; [exact H |].
  simpl. apply IH. destruct e; simpl.
  - apply envelope_loadARIA; exact H.
  - apply envelope_walkToPosition; exact H.
  - apply envelope_updateARIA; exact H.
  - apply envelope_fireTimer; exact H.
  - apply envelope_resetToStart; exact H.
Qed.

(** X4. Whatever happens to the module (loading, walk requests, frames,
    timers, resets, in any order), the avatar group stays within
    [-0.012, 0.02] of the floor: the idle and speaking states breathe with
    amplitude 0.012, a stride bobs up to 0.02, and every completion puts the
    avatar back at height 0. *)
Theorem avatar_height_envelope :
  forall (es : list Event) (g : Object3D),
    ariaGroup (scene (run initial es)) = Some g ->
    - 0.012 <= y (position g) <= 0.02.
Proof.
  intros es g Hg.
  destruct (envelope_run es initial envelope_initial) as [Hh _].
  unfold heightOk in Hh. rewrite Hg in Hh.
  unfold idleBreath, bobAmplitude in Hh. lra.
Qed.

Lemma avatar_height_envelope_witness :
  - 0.012 <= y (position {| position := ARIA_START_POS;
                             rotation := {| ex := 0; ey := 0; ez := 0 |} |})
    <= 0.02.
Proof.
  apply (avatar_height_envelope [Loaded true]). reflexivity.
Defined.

(** X5. In every state the module can reach, the walk clock is not
    negative and [walkProgress] is a fraction between 0 and 1. *)
Theorem walk_progress_is_a_fraction :
  forall es : list Event,
    let s := run initial es in
    0 <= walkElapsed (motion s) /\ 0 <= walkProgress (motion s) <= 1.
Proof.
  intros es s.
  destruct (envelope_run es initial envelope_initial) as [_ [Hp _]].
  exact Hp.
Qed.

(** X6. In every state the module can reach, the smoothed light level
    [lightIntensity] lies between 1 (rest) and 2.3 (the peak of the speaking
    pulse), and the intensity of the highlight light, once it exists, lies
    between 3 and 6.9. *)
Theorem light_level_envelope :
  forall es : list Event,
    let s := run initial es in
    1 <= lightIntensity (light s) <= 2.3 /\
    match highlightLight (scene s) with
    | Some i => 3 <= i <= 6.9
    | None => True
    end.
Proof.
  intros es s.
  destruct (envelope_run es initial envelope_initial) as [_ [_ Hl]].
  exact Hl.
Qed.

End EnvelopeFacts.

(** ** Walks: one pending promise, the straight segment, the duration *)

Module WalksFacts.

Import Three JsMath Aria JsFacts AriaFacts Envelope EnvelopeFacts Walks.

(** X7. At most one walk is pending.  In every state the module can reach,
    a promise returned by [walkToPosition] that has not been resolved is the
    promise of the current request: [pendingWalkResolve] and
    [onWalkComplete] both hold the closure that resolves it, so two
    unresolved promises are the same promise.  A promise that has been
    resolved is not resolved again, whatever events follow. *)
Theorem one_walk_pending :
  forall es : list Event,
    let s := run initial es in
    (forall q, (q < nextPromise (runtime s))%nat -> resolveCount q s = 0%nat ->
       pendingWalkResolve (completion s) = Some (currentClosure q s) /\
       onWalkComplete (completion s) = Some (currentClosure q s)) /\
    (forall q q', (q < nextPromise (runtime s))%nat ->
       (q' < nextPromise (runtime s))%nat ->
       resolveCount q s = 0%nat -> resolveCount q' s = 0%nat -> q = q') /\
    (forall es' q, (q < nextPromise (runtime s))%nat ->
       (1 <= resolveCount q s)%nat ->
       resolveCount q (run s es') = resolveCount q s).
Proof.
  intros es s. pose proof (run_consistent es) as Hc. fold s in Hc.
  assert (Huniq : forall q, (q < nextPromise (runtime s))%nat ->
                    resolveCount q s = 0%nat -> walkPending q s).
  { intros q Hq Hz. destruct Hc as [_ [[_ [_ [_ Hall]]] | [p Hp]]].
    - specialize (Hall q Hq). lia.
    - destruct (Nat.eq_dec q p) as [-> | Hne]; [exact Hp |].
      destruct Hp as [_ [_ [_ [_ [_ [Hothers _]]]]]].
      specialize (Hothers q Hq Hne). lia. }
  split; [| split].
  - intros q Hq Hz. destruct (Huniq q Hq Hz) as [_ [A [B _]]].
    split; assumption.
  - intros q q' Hq Hq' Hz Hz'.
    destruct (Huniq q Hq Hz) as [_ [A _]].
    destruct (Huniq q' Hq' Hz') as [_ [A' _]].
    rewrite A in A'. injection A' as E. exact E.
  - intros es' q Hq Hone.
    destruct (run_ok es' s Hc) as [_ [_ Hstable]].
    apply Hstable; assumption.
Qed.

Lemma one_walk_pending_witness :
  pendingWalkResolve
    (completion (run initial [Loaded true; WalkTo (vec 6 0 (-5))]))
  = Some {| wr_requestId := 1%nat; wr_promise := 0%nat |}.
Proof.
  destruct (one_walk_pending [Loaded true; WalkTo (vec 6 0 (-5))]) as [H _].
  destruct (H 0%nat) as [A _]; [simpl; lia | reflexivity |].
  exact A.
Defined.

Lemma updateARIA_idle elapsed cam sp s :
  ariaState (motion s) = idle ->
  let s' := updateARIA elapsed cam sp s in
  sameControl s s' /\ ariaState (motion s') = idle.
Proof.
  intros Hi s'. unfold s', updateARIA.
  destruct (ariaGroup (scene s)) as [g |] eqn:Hg;
    [| split; [apply sameControl_refl | exact Hi]].
  cbv zeta.
  match goal with
  | |- context [updateLightState _ (match ariaState (motion ?s1) with _ => _ end)] =>
      remember s1 as s1' eqn:Es1
  end.
  assert (H1 : sameControl s s1' /\ ariaState (motion s1') = idle).
  { subst s1'. unfold sameControl.
    destruct (mixer (scene s)) eqn:Em; simpl; rewrite ?Em;
      destruct (spotLight (scene s)) eqn:Esp; simpl; rewrite ?Esp;
      repeat split; try reflexivity; try exact Hi; try congruence.
    all: simpl; rewrite ?Hg; discriminate. }
  destruct H1 as [Hs1 Hi1]. rewrite Hi1.
  split.
  - eapply sameControl_trans; [exact Hs1 |].
    eapply sameControl_trans; [apply updateIdle_control |].
    apply updateLightState_control.
  - destruct (updateLightState_frame elapsed
                (updateIdle elapsed (frameDelta elapsed (lastUpdateTime (motion s)))
                            cam g s1')) as [Em _].
    rewrite Em. unfold updateIdle. simpl. exact Hi1.
Qed.

Lemma sameControl_count (p : Js.PromiseId) (s s' : State) :
  sameControl s s' -> resolveCount p s' = resolveCount p s.
Proof. intros [_ [E _]]. unfold resolveCount. rewrite E. reflexivity. Qed.

(** An idle avatar with an unresolved promise stays that way under every
    event but a walk request. *)
Lemma idle_step (p : Js.PromiseId) (s : State) (e : Event) :
  notWalkTo e ->
  consistent s -> ariaState (motion s) = idle -> resolveCount p s = 0%nat ->
  consistent (step s e) /\ ariaState (motion (step s e)) = idle /\
  resolveCount p (step s e) = 0%nat.
Proof.
  intros He Hc Hi Hz.
  split; [apply (step_ok s e Hc) |].
  destruct e as [a | t | elapsed cam sp | h |]; simpl in *.
  - split; [unfold loadARIA; destruct a; exact Hi |].
    rewrite (sameControl_count p _ _ (loadARIA_control a s)). exact Hz.
  - contradiction.
  - destruct (updateARIA_idle elapsed cam sp s Hi) as [Hs Hi'].
    split; [exact Hi' |]. rewrite (sameControl_count p _ _ Hs). exact Hz.
  - split; [rewrite fireTimer_motion; exact Hi |].
    destruct (Js.findTimer h (timers (runtime s))) as [t |] eqn:Ef.
    + destruct (fireTimer_cases h t s Hc Ef) as [_ [_ [Hidle _]]].
      destruct (Hidle (or_introl Hi)) as [_ [_ [El _]]].
      unfold resolveCount in *. rewrite El. exact Hz.
    + unfold fireTimer. rewrite Ef. exact Hz.
  - split.
    + unfold resetToStart. destruct (ariaGroup (scene s)); [| exact Hi].
      cbv zeta.
      match goal with
      | |- context [match mixer ?a with _ => _ end] => destruct (mixer a)
      end; reflexivity.
    + rewrite (sameControl_count p _ _ (resetToStart_control s)). exact Hz.
Qed.

Lemma idle_run (p : Js.PromiseId) (es : list Event) :
  forall s, Forall notWalkTo es ->
    consistent s -> ariaState (motion s) = idle -> resolveCount p s = 0%nat ->
    consistent (run s es) /\ ariaState (motion (run s es)) = idle /\
    resolveCount p (run s es) = 0%nat.
Proof.
  induction es as [| e es IH]; intros s Hall Hc Hi Hz; [tauto |].
  inversion Hall as [| ? ? He Hrest]; subst. simpl.
  destruct (idle_step p s e He Hc Hi Hz) as [Hc' [Hi' Hz']].
  apply IH; assumption.
Qed.

(** X8. [resetToStart] during a walk strands the walk's promise.  When a
    promise returned by [walkToPosition] is still unresolved and
    [resetToStart] is called, the state machine is back in [idle] while the
    completion closure stays stored; from then on no frame and no safety
    timeout resolves the promise (the timeout does nothing in the idle
    state): after any events other than a new [walkToPosition] the promise
    is still unresolved and still held by [pendingWalkResolve]. *)
Theorem reset_strands_walk :
  forall (es es' : list Event) (p : Js.PromiseId),
    let s := run initial es in
    (p < nextPromise (runtime s))%nat ->
    resolveCount p s = 0%nat ->
    Forall notWalkTo es' ->
    let s' := run (resetToStart s) es' in
    resolveCount p s' = 0%nat /\
    ariaState (motion s') = idle /\
    pendingWalkResolve (completion s') = Some (currentClosure p s').
Proof.
  intros es es' p s Hlt Hz Hall s'.
  pose proof (run_consistent es) as Hc. fold s in Hc.
  assert (Hpend : walkPending p s).
  { destruct Hc as [_ [[_ [_ [_ Hallq]]] | [q Hq]]].
    - specialize (Hallq p Hlt). lia.
    - destruct (Nat.eq_dec p q) as [-> | Hne]; [exact Hq |].
      destruct Hq as [_ [_ [_ [_ [_ [Hothers _]]]]]].
      specialize (Hothers p Hlt Hne). lia. }
  assert (Hc1 : consistent (resetToStart s))
    by (apply (consistent_ext s); [apply resetToStart_control | exact Hc]).
  assert (Hi1 : ariaState (motion (resetToStart s)) = idle).
  { destruct Hpend as [Hag _]. unfold resetToStart.
    destruct (ariaGroup (scene s)); [| congruence]. cbv zeta.
    match goal with
    | |- context [match mixer ?a with _ => _ end] => destruct (mixer a)
    end; reflexivity. }
  assert (Hz1 : resolveCount p (resetToStart s) = 0%nat)
    by (rewrite (sameControl_count p _ _ (resetToStart_control s)); exact Hz).
  destruct (idle_run p es' (resetToStart s) Hall Hc1 Hi1 Hz1) as [Hc' [Hi' Hz']].
  fold s' in Hc', Hi', Hz'.
  split; [exact Hz' |]. split; [exact Hi' |].
  assert (Hn : (nextPromise (runtime s) <= nextPromise (runtime s'))%nat).
  { destruct (run_ok es' (resetToStart s) Hc1) as [_ [Hn _]].
    destruct (resetToStart_control s) as [_ [Er _]]. rewrite Er in Hn. exact Hn. }
  destruct Hc' as [_ [[_ [_ [_ Hallq]]] | [q Hq]]].
  - assert (Hp' : (p < nextPromise (runtime s'))%nat) by lia.
    specialize (Hallq p Hp'). lia.
  - destruct (Nat.eq_dec p q) as [-> | Hne].
    + destruct Hq as [_ [A _]]. exact A.
    + destruct Hq as [_ [_ [_ [_ [_ [Hothers _]]]]]].
      assert (Hp' : (p < nextPromise (runtime s'))%nat) by lia.
      specialize (Hothers p Hp' Hne). lia.
Qed.

Lemma reset_strands_walk_witness :
  resolveCount 0%nat
    (run (resetToStart (run initial [Loaded true; WalkTo (vec 6 0 (-5))]))
         [TimerFires 0%nat; Reset]) = 0%nat.
Proof.
  assert (Hlt : (0 < nextPromise (runtime (run initial
                   [Loaded true; WalkTo (vec 6 0 (-5))])))%nat)
    by (simpl; lia).
  assert (Hz : resolveCount 0%nat
                 (run initial [Loaded true; WalkTo (vec 6 0 (-5))]) = 0%nat)
    by reflexivity.
  assert (Hall : Forall notWalkTo [TimerFires 0%nat; Reset])
    by (repeat constructor).
  exact (proj1 (reset_strands_walk [Loaded true; WalkTo (vec 6 0 (-5))]
                  [TimerFires 0%nat; Reset] 0%nat Hlt Hz Hall)).
Defined.

Lemma eased_fraction (t : R) : 0 <= t <= 1 -> 0 <= eased t <= 1.
Proof.
  intros [H0 H1]. unfold eased. split.
  - apply Rmult_le_pos; [apply Rmult_le_pos; lra | lra].
  - replace (t * t * (3 - 2 * t))
      with (1 - (1 - t) * (1 - t) * (1 + 2 * t)) by ring.
    assert (0 <= (1 - t) * (1 - t) * (1 + 2 * t))
      by (apply Rmult_le_pos; [apply Rmult_le_pos; lra | lra]).
    lra.
Qed.

Lemma updateARIA_walking_frame elapsed cam sp s g :
  ariaGroup (scene s) = Some g ->
  ariaState (motion s) = walking ->
  exists s1,
    ariaGroup (scene (updateARIA elapsed cam sp s)) =
      ariaGroup (scene (updateWalking elapsed
                          (frameDelta elapsed (lastUpdateTime (motion s)))
                          g s1)) /\
    walkElapsed (motion s1) = walkElapsed (motion s) /\
    walkDuration (motion s1) = walkDuration (motion s) /\
    walkStartPos (motion s1) = walkStartPos (motion s) /\
    walkEndPos (motion s1) = walkEndPos (motion s).
Proof.
  intros Hg Hw. unfold updateARIA. rewrite Hg. cbv zeta.
  match goal with
  | |- context [updateLightState _ (match ariaState (motion ?s1) with _ => _ end)] =>
      exists s1
  end.
  split.
  - match goal with
    | |- ariaGroup (scene (updateLightState _ ?s2)) = _ =>
        destruct (updateLightState_frame elapsed s2) as [_ [_ [_ [E _]]]];
        rewrite E
    end.
    destruct (mixer (scene s)) eqn:Em; simpl; rewrite ?Em;
      destruct (spotLight (scene s)) eqn:Esp; simpl; rewrite ?Esp.
    all: match goal with
         | |- context [match ariaState (motion ?X) with _ => _ end] =>
             replace (ariaState (motion X)) with walking by (symmetry; exact Hw)
         end; reflexivity.
  - destruct (mixer (scene s)) eqn:Em; simpl; rewrite ?Em;
      destruct (spotLight (scene s)) eqn:Esp; simpl; rewrite ?Esp;
      repeat split; reflexivity.
Qed.

(** X9. A walking avatar stays on the straight segment of its walk and never
    overshoots.  On a loaded avatar whose walk clock is not negative (as it
    is in every state the module can reach), a frame of the walking state
    puts the avatar, in the ground plane, at [start + (end - start) * t] for
    some fraction [t] between 0 and 1 ([t] is the smoothstep of the
    progress, and 1 on arrival). *)
Theorem walking_stays_on_segment :
  forall (s : State) (elapsed : R) (cameraPosition : Vector3)
         (isSpeaking : bool) (g : Object3D),
    ariaGroup (scene s) = Some g ->
    ariaState (motion s) = walking ->
    0 <= walkElapsed (motion s) ->
    let a := walkStartPos (motion s) in
    let b := walkEndPos (motion s) in
    exists g' t,
      ariaGroup (scene (updateARIA elapsed cameraPosition isSpeaking s))
        = Some g' /\
      0 <= t <= 1 /\
      x (position g') = x a + (x b - x a) * t /\
      z (position g') = z a + (z b - z a) * t.
Proof.
  intros s elapsed cam sp g Hg Hw Hel a b.
  destruct (updateARIA_walking_frame elapsed cam sp s g Hg Hw)
    as [s1 [Eg [Eel [Edur [Esta Eend]]]]].
  rewrite Eg.
  destruct (frameDelta_bounds elapsed (lastUpdateTime (motion s))) as [Hd _].
  set (d := frameDelta elapsed (lastUpdateTime (motion s))) in *.
  assert (Hsafe : 0 < Rmax (walkDuration (motion s1)) 0.001).
  { pose proof (Rmax_r (walkDuration (motion s1)) 0.001). lra. }
  destruct (Rlt_dec (walkElapsed (motion s1) + d)
                    (Rmax (walkDuration (motion s1)) 0.001)) as [Hc | Hc].
  - destruct (updateWalking_continues elapsed d g s1 Hc)
      as [_ [[g' [bob [Hg' Hpos]]] _]].
    cbv zeta in Hpos.
    set (t0 := Rmin 1 ((walkElapsed (motion s1) + d)
                       / Rmax (walkDuration (motion s1)) 0.001)) in *.
    assert (Ht0 : 0 <= t0 <= 1).
    { unfold t0. split; [| apply Rmin_l].
      apply Rmin_glb; [lra |].
      apply Rmult_le_pos; [lra |]. left. apply Rinv_0_lt_compat. exact Hsafe. }
    exists g', (eased t0). split; [exact Hg' |].
    split; [apply eased_fraction; exact Ht0 |].
    rewrite Hpos, Esta, Eend. unfold eased. simpl. split; reflexivity.
  - assert (Hge : walkElapsed (motion s1) + d
                  >= Rmax (walkDuration (motion s1)) 0.001) by lra.
    destruct (updateWalking_arrives elapsed d g s1 Hge) as [_ [Hg' _]].
    eexists. exists 1. split; [exact Hg' |].
    split; [lra |]. rewrite Eend. simpl. unfold a, b. split; ring.
Qed.

Lemma walking_stays_on_segment_witness :
  exists g' t,
    ariaGroup (scene (updateARIA 1 (vec 0 1.5 6) false midWalk)) = Some g' /\
    0 <= t <= 1 /\
    x (position g') = 0 + (0 - 0) * t /\
    z (position g') = 2 + (5 - 2) * t.
Proof.
  apply (walking_stays_on_segment midWalk 1 (vec 0 1.5 6) false
           {| position := vec 0 0 3;
              rotation := {| ex := 0; ey := 0; ez := 0 |} |}).
  - reflexivity.
  - reflexivity.
  - simpl. lra.
Defined.

(** X10. A walk lasts its duration.  For frames of the walking state on a
    loaded avatar, with time steps that are not negative: as long as the
    walk clock plus the steps stays short of [max(walkDuration, 0.001)] the
    avatar is still walking, with the clock advanced by exactly the sum of
    the steps; once the sum reaches it, the avatar is at the end point of
    the walk at height 0, with progress 1 and without lean or sway, in the
    state [turning_to_camera]. *)
Theorem walk_lasts_its_duration :
  forall (deltas : list R) (s : State) (g : Object3D),
    ariaGroup (scene s) = Some g ->
    ariaState (motion s) = walking ->
    (forall d, In d deltas -> 0 <= d) ->
    walkElapsed (motion s) < Rmax (walkDuration (motion s)) 0.001 ->
    let s' := walkFrames deltas s in
    (walkElapsed (motion s) + totalTime deltas
       < Rmax (walkDuration (motion s)) 0.001 ->
     ariaState (motion s') = walking /\
     walkElapsed (motion s') = walkElapsed (motion s) + totalTime deltas) /\
    (walkElapsed (motion s) + totalTime deltas
       >= Rmax (walkDuration (motion s)) 0.001 ->
     ariaState (motion s') = turning_to_camera /\
     walkProgress (motion s') = 1 /\
     exists g', ariaGroup (scene s') = Some g' /\
                position g' = setY (walkEndPos (motion s)) 0 /\
                ex (rotation g') = 0 /\ ez (rotation g') = 0).
Proof.
  intros deltas s g Hg Hw Hpos Hlt s'. split.
  - intros Hshort.
    destruct (walkFrames_in_progress deltas s g Hg Hw Hpos Hshort)
      as [A [_ [B _]]].
    split; assumption.
  - intros Hreach.
    apply (walkFrames_arrive deltas s g Hg Hw Hpos Hlt Hreach).
Qed.

Lemma walk_lasts_its_duration_witness :
  ariaState (motion (walkFrames [0.05; 0.05] midWalk)) = walking /\
  walkElapsed (motion (walkFrames [0.05; 0.05] midWalk))
    = 1 + totalTime [0.05; 0.05].
Proof.
  assert (Hpos : forall d, In d [0.05; 0.05] -> 0 <= d).
  { intros d [<- | [<- | []]]; lra. }
  assert (Hmax : Rmax 3.6 0.001 = 3.6)
    by (apply Rmax_left; lra).
  assert (Hlt : walkElapsed (motion midWalk)
                < Rmax (walkDuration (motion midWalk)) 0.001).
  { simpl. rewrite Hmax. lra. }
  destruct (walk_lasts_its_duration [0.05; 0.05] midWalk
              {| position := vec 0 0 3;
                 rotation := {| ex := 0; ey := 0; ez := 0 |} |}
              eq_refl eq_refl Hpos Hlt) as [Hshort _].
  apply Hshort. simpl. rewrite Hmax. unfold totalTime. simpl. lra.
Defined.

End WalksFacts.

(** ** The example walk, from the call of [walkToPosition] to the arrival *)

Module ExampleWalkFacts.

Import Three JsMath Aria JsFacts AriaFacts Turning TurningFacts Walks Frames.

(** A frame on a loaded avatar: the per-state update runs on a state that
    differs from the one before in [lastUpdateTime], the mixer, the speaking
    flag and the target of the spot light, and [updateLightState] follows. *)
Lemma updateARIA_dispatch elapsed cam sp s g :
  ariaGroup (scene s) = Some g ->
  exists s1,
    updateARIA elapsed cam sp s =
      updateLightState elapsed
        (let d := frameDelta elapsed (lastUpdateTime (motion s)) in
         match ariaState (motion s) with
         | idle => updateIdle elapsed d cam g s1
         | turning_to_target => updateTurningToTarget d g s1
         | walking => updateWalking elapsed d g s1
         | turning_to_camera => updateTurningToCamera d cam g s1
         | speaking => updateSpeaking elapsed d cam g s1
         end) /\
    motion s1 = motion (setLastUpdateTime elapsed s) /\
    ariaGroup (scene s1) = Some g.
Proof.
  intros Hg. unfold updateARIA. rewrite Hg. cbv zeta.
  match goal with
  | |- context [updateLightState _ (match ariaState (motion ?s1) with _ => _ end)] =>
      exists s1
  end.
  destruct (mixer (scene s)) eqn:Em; simpl; rewrite ?Em;
    destruct (spotLight (scene s)) eqn:Esp; simpl; rewrite ?Esp;
    repeat split; try reflexivity; try exact Hg.
Qed.

(** A frame of the state [turning_to_target] on a loaded avatar. *)
Lemma updateARIA_turning elapsed cam sp s g :
  ariaGroup (scene s) = Some g ->
  ariaState (motion s) = turning_to_target ->
  let d := frameDelta elapsed (lastUpdateTime (motion s)) in
  let res := dampRotation (ey (rotation g)) (targetRotation (motion s))
                          turnSpeed d in
  let s' := updateARIA elapsed cam sp s in
  (exists g', ariaGroup (scene s') = Some g' /\
              position g' = position g /\
              ey (rotation g') = value res) /\
  ariaState (motion s') = (if finished res then walking else turning_to_target) /\
  targetRotation (motion s') = targetRotation (motion s) /\
  walkElapsed (motion s') = walkElapsed (motion s) /\
  walkDuration (motion s') = walkDuration (motion s) /\
  walkStartPos (motion s') = walkStartPos (motion s) /\
  walkEndPos (motion s') = walkEndPos (motion s) /\
  lastUpdateTime (motion s') = elapsed.
Proof.
  intros Hg Hs d res s'.
  destruct (updateARIA_dispatch elapsed cam sp s g Hg) as [s1 [E [Hm Hg1]]].
  unfold s'. rewrite E, Hs. cbv zeta. fold d. clear E.
  match goal with
  | |- context [updateLightState elapsed ?x] =>
      destruct (updateLightState_frame elapsed x) as [Lm [_ [_ [Lg _]]]];
      rewrite Lm, Lg
  end.
  assert (Et : targetRotation (motion s1) = targetRotation (motion s))
    by (rewrite Hm; reflexivity).
  unfold updateTurningToTarget. cbv zeta. rewrite Et. fold res.
  destruct (finished res); simpl; rewrite Hm; simpl;
    (split; [eexists; repeat split; reflexivity |]);
    repeat split; try reflexivity; exact Hs.
Qed.

(** A frame of the state [walking] on a loaded avatar. *)
Lemma updateARIA_stride elapsed cam sp s g :
  ariaGroup (scene s) = Some g ->
  ariaState (motion s) = walking ->
  let d := frameDelta elapsed (lastUpdateTime (motion s)) in
  let D := Rmax (walkDuration (motion s)) 0.001 in
  let s' := updateARIA elapsed cam sp s in
  lastUpdateTime (motion s') = elapsed /\
  walkElapsed (motion s') = walkElapsed (motion s) + d /\
  walkDuration (motion s') = walkDuration (motion s) /\
  walkStartPos (motion s') = walkStartPos (motion s) /\
  walkEndPos (motion s') = walkEndPos (motion s) /\
  (walkElapsed (motion s) + d < D ->
   ariaState (motion s') = walking /\
   exists g' bob,
     ariaGroup (scene s') = Some g' /\
     position g' =
       setY (lerpVectors (walkStartPos (motion s)) (walkEndPos (motion s))
               (eased (Rmin 1 ((walkElapsed (motion s) + d) / D)))) bob) /\
  (walkElapsed (motion s) + d >= D ->
   ariaState (motion s') = turning_to_camera /\
   walkProgress (motion s') = 1 /\
   ariaGroup (scene s') =
     Some {| position := setY (walkEndPos (motion s)) 0;
             rotation := {| ex := 0; ey := ey (rotation g); ez := 0 |} |}).
Proof.
  intros Hg Hs d D s'.
  destruct (updateARIA_dispatch elapsed cam sp s g Hg) as [s1 [E [Hm Hg1]]].
  unfold s'. rewrite E, Hs. cbv zeta. fold d. clear E.
  match goal with
  | |- context [updateLightState elapsed ?x] =>
      destruct (updateLightState_frame elapsed x) as [Lm [_ [_ [Lg _]]]];
      rewrite Lm, Lg
  end.
  assert (E1 : walkElapsed (motion s1) = walkElapsed (motion s))
    by (rewrite Hm; reflexivity).
  assert (E2 : walkDuration (motion s1) = walkDuration (motion s))
    by (rewrite Hm; reflexivity).
  assert (E3 : walkStartPos (motion s1) = walkStartPos (motion s))
    by (rewrite Hm; reflexivity).
  assert (E4 : walkEndPos (motion s1) = walkEndPos (motion s))
    by (rewrite Hm; reflexivity).
  assert (E5 : lastUpdateTime (motion s1) = elapsed)
    by (rewrite Hm; reflexivity).
  assert (E6 : ariaState (motion s1) = walking)
    by (rewrite Hm; exact Hs).
  clear Lm Lg Hm.
  destruct (Rlt_dec (walkElapsed (motion s) + d) D) as [Hc | Hc].
  - assert (Hc1 : walkElapsed (motion s1) + d
                  < Rmax (walkDuration (motion s1)) 0.001)
      by (rewrite E1, E2; exact Hc).
    destruct (updateWalking_continues elapsed d g s1 Hc1)
      as [A [[g' [bob [B1 B2]]] [C1 [C2 [C3 [C4 _]]]]]].
    assert (L : lastUpdateTime (motion (updateWalking elapsed d g s1)) = elapsed).
    { rewrite <- E5. unfold updateWalking. cbv zeta.
      destruct (geb _ 1); [reflexivity |].
      match goal with |- context [match mixer ?a with _ => _ end] =>
        destruct (mixer a) end; reflexivity. }
    split; [exact L |]. split; [rewrite C1, E1; reflexivity |].
    split; [congruence |]. split; [congruence |]. split; [congruence |].
    split.
    + intros _. split; [congruence |].
      exists g', bob. split; [exact B1 |].
      rewrite B2. cbv zeta. rewrite E1, E2, E3, E4. reflexivity.
    + intros Hge. unfold D in *. lra.
  - assert (Hc1 : walkElapsed (motion s1) + d
                  >= Rmax (walkDuration (motion s1)) 0.001)
      by (rewrite E1, E2; unfold D in Hc; lra).
    destruct (updateWalking_arrives elapsed d g s1 Hc1)
      as [A [B [C1 [C2 [C3 [C4 _]]]]]].
    assert (L : lastUpdateTime (motion (updateWalking elapsed d g s1)) = elapsed).
    { rewrite <- E5. unfold updateWalking. cbv zeta.
      destruct (geb _ 1); [reflexivity |].
      match goal with |- context [match mixer ?a with _ => _ end] =>
        destruct (mixer a) end; reflexivity. }
    assert (S3 : walkStartPos (motion (updateWalking elapsed d g s1))
                 = walkStartPos (motion s1)).
    { unfold updateWalking. cbv zeta.
      destruct (geb _ 1); [reflexivity |].
      match goal with |- context [match mixer ?a with _ => _ end] =>
        destruct (mixer a) end; reflexivity. }
    split; [exact L |]. split; [rewrite C1, E1; reflexivity |].
    split; [congruence |]. split; [congruence |]. split; [congruence |].
    split.
    + intros Hlt. contradiction.
    + intros _. split; [exact A |]. split; [exact C2 |].
      rewrite B, E4. reflexivity.
Qed.


Lemma frameSteps_positive (fs : list Frame) :
  forall last d, In d (frameSteps last fs) -> 0 < d <= 0.05.
Proof.
  induction fs as [| f rest IH]; intros last d Hin; [contradiction |].
  destruct Hin as [<- | Hin]; [apply frameDelta_bounds | apply (IH _ _ Hin)].
Qed.

Lemma frameSteps_total (fs : list Frame) (last : R) :
  0 <= totalTime (frameSteps last fs).
Proof.
  revert last. induction fs as [| f rest IH]; intros last.
  - unfold totalTime. simpl. lra.
  - unfold totalTime in *. simpl.
    destruct (frameDelta_bounds (f_elapsed f) last) as [H _].
    specialize (IH (f_elapsed f)). lra.
Qed.

Lemma clockAdvance_cons (s s' : State) (f : Frame) (rest : list Frame) :
  lastUpdateTime (motion s') = f_elapsed f ->
  clockAdvance s (f :: rest)
  = frameDelta (f_elapsed f) (lastUpdateTime (motion s)) + clockAdvance s' rest.
Proof.
  intros E. unfold clockAdvance, totalTime. simpl. rewrite E. reflexivity.
Qed.

(** The walking phase: frames that take the walk clock to the duration
    bring the avatar to the end point, at the first of them that reaches
    it. *)
Lemma walk_phase (fs : list Frame) :
  forall (s : State) (g : Object3D),
    ariaGroup (scene s) = Some g ->
    ariaState (motion s) = walking ->
    walkElapsed (motion s) < Rmax (walkDuration (motion s)) 0.001 ->
    Rmax (walkDuration (motion s)) 0.001
      <= walkElapsed (motion s) + clockAdvance s fs ->
    exists k, (k <= length fs)%nat /\
      arrivedAt (setY (walkEndPos (motion s)) 0)
                (Rmax (walkDuration (motion s)) 0.001)
                (run s (map frame (firstn k fs))).
Proof.
  induction fs as [| f rest IH]; intros s g Hg Hw Hlt Hge.
  - unfold clockAdvance, totalTime in Hge. simpl in Hge. lra.
  - destruct (updateARIA_stride (f_elapsed f) (f_cameraPosition f)
                (f_isSpeaking f) s g Hg Hw)
      as [L [We [Wd [Ws [Wend [Hcont Harr]]]]]].
    set (d := frameDelta (f_elapsed f) (lastUpdateTime (motion s))) in *.
    set (s' := updateARIA (f_elapsed f) (f_cameraPosition f) (f_isSpeaking f) s) in *.
    destruct (frameDelta_bounds (f_elapsed f) (lastUpdateTime (motion s)))
      as [Hd _]. fold d in Hd.
    rewrite (clockAdvance_cons s s' f rest L) in Hge. fold d in Hge.
    destruct (Rlt_dec (walkElapsed (motion s) + d)
                      (Rmax (walkDuration (motion s)) 0.001)) as [Hc | Hc].
    + destruct (Hcont Hc) as [Hst [g' [bob [Hg' _]]]].
      destruct (IH s' g' Hg' Hst) as [k [Hk Ha]].
      * rewrite We, Wd. exact Hc.
      * rewrite We, Wd. lra.
      * exists (S k). split; [simpl; lia |].
        rewrite Wend, Wd in Ha. exact Ha.
    + assert (Hge' : walkElapsed (motion s) + d
                     >= Rmax (walkDuration (motion s)) 0.001) by lra.
      destruct (Harr Hge') as [Hst [Hp Hg']].
      exists 1%nat. split; [simpl; lia |].
      change (run s (map frame (firstn 1 (f :: rest)))) with s'.
      unfold arrivedAt, getARIAPosition. rewrite Hg'.
      split; [reflexivity |]. split; [exact Hst |]. split; [exact Hp |].
      split; [rewrite We; lra |].
      eexists. split; [reflexivity |]. split; reflexivity.
Qed.

(** The turn and the walk: the turn toward the target takes at most ten
    seconds per radian and two frames, and the walk follows. *)
Lemma turn_then_walk (fs : list Frame) :
  forall (s : State) (g : Object3D),
    ariaGroup (scene s) = Some g ->
    ariaState (motion s) = turning_to_target ->
    walkElapsed (motion s) = 0 ->
    let a := Rabs (turn (ey (rotation g)) (targetRotation (motion s))) in
    let D := Rmax (walkDuration (motion s)) 0.001 in
    (a < ANGLE_TOLERANCE /\ 0.05 + D <= clockAdvance s fs) \/
    10 * a + 0.1 + D <= clockAdvance s fs ->
    exists k, (k <= length fs)%nat /\
      arrivedAt (setY (walkEndPos (motion s)) 0) D
                (run s (map frame (firstn k fs))).
Proof.
  induction fs as [| f rest IH]; intros s g Hg Ht He a D Hyp.
  - assert (HD : 0.001 <= D) by apply Rmax_r.
    assert (Ha : 0 <= a) by apply Rabs_pos.
    unfold clockAdvance, totalTime in Hyp. simpl in Hyp. lra.
  - destruct (updateARIA_turning (f_elapsed f) (f_cameraPosition f)
                (f_isSpeaking f) s g Hg Ht)
      as [[g' [Hg' [Hpos Hyaw]]] [Hst [Htr [We [Wd [Ws [Wend L]]]]]]].
    set (d := frameDelta (f_elapsed f) (lastUpdateTime (motion s))) in *.
    set (s' := updateARIA (f_elapsed f) (f_cameraPosition f) (f_isSpeaking f) s) in *.
    destruct (frameDelta_bounds (f_elapsed f) (lastUpdateTime (motion s)))
      as [Hd _]. fold d in Hd.
    rewrite (clockAdvance_cons s s' f rest L) in Hyp. fold d in Hyp.
    assert (HD : 0.001 <= D) by apply Rmax_r.
    assert (Hsp : 0 < turnSpeed) by (unfold turnSpeed; lra).
    destruct (dampRotation_step (ey (rotation g)) (targetRotation (motion s))
                turnSpeed d Hsp Hd) as [Hfin Hnot].
    cbv zeta in Hfin, Hnot. fold a in Hfin, Hnot.
    destruct (Rlt_dec a ANGLE_TOLERANCE) as [Hsmall | Hbig].
    + destruct (Hfin Hsmall) as [Hf _]. rewrite Hf in Hst.
      assert (Htot : 0.05 + D <= d + clockAdvance s' rest).
      { destruct Hyp as [[_ H] | H]; [exact H |].
        pose proof (Rabs_pos (turn (ey (rotation g)) (targetRotation (motion s)))).
        fold a in H0. lra. }
      destruct (walk_phase rest s' g' Hg' Hst) as [k [Hk Ha]].
      * rewrite We, Wd, He. fold D. lra.
      * rewrite We, Wd, He. fold D. lra.
      * exists (S k). split; [simpl; lia |].
        rewrite Wend, Wd in Ha. exact Ha.
    + assert (Hbig' : ANGLE_TOLERANCE <= a) by lra.
      destruct (Hnot Hbig') as [Hf [Hless Hprog]]. rewrite Hf in Hst.
      destruct Hyp as [[Hc _] | Hyp]; [lra |].
      unfold ANGLE_TOLERANCE in *.
      destruct (IH s' g' Hg' Hst) as [k [Hk Ha]].
      * rewrite We. exact He.
      * cbv zeta. rewrite Hyaw, Htr, Wd. fold D.
        destruct Hprog as [Hp | Hp].
        -- left. split; [exact Hp | lra].
        -- right. lra.
      * exists (S k). split; [simpl; lia |].
        rewrite Wend, Wd in Ha. exact Ha.
Qed.

Lemma eased_below_one (t : R) : 0 <= t < 1 -> eased t < 1.
Proof.
  intros [H0 H1]. unfold eased.
  replace (t * t * (3 - 2 * t))
    with (1 - (1 - t) * (1 - t) * (1 + 2 * t)) by ring.
  assert (0 < (1 - t) * (1 - t) * (1 + 2 * t))
    by (apply Rmult_lt_0_compat; [apply Rmult_lt_0_compat; lra | lra]).
  lra.
Qed.

(** As long as the clock has advanced by less than the duration, the
    avatar of the example has not arrived. *)
Lemma not_before (fs : list Frame) :
  forall s : State,
    enRoute s ->
    walkElapsed (motion s) + clockAdvance s fs < 70 / 11 ->
    enRoute (run s (map frame fs)).
Proof.
  induction fs as [| f rest IH]; intros s Hen Hlt; [exact Hen |].
  destruct Hen as [g [Hg [Hs0 [He0 [Hd0 [Hz [Hwe Hst]]]]]]].
  simpl. apply IH.
  - destruct Hst as [Ht | Hw].
    + destruct (updateARIA_turning (f_elapsed f) (f_cameraPosition f)
                  (f_isSpeaking f) s g Hg Ht)
        as [[g' [Hg' [Hpos Hyaw]]] [Hst [Htr [We [Wd [Ws [Wend L]]]]]]].
      exists g'. split; [exact Hg' |].
      split; [congruence |]. split; [congruence |]. split; [congruence |].
      split; [rewrite Hpos; exact Hz |]. split; [rewrite We; exact Hwe |].
      rewrite Hst. destruct (finished _); [right | left]; reflexivity.
    + destruct (updateARIA_stride (f_elapsed f) (f_cameraPosition f)
                  (f_isSpeaking f) s g Hg Hw)
        as [L [We [Wd [Ws [Wend [Hcont _]]]]]].
      set (d := frameDelta (f_elapsed f) (lastUpdateTime (motion s))) in *.
      destruct (frameDelta_bounds (f_elapsed f) (lastUpdateTime (motion s)))
        as [Hd _]. fold d in Hd.
      rewrite (clockAdvance_cons s _ f rest L) in Hlt. fold d in Hlt.
      pose proof (frameSteps_total rest (f_elapsed f)) as Hrest.
      match type of Hlt with
      | context [clockAdvance ?x rest] =>
          assert (Hc : clockAdvance x rest = totalTime (frameSteps (f_elapsed f) rest))
            by (unfold clockAdvance; rewrite L; reflexivity)
      end.
      rewrite Hc in Hlt.
      assert (HD : Rmax (walkDuration (motion s)) 0.001 = 70 / 11).
      { rewrite Hd0. apply Rmax_left. lra. }
      rewrite HD in Hcont.
      destruct Hcont as [Hst' [g' [bob [Hg' Hpos]]]]; [lra |].
      exists g'. split; [exact Hg' |].
      split; [congruence |]. split; [congruence |]. split; [congruence |].
      split.
      * rewrite Hpos, Hs0, He0. simpl.
        set (t := Rmin 1 ((walkElapsed (motion s) + d) / (70 / 11))).
        assert (Ht : 0 <= t < 1).
        { unfold t. split.
          - apply Rmin_glb; [lra |].
            apply Rmult_le_pos; [lra |]. left. apply Rinv_0_lt_compat. lra.
          - apply Rle_lt_trans with ((walkElapsed (motion s) + d) / (70 / 11));
              [apply Rmin_r |].
            apply Rmult_lt_reg_r with (70 / 11); [lra |].
            unfold Rdiv at 1. rewrite Rmult_assoc, Rinv_l by lra. lra. }
        pose proof (eased_below_one t Ht). lra.
      * split; [rewrite We; lra |]. right. exact Hst'.
  - destruct Hst as [Ht | Hw].
    + destruct (updateARIA_turning (f_elapsed f) (f_cameraPosition f)
                  (f_isSpeaking f) s g Hg Ht)
        as [_ [_ [_ [We [_ [_ [_ L]]]]]]].
      rewrite (clockAdvance_cons s _ f rest L) in Hlt.
      destruct (frameDelta_bounds (f_elapsed f) (lastUpdateTime (motion s)))
        as [Hd _].
      change (step s (frame f))
        with (updateARIA (f_elapsed f) (f_cameraPosition f) (f_isSpeaking f) s).
      rewrite We. lra.
    + destruct (updateARIA_stride (f_elapsed f) (f_cameraPosition f)
                  (f_isSpeaking f) s g Hg Hw)
        as [L [We _]].
      rewrite (clockAdvance_cons s _ f rest L) in Hlt.
      change (step s (frame f))
        with (updateARIA (f_elapsed f) (f_cameraPosition f) (f_isSpeaking f) s).
      rewrite We. lra.
Qed.


(** Calls at regular intervals of at most 0.05 apply their interval. *)
Lemma evenFrames_steps (dt : R) (n : nat) :
  0 < dt <= 0.05 ->
  forall m : nat,
    frameSteps (dt * INR m)
      (map (fun k => {| f_elapsed := dt * INR k;
                        f_cameraPosition := vec 0 1.5 6;
                        f_isSpeaking := false |})
           (seq (S m) n))
    = repeat dt n.
Proof.
  intros Hdt. induction n as [| n IH]; intros m; [reflexivity |].
  cbn [seq map frameSteps f_elapsed repeat]. rewrite (IH (S m)). f_equal.
  unfold frameDelta. cbv zeta.
  assert (E : dt * INR (S m) - dt * INR m = dt) by (rewrite S_INR; ring).
  rewrite E, gtb_true by lra. apply Rmin_right. lra.
Qed.

Lemma evenFrames_clock (dt : R) (n : nat) (s : State) :
  0 < dt <= 0.05 ->
  lastUpdateTime (motion s) = 0 ->
  clockAdvance s (evenFrames dt n) = INR n * dt.
Proof.
  intros Hdt Hl. unfold clockAdvance, evenFrames. rewrite Hl.
  replace 0 with (dt * INR 0) at 1 by (simpl; ring).
  rewrite (evenFrames_steps dt n Hdt 0). apply totalTime_repeat.
Qed.

Lemma INR_1000 : INR 1000 = 1000.
Proof. rewrite INR_IZR_INZ. reflexivity. Qed.

(** The example walk starts en route. *)
Lemma example_en_route (s : State) (g : Object3D) :
  ariaGroup (scene s) = Some g ->
  position g = vec 0 0 2 ->
  enRoute (snd (walkToPosition (vec 0 0 (-5)) s)).
Proof.
  intros Hg Hpos.
  destruct (example_walk_plan s g Hg Hpos) as [Hd [Hst [Hs0 [He0 [Hel Hsc]]]]].
  exists g. rewrite Hsc. split; [exact Hg |].
  split; [exact Hs0 |]. split; [exact He0 |]. split; [exact Hd |].
  split; [rewrite Hpos; simpl; lra |]. split; [rewrite Hel; lra |].
  left. exact Hst.
Qed.

Lemma enRoute_not_there (s : State) :
  enRoute s ->
  (ariaState (motion s) = turning_to_target \/ ariaState (motion s) = walking) /\
  getARIAPosition s <> vec 0 0 (-5).
Proof.
  intros [g [Hg [_ [_ [_ [Hz [_ Hst]]]]]]]. split; [exact Hst |].
  unfold getARIAPosition. rewrite Hg. intros E. rewrite E in Hz. simpl in Hz. lra.
Qed.

(** C5, as amended.  A walk from [(0,0,2)] to the target [(0,0,-5)] with
    walk speed 1.1 gets the duration [max(3.6, 7/1.1)], which is [70/11]
    (about 6.364 s, not 6.36 s), and starts in the state
    [turning_to_target] with the walk clock at 0.  Under calls of
    [updateARIA], whatever their arguments: as long as the time steps they
    apply add up to less than [70/11] s the avatar is still turning toward
    the target or walking, and not at [(0,0,-5)]; once they add up to
    [10 PI + 0.1 + 70/11] s (a turn of at most [PI] at no less than 0.1
    radians per second, two frames, and the walk), one of the calls has
    brought the avatar to exactly [(0,0,-5)] in the state
    [turning_to_camera], with walk progress 1, lean and sway ([rotation.x],
    [rotation.z]) zero, and the walk clock within one frame of [70/11]. *)
Theorem walk_example_arrives :
  forall (s : State) (g : Object3D),
    ariaGroup (scene s) = Some g ->
    position g = vec 0 0 2 ->
    let s1 := snd (walkToPosition (vec 0 0 (-5)) s) in
    walkDuration (motion s1) = Rmax 3.6 (7 / 1.1) /\
    walkDuration (motion s1) = 70 / 11 /\
    ariaState (motion s1) = turning_to_target /\
    walkEndPos (motion s1) = vec 0 0 (-5) /\
    walkElapsed (motion s1) = 0 /\
    (forall fs : list Frame,
       clockAdvance s1 fs < 70 / 11 ->
       let s2 := run s1 (map frame fs) in
       (ariaState (motion s2) = turning_to_target \/
        ariaState (motion s2) = walking) /\
       getARIAPosition s2 <> vec 0 0 (-5)) /\
    (forall fs : list Frame,
       10 * PI + 0.1 + 70 / 11 <= clockAdvance s1 fs ->
       exists k : nat,
         (k <= length fs)%nat /\
         let s2 := run s1 (map frame (firstn k fs)) in
         getARIAPosition s2 = vec 0 0 (-5) /\
         ariaState (motion s2) = turning_to_camera /\
         walkProgress (motion s2) = 1 /\
         70 / 11 <= walkElapsed (motion s2) < 70 / 11 + 0.05 /\
         exists g2, ariaGroup (scene s2) = Some g2 /\
                    ex (rotation g2) = 0 /\ ez (rotation g2) = 0).
Proof.
  intros s g Hg Hpos s1.
  destruct (example_walk_plan s g Hg Hpos) as [Hdur [Hst [_ [Hend [Hel0 Hsc]]]]].
  fold s1 in Hdur, Hst, Hend, Hel0, Hsc.
  split; [rewrite Hdur; symmetry; apply example_duration |].
  split; [exact Hdur |].
  split; [exact Hst |].
  split; [exact Hend |].
  split; [exact Hel0 |].
  split.
  - intros fs Hlt s2. apply enRoute_not_there. apply not_before.
    + apply (example_en_route s g Hg Hpos).
    + fold s1. rewrite Hel0. lra.
  - intros fs Hlong.
    assert (Hg1 : ariaGroup (scene s1) = Some g) by (rewrite Hsc; exact Hg).
    assert (HD : Rmax (walkDuration (motion s1)) 0.001 = 70 / 11).
    { rewrite Hdur. apply Rmax_left. lra. }
    destruct (turn_range_aux (targetRotation (motion s1) - ey (rotation g)))
      as [Hr _].
    fold (turn (ey (rotation g)) (targetRotation (motion s1))) in Hr.
    assert (Ha : Rabs (turn (ey (rotation g)) (targetRotation (motion s1))) <= PI)
      by (apply Rabs_le; lra).
    destruct (turn_then_walk fs s1 g Hg1 Hst Hel0) as [k [Hk Harr]].
    { right. rewrite HD. lra. }
    exists k. split; [exact Hk |].
    rewrite HD, Hend in Harr. exact Harr.
Qed.

Lemma walk_example_arrives_witness :
  exists k : nat,
    (k <= 1000)%nat /\
    getARIAPosition
      (run (snd (walkToPosition (vec 0 0 (-5)) (loadARIA false initial)))
           (map frame (firstn k (evenFrames 0.05 1000))))
      = vec 0 0 (-5) /\
    ariaState
      (motion
         (run (snd (walkToPosition (vec 0 0 (-5)) (loadARIA false initial)))
              (map frame (firstn k (evenFrames 0.05 1000)))))
      = turning_to_camera.
Proof.
  pose proof (loaded_group false initial) as Hg.
  destruct (walk_example_arrives (loadARIA false initial) _ Hg eq_refl)
    as [_ [_ [_ [_ [_ [_ H]]]]]].
  destruct (H (evenFrames 0.05 1000)) as [k [Hk [A [B _]]]].
  - rewrite evenFrames_clock; [| lra | reflexivity].
    rewrite INR_1000. pose proof PI_4. lra.
  - exists k. split; [| split; [exact A | exact B]].
    unfold evenFrames in Hk. rewrite length_map, length_seq in Hk. exact Hk.
Defined.

(** C5, as stated, fails: the duration of the example walk is not 6.36 s,
    and after 128 calls of [updateARIA] at regular intervals that advance
    the clock by 6.36 s the avatar is still turning or walking, and not at
    [(0,0,-5)]. *)
Lemma walk_example_unfinished_at_6_36 :
  getARIAPosition (loadARIA false initial) = vec 0 0 2 /\
  clockAdvance (snd (walkToPosition (vec 0 0 (-5)) (loadARIA false initial)))
               (evenFrames 0.0496875 128) = 6.36 /\
  walkDuration
    (motion (snd (walkToPosition (vec 0 0 (-5)) (loadARIA false initial))))
    <> 6.36 /\
  ariaState
    (motion
       (run (snd (walkToPosition (vec 0 0 (-5)) (loadARIA false initial)))
            (map frame (evenFrames 0.0496875 128))))
    <> turning_to_camera /\
  getARIAPosition
    (run (snd (walkToPosition (vec 0 0 (-5)) (loadARIA false initial)))
         (map frame (evenFrames 0.0496875 128)))
    <> vec 0 0 (-5).
Proof.
  pose proof (loaded_group false initial) as Hg.
  split; [unfold getARIAPosition; rewrite Hg; reflexivity |].
  destruct (example_walk_plan (loadARIA false initial) _ Hg eq_refl)
    as [Hd [_ [_ [_ [Hel0 _]]]]].
  assert (Hclock :
    clockAdvance (snd (walkToPosition (vec 0 0 (-5)) (loadARIA false initial)))
                 (evenFrames 0.0496875 128) = 6.36).
  { rewrite evenFrames_clock; [| lra | reflexivity]. rewrite INR_128. lra. }
  split; [exact Hclock |].
  split; [rewrite Hd; lra |].
  destruct (enRoute_not_there
              (run (snd (walkToPosition (vec 0 0 (-5)) (loadARIA false initial)))
                   (map frame (evenFrames 0.0496875 128)))) as [Hst Hp].
  { apply not_before.
    - apply (example_en_route (loadARIA false initial) _ Hg eq_refl).
    - rewrite Hel0, Hclock. lra. }
  split; [| exact Hp].
  destruct Hst as [E | E]; rewrite E; discriminate.
Qed.

End ExampleWalkFacts.

(** ** Camera modes, tours and transitions that run to their end *)

Module CameraModesFacts.

Import JsMath Camera JsFacts CameraFacts CameraModes.

Local Arguments Js.resolveCount : simpl never.

Lemma untouched_spec (p : Js.PromiseId) (s : State) :
  untouched p s = true <->
  holds p (onTourComplete (controller s)) = false /\
  holds p (transitionResolve (controller s)) = false /\
  Forall (fun t => holds p (tw_onComplete (snd t)) = false) (tweens (runtime s)) /\
  Forall (fun t => mentions p (snd t) = false) (timers (runtime s)) /\
  resolveCount p s = 0%nat.
Proof.
  unfold untouched.
  rewrite !andb_true_iff, !negb_true_iff, !forallb_forall, !Forall_forall.
  rewrite Nat.eqb_eq.
  split.
  - intros [[[[A B] C] D] E]. repeat split; auto.
    + intros t Ht. apply negb_true_iff. apply C. exact Ht.
    + intros t Ht. apply negb_true_iff. apply D. exact Ht.
  - intros [A [B [C [D E]]]]. repeat split; auto.
    + intros t Ht. apply negb_true_iff. apply C. exact Ht.
    + intros t Ht. apply negb_true_iff. apply D. exact Ht.
Qed.

Ltac spares_start s p H :=
  intros s; split;
  [| intros p H; apply untouched_spec in H;
     destruct H as [Hotc [Htr [Htw [Htm Hcount]]]];
     rewrite untouched_spec; unfold resolveCount in *;
     cam_break s; simpl in * ].

Ltac spares_solve :=
  repeat match goal with
         | H : (_ =? _)%nat = false |- _ => apply Nat.eqb_neq in H
         end;
  rewrite ?resolveCount_other by congruence;
  repeat split; auto; try lia;
  rewrite ?Forall_app; repeat split;
  repeat apply Forall_filter; auto;
  try (repeat constructor; simpl; try (apply Nat.eqb_neq; lia); auto).

Ltac cam_cases :=
  repeat (first
    [ match goal with
      | |- context [negb ?b] => is_var b; destruct b
      | |- context [if ?b then _ else _] => is_var b; destruct b
      | |- context [match ?o with Some _ => _ | None => _ end] =>
          is_var o; destruct o
      | |- context [match ?c with Finish _ => _ | PlayTourComplete _ _ => _
                                | Resolver _ => _ | User _ => _ end] =>
          is_var c; destruct c
      end ]; simpl in *).

Lemma spares_id : spares (fun s => s).
Proof. intros s. split; [reflexivity | auto]. Qed.

Lemma spares_compose f g : spares f -> spares g -> spares (fun s => g (f s)).
Proof.
  intros Hf Hg s. destruct (Hf s) as [A B]. destruct (Hg (f s)) as [C D].
  split; [congruence | intros p H; apply D, B, H].
Qed.

Lemma spares_call_at c s :
  nextPromise (runtime (call c s)) = nextPromise (runtime s) /\
  forall p, mentions p c = false -> untouched p s = true ->
            untouched p (call c s) = true.
Proof.
  split.
  - cam_break s. destruct c as [q | inner q | q | n]; simpl;
      [destruct tr | destruct inner | |]; reflexivity.
  - intros p Hm H. apply untouched_spec in H.
    destruct H as [Hotc [Htr [Htw [Htm Hcount]]]].
    rewrite untouched_spec. unfold resolveCount in *.
    cam_break s. simpl in *.
    destruct c as [q | inner q | q | n]; simpl in *;
      [destruct tr | destruct inner | |]; simpl; spares_solve.
Qed.

Lemma spares_followARIA a : spares (followARIA a).
Proof.
  spares_start s p H.
  - unfold followARIA. destruct (isOrbiting (controller s)); reflexivity.
  - unfold followARIA. simpl. destruct io; simpl; spares_solve.
Qed.

Lemma spares_enableOrbitMode : spares enableOrbitMode.
Proof. spares_start s p H; [reflexivity | spares_solve]. Qed.

Lemma spares_disableOrbitMode : spares disableOrbitMode.
Proof. spares_start s p H; [reflexivity | spares_solve]. Qed.

Lemma spares_stopShowroomTour : spares stopShowroomTour.
Proof. spares_start s p H; [reflexivity | spares_solve]. Qed.

Lemma spares_cancelTransition : spares cancelTransition.
Proof.
  spares_start s p H.
  - cam_break s. unfold cancelTransition, call. simpl.
    cam_cases; reflexivity.
  - unfold cancelTransition, call. simpl. cam_cases; spares_solve.
Qed.

Lemma spares_stopTour : spares stopTour.
Proof.
  spares_start s p H.
  - cam_break s. unfold stopTour, call. simpl. cam_cases; reflexivity.
  - unfold stopTour, call. simpl. cam_cases; spares_solve.
Qed.

Lemma spares_setter f :
  (forall c, onTourComplete (f c) = onTourComplete c \/ onTourComplete (f c) = None) ->
  (forall c, transitionResolve (f c) = transitionResolve c) ->
  spares (withController f).
Proof.
  intros Ha Hb s. split; [reflexivity |].
  intros p H. apply untouched_spec in H.
  destruct H as [Hotc [Htr [Htw [Htm Hcount]]]].
  rewrite untouched_spec. unfold resolveCount in *. simpl. rewrite Hb.
  repeat split; auto.
  destruct (Ha (controller s)) as [E | E]; rewrite E; [exact Hotc | reflexivity].
Qed.

Lemma spares_killTweensOf target : spares (killTweensOf target).
Proof. spares_start s p H; [reflexivity | spares_solve]. Qed.

Lemma spares_if (b : bool) f : spares f -> spares (fun s => if b then f s else s).
Proof. intros H. destruct b; [exact H | apply spares_id]. Qed.

(** The common prefix of [startTour] and [transitionTo]. *)
Lemma spares_leaveOrbit :
  spares (fun s => if isOrbiting (controller s) then disableOrbitMode s else s).
Proof.
  intros s. destruct (isOrbiting (controller s));
    [apply spares_disableOrbitMode | apply spares_id].
Qed.

Lemma startTour_untouched loop duration blend onComplete s :
  nextPromise (runtime (startTour loop duration blend onComplete s))
    = nextPromise (runtime s) /\
  forall p, holds p onComplete = false -> untouched p s = true ->
            untouched p (startTour loop duration blend onComplete s) = true.
Proof.
  unfold startTour.
  set (s0 := if isOrbiting (controller s) then disableOrbitMode s else s).
  destruct (spares_leaveOrbit s) as [A0 B0]. fold s0 in A0, B0.
  destruct (spares_cancelTransition s0) as [A1 B1].
  set (s1 := cancelTransition s0) in *.
  cbv zeta.
  assert (H1 : nextPromise (runtime s1) = nextPromise (runtime s)) by congruence.
  assert (H2 : forall p, untouched p s = true -> untouched p s1 = true)
    by (intros p H; apply B1, B0, H).
  clearbody s1. clear A0 B0 A1 B1 s0.
  split.
  - rewrite <- H1. cam_break s1. simpl.
    destruct gs; reflexivity.
  - intros p Hoc H. specialize (H2 p H). clear H H1.
    apply untouched_spec in H2.
    destruct H2 as [Hotc [Htr [Htw [Htm Hcount]]]].
    rewrite untouched_spec. unfold resolveCount in *.
    cam_break s1. simpl in *.
    destruct loop as [[|] |]; simpl; destruct gs; simpl; spares_solve.
Qed.

Lemma transitionTo_untouched type duration s :
  fst (transitionTo type duration s) = nextPromise (runtime s) /\
  nextPromise (runtime (snd (transitionTo type duration s)))
    = S (nextPromise (runtime s)) /\
  forall p, p <> nextPromise (runtime s) -> untouched p s = true ->
            untouched p (snd (transitionTo type duration s)) = true.
Proof.
  unfold transitionTo.
  set (s0 := if isOrbiting (controller s) then disableOrbitMode s else s).
  destruct (spares_leaveOrbit s) as [A0 B0]. fold s0 in A0, B0.
  assert (K : spares (fun s => cancelTransition
                        (withController (setOnTourComplete None)
                           (withController (setIsTouring false) s)))).
  { apply (spares_compose
             (fun s => withController (setOnTourComplete None)
                         (withController (setIsTouring false) s))
             cancelTransition); [| apply spares_cancelTransition].
    apply (spares_compose (withController (setIsTouring false))
                          (withController (setOnTourComplete None)));
      apply spares_setter; intros c; try reflexivity;
      [left | right]; reflexivity. }
  destruct (K s0) as [A1 B1].
  cbv zeta.
  set (s1 := cancelTransition
               (withController (setOnTourComplete None)
                  (withController (setIsTouring false) s0))) in *.
  assert (H1 : nextPromise (runtime s1) = nextPromise (runtime s)) by congruence.
  assert (H2 : forall p, untouched p s = true -> untouched p s1 = true)
    by (intros p H; apply B1, B0, H).
  clearbody s1. clear A0 B0 A1 B1 K s0.
  rewrite <- H1.
  assert (H0 : forall p, p <> nextPromise (runtime s1) ->
                 untouched p s1 = true ->
                 untouched p
                   (snd (let (p0, s2) := newPromise s1 in
                         let finish := Finish p0 in
                         let s3 := withController (setIsTransitioning true) s2 in
                         let s4 := withController (setIsFollowingARIA false) s3 in
                         let s5 := withController
                                     (setTransitionResolve (Some finish)) s4 in
                         if gsap (runtime s5)
                         then match type with
                              | return_start =>
                                  let (i, s6) := gsapTo CameraPosition None s5 in
                                  let s7 := withController
                                              (setTransitionTween (Some i)) s6 in
                                  let (_, s8) := setTimeout finish s7 in (p0, s8)
                              | _ =>
                                  let (i, s6) := gsapTo TweenObject (Some finish) s5 in
                                  (p0, withController (setTransitionTween (Some i)) s6)
                              end
                         else (p0, call finish s5))) = true).
  { intros p Hne H. apply untouched_spec in H.
    destruct H as [Hotc [Htr [Htw [Htm Hcount]]]].
    rewrite untouched_spec. unfold resolveCount in *.
    cam_break s1. simpl in *.
    assert (Hfresh : (p =? npr)%nat = false) by (apply Nat.eqb_neq; exact Hne).
    destruct gs; simpl; [destruct type |]; simpl; rewrite ?Hfresh; spares_solve. }
  split; [| split].
  - cam_break s1. simpl. destruct gs; [destruct type |]; reflexivity.
  - cam_break s1. simpl. destruct gs; [destruct type |]; reflexivity.
  - intros p Hne H. apply H0; [exact Hne | apply H2; exact H].
Qed.

Lemma playTour_untouched loop duration blend onComplete s :
  fst (playTour loop duration blend onComplete s) = nextPromise (runtime s) /\
  nextPromise (runtime (snd (playTour loop duration blend onComplete s)))
    = S (nextPromise (runtime s)) /\
  forall p, p <> nextPromise (runtime s) -> untouched p s = true ->
            untouched p (snd (playTour loop duration blend onComplete s)) = true.
Proof.
  unfold playTour.
  change (let (p0, s0) := newPromise s in
          (p0, startTour (Some match loop with Some b => b | None => false end)
                         duration blend
                         (Some (PlayTourComplete onComplete p0)) s0))
    with (nextPromise (runtime s),
          startTour (Some match loop with Some b => b | None => false end)
                    duration blend
                    (Some (PlayTourComplete onComplete (nextPromise (runtime s))))
                    (snd (newPromise s))).
  cbn [fst snd].
  match goal with
  | |- context [startTour ?l ?d ?b ?oc ?s0] =>
      destruct (startTour_untouched l d b oc s0) as [A B]
  end.
  split; [reflexivity |]. split; [rewrite A; reflexivity |].
  intros p Hne H. apply B.
  - simpl. apply Nat.eqb_neq. exact Hne.
  - apply untouched_spec in H. destruct H as [Hotc [Htr [Htw [Htm Hcount]]]].
    apply untouched_spec. repeat split; assumption.
Qed.

Lemma spares_update delta : spares (update delta).
Proof.
  spares_start s p H.
  - cam_break s. unfold update, call. simpl. cam_cases; try reflexivity.
    all: match goal with
         | |- context [if ?b then _ else _] => destruct b
         end; simpl; cam_cases; reflexivity.
  - unfold update, call. simpl. cam_cases; try solve [spares_solve].
    all: match goal with
         | |- context [if ?b then _ else _] => destruct b
         end; simpl; cam_cases; spares_solve.
Qed.

Lemma spares_killTween i : spares (killTween i).
Proof. spares_start s p H; [reflexivity | spares_solve]. Qed.

Lemma spares_clearTimeout h : spares (clearTimeout h).
Proof.
  spares_start s p H; [reflexivity | unfold Js.clearTimeout; spares_solve].
Qed.

Lemma spares_completeTween i : spares (completeTween i).
Proof.
  intros s. unfold completeTween.
  destruct (find (fun t => Nat.eqb (fst t) i) (tweens (runtime s)))
    as [t |] eqn:Ef; [| apply spares_id].
  apply find_some in Ef. destruct Ef as [Hin _].
  destruct (spares_killTween i s) as [A B].
  destruct (tw_onComplete (snd t)) as [c |] eqn:Ec; [| split; assumption].
  destruct (spares_call_at c (killTween i s)) as [C D].
  split; [congruence |].
  intros p H. apply D; [| apply B; exact H].
  apply untouched_spec in H. destruct H as [_ [_ [Htw _]]].
  rewrite Forall_forall in Htw. specialize (Htw t Hin).
  cbv beta in Htw. change (holds p (Some c) = false). rewrite <- Ec. exact Htw.
Qed.

Lemma spares_fireTimer h : spares (fireTimer h).
Proof.
  intros s. unfold fireTimer, Js.findTimer.
  destruct (find (fun t => Nat.eqb (fst t) h) (timers (runtime s)))
    as [t |] eqn:Ef; [| apply spares_id].
  apply find_some in Ef. destruct Ef as [Hin _].
  destruct (spares_clearTimeout h s) as [A B].
  destruct (spares_call_at (snd t) (clearTimeout h s)) as [C D].
  split; [congruence |].
  intros p H. apply D; [| apply B; exact H].
  apply untouched_spec in H. destruct H as [_ [_ [_ [Htm _]]]].
  rewrite Forall_forall in Htm. apply (Htm t Hin).
Qed.

Lemma fresh_spares f s : spares f -> fresh s -> fresh (f s).
Proof.
  intros Hf Hs p Hp. destruct (Hf s) as [A B]. apply B, Hs. lia.
Qed.

Lemma fresh_step (s : State) (e : Event) :
  fresh s ->
  fresh (step s e) /\
  (nextPromise (runtime s) <= nextPromise (runtime (step s e)))%nat.
Proof.
  intros Hs. destruct e; cbn [step].
  - destruct (transitionTo_untouched type duration s) as [_ [A B]].
    split; [| lia]. intros p Hp. apply B; [lia | apply Hs; lia].
  - unfold frameAriaAndProduct.
    match goal with
    | |- context [transitionTo ?t ?d s] =>
        destruct (transitionTo_untouched t d s) as [_ [A B]]
    end.
    split; [| lia]. intros p Hp. apply B; [lia | apply Hs; lia].
  - destruct (spares_cancelTransition s) as [A _].
    split; [apply fresh_spares; [apply spares_cancelTransition | exact Hs] | lia].
  - match goal with
    | |- context [startTour ?l ?d ?b ?oc s] =>
        destruct (startTour_untouched l d b oc s) as [A B]
    end.
    split; [| lia]. intros p Hp. apply B; [| apply Hs; lia].
    destruct onComplete; reflexivity.
  - destruct (playTour_untouched loop duration blend onComplete s) as [_ [A B]].
    split; [| lia]. intros p Hp. apply B; [lia | apply Hs; lia].
  - unfold playProductCinematic.
    match goal with
    | |- context [playTour ?l ?d ?b ?oc s] =>
        destruct (playTour_untouched l d b oc s) as [_ [A B]]
    end.
    split; [| lia]. intros p Hp. apply B; [lia | apply Hs; lia].
  - destruct (spares_stopTour s) as [A _].
    split; [apply fresh_spares; [apply spares_stopTour | exact Hs] | lia].
  - destruct (spares_stopShowroomTour s) as [A _].
    split; [apply fresh_spares; [apply spares_stopShowroomTour | exact Hs] | lia].
  - destruct (spares_enableOrbitMode s) as [A _].
    split; [apply fresh_spares; [apply spares_enableOrbitMode | exact Hs] | lia].
  - destruct (spares_disableOrbitMode s) as [A _].
    split; [apply fresh_spares; [apply spares_disableOrbitMode | exact Hs] | lia].
  - destruct (spares_followARIA active s) as [A _].
    split; [apply fresh_spares; [apply spares_followARIA | exact Hs] | lia].
  - destruct (spares_update delta s) as [A _].
    split; [apply fresh_spares; [apply spares_update | exact Hs] | lia].
  - destruct (spares_completeTween i s) as [A _].
    split; [apply fresh_spares; [apply spares_completeTween | exact Hs] | lia].
  - destruct (spares_fireTimer h s) as [A _].
    split; [apply fresh_spares; [apply spares_fireTimer | exact Hs] | lia].
Qed.

Lemma fresh_initial g : fresh (initial g).
Proof. intros p _. reflexivity. Qed.

Lemma fresh_run (es : list Event) :
  forall s, fresh s -> fresh (run s es).
Proof.
  induction es as [| e es IH]; intros s H; [exact H |].
  simpl. apply IH. apply fresh_step. exact H.
Qed.

Lemma modesOk_call c s : modesOk s -> modesOk (call c s).
Proof.
  unfold modesOk. cam_break s. simpl.
  destruct c as [q | inner q | q | n]; simpl;
    [destruct tr | destruct inner | |]; simpl; intros H; try exact H.
  destruct H as [A [B C]]. repeat split; try tauto; try discriminate.
Qed.

Lemma modesOk_leaveOrbit s :
  modesOk s ->
  let s0 := if isOrbiting (controller s) then disableOrbitMode s else s in
  modesOk s0 /\ isOrbiting (controller s0) = false.
Proof.
  unfold modesOk. cam_break s. simpl.
  destruct io; simpl; intros [A [B C]]; repeat split; try tauto; discriminate.
Qed.

Lemma modesOk_cancelTransition s :
  modesOk s ->
  modesOk (cancelTransition s) /\
  isTransitioning (controller (cancelTransition s)) = false /\
  isOrbiting (controller (cancelTransition s)) = isOrbiting (controller s).
Proof.
  unfold modesOk. cam_break s. unfold cancelTransition, call. simpl.
  destruct gs; simpl; cam_cases; intros [A [B C]];
    repeat split; try tauto; try discriminate; try congruence.
  all: destruct it; try reflexivity; exfalso; apply C; reflexivity.
Qed.

Lemma modesOk_stopTour s : modesOk s -> modesOk (stopTour s).
Proof.
  intros H. unfold stopTour.
  destruct (negb (isTouring (controller s))); [exact H |]. cbv zeta.
  match goal with
  | |- context [match ?o with Some _ => _ | None => _ end] => destruct o
  end; [apply modesOk_call |]; exact H.
Qed.

Lemma modesOk_startTour loop duration blend onComplete s :
  modesOk s -> modesOk (startTour loop duration blend onComplete s).
Proof.
  intros H. unfold startTour.
  destruct (modesOk_leaveOrbit s H) as [H0 E0].
  set (s0 := if isOrbiting (controller s) then disableOrbitMode s else s) in *.
  destruct (modesOk_cancelTransition s0 H0) as [H1 [E1 E2]].
  set (s1 := cancelTransition s0) in *.
  rewrite E0 in E2. clearbody s1. clear H0 E0 s0 H.
  cbv zeta. revert H1 E1 E2. unfold modesOk. cam_break s1. simpl.
  intros [A [B C]] -> ->.
  destruct gs; simpl; repeat split; try tauto; try discriminate.
Qed.

Lemma modesOk_transitionTo type duration s :
  modesOk s -> modesOk (snd (transitionTo type duration s)).
Proof.
  intros H. unfold transitionTo.
  destruct (modesOk_leaveOrbit s H) as [H0 E0].
  set (s0 := if isOrbiting (controller s) then disableOrbitMode s else s) in *.
  assert (H0' : modesOk (withController (setOnTourComplete None)
                           (withController (setIsTouring false) s0)) /\
                isOrbiting (controller
                              (withController (setOnTourComplete None)
                                 (withController (setIsTouring false) s0)))
                = false).
  { split; [exact H0 | exact E0]. }
  destruct H0' as [H0' E0'].
  destruct (modesOk_cancelTransition _ H0') as [H1 [E1 E2]].
  cbv zeta.
  set (s1 := cancelTransition
               (withController (setOnTourComplete None)
                  (withController (setIsTouring false) s0))) in *.
  rewrite E0' in E2. clearbody s1. clear H0 E0 H0' E0' s0 H.
  revert H1 E1 E2. unfold modesOk. cam_break s1. simpl.
  intros [A [B C]] -> ->.
  destruct gs; simpl; [destruct type |]; simpl;
    repeat split; try tauto; try discriminate.
Qed.

Lemma modesOk_step (s : State) (e : Event) : modesOk s -> modesOk (step s e).
Proof.
  intros H. destruct e; cbn [step].
  - apply modesOk_transitionTo. exact H.
  - unfold frameAriaAndProduct. apply modesOk_transitionTo. exact H.
  - apply modesOk_cancelTransition. exact H.
  - apply modesOk_startTour. exact H.
  - unfold playTour.
    change (modesOk (startTour (Some match loop with Some b => b | None => false end)
                       duration blend
                       (Some (PlayTourComplete onComplete (nextPromise (runtime s))))
                       (snd (newPromise s)))).
    apply modesOk_startTour. exact H.
  - unfold playProductCinematic, playTour.
    match goal with
    | |- modesOk (snd (let (p, s0) := newPromise s in
                       (p, startTour ?l ?d ?b (Some (PlayTourComplete ?k p)) s0))) =>
        change (modesOk (startTour l d b
                           (Some (PlayTourComplete k (nextPromise (runtime s))))
                           (snd (newPromise s))))
    end.
    apply modesOk_startTour. exact H.
  - apply modesOk_stopTour. exact H.
  - revert H. unfold modesOk. cam_break s. simpl. tauto.
  - revert H. unfold modesOk. cam_break s. simpl.
    intros [A [B C]]. repeat split; try tauto; try discriminate.
  - revert H. unfold modesOk. cam_break s. simpl.
    intros [A [B C]]. repeat split; try tauto; try discriminate.
  - revert H. unfold modesOk, followARIA. cam_break s. simpl.
    destruct io; simpl; intros [A [B C]];
      repeat split; try tauto; try discriminate.
  - unfold update. cbv zeta.
    destruct (isOrbiting (controller s)); [exact H |].
    destruct (isTouring (controller s)); [| exact H].
    destruct (negb (tourPath (controller s))); [exact H |].
    match goal with
    | |- context [if ?b then _ else _] => destruct b
    end.
    + match goal with
      | |- context [match ?o with Some _ => _ | None => _ end] =>
          destruct o
      end; [apply modesOk_call |]; exact H.
    + exact H.
  - unfold completeTween.
    destruct (find _ _) as [t |]; [| exact H].
    destruct (tw_onComplete (snd t)); [apply modesOk_call |]; exact H.
  - unfold fireTimer. destruct (Js.findTimer _ _); [| exact H].
    apply modesOk_call. exact H.
Qed.

Lemma finishOnly_initial g : finishOnly (initial g).
Proof. exact I. Qed.

Lemma finishOnly_call c s : finishOnly s -> finishOnly (call c s).
Proof.
  unfold finishOnly. cam_break s. simpl.
  destruct c as [q | inner q | q | n]; simpl;
    [destruct tr | destruct inner | |]; simpl; auto.
Qed.

Lemma finishOnly_cancelTransition s :
  finishOnly s -> transitionResolve (controller (cancelTransition s)) = None.
Proof.
  unfold finishOnly. cam_break s. unfold cancelTransition, call. simpl.
  destruct gs; simpl; cam_cases; intros H; try reflexivity; contradiction.
Qed.

Lemma finishOnly_none s : transitionResolve (controller s) = None -> finishOnly s.
Proof. unfold finishOnly. intros ->. exact I. Qed.

Lemma finishOnly_step (s : State) (e : Event) :
  finishOnly s -> finishOnly (step s e).
Proof.
  intros H.
  assert (Hleave : finishOnly (if isOrbiting (controller s)
                               then disableOrbitMode s else s)).
  { destruct (isOrbiting (controller s)); exact H. }
  assert (Htrans : forall type duration,
             finishOnly (snd (transitionTo type duration s))).
  { intros type duration. unfold transitionTo.
    set (s0 := if isOrbiting (controller s) then disableOrbitMode s else s) in *.
    assert (E : transitionResolve
                  (controller
                     (cancelTransition
                        (withController (setOnTourComplete None)
                           (withController (setIsTouring false) s0)))) = None)
      by (apply finishOnly_cancelTransition; exact Hleave).
    cbv zeta.
    set (s1 := cancelTransition
                 (withController (setOnTourComplete None)
                    (withController (setIsTouring false) s0))) in *.
    clearbody s1. clear Hleave s0 H. revert E. unfold finishOnly.
    cam_break s1. simpl. intros ->.
    destruct gs; simpl; [destruct type |]; exact I. }
  assert (Hstart : forall loop duration blend oc,
             finishOnly (startTour loop duration blend oc s)).
  { intros loop duration blend oc. unfold startTour.
    set (s0 := if isOrbiting (controller s) then disableOrbitMode s else s) in *.
    pose proof (finishOnly_cancelTransition s0 Hleave) as E.
    cbv zeta. set (s1 := cancelTransition s0) in *.
    clearbody s1. clear Hleave s0 H. revert E. unfold finishOnly.
    cam_break s1. simpl. intros ->. destruct gs; exact I. }
  destruct e; cbn [step].
  - apply Htrans.
  - unfold frameAriaAndProduct. apply Htrans.
  - apply finishOnly_none, finishOnly_cancelTransition, H.
  - apply Hstart.
  - unfold playTour.
    change (finishOnly (startTour (Some match loop with Some b => b | None => false end)
                          duration blend
                          (Some (PlayTourComplete onComplete (nextPromise (runtime s))))
                          (snd (newPromise s)))).
    unfold startTour.
    set (s0 := if isOrbiting (controller (snd (newPromise s)))
               then disableOrbitMode (snd (newPromise s)) else snd (newPromise s)).
    assert (Hl : finishOnly s0) by (unfold s0; destruct (isOrbiting _); exact H).
    pose proof (finishOnly_cancelTransition s0 Hl) as E.
    cbv zeta. set (s1 := cancelTransition s0) in *.
    clearbody s1. clear Hl s0 H Hleave Htrans Hstart. revert E. unfold finishOnly.
    cam_break s1. simpl. intros ->. destruct gs; exact I.
  - unfold playProductCinematic, playTour.
    match goal with
    | |- finishOnly (snd (let (p, s0) := newPromise s in
                          (p, startTour ?l ?d ?b (Some (PlayTourComplete ?k p)) s0))) =>
        change (finishOnly (startTour l d b
                              (Some (PlayTourComplete k (nextPromise (runtime s))))
                              (snd (newPromise s))))
    end.
    unfold startTour.
    set (s0 := if isOrbiting (controller (snd (newPromise s)))
               then disableOrbitMode (snd (newPromise s)) else snd (newPromise s)).
    assert (Hl : finishOnly s0) by (unfold s0; destruct (isOrbiting _); exact H).
    pose proof (finishOnly_cancelTransition s0 Hl) as E.
    cbv zeta. set (s1 := cancelTransition s0) in *.
    clearbody s1. clear Hl s0 H Hleave Htrans Hstart. revert E. unfold finishOnly.
    cam_break s1. simpl. intros ->. destruct gs; exact I.
  - unfold stopTour.
    destruct (negb (isTouring (controller s))); [exact H |]. cbv zeta.
    match goal with
    | |- context [match ?o with Some _ => _ | None => _ end] => destruct o
    end; [apply finishOnly_call |]; exact H.
  - exact H.
  - exact H.
  - exact H.
  - unfold followARIA. destruct (isOrbiting (controller s)); exact H.
  - unfold update. cbv zeta.
    destruct (isOrbiting (controller s)); [exact H |].
    destruct (isTouring (controller s)); [| exact H].
    destruct (negb (tourPath (controller s))); [exact H |].
    match goal with
    | |- context [if ?b then _ else _] => destruct b
    end.
    + match goal with
      | |- context [match ?o with Some _ => _ | None => _ end] =>
          destruct o
      end; [apply finishOnly_call |]; exact H.
    + exact H.
  - unfold completeTween.
    destruct (find _ _) as [t |]; [| exact H].
    destruct (tw_onComplete (snd t)); [apply finishOnly_call |]; exact H.
  - unfold fireTimer. destruct (Js.findTimer _ _); [| exact H].
    apply finishOnly_call. exact H.
Qed.

Lemma finishOnly_run (es : list Event) :
  forall s, finishOnly s -> finishOnly (run s es).
Proof.
  induction es as [| e es IH]; intros s H; [exact H |].
  simpl. apply IH. apply finishOnly_step. exact H.
Qed.

Lemma modesOk_run (es : list Event) : forall s, modesOk s -> modesOk (run s es).
Proof.
  induction es as [| e es IH]; intros s H; [exact H |].
  simpl. apply IH. apply modesOk_step. exact H.
Qed.

(** X11. The mode flags of the controller fit together in every state it can
    reach, with or without [gsap]: the orbit controls are enabled exactly
    while [isOrbiting] is set; in orbit mode the camera neither follows the
    avatar nor counts as in transition; and whenever [isTransitioning] is
    set, the [finish] closure of that transition is stored in
    [transitionResolve]. *)
Theorem camera_modes_fit_together :
  forall (gsapDefined : bool) (es : list Event),
    let c := controller (run (initial gsapDefined) es) in
    controlsEnabled c = isOrbiting c /\
    (isOrbiting c = true ->
     isFollowingARIA c = false /\ isTransitioning c = false) /\
    (isTransitioning c = true -> exists p, transitionResolve c = Some (Finish p)).
Proof.
  intros gsapDefined es c.
  assert (H0 : modesOk (initial gsapDefined)).
  { unfold modesOk. simpl. repeat split; try reflexivity; discriminate. }
  destruct (modesOk_run es _ H0) as [A [B C]]. fold c in A, B, C.
  split; [exact A |]. split; [exact B |].
  intros Ht. specialize (C Ht).
  pose proof (finishOnly_run es _ (finishOnly_initial gsapDefined)) as F.
  unfold finishOnly in F. fold c in F.
  destruct (transitionResolve c) as [[p | | |] |];
    try contradiction.
  exists p. reflexivity.
Qed.

Lemma camera_modes_fit_together_witness :
  exists p,
    transitionResolve
      (controller (run (initial true) [TransitionTo custom 1.4])) =
    Some (Finish p).
Proof.
  destruct (camera_modes_fit_together true [TransitionTo custom 1.4])
    as [_ [_ H]].
  apply H. reflexivity.
Defined.

Lemma untouched_orphaned (p : Js.PromiseId) (s : State) :
  untouched p s = true -> (p < nextPromise (runtime s))%nat ->
  orphaned p s = true /\ resolveCount p s = 0%nat.
Proof.
  intros H Hlt. apply untouched_spec in H.
  destruct H as [A [B [C [D E]]]].
  split; [| exact E]. apply orphaned_spec. repeat split; assumption.
Qed.

Lemma untouched_newPromise p s :
  untouched p s = true -> untouched p (snd (newPromise s)) = true.
Proof. intros H. exact H. Qed.

(** A looping tour forgets the completion closure at once. *)
Lemma startTour_looping duration blend oc s :
  startTour (Some true) duration blend oc s
  = startTour (Some true) duration blend None s.
Proof. reflexivity. Qed.

(** X12. A looping tour never completes.  [playTour] with [loop: true]
    returns a promise that nothing can resolve: [startTour] stores no
    completion closure for a looping tour, so in every state the
    controller can reach, after such a call the tour is running,
    [onTourComplete] is empty, and whatever happens afterwards the promise
    is never resolved. *)
Theorem looping_tour_never_completes :
  forall (gsapDefined : bool) (before after : list Event)
         (duration blend : option R) (onComplete : option nat),
    let s := run (initial gsapDefined) before in
    let p := fst (playTour (Some true) duration blend onComplete s) in
    let s1 := snd (playTour (Some true) duration blend onComplete s) in
    isTouring (controller s1) = true /\
    tourLoop (controller s1) = true /\
    onTourComplete (controller s1) = None /\
    resolveCount p (run s1 after) = 0%nat.
Proof.
  intros g before after duration blend onComplete s p s1.
  pose proof (fresh_run before _ (fresh_initial g)) as Hf. fold s in Hf.
  assert (Es1 : s1 = startTour (Some true) duration blend None (snd (newPromise s)))
    by reflexivity.
  assert (Ep : p = nextPromise (runtime s)) by reflexivity.
  destruct (startTour_untouched (Some true) duration blend None (snd (newPromise s)))
    as [A B].
  rewrite <- Es1 in A, B.
  assert (Hu : untouched p s1 = true).
  { apply B; [reflexivity |]. apply untouched_newPromise. apply Hf. lia. }
  assert (Hlt : (p < nextPromise (runtime s1))%nat).
  { rewrite A, Ep. simpl. lia. }
  destruct (untouched_orphaned p s1 Hu Hlt) as [Ho Hc].
  assert (Hfields : isTouring (controller s1) = true /\
                    tourLoop (controller s1) = true /\
                    onTourComplete (controller s1) = None).
  { rewrite Es1. unfold startTour. cbv zeta.
    match goal with
    | |- context [if gsap (runtime ?x) then _ else _] =>
        destruct (gsap (runtime x))
    end; repeat split; reflexivity. }
  destruct Hfields as [F1 [F2 F3]].
  repeat split; try assumption.
  destruct (keeps_run p after s1 Ho) as [_ E]. rewrite E. exact Hc.
Qed.


Lemma startTour_stores duration blend (c : Callback) s :
  startTour (Some false) duration blend (Some c) s
  = withController (setOnTourComplete (Some c))
      (startTour (Some false) duration blend None s).
Proof.
  unfold startTour. cbv zeta.
  set (s1 := cancelTransition
               (if isOrbiting (controller s) then disableOrbitMode s else s)).
  clearbody s1. cam_break s1. simpl. destruct gs; reflexivity.
Qed.

Lemma startTour_fields loop duration blend oc s :
  let s1 := startTour loop duration blend oc s in
  isOrbiting (controller s1) = false /\
  isTouring (controller s1) = true /\
  tourPath (controller s1) = true /\
  tourTime (controller s1) = 0 /\
  tourDuration (controller s1) = match duration with Some d => d | None => 18 end /\
  tourLoop (controller s1) = match loop with Some b => b | None => true end.
Proof.
  unfold startTour. cbv zeta.
  assert (E : isOrbiting
                (controller
                   (cancelTransition
                      (if isOrbiting (controller s) then disableOrbitMode s else s)))
              = false).
  { assert (E0 : isOrbiting (controller (if isOrbiting (controller s)
                                         then disableOrbitMode s else s)) = false)
      by (destruct (isOrbiting (controller s)) eqn:Eo; [reflexivity | exact Eo]).
    revert E0. generalize (if isOrbiting (controller s) then disableOrbitMode s else s).
    intros s0. cam_break s0. unfold cancelTransition, call. simpl.
    intros ->. cam_cases; reflexivity. }
  revert E.
  set (s1 := cancelTransition
               (if isOrbiting (controller s) then disableOrbitMode s else s)).
  clearbody s1. cam_break s1. simpl. intros ->.
  destruct gs; repeat split; reflexivity.
Qed.

Lemma touring_frame_short p inner t d delta s :
  touring p inner t d s -> t + delta < Rmax d 0.1 ->
  touring p inner (t + delta) d (update delta s).
Proof.
  intros [A [B [C [D [E [F [G [H I]]]]]]]] Hshort.
  assert (Hd : 0 < Rmax d 0.1) by (pose proof (Rmax_r d 0.1); lra).
  unfold update. cbv zeta. rewrite A, B, C, D. simpl negb. cbv iota.
  change (tourTime (controller (withController
            (setTourTime (tourTime (controller s) + delta)) s)))
    with (tourTime (controller s) + delta).
  rewrite E, F.
  assert (Hr : (t + delta) / Rmax d 0.1 < 1).
  { apply Rmult_lt_reg_r with (Rmax d 0.1); [exact Hd |].
    unfold Rdiv. rewrite Rmult_assoc, Rinv_l by lra. lra. }
  rewrite (geb_false _ _ Hr). simpl andb. cbv iota.
  unfold touring. repeat split; try assumption.
Qed.

Lemma touring_frame_done p inner t d delta s :
  touring p inner t d s -> Rmax d 0.1 <= t + delta ->
  let s' := update delta s in
  isTouring (controller s') = false /\
  onTourComplete (controller s') = None /\
  resolveCount p s' = 1%nat /\
  orphaned p s' = true /\
  userLog (runtime s') =
    match inner with
    | Some n => n :: userLog (runtime s)
    | None => userLog (runtime s)
    end.
Proof.
  intros [A [B [C [D [E [F [G [H I]]]]]]]] Hlong.
  assert (Hd : 0 < Rmax d 0.1) by (pose proof (Rmax_r d 0.1); lra).
  unfold update. cbv zeta. rewrite A, B, C, D. simpl negb. cbv iota.
  change (tourTime (controller (withController
            (setTourTime (tourTime (controller s) + delta)) s)))
    with (tourTime (controller s) + delta).
  rewrite E, F.
  assert (Hr : (t + delta) / Rmax d 0.1 >= 1).
  { apply Rle_ge. apply Rmult_le_reg_r with (Rmax d 0.1); [exact Hd |].
    unfold Rdiv. rewrite Rmult_assoc, Rinv_l by lra. lra. }
  rewrite (geb_true _ _ Hr). simpl andb. cbv iota.
  change (onTourComplete (controller (withController (setIsTouring false)
            (withController (setTourTime (t + delta)) s))))
    with (onTourComplete (controller s)).
  rewrite G.
  apply untouched_spec in I. destruct I as [I1 [I2 [I3 [I4 I5]]]].
  unfold resolveCount in *. rewrite orphaned_spec.
  cam_break s. simpl in *. subst.
  destruct inner; simpl; rewrite resolveCount_same, I5;
    repeat split; auto.
Qed.

Lemma totalTime_nonneg (deltas : list R) :
  (forall d, In d deltas -> 0 <= d) -> 0 <= Aria.totalTime deltas.
Proof.
  induction deltas as [| a l IH]; intros H; unfold Aria.totalTime in *; simpl.
  - lra.
  - assert (0 <= a) by (apply H; left; reflexivity).
    assert (0 <= fold_right Rplus 0 l) by (apply IH; intros x Hx; apply H; right; exact Hx).
    lra.
Qed.

Lemma update_not_touring delta s :
  isTouring (controller s) = false -> update delta s = s.
Proof.
  intros H. unfold update. cbv zeta. rewrite H.
  destruct (isOrbiting (controller s)); reflexivity.
Qed.

Lemma frames_not_touring (deltas : list R) s :
  isTouring (controller s) = false -> run s (map Update deltas) = s.
Proof.
  induction deltas as [| a l IH]; intros H; [reflexivity |].
  simpl. rewrite update_not_touring by exact H. apply IH. exact H.
Qed.

Lemma touring_frames p inner d (deltas : list R) :
  forall t s,
    touring p inner t d s ->
    t < Rmax d 0.1 ->
    (forall x, In x deltas -> 0 <= x) ->
    let s' := run s (map Update deltas) in
    (t + Aria.totalTime deltas < Rmax d 0.1 ->
     isTouring (controller s') = true /\
     resolveCount p s' = 0%nat) /\
    (Rmax d 0.1 <= t + Aria.totalTime deltas ->
     isTouring (controller s') = false /\
     onTourComplete (controller s') = None /\
     resolveCount p s' = 1%nat /\
     orphaned p s' = true).
Proof.
  induction deltas as [| a l IH]; intros t s Ht Hlt Hpos.
  - unfold Aria.totalTime. simpl. rewrite Rplus_0_r. split.
    + intros _.
      destruct Ht as [_ [B [_ [_ [_ [_ [_ [_ I]]]]]]]].
      split; [exact B |].
      apply untouched_spec in I. destruct I as [_ [_ [_ [_ I5]]]]. exact I5.
    + intros Hlong. lra.
  - assert (Ha : 0 <= a) by (apply Hpos; left; reflexivity).
    assert (Hl : forall x, In x l -> 0 <= x)
      by (intros x Hx; apply Hpos; right; exact Hx).
    pose proof (totalTime_nonneg l Hl) as Hnn.
    assert (Etot : Aria.totalTime (a :: l) = a + Aria.totalTime l) by reflexivity.
    rewrite Etot.
    change (run s (map Update (a :: l)))
      with (run (update a s) (map Update l)).
    destruct (Rlt_dec (t + a) (Rmax d 0.1)) as [Hshort | Hlong].
    + pose proof (touring_frame_short p inner t d a s Ht Hshort) as Ht'.
      destruct (IH (t + a) (update a s) Ht' Hshort Hl) as [I1 I2].
      split; intros H; [apply I1 | apply I2]; lra.
    + assert (Hlong' : Rmax d 0.1 <= t + a) by lra.
      destruct (touring_frame_done p inner t d a s Ht Hlong')
        as [D1 [D2 [D3 [D4 _]]]].
      rewrite (frames_not_touring l _ D1).
      split; [intros H; lra |].
      intros _. repeat split; assumption.
Qed.

(** X13. A tour that does not loop completes exactly once, when its clock
    reaches its duration.  In every state the controller can reach,
    [playTour] without [loop: true] starts a tour; under frames whose time
    steps are not negative, the promise it returned stays unresolved and
    the tour stays active as long as the steps add up to less than
    [max(duration, 0.1)] (the duration defaults to 18), and once they reach
    it the tour is over, the completion closure has been taken out of
    [onTourComplete] and called, and the promise is resolved exactly once,
    whatever events follow. *)
Theorem tour_completes_once :
  forall (gsapDefined : bool) (before after : list Event)
         (duration blend : option R) (onComplete : option nat)
         (deltas : list R),
    (forall x, In x deltas -> 0 <= x) ->
    let s := run (initial gsapDefined) before in
    let p := fst (playTour None duration blend onComplete s) in
    let s1 := snd (playTour None duration blend onComplete s) in
    let s2 := run s1 (map Update deltas) in
    let d := Rmax (match duration with Some d => d | None => 18 end) 0.1 in
    (Aria.totalTime deltas < d ->
     isTouring (controller s2) = true /\ resolveCount p s2 = 0%nat) /\
    (d <= Aria.totalTime deltas ->
     isTouring (controller s2) = false /\
     onTourComplete (controller s2) = None /\
     resolveCount p s2 = 1%nat /\
     resolveCount p (run s2 after) = 1%nat).
Proof.
  intros g before after duration blend onComplete deltas Hpos s p s1 s2 d.
  pose proof (fresh_run before _ (fresh_initial g)) as Hf. fold s in Hf.
  assert (Ep : p = nextPromise (runtime s)) by reflexivity.
  assert (Es1 : s1 = withController
                       (setOnTourComplete (Some (PlayTourComplete onComplete p)))
                       (startTour (Some false) duration blend None
                                  (snd (newPromise s)))).
  { unfold s1, playTour. rewrite <- startTour_stores. reflexivity. }
  set (s0 := startTour (Some false) duration blend None (snd (newPromise s))) in *.
  destruct (startTour_untouched (Some false) duration blend None
              (snd (newPromise s))) as [A B].
  fold s0 in A, B.
  assert (Hu : untouched p s0 = true).
  { apply B; [reflexivity |]. apply untouched_newPromise. apply Hf. lia. }
  destruct (startTour_fields (Some false) duration blend None (snd (newPromise s)))
    as [F1 [F2 [F3 [F4 [F5 F6]]]]].
  fold s0 in F1, F2, F3, F4, F5, F6.
  assert (Ht : touring p onComplete 0
                 (match duration with Some x => x | None => 18 end) s1).
  { rewrite Es1. unfold touring. repeat split; try assumption.
    - change (nextPromise (runtime s0) > p)%nat. rewrite A, Ep. simpl. lia.
    - apply untouched_spec in Hu. destruct Hu as [U1 [U2 [U3 [U4 U5]]]].
      apply untouched_spec. repeat split; assumption. }
  assert (Hd : 0 < d) by (unfold d; match goal with |- 0 < Rmax ?a _ =>
                            pose proof (Rmax_r a 0.1) end; lra).
  destruct (touring_frames p onComplete _ deltas 0 s1 Ht Hd Hpos) as [I1 I2].
  fold s2 in I1, I2. fold d in I1, I2. rewrite Rplus_0_l in I1, I2.
  split; [exact I1 |].
  intros Hlong. destruct (I2 Hlong) as [D1 [D2 [D3 D4]]].
  repeat split; try assumption.
  destruct (keeps_run p after s2 D4) as [_ E]. rewrite E. exact D3.
Qed.

Lemma tour_completes_once_witness :
  resolveCount 0%nat
    (run (snd (playTour None (Some 12) None None (initial true)))
         (map Update [6; 6])) = 1%nat.
Proof.
  assert (Hpos : forall x, In x [6; 6] -> 0 <= x).
  { intros x [<- | [<- | []]]; lra. }
  assert (Hlong : Rmax 12 0.1 <= Aria.totalTime [6; 6]).
  { unfold Aria.totalTime. cbn [fold_right]. rewrite Rmax_left by lra. lra. }
  destruct (tour_completes_once true [] [] (Some 12) None None [6; 6] Hpos)
    as [_ H].
  destruct (H Hlong) as [_ [_ [E _]]]. exact E.
Defined.

(** What [call] leaves alone. *)
Lemma call_frame c s :
  gsap (runtime (call c s)) = gsap (runtime s) /\
  tweens (runtime (call c s)) = tweens (runtime s) /\
  timers (runtime (call c s)) = timers (runtime s) /\
  nextTween (runtime (call c s)) = nextTween (runtime s) /\
  nextTimer (runtime (call c s)) = nextTimer (runtime s).
Proof.
  cam_break s. destruct c as [q | inner q | q | n]; simpl;
    [destruct tr | destruct inner | |]; repeat split; reflexivity.
Qed.

Lemma Forall_lt_S {A : Type} (f : A -> nat) (n : nat) (l : list A) :
  Forall (fun t => (f t < n)%nat) l -> Forall (fun t => (f t < S n)%nat) l.
Proof. apply Forall_impl. intros a H. lia. Qed.

(** The state in which [startTour] and [transitionTo] do their own work:
    after leaving orbit mode and cancelling the transition in flight. *)
Lemma cancelTransition_frame s :
  finishOnly s -> idsOk s ->
  let s' := cancelTransition s in
  gsap (runtime s') = gsap (runtime s) /\
  idsOk s' /\
  nextTween (runtime s') = nextTween (runtime s) /\
  nextTimer (runtime s') = nextTimer (runtime s) /\
  timers (runtime s') = timers (runtime s) /\
  transitionResolve (controller s') = None /\
  (gsap (runtime s) = false -> tweens (runtime s') = tweens (runtime s)).
Proof.
  unfold finishOnly, idsOk. cam_break s. unfold cancelTransition, call. simpl.
  intros F [I1 I2].
  destruct gs; simpl; cam_cases; try contradiction;
    repeat split; auto; repeat apply Forall_filter; auto; discriminate.
Qed.

Lemma leaveOrbit_frame s :
  let s' := if isOrbiting (controller s) then disableOrbitMode s else s in
  runtime s' = runtime s /\
  transitionResolve (controller s') = transitionResolve (controller s).
Proof. destruct (isOrbiting (controller s)); split; reflexivity. Qed.

Lemma steady_call c s : steady s -> steady (call c s).
Proof.
  intros [F I]. split; [apply finishOnly_call; exact F |].
  destruct (call_frame c s) as [_ [A [B [C D]]]].
  unfold idsOk. rewrite A, B, C, D. exact I.
Qed.

Lemma steady_prefix s :
  steady s ->
  let s0 := if isOrbiting (controller s) then disableOrbitMode s else s in
  steady s0 /\ gsap (runtime s0) = gsap (runtime s).
Proof.
  intros H. destruct (isOrbiting (controller s)); split; try exact H; reflexivity.
Qed.

Lemma startTour_steady loop duration blend oc s :
  steady s ->
  steady (startTour loop duration blend oc s) /\
  gsap (runtime (startTour loop duration blend oc s)) = gsap (runtime s).
Proof.
  intros H. unfold startTour.
  destruct (steady_prefix s H) as [[F0 I0] G0].
  set (s0 := if isOrbiting (controller s) then disableOrbitMode s else s) in *.
  destruct (cancelTransition_frame s0 F0 I0) as [G1 [I1 [_ [_ [_ [T1 _]]]]]].
  cbv zeta. set (s1 := cancelTransition s0) in *.
  rewrite G0 in G1. clearbody s1. clear F0 I0 G0 s0 H.
  revert G1 I1 T1. unfold steady, finishOnly, idsOk. cam_break s1. simpl.
  intros <- [I1 I2] ->.
  destruct gs; simpl; repeat split; auto; repeat apply Forall_filter; auto.
Qed.

Lemma transitionTo_steady type duration s :
  steady s ->
  steady (snd (transitionTo type duration s)) /\
  gsap (runtime (snd (transitionTo type duration s))) = gsap (runtime s).
Proof.
  intros H. unfold transitionTo.
  destruct (steady_prefix s H) as [[F0 I0] G0].
  set (s0 := if isOrbiting (controller s) then disableOrbitMode s else s) in *.
  destruct (cancelTransition_frame
              (withController (setOnTourComplete None)
                 (withController (setIsTouring false) s0)) F0 I0)
    as [G1 [I1 [_ [_ [_ [T1 _]]]]]].
  cbv zeta.
  set (s1 := cancelTransition
               (withController (setOnTourComplete None)
                  (withController (setIsTouring false) s0))) in *.
  change (gsap (runtime (withController (setOnTourComplete None)
                           (withController (setIsTouring false) s0))))
    with (gsap (runtime s0)) in G1.
  rewrite G0 in G1. clearbody s1. clear F0 I0 G0 s0 H.
  revert G1 I1 T1. unfold steady, finishOnly, idsOk. cam_break s1. simpl.
  intros <- [I1 I2] ->.
  destruct gs; simpl; [destruct type |]; simpl; repeat split; auto;
    rewrite ?Forall_app; repeat split;
    try (apply Forall_lt_S; assumption);
    try (repeat constructor; simpl; lia); auto.
Qed.

Lemma steady_step (s : State) (e : Event) :
  steady s ->
  steady (step s e) /\ gsap (runtime (step s e)) = gsap (runtime s).
Proof.
  intros H. destruct e; cbn [step].
  - apply transitionTo_steady. exact H.
  - unfold frameAriaAndProduct. apply transitionTo_steady. exact H.
  - destruct H as [F I].
    destruct (cancelTransition_frame s F I) as [G [I' [_ [_ [_ [T _]]]]]].
    split; [split; [apply finishOnly_none; exact T | exact I'] | exact G].
  - apply startTour_steady. exact H.
  - unfold playTour.
    change (snd (let (p0, s0) := newPromise s in
                 (p0, startTour (Some match loop with Some b => b | None => false end)
                                duration blend
                                (Some (PlayTourComplete onComplete p0)) s0)))
      with (startTour (Some match loop with Some b => b | None => false end)
                      duration blend
                      (Some (PlayTourComplete onComplete (nextPromise (runtime s))))
                      (snd (newPromise s))).
    apply (startTour_steady _ _ _ _ (snd (newPromise s))). exact H.
  - unfold playProductCinematic, playTour.
    match goal with
    | |- context [snd (let (p, s0) := newPromise s in
                       (p, startTour ?l ?d ?b (Some (PlayTourComplete ?k p)) s0))] =>
        change (snd (let (p, s0) := newPromise s in
                     (p, startTour l d b (Some (PlayTourComplete k p)) s0)))
          with (startTour l d b
                  (Some (PlayTourComplete k (nextPromise (runtime s))))
                  (snd (newPromise s)))
    end.
    apply (startTour_steady _ _ _ _ (snd (newPromise s))). exact H.
  - unfold stopTour.
    destruct (negb (isTouring (controller s))); [split; [exact H | reflexivity] |].
    cbv zeta.
    match goal with
    | |- context [match ?o with Some _ => _ | None => _ end] => destruct o
    end; [| split; [exact H | reflexivity]].
    split; [apply steady_call; exact H |].
    match goal with
    | |- gsap (runtime (call ?c ?x)) = _ =>
        destruct (call_frame c x) as [E _]; rewrite E
    end. reflexivity.
  - split; [exact H | reflexivity].
  - split; [exact H | reflexivity].
  - split; [exact H | reflexivity].
  - unfold followARIA. destruct (isOrbiting (controller s));
      split; try exact H; reflexivity.
  - unfold update. cbv zeta.
    destruct (isOrbiting (controller s)); [split; [exact H | reflexivity] |].
    destruct (isTouring (controller s)); [| split; [exact H | reflexivity]].
    destruct (negb (tourPath (controller s))); [split; [exact H | reflexivity] |].
    match goal with
    | |- context [if ?b then _ else _] => destruct b
    end; [| split; [exact H | reflexivity]].
    match goal with
    | |- context [match ?o with Some _ => _ | None => _ end] => destruct o
    end; [| split; [exact H | reflexivity]].
    split; [apply steady_call; exact H |].
    match goal with
    | |- gsap (runtime (call ?c ?x)) = _ =>
        destruct (call_frame c x) as [E _]; rewrite E
    end. reflexivity.
  - unfold completeTween.
    destruct (find _ _) as [t |]; [| split; [exact H | reflexivity]].
    assert (Hk : steady (killTween i s)).
    { destruct H as [F [I1 I2]]. split; [exact F |].
      split; [apply Forall_filter; exact I1 | exact I2]. }
    destruct (tw_onComplete (snd t)) as [c |]; [| split; [exact Hk | reflexivity]].
    split; [apply steady_call; exact Hk |].
    destruct (call_frame c (killTween i s)) as [E _]. rewrite E. reflexivity.
  - unfold fireTimer. destruct (Js.findTimer _ _) as [c |];
      [| split; [exact H | reflexivity]].
    assert (Hk : steady (clearTimeout h s)).
    { destruct H as [F [I1 I2]]. split; [exact F |].
      split; [exact I1 | apply Forall_filter; exact I2]. }
    split; [apply steady_call; exact Hk |].
    destruct (call_frame c (clearTimeout h s)) as [E _]. rewrite E. reflexivity.
Qed.

Lemma steady_run (es : list Event) :
  forall s, steady s ->
    steady (run s es) /\ gsap (runtime (run s es)) = gsap (runtime s).
Proof.
  induction es as [| e es IH]; intros s H; [split; [exact H | reflexivity] |].
  simpl. destruct (steady_step s e H) as [H1 G1].
  destruct (IH _ H1) as [H2 G2]. split; [exact H2 | congruence].
Qed.

Lemma steady_initial g : steady (initial g).
Proof. split; [exact I | split; constructor]. Qed.

Lemma find_fresh {A : Type} (n : nat) (x : A) (l : list (nat * A)) :
  Forall (fun t => (fst t < n)%nat) l ->
  find (fun t => Nat.eqb (fst t) n) (l ++ [(n, x)]) = Some (n, x).
Proof.
  induction l as [| a l IH]; intros H; simpl.
  - rewrite Nat.eqb_refl. reflexivity.
  - inversion H as [| ? ? Ha Hl]; subst.
    assert (E : (fst a =? n)%nat = false) by (apply Nat.eqb_neq; lia).
    rewrite E. apply IH. exact Hl.
Qed.

Lemma filter_fresh {A : Type} (n : nat) (x : A) (l : list (nat * A)) :
  Forall (fun t => (fst t < n)%nat) l ->
  filter (fun t => negb (Nat.eqb (fst t) n)) (l ++ [(n, x)]) = l.
Proof.
  induction l as [| a l IH]; intros H; simpl.
  - rewrite Nat.eqb_refl. reflexivity.
  - inversion H as [| ? ? Ha Hl]; subst.
    assert (E : (fst a =? n)%nat = false) by (apply Nat.eqb_neq; lia).
    rewrite E. simpl. rewrite IH by exact Hl. reflexivity.
Qed.

(** The state [transitionTo] does its own work in. *)
Lemma transitionTo_ground type duration s :
  steady s -> fresh s ->
  exists s1,
    transitionTo type duration s =
      (let (p, s2) := newPromise s1 in
       let finish := Finish p in
       let s3 := withController (setIsTransitioning true) s2 in
       let s4 := withController (setIsFollowingARIA false) s3 in
       let s5 := withController (setTransitionResolve (Some finish)) s4 in
       if gsap (runtime s5)
       then match type with
            | return_start =>
                let (i, s6) := gsapTo CameraPosition None s5 in
                let s7 := withController (setTransitionTween (Some i)) s6 in
                let (_, s8) := setTimeout finish s7 in (p, s8)
            | _ =>
                let (i, s6) := gsapTo TweenObject (Some finish) s5 in
                (p, withController (setTransitionTween (Some i)) s6)
            end
       else (p, call finish s5)) /\
    gsap (runtime s1) = gsap (runtime s) /\
    idsOk s1 /\
    nextTween (runtime s1) = nextTween (runtime s) /\
    nextTimer (runtime s1) = nextTimer (runtime s) /\
    nextPromise (runtime s1) = nextPromise (runtime s) /\
    onTourComplete (controller s1) = None /\
    transitionResolve (controller s1) = None /\
    untouched (nextPromise (runtime s)) s1 = true /\
    (gsap (runtime s) = false ->
     tweens (runtime s1) = tweens (runtime s) /\
     timers (runtime s1) = timers (runtime s)).
Proof.
  intros Hs Hf. unfold transitionTo.
  destruct (steady_prefix s Hs) as [[F0 I0] G0].
  destruct (leaveOrbit_frame s) as [R0 _].
  destruct (spares_leaveOrbit s) as [A0 B0].
  set (s0 := if isOrbiting (controller s) then disableOrbitMode s else s) in *.
  set (s0' := withController (setOnTourComplete None)
                (withController (setIsTouring false) s0)).
  destruct (cancelTransition_frame s0' F0 I0) as [G1 [I1 [N1 [N2 [T1 [T2 T3]]]]]].
  destruct (spares_cancelTransition s0') as [A1 B1].
  assert (Hotc : onTourComplete (controller (cancelTransition s0')) = None).
  { unfold s0'. generalize s0. intros x. cam_break x.
    unfold cancelTransition, call. simpl. cam_cases; reflexivity. }
  cbv zeta. fold s0'.
  exists (cancelTransition s0').
  split; [reflexivity |].
  change (gsap (runtime s0')) with (gsap (runtime s0)) in G1.
  change (nextTween (runtime s0')) with (nextTween (runtime s0)) in N1.
  change (nextTimer (runtime s0')) with (nextTimer (runtime s0)) in N2.
  change (timers (runtime s0')) with (timers (runtime s0)) in T1.
  change (tweens (runtime s0')) with (tweens (runtime s0)) in T3.
  change (nextPromise (runtime s0')) with (nextPromise (runtime s0)) in A1.
  rewrite R0 in *.
  split; [congruence |]. split; [exact I1 |]. split; [exact N1 |].
  split; [exact N2 |]. split; [exact A1 |]. split; [exact Hotc |].
  split; [exact T2 |]. split.
  - apply B1.
    assert (U : untouched (nextPromise (runtime s)) s0 = true)
      by (apply B0, Hf; lia).
    apply untouched_spec in U. destruct U as [U1 [U2 [U3 [U4 U5]]]].
    apply untouched_spec. repeat split; assumption.
  - intros Hg. split; [apply T3 | exact T1].
    change (gsap (runtime s0) = false). rewrite R0. exact Hg.
Qed.

Lemma cancelTransition_touring s :
  isTouring (controller (cancelTransition s)) = isTouring (controller s).
Proof.
  cam_break s. unfold cancelTransition, call. simpl. cam_cases; reflexivity.
Qed.

(** [transitionTo] leaves no tour running, so that the frames that follow
    it do nothing. *)
Lemma transitionTo_not_touring type duration s :
  isTouring (controller (snd (transitionTo type duration s))) = false.
Proof.
  unfold transitionTo.
  set (s0 := withController (setOnTourComplete None)
               (withController (setIsTouring false)
                  (if isOrbiting (controller s) then disableOrbitMode s else s))).
  assert (H : isTouring (controller (cancelTransition s0)) = false)
    by (rewrite cancelTransition_touring; reflexivity).
  cbv zeta. fold s0. revert H. generalize (cancelTransition s0).
  intros x. cam_break x. simpl. intros ->.
  destruct gs, type; reflexivity.
Qed.

(** X14. A transition left to run resolves its promise when its animation
    ends.  In every state a controller with [gsap] can reach,
    [transitionTo], followed by any number of frames ([update]), leaves the
    transition in progress with its [finish] closure stored and its promise
    unresolved; when the animation then ends (the tween completes, or, for
    ['return_start'], the timer fires), with nothing but frames since the
    call, the transition is over, the closure is gone, and the promise has
    been resolved exactly once, whatever events follow. *)
Theorem transition_resolves_when_animation_ends :
  forall (before after : list Event) (type : TransitionType) (duration : R)
         (deltas : list R),
    let s := run (initial true) before in
    let p := fst (transitionTo type duration s) in
    let s1 := run (snd (transitionTo type duration s)) (map Update deltas) in
    let s2 := step s1 (animationEnds type s) in
    isTransitioning (controller s1) = true /\
    transitionResolve (controller s1) = Some (Finish p) /\
    resolveCount p s1 = 0%nat /\
    isTransitioning (controller s2) = false /\
    transitionResolve (controller s2) = None /\
    resolveCount p s2 = 1%nat /\
    resolveCount p (run s2 after) = 1%nat.
Proof.
  intros before after type duration deltas s p s1' s2'.
  assert (Efr : s1' = snd (transitionTo type duration s))
    by (apply frames_not_touring, transitionTo_not_touring).
  unfold s2'. rewrite Efr. clear Efr s2' s1'.
  set (s1 := snd (transitionTo type duration s)).
  set (s2 := step s1 (animationEnds type s)).
  destruct (steady_run before _ (steady_initial true)) as [Hs Hg].
  pose proof (fresh_run before _ (fresh_initial true)) as Hf.
  fold s in Hs, Hg, Hf. simpl in Hg.
  destruct (transitionTo_ground type duration s Hs Hf)
    as [s0 [E [G [I [N1 [N2 [N3 [O [T [U _]]]]]]]]]].
  assert (Hmain :
    isTransitioning (controller s1) = true /\
    transitionResolve (controller s1) = Some (Finish p) /\
    resolveCount p s1 = 0%nat /\
    isTransitioning (controller s2) = false /\
    transitionResolve (controller s2) = None /\
    resolveCount p s2 = 1%nat /\
    orphaned p s2 = true).
  { unfold s2, s1, p, animationEnds. rewrite E. rewrite <- N1, <- N2.
    rewrite <- N3 in U. rewrite Hg in G.
    clear E N1 N2 N3 Hs Hf Hg s1 s2 p.
    apply untouched_spec in U. destruct U as [U1 [U2 [U3 [U4 U5]]]].
    destruct I as [I1 I2].
    unfold resolveCount in *. revert G O T U1 U2 U3 U4 U5 I1 I2.
    generalize s0. clear s0 s. intros s0.
    cam_break s0. simpl. intros -> -> -> _ _ U3 U4 U5 I1 I2.
    destruct type; simpl;
      unfold completeTween, fireTimer, Js.findTimer, Js.clearTimeout, killTween;
      simpl;
      rewrite ?find_fresh, ?filter_fresh by assumption; simpl;
      rewrite ?filter_fresh by assumption; simpl;
      rewrite ?resolveCount_same, ?U5;
      repeat split; try reflexivity;
      rewrite orphaned_spec; simpl; repeat split; auto; try lia;
      unfold Js.clearTimeout; rewrite ?filter_fresh by assumption;
      rewrite ?Forall_app; repeat split; auto; repeat constructor. }
  destruct Hmain as [M1 [M2 [M3 [M4 [M5 [M6 M7]]]]]].
  repeat split; try assumption.
  destruct (keeps_run p after s2 M7) as [_ K]. rewrite K. exact M6.
Qed.

(** Without [gsap] there are no tweens and no timers. *)
Lemma nothingAnimated_step (s : State) (e : Event) :
  steady s -> fresh s ->
  gsap (runtime s) = false ->
  tweens (runtime s) = [] /\ timers (runtime s) = [] ->
  tweens (runtime (step s e)) = [] /\ timers (runtime (step s e)) = [].
Proof.
  intros Hs Hf Hg [Htw Htm].
  assert (Hcall : forall c x,
             tweens (runtime x) = [] /\ timers (runtime x) = [] ->
             tweens (runtime (call c x)) = [] /\ timers (runtime (call c x)) = []).
  { intros c x [A B]. destruct (call_frame c x) as [_ [E1 [E2 _]]].
    rewrite E1, E2. split; assumption. }
  assert (Htrans : forall type duration,
             tweens (runtime (snd (transitionTo type duration s))) = [] /\
             timers (runtime (snd (transitionTo type duration s))) = []).
  { intros type duration.
    destruct (transitionTo_ground type duration s Hs Hf)
      as [s0 [E [G [_ [_ [_ [_ [_ [_ [_ Q]]]]]]]]]].
    destruct (Q Hg) as [Q1 Q2]. rewrite E. rewrite Hg in G.
    rewrite Htw in Q1. rewrite Htm in Q2. clear E Q.
    revert G Q1 Q2. generalize s0. intros x. cam_break x. simpl.
    intros -> -> ->. simpl. split; reflexivity. }
  assert (Hstart : forall loop duration blend oc x,
             gsap (runtime x) = false ->
             finishOnly x -> idsOk x ->
             tweens (runtime x) = [] /\ timers (runtime x) = [] ->
             tweens (runtime (startTour loop duration blend oc x)) = [] /\
             timers (runtime (startTour loop duration blend oc x)) = []).
  { intros loop duration blend oc x Gx Fx Ix [A B]. unfold startTour.
    destruct (leaveOrbit_frame x) as [R0 T0].
    set (x0 := if isOrbiting (controller x) then disableOrbitMode x else x) in *.
    assert (F0 : finishOnly x0) by (unfold finishOnly; rewrite T0; exact Fx).
    assert (I0 : idsOk x0) by (unfold idsOk; rewrite R0; exact Ix).
    destruct (cancelTransition_frame x0 F0 I0) as [G1 [_ [_ [_ [T1 [_ T3]]]]]].
    rewrite R0 in G1, T1, T3. specialize (T3 Gx). rewrite Gx in G1.
    rewrite A in T3. rewrite B in T1.
    cbv zeta. set (x1 := cancelTransition x0) in *. clearbody x1.
    revert G1 T1 T3. cam_break x1. simpl. intros -> -> ->. split; reflexivity. }
  destruct Hs as [HF HI].
  destruct e; cbn [step].
  - apply Htrans.
  - unfold frameAriaAndProduct. apply Htrans.
  - destruct (cancelTransition_frame s HF HI) as [_ [_ [_ [_ [T1 [_ T3]]]]]].
    rewrite T1, (T3 Hg). split; assumption.
  - apply Hstart; try assumption. split; assumption.
  - unfold playTour.
    change (snd (let (p0, s0) := newPromise s in
                 (p0, startTour (Some match loop with Some b => b | None => false end)
                                duration blend
                                (Some (PlayTourComplete onComplete p0)) s0)))
      with (startTour (Some match loop with Some b => b | None => false end)
                      duration blend
                      (Some (PlayTourComplete onComplete (nextPromise (runtime s))))
                      (snd (newPromise s))).
    apply Hstart; try assumption. split; assumption.
  - unfold playProductCinematic, playTour.
    match goal with
    | |- context [snd (let (p, s0) := newPromise s in
                       (p, startTour ?l ?d ?b (Some (PlayTourComplete ?k p)) s0))] =>
        change (snd (let (p, s0) := newPromise s in
                     (p, startTour l d b (Some (PlayTourComplete k p)) s0)))
          with (startTour l d b
                  (Some (PlayTourComplete k (nextPromise (runtime s))))
                  (snd (newPromise s)))
    end.
    apply Hstart; try assumption. split; assumption.
  - unfold stopTour.
    destruct (negb (isTouring (controller s))); [split; assumption |].
    cbv zeta.
    match goal with
    | |- context [match ?o with Some _ => _ | None => _ end] => destruct o
    end; [apply Hcall |]; split; assumption.
  - split; assumption.
  - split; assumption.
  - split; assumption.
  - unfold followARIA. destruct (isOrbiting (controller s)); split; assumption.
  - unfold update. cbv zeta.
    destruct (isOrbiting (controller s)); [split; assumption |].
    destruct (isTouring (controller s)); [| split; assumption].
    destruct (negb (tourPath (controller s))); [split; assumption |].
    match goal with
    | |- context [if ?b then _ else _] => destruct b
    end; [| split; assumption].
    match goal with
    | |- context [match ?o with Some _ => _ | None => _ end] => destruct o
    end; [apply Hcall |]; split; assumption.
  - unfold completeTween. rewrite Htw. simpl. split; assumption.
  - unfold fireTimer, Js.findTimer. rewrite Htm. simpl. split; assumption.
Qed.

Lemma nothingAnimated_run (es : list Event) :
  forall s, steady s -> fresh s -> gsap (runtime s) = false ->
    tweens (runtime s) = [] /\ timers (runtime s) = [] ->
    tweens (runtime (run s es)) = [] /\ timers (runtime (run s es)) = [].
Proof.
  induction es as [| e es IH]; intros s Hs Hf Hg H; [exact H |].
  simpl. destruct (steady_step s e Hs) as [Hs' Hg'].
  apply IH; [exact Hs' | apply fresh_step; exact Hf | congruence |].
  apply nothingAnimated_step; assumption.
Qed.

(** X15. Without [gsap] a transition is immediate.  In every state a
    controller without [gsap] can reach there is no tween and no timer,
    and [transitionTo] returns with the transition already over: the
    promise it returns has been resolved exactly once, [isTransitioning]
    is clear, nothing is stored in [transitionResolve], and the promise is
    not resolved again, whatever events follow. *)
Theorem without_gsap_transitions_are_immediate :
  forall (before after : list Event) (type : TransitionType) (duration : R),
    let s := run (initial false) before in
    let p := fst (transitionTo type duration s) in
    let s1 := snd (transitionTo type duration s) in
    tweens (runtime s) = [] /\ timers (runtime s) = [] /\
    isTransitioning (controller s1) = false /\
    transitionResolve (controller s1) = None /\
    resolveCount p s1 = 1%nat /\
    resolveCount p (run s1 after) = 1%nat.
Proof.
  intros before after type duration s p s1.
  destruct (steady_run before _ (steady_initial false)) as [Hs Hg].
  pose proof (fresh_run before _ (fresh_initial false)) as Hf.
  destruct (nothingAnimated_run before _ (steady_initial false)
              (fresh_initial false) eq_refl (conj eq_refl eq_refl)) as [Htw Htm].
  fold s in Hs, Hg, Hf, Htw, Htm. simpl in Hg.
  split; [exact Htw |]. split; [exact Htm |].
  destruct (transitionTo_ground type duration s Hs Hf)
    as [s0 [E [G [_ [_ [_ [N3 [O [T [U Q]]]]]]]]]].
  destruct (Q Hg) as [Q1 Q2]. rewrite Htw in Q1. rewrite Htm in Q2.
  assert (Hmain :
    isTransitioning (controller s1) = false /\
    transitionResolve (controller s1) = None /\
    resolveCount p s1 = 1%nat /\
    orphaned p s1 = true).
  { unfold s1, p. rewrite E. rewrite <- N3 in U. rewrite Hg in G.
    clear E N3 Hs Hf Hg s1 p Q Htw Htm.
    apply untouched_spec in U. destruct U as [_ [_ [_ [_ U5]]]].
    unfold resolveCount in *. revert G O T U5 Q1 Q2.
    generalize s0. clear s0 s. intros s0.
    cam_break s0. simpl. intros -> -> -> U5 -> ->. simpl.
    rewrite resolveCount_same, U5. repeat split; try reflexivity.
    rewrite orphaned_spec. simpl. repeat split; auto; constructor. }
  destruct Hmain as [M1 [M2 [M3 M4]]].
  repeat split; try assumption.
  destruct (keeps_run p after s1 M4) as [_ K]. rewrite K. exact M3.
Qed.

End CameraModesFacts.

(** ** Where the avatar and the camera stop for a product *)

Module StagingFacts.

Import Three JsMath Cinematic Staging JsFacts AriaFacts CinematicFacts.

Lemma sqrt_sum_squares_zero (a b : R) :
  sqrt (a * a + 0 * 0 + b * b) = 0 -> a = 0 /\ b = 0.
Proof.
  intros H. apply sqrt_eq_0 in H; [| nra]. split; nra.
Qed.

Lemma approachPoint_ground c bounds : y (approachPoint c bounds) = 0.
Proof. destruct c; reflexivity. Qed.

(** The distance check of [walkToProduct], in the ground plane. *)
Lemma walkTarget_clear c bounds :
  x (approachPoint c bounds) <> x (productPos c bounds) \/
  z (approachPoint c bounds) <> z (productPos c bounds) ->
  walkRadius bounds + clearance
    <= groundDistance (walkTarget c bounds) (productPos c bounds).
Proof.
  intros Hne. unfold walkTarget. cbv zeta.
  set (a := approachPoint c bounds) in *.
  set (p := productPos c bounds) in *.
  set (m := walkRadius bounds + clearance).
  set (ox := x a - x p). set (oz := z a - z p).
  assert (Elen : length (setY (subVectors a p) 0) = sqrt (ox * ox + 0 * 0 + oz * oz))
    by reflexivity.
  rewrite Elen.
  set (len := sqrt (ox * ox + 0 * 0 + oz * oz)) in *.
  assert (Hlen2 : len * len = ox * ox + oz * oz).
  { unfold len. rewrite sqrt_sqrt by nra. ring. }
  assert (Hlen0 : 0 <= len) by apply sqrt_pos.
  assert (Hpos : 0 < len).
  { destruct Hlen0 as [H | H]; [exact H |]. exfalso.
    symmetry in H. apply sqrt_sum_squares_zero in H. unfold ox, oz in H.
    destruct H as [H1 H2]. destruct Hne as [Hx | Hz]; [apply Hx | apply Hz]; lra. }
  destruct (Rlt_dec len m) as [Hlt | Hge].
  - rewrite (ltb_true _ _ Hlt).
    unfold setLength, normalize. rewrite Elen. fold len.
    destruct (Req_EM_T len 0) as [E | _]; [lra |].
    unfold groundDistance, multiplyScalar, add, setY, subVectors, vec. simpl.
    fold ox oz.
    replace ((x p + ox * (1 / len) * m - x p) * (x p + ox * (1 / len) * m - x p)
             + (z p + oz * (1 / len) * m - z p) * (z p + oz * (1 / len) * m - z p))
      with (m * m).
    + rewrite sqrt_square by lra. lra.
    + assert (Hk : 1 / len * len = 1) by (field; lra).
      set (k := 1 / len) in *.
      transitivity ((ox * ox + oz * oz) * (k * k) * (m * m)); [| ring].
      rewrite <- Hlen2.
      replace (len * len * (k * k)) with ((k * len) * (k * len)) by ring.
      rewrite Hk. ring.
  - rewrite (ltb_false len m) by lra.
    unfold groundDistance. fold ox oz.
    replace (ox * ox + oz * oz) with (ox * ox + 0 * 0 + oz * oz) by ring.
    fold len. lra.
Qed.

Lemma walkTarget_ground c bounds : y (walkTarget c bounds) = 0.
Proof.
  unfold walkTarget. cbv zeta.
  destruct (ltb _ _); [reflexivity | apply approachPoint_ground].
Qed.

(** X16. [walkToProduct] keeps the avatar clear of the product.  The
    position it sends the avatar to lies on the floor, and, unless the
    approach point coincides in the ground plane with the centre of the
    product, at a distance of at least [radius + 1.1] from that centre in
    the ground plane; on a loaded avatar that position becomes the end point
    of the walk.  Without bounds the radius is 1.6 and the centre is the
    nominal position of the product, and the condition always holds. *)
Theorem walk_target_keeps_clear :
  forall (c : Main.Collection) (bounds : option Bounds) (s : Aria.State)
         (g : Object3D),
    Aria.ariaGroup (Aria.scene s) = Some g ->
    bounds = None \/
    x (approachPoint c bounds) <> x (productPos c bounds) \/
    z (approachPoint c bounds) <> z (productPos c bounds) ->
    let s' := snd (walkToProduct c bounds s) in
    Aria.walkEndPos (Aria.motion s') = walkTarget c bounds /\
    y (Aria.walkEndPos (Aria.motion s')) = 0 /\
    walkRadius bounds + clearance
      <= groundDistance (Aria.walkEndPos (Aria.motion s')) (productPos c bounds).
Proof.
  intros c bounds s g Hg Hne s'.
  assert (E : Aria.walkEndPos (Aria.motion s') = walkTarget c bounds).
  { unfold s', walkToProduct. rewrite walkToPosition_endpos, Hg.
    pose proof (walkTarget_ground c bounds) as Hy.
    destruct (walkTarget c bounds) as [tx ty tz]. simpl in *. subst ty.
    reflexivity. }
  rewrite E. split; [reflexivity |]. split; [apply walkTarget_ground |].
  apply walkTarget_clear.
  destruct Hne as [-> | Hne]; [| exact Hne].
  right. destruct c; simpl; unfold clearance;
    pose proof (Rmax_r 1.6 (1.6 + 1.1)); lra.
Qed.

Lemma walk_target_keeps_clear_witness :
  walkRadius None + clearance
    <= groundDistance
         (Aria.walkEndPos
            (Aria.motion (snd (walkToProduct Main.luxury None
                                 (Aria.run Aria.initial [Aria.Loaded true])))))
         (productPos Main.luxury None).
Proof.
  apply (walk_target_keeps_clear Main.luxury None
           (Aria.run Aria.initial [Aria.Loaded true])
           {| position := Aria.ARIA_START_POS;
              rotation := {| ex := 0; ey := 0; ez := 0 |} |}).
  - reflexivity.
  - left. reflexivity.
Defined.

Lemma groundDistance_circle (target : Vector3) (r a h : R) :
  0 <= r ->
  groundDistance (vec (x target + cos a * r) h (z target + sin a * r)) target = r.
Proof.
  intros Hr. unfold groundDistance. simpl.
  replace ((x target + cos a * r - x target) * (x target + cos a * r - x target)
           + (z target + sin a * r - z target) * (z target + sin a * r - z target))
    with (r * r * ((sin a)² + (cos a)²)) by (unfold Rsqr; ring).
  rewrite sin2_cos2, Rmult_1_r. apply sqrt_square. exact Hr.
Qed.

Lemma baseRadius_bounds (bounds : option Bounds) :
  3.4 <= baseRadius bounds /\
  forall b, bounds = Some b -> radius b + 1.4 <= baseRadius bounds.
Proof.
  unfold baseRadius. destruct bounds as [b |].
  - split; [apply Rmax_l |]. intros b' E. injection E as <-. apply Rmax_r.
  - split; [lra | discriminate].
Qed.

Lemma cinematicRadius_bounds bounds target options :
  o_radius options = None \/ 4 < Rabs (x target) ->
  baseRadius bounds <= cinematicRadius bounds target options.
Proof.
  intros H. unfold cinematicRadius. cbv zeta.
  destruct (Rgt_dec (Rabs (x target)) 4) as [Hg | Hng].
  - rewrite (gtb_true _ _ Hg). apply Rmax_l.
  - rewrite (gtb_false (Rabs (x target)) 4) by lra.
    destruct H as [-> | H]; [simpl; lra | lra].
Qed.

(** X17. The orbit of the product cinematic keeps its distance.  When the
    caller leaves the radius to the controller, or the product stands to
    the side ([|target.x| > 4], where the radius asked for is overridden),
    and the number of segments is not 0, every point of the path after the
    first (which is the position of the camera) lies on the circle of the
    cinematic radius around the target in the ground plane; that radius is
    at least 3.4 and at least 1.4 more than the bounding radius of the
    product, and the height of the point is within 0.2 of the cinematic
    height. *)
Theorem cinematic_orbit_keeps_its_distance :
  forall (bounds : option Bounds) (productPosition cameraPosition : Vector3)
         (options : Options) (pt : Vector3),
    o_segments options <> Some 0%nat ->
    o_radius options = None \/
    4 < Rabs (x (cinematicTarget bounds productPosition)) ->
    In (Some pt)
       (tl (pathPoints bounds productPosition options cameraPosition)) ->
    let target := cinematicTarget bounds productPosition in
    let r := cinematicRadius bounds target options in
    let h := cinematicHeight bounds target options in
    groundDistance pt target = r /\
    3.4 <= r /\
    (forall b, bounds = Some b -> radius b + 1.4 <= r) /\
    h - 0.2 <= y pt <= h + 0.2.
Proof.
  intros bounds productPosition cameraPosition options pt Hseg Hrad Hin target r h.
  destruct (baseRadius_bounds bounds) as [Hb1 Hb2].
  pose proof (cinematicRadius_bounds bounds target options Hrad) as Hr.
  fold r in Hr.
  unfold pathPoints in Hin. cbv zeta in Hin. cbn [tl] in Hin.
  apply in_map_iff in Hin. destruct Hin as [i [Ept _]].
  fold target in Ept. fold r in Ept. fold h in Ept.
  unfold orbitPoint in Ept.
  destruct (orElse (o_segments options) 7%nat) as [| n] eqn:En.
  { destruct (o_segments options) as [[| k] |]; simpl in En;
      [contradiction Hseg; reflexivity | discriminate | discriminate]. }
  apply (f_equal (fun o => match o with Some v => v | None => pt end)) in Ept.
  cbv beta iota zeta in Ept. subst pt.
  split; [apply groundDistance_circle; lra |].
  split; [lra |].
  split; [intros b Eb; specialize (Hb2 b Eb); lra |].
  simpl y.
  match goal with
  | |- context [sin ?a * 0.2] => pose proof (SIN_bound a)
  end.
  lra.
Qed.

Lemma cinematic_orbit_keeps_its_distance_witness :
  exists pt : Vector3,
    orbitPoint (vec 0 0.5 (-5)) 4.8 1.5
               (startAngle (vec 0 1.5 6) (vec 0 0.5 (-5))) 7 0 = Some pt /\
    groundDistance pt (vec 0 0.5 (-5)) = 4.8.
Proof.
  assert (Hseg : o_segments {| o_radius := None; o_height := None;
                               o_segments := None |} <> Some 0%nat)
    by discriminate.
  eexists. split; [reflexivity |].
  match goal with
  | |- groundDistance ?pt _ = _ =>
      destruct (cinematic_orbit_keeps_its_distance None (vec 0 0 (-5))
                  (vec 0 1.5 6)
                  {| o_radius := None; o_height := None; o_segments := None |}
                  pt Hseg (or_introl eq_refl)) as [H _]
  end.
  - unfold pathPoints, cinematicTarget, cinematicRadius, cinematicHeight,
      baseRadius, orElse. cbn [tl seq map]. left.
    assert (E : Rmax 0.5 0 = 0.5) by (apply Rmax_left; lra).
    cbn [setY vec x y z]. rewrite E.
    rewrite (gtb_false (Rabs 0) 4) by (rewrite Rabs_R0; lra).
    reflexivity.
  - revert H. unfold cinematicTarget, cinematicRadius, baseRadius, orElse.
    assert (E : Rmax 0.5 0 = 0.5) by (apply Rmax_left; lra).
    cbn [setY vec x y z]. rewrite E.
    rewrite (gtb_false (Rabs 0) 4) by (rewrite Rabs_R0; lra).
    intros H. exact H.
Defined.

(** X18. The product shot keeps the camera outside the product.  The final
    position of a ['product_with_aria'] transition is in front of the
    product, at a distance in the ground plane of at least 4.6 and at least
    3.2 more than the radius of the product (2.8 without bounds) from its
    centre, to the side by at most 1.6, and at a height of at least 1; the
    point it looks at is straight above the centre, between 0.5 and 1 above
    its height (which counts as at least 0.5). *)
Theorem product_shot_stays_outside :
  forall (c : Main.Collection) (bounds : option Bounds),
    let shot := productShot c bounds in
    let centre := match bounds with
                  | Some b => center b
                  | None => getProductPosition c
                  end in
    let r := match bounds with Some b => radius b | None => 2.8 end in
    4.6 <= groundDistance (finalPosition shot) centre /\
    r + 3.2 <= groundDistance (finalPosition shot) centre /\
    Rabs (x (finalPosition shot) - x centre) <= 1.6 /\
    4.6 <= z (finalPosition shot) - z centre /\
    1 <= y (finalPosition shot) /\
    x (finalLookAt shot) = x centre /\ z (finalLookAt shot) = z centre /\
    Rmax 0.5 (y centre) + 0.5 <= y (finalLookAt shot) <= Rmax 0.5 (y centre) + 1.
Proof.
  intros c bounds shot centre r.
  set (d := Rmax 4.6 (r + 3.2)).
  assert (Hd1 : 4.6 <= d) by apply Rmax_l.
  assert (Hd2 : r + 3.2 <= d) by apply Rmax_r.
  set (sh := match bounds with
             | Some b => Rmin 1.6 (Rmax 0.8 (radius b * 0.35))
             | None => 1.5
             end).
  assert (Hsh : 0 <= sh <= 1.6).
  { unfold sh. destruct bounds as [b |]; [| lra].
    split; [| apply Rmin_l].
    apply Rmin_glb; [lra |]. pose proof (Rmax_l 0.8 (radius b * 0.35)). lra. }
  assert (Hz : z (finalPosition shot) - z centre = d).
  { unfold shot, productShot, centre, d, r.
    destruct bounds, c; simpl; ring. }
  assert (Hx : x (finalPosition shot) - x centre = sh \/
               x (finalPosition shot) - x centre = - sh \/
               x (finalPosition shot) - x centre = 0).
  { unfold shot, productShot, centre, sh.
    destruct bounds, c; simpl;
      [left | right; right | right; left | left | right; right | right; left];
      ring. }
  assert (Hg : d <= groundDistance (finalPosition shot) centre).
  { unfold groundDistance. rewrite Hz.
    set (u := x (finalPosition shot) - x centre).
    rewrite <- (sqrt_square d) at 1 by lra.
    apply sqrt_le_1_alt. nra. }
  split; [lra |]. split; [lra |].
  split.
  { destruct Hx as [E | [E | E]]; rewrite E;
      [rewrite Rabs_pos_eq by lra | rewrite Rabs_Ropp, Rabs_pos_eq by lra
       | rewrite Rabs_R0]; lra. }
  split; [lra |].
  split.
  { unfold shot, productShot. destruct bounds, c; simpl;
      match goal with
      | |- _ <= Rmax ?a ?b => pose proof (Rmax_l a b); lra
      end. }
  split; [unfold shot, productShot, centre; destruct bounds, c; reflexivity |].
  split; [unfold shot, productShot, centre; destruct bounds, c; reflexivity |].
  unfold shot, productShot, centre.
  destruct bounds as [b |]; simpl.
  - assert (0.5 <= Rmin 1.0 (Rmax 0.5 (y (size b) * 0.22)) <= 1).
    { pose proof (Rmin_l 1.0 (Rmax 0.5 (y (size b) * 0.22))).
      split; [| lra].
      apply Rmin_glb; [lra | apply Rmax_l]. }
    destruct c; simpl; lra.
  - destruct c; simpl; lra.
Qed.

End StagingFacts.

(** ** The request sequencer keeps its lock, its flags and the voice bar
       in step *)

Module SequencingFacts.

Import JsMath Main JsFacts Sequencing.

Lemma orderly_view s s' : view s' = view s -> orderly s -> orderly s'.
Proof.
  unfold view, orderly, audioOk, working, introActive. intros E H.
  injection E as E1 E2 E3. rewrite E1, E2, E3. exact H.
Qed.

Lemma view_act a s : view (act a s) = view s.
Proof. reflexivity. Qed.

Lemma view_withCamera f s : view (withCamera f s) = view s.
Proof. reflexivity. Qed.

Lemma view_setCameraController c s : view (setCameraController c s) = view s.
Proof. reflexivity. Qed.

Lemma view_resolve p s : view (resolve p s) = view s.
Proof. reflexivity. Qed.

Lemma view_delay s : view (snd (delay s)) = view s.
Proof. reflexivity. Qed.

Lemma view_walkToProduct c s : view (snd (walkToProduct c s)) = view s.
Proof. unfold walkToProduct. simpl. destruct (walkInFlight s); reflexivity. Qed.

Lemma view_createCinematicState s : view (snd (createCinematicState s)) = view s.
Proof. reflexivity. Qed.

Lemma view_cancelCameraWork s : view (cancelCameraWork s) = view s.
Proof. reflexivity. Qed.

Lemma audioOk_stop a : audioOk (audioStop a).
Proof. reflexivity. Qed.

Lemma audioOk_prepareMoment k a : audioOk a -> audioOk (prepareMoment k a).
Proof.
  unfold audioOk, prepareMoment. intros H.
  destruct a as [tok cur sp pre dur]. simpl in *.
  destruct pre as [k0 |]; [destruct (sameTrack k0 k) |]; simpl;
    destruct cur as [[[k1 n] q] |]; simpl;
    try destruct (sameTrack k1 k); simpl; auto.
Qed.

Lemma cancelActiveCinematic_view why s :
  globals (cancelActiveCinematic why s) = globals s /\
  task (cancelActiveCinematic why s) = task s /\
  (audioOk (audioSystem s) -> audioOk (audioSystem (cancelActiveCinematic why s))).
Proof.
  unfold cancelActiveCinematic.
  destruct (cinematicState (globals s)) as [ref |]; [| tauto].
  destruct (nth_error (cinematics s) ref) as [cs |]; [| tauto].
  destruct (cancelled cs); [tauto |].
  repeat split.
Qed.

Lemma playMoment_view k s :
  globals (snd (playMoment k s)) = globals s /\
  task (snd (playMoment k s)) = task s /\
  audioOk (audioSystem (snd (playMoment k s))).
Proof. unfold playMoment. repeat split. Qed.


Lemma orderly_suspended r requestId a x :
  collectionRequestLock (globals x) = true ->
  (allowProductOrbit (globals x) = true -> a = Returned) ->
  introActive x = false ->
  audioOk (audioSystem x) ->
  orderly (suspend r requestId a x).
Proof.
  intros Hl Ho Hi Ha. unfold orderly, audioOk, working, introActive in *.
  cbn [suspend task globals audioSystem setTask isSome t_await].
  split; [exact Hl |]. split; [intros _; exact Hl |].
  split; [intros H; rewrite (Ho H); reflexivity |].
  split; [rewrite Hi; discriminate | exact Ha].
Qed.

(** [handleCollectionSelect] up to its first [await]. *)
Lemma orderly_handleCollectionSelect r requestId s :
  collectionRequestLock (globals s) = true ->
  introActive s = false ->
  audioOk (audioSystem s) ->
  orderly (handleCollectionSelect r requestId s).
Proof.
  intros Hl Hi Ha. unfold handleCollectionSelect. cbv zeta.
  destruct (cancelActiveCinematic_view switch s) as [G [T A]].
  set (s1 := cancelCameraWork (cancelActiveCinematic switch s)).
  assert (G1 : globals s1 = globals s) by exact G.
  assert (A1 : audioOk (audioSystem s1)) by (apply A; exact Ha).
  assert (E1 : isActiveRequest requestId s1 = isActiveRequest requestId s)
    by (unfold isActiveRequest; rewrite G1; reflexivity).
  rewrite E1. clearbody s1. clear G T A E1.
  unfold introActive in Hi. rewrite <- G1 in Hl, Hi.
  destruct (isActiveRequest requestId s) eqn:Eact; cbn [negb].
  - apply orderly_suspended.
    + exact Hl.
    + discriminate.
    + exact Hi.
    + apply audioOk_prepareMoment. exact A1.
  - apply orderly_suspended; [exact Hl | reflexivity | exact Hi | exact A1].
Qed.

Lemma skipIntro_hooks (hooks : list (Js.TimerId * Js.PromiseId)) :
  forall s,
    view (fold_left
            (fun s hook =>
               resolve (snd hook)
                       (withCamera (Camera.clearTimeout (fst hook)) s))
            hooks s) = view s.
Proof.
  induction hooks as [| h l IH]; intros s; [reflexivity |].
  simpl. rewrite IH. reflexivity.
Qed.

Lemma skipIntro_active s :
  introActive s = true ->
  exists p s',
    skipIntro s = (Some p, s') /\
    collectionRequestLock (globals s') = collectionRequestLock (globals s) /\
    allowProductOrbit (globals s') = allowProductOrbit (globals s) /\
    introActive s' = false /\
    audioOk (audioSystem s').
Proof.
  unfold introActive, skipIntro.
  destruct (introState (globals s)) as [i |]; [| discriminate].
  destruct (introCancelled i); [discriminate |]. intros _. cbv zeta.
  pose proof (skipIntro_hooks (cancelHooks i) s) as V.
  set (s1 := fold_left _ (cancelHooks i) s) in *.
  clearbody s1.
  destruct (Camera.transitionTo Camera.custom 1.4
              (cameraController
                 (withCamera Camera.cancelTransition
                    (setAudioSystem (audioStop (audioSystem (resolve (skipPromise i) s1)))
                       (resolve (skipPromise i) s1))))) as [p c] eqn:E.
  exists p. eexists. split; [reflexivity |].
  unfold view in V. injection V as V1 V2 V3.
  cbn. rewrite V1. repeat split.
Qed.

Ltac seq_cbn :=
  cbn [globals task audioSystem setTask setGlobals setCameraController
       setAudioSystem setWalkInFlight setCinematics setTrace withGlobals
       withCamera act suspend resolve newPromise
       setCurrentCollection setAllowProductOrbit setIntroState
       setCollectionRequestLock setCollectionRequestId
       setPendingCollectionRequest setCinematicState
       collectionRequestLock collectionRequestId introState allowProductOrbit
       pendingCollectionRequest cinematicState currentCollection
       fst snd] in *.

Ltac seq_pair :=
  match goal with
  | |- context [let (_, _) := delay ?s in _] =>
      let V := fresh "V" in
      pose proof (view_delay s) as V; destruct (delay s) as [? ?];
      cbn [snd] in V
  | |- context [let (_, _) := walkToProduct ?c ?s in _] =>
      let V := fresh "V" in
      pose proof (view_walkToProduct c s) as V;
      destruct (walkToProduct c s) as [? ?]; cbn [snd] in V
  | |- context [let (_, _) := createCinematicState ?s in _] =>
      let V := fresh "V" in
      pose proof (view_createCinematicState s) as V;
      destruct (createCinematicState s) as [? ?]; cbn [snd] in V
  | |- context [let (_, _) := playMoment ?k ?s in _] =>
      let V := fresh "V" in
      pose proof (playMoment_view k s) as V;
      destruct (playMoment k s) as [? ?]; cbn [snd] in V;
      destruct V as [? [? ?]]
  | |- context [let (_, _) := Camera.transitionTo ?a ?b ?c in _] =>
      destruct (Camera.transitionTo a b c) as [? ?]
  | |- context [let (_, _) := Camera.playProductCinematic ?a ?b ?c in _] =>
      destruct (Camera.playProductCinematic a b c) as [? ?]
  | |- context [let (_, _) := Camera.frameAriaAndProduct ?a ?b in _] =>
      destruct (Camera.frameAriaAndProduct a b) as [? ?]
  end.

Ltac seq_views :=
  repeat match goal with
         | V : view _ = view _ |- _ =>
             unfold view in V; injection V as ? ? ?
         end.

Ltac seq_back :=
  repeat match goal with
         | H : globals _ = _ |- _ => rewrite H
         | H : audioSystem _ = _ |- _ => rewrite H
         end.

Ltac seq_done :=
  unfold introActive, audioOk in *; seq_cbn; seq_back; seq_cbn;
  try assumption; try reflexivity; try congruence.

Lemma introActive_globals s s' :
  globals s' = globals s -> introActive s' = introActive s.
Proof. unfold introActive. intros E. rewrite E. reflexivity. Qed.

Lemma isActiveRequest_globals n s s' :
  collectionRequestId (globals s') = collectionRequestId (globals s) ->
  isActiveRequest n s' = isActiveRequest n s.
Proof. unfold isActiveRequest. intros E. rewrite E. reflexivity. Qed.

(** The coroutine resumed at any [await] but its return. *)
Lemma orderly_resume t s :
  orderly s -> task s = Some t -> t_await t <> Returned ->
  orderly (resume t s).
Proof.
  intros [Hl [Hp [Ho [Hi Ha]]]] Ht Hr.
  rewrite Ht in Hl. cbn [isSome] in Hl.
  assert (Hi' : introActive s = false).
  { destruct (introActive s); [| reflexivity].
    destruct (Hi eq_refl) as [E _]. congruence. }
  assert (Ho' : allowProductOrbit (globals s) = false).
  { destruct (allowProductOrbit (globals s)); [| reflexivity].
    specialize (Ho eq_refl). unfold working in Ho. rewrite Ht in Ho.
    destruct (t_await t); congruence. }
  clear Hp Ho Hi. unfold introActive in Hi'.
  unfold resume. cbv zeta.
  destruct (t_await t) as [p | p | p | p w | p | p | a c k m | p |];
    try congruence; clear Hr.
  - apply orderly_handleCollectionSelect; assumption.
  - apply orderly_handleCollectionSelect; assumption.
  - destruct (negb (isActiveRequest (t_requestId t) s)).
    + apply orderly_suspended; auto.
    + repeat seq_pair. seq_views.
      apply orderly_suspended; seq_done.
  - destruct (negb (isActiveRequest (t_requestId t) s)).
    + apply orderly_suspended; auto.
    + apply orderly_suspended; seq_done.
  - destruct (negb (isActiveRequest (t_requestId t) s)).
    + apply orderly_suspended; auto.
    + repeat seq_pair.
      apply orderly_suspended; seq_done.
  - destruct (negb (isActiveRequest (t_requestId t) s)).
    + apply orderly_suspended; auto.
    + destruct (source (t_request t)).
      * repeat seq_pair. seq_views.
        apply orderly_suspended; seq_done.
      * repeat seq_pair. seq_views.
        apply orderly_suspended; seq_done.
  - destruct m; seq_cbn;
      (destruct (cinematicState (globals s)) as [ref |];
       [destruct (Nat.eqb ref k) |]); seq_cbn;
      repeat match goal with
             | |- orderly (if ?b then _ else _) => destruct b
             end;
      repeat seq_pair; apply orderly_suspended; seq_done.
  - destruct (negb (isActiveRequest (t_requestId t) s)).
    + apply orderly_suspended; auto.
    + apply orderly_suspended; seq_done.
Qed.

Lemma orderly_idle s :
  collectionRequestLock (globals s) = false ->
  task s = None ->
  pendingCollectionRequest (globals s) = None ->
  (introActive s = true -> allowProductOrbit (globals s) = false) ->
  audioOk (audioSystem s) ->
  orderly s.
Proof.
  intros Hl Ht Hp Hi Ha. unfold orderly, audioOk, working.
  rewrite Hl, Ht, Hp. cbn [isSome].
  repeat split; auto; discriminate.
Qed.

(** [requestCollection] with the lock free. *)
Lemma orderly_startRequest r s :
  task s = None ->
  (introActive s = true -> allowProductOrbit (globals s) = false) ->
  audioOk (audioSystem s) ->
  orderly (startRequest r s).
Proof.
  intros Ht Hi Ha. unfold startRequest. cbv zeta.
  set (s1 := withGlobals _ (withGlobals (setCollectionRequestLock true) s)).
  assert (L1 : collectionRequestLock (globals s1) = true) by reflexivity.
  assert (I1 : introState (globals s1) = introState (globals s)) by reflexivity.
  assert (O1 : allowProductOrbit (globals s1) = allowProductOrbit (globals s))
    by reflexivity.
  assert (A1 : audioSystem s1 = audioSystem s) by reflexivity.
  clearbody s1.
  assert (Hact : introActive s1 = introActive s)
    by (unfold introActive; rewrite I1; reflexivity).
  destruct (introActive s1) eqn:Eact.
  - destruct (skipIntro_active s1 Eact) as [p [s' [E [L [O [I A]]]]]].
    unfold introActive in Eact.
    destruct (introState (globals s1)) as [i |]; [| discriminate].
    rewrite Eact. rewrite E.
    apply orderly_suspended.
    + congruence.
    + intros H. rewrite O, O1, Hi in H; congruence.
    + exact I.
    + exact A.
  - assert (orderly (handleCollectionSelect r (collectionRequestId (globals s1)) s1)).
    { apply orderly_handleCollectionSelect; [exact L1 | exact Eact |].
      unfold audioOk in *. rewrite A1. exact Ha. }
    unfold introActive in Eact.
    destruct (introState (globals s1)) as [i |]; [| assumption].
    rewrite Eact. assumption.
Qed.

Lemma orderly_requestCollection input src s :
  orderly s -> orderly (requestCollection input src s).
Proof.
  intros H. unfold requestCollection.
  destruct input as [c |]; [| exact H]. cbv zeta.
  destruct H as [Hl [Hp [Ho [Hi Ha]]]].
  destruct (collectionRequestLock (globals s)) eqn:El.
  - set (s1 := withGlobals _ (withGlobals (setPendingCollectionRequest _) s)).
    assert (O1 : orderly s1).
    { unfold orderly, audioOk, working, introActive in *. subst s1. seq_cbn.
      rewrite El. repeat split; auto; apply Hi; assumption. }
    clearbody s1.
    destruct (cancelActiveCinematic_view switch s1) as [G [T A]].
    unfold orderly, audioOk, working, introActive in *.
    change (globals (cancelCameraWork (cancelActiveCinematic switch s1)))
      with (globals (cancelActiveCinematic switch s1)).
    change (task (cancelCameraWork (cancelActiveCinematic switch s1)))
      with (task (cancelActiveCinematic switch s1)).
    change (audioSystem (cancelCameraWork (cancelActiveCinematic switch s1)))
      with (audioSystem (cancelActiveCinematic switch s1)).
    rewrite G, T.
    destruct O1 as [H1 [H2 [H3 [H4 H5]]]].
    repeat split; auto; try (apply H4; assumption); try (apply A; exact H5).
  - apply orderly_startRequest.
    + destruct (task s); [discriminate | reflexivity].
    + intros E. apply Hi. exact E.
    + exact Ha.
Qed.

(** The [finally] block: the lock is released, and the queued request, if
    there is one, takes it again at once. *)
Lemma orderly_finishRequest s :
  orderly s -> working s = false -> orderly (finishRequest s).
Proof.
  intros [Hl [Hp [Ho [Hi Ha]]]] Hw. unfold finishRequest. cbv zeta.
  seq_cbn.
  destruct (pendingCollectionRequest (globals s)) as [next |] eqn:En.
  - unfold requestCollection. seq_cbn.
    apply orderly_startRequest.
    + reflexivity.
    + unfold introActive. seq_cbn. intros E.
      unfold introActive in Hi. destruct (Hi E) as [_ H]. exact H.
    + exact Ha.
  - apply orderly_idle; seq_cbn; auto.
    unfold introActive in *. seq_cbn. intros E. destruct (Hi E) as [_ H]. exact H.
Qed.


Lemma orderly_audioEnded s : orderly s -> orderly (audioEnded s).
Proof.
  intros H. unfold audioEnded.
  destruct (current (audioSystem s)) as [[[k tok] p] |]; [| exact H].
  destruct (Nat.eqb tok (playToken (audioSystem s))); [| exact H].
  unfold orderly, audioOk, working, introActive in *. seq_cbn.
  destruct H as [H1 [H2 [H3 [H4 _]]]]. repeat split; auto; apply H4; assumption.
Qed.

Lemma orderly_walkCompletes s : orderly s -> orderly (walkCompletes s).
Proof.
  intros H. unfold walkCompletes.
  destruct (walkInFlight s); [| exact H].
  revert H. apply orderly_view. reflexivity.
Qed.

Lemma orderly_cancelActiveCinematic why s :
  orderly s -> orderly (cancelActiveCinematic why s).
Proof.
  intros [H1 [H2 [H3 [H4 H5]]]].
  destruct (cancelActiveCinematic_view why s) as [G [T A]].
  unfold orderly, audioOk, working, introActive in *. rewrite G, T.
  repeat split; auto; try (apply H4; assumption); try (apply A; exact H5).
Qed.

Lemma orderly_handle e s : orderly s -> orderly (handle e s).
Proof.
  intros H. destruct e; cbn [handle].
  - apply orderly_requestCollection. exact H.
  - apply orderly_cancelActiveCinematic. exact H.
  - revert H. apply orderly_view. reflexivity.
  - revert H. apply orderly_view. reflexivity.
  - revert H. apply orderly_view. reflexivity.
  - apply orderly_audioEnded. exact H.
  - apply orderly_walkCompletes. exact H.
Qed.

Lemma orderly_resume_any t s :
  orderly s -> task s = Some t -> orderly (resume t s).
Proof.
  intros H Ht.
  destruct (t_await t) eqn:Ea;
    try (apply orderly_resume; [exact H | exact Ht | rewrite Ea; discriminate]).
  unfold resume. rewrite Ea. apply orderly_finishRequest; [exact H |].
  unfold working. rewrite Ht, Ea. reflexivity.
Qed.

Lemma orderly_drain n : forall s, orderly s -> orderly (drain n s).
Proof.
  induction n as [| n IH]; intros s H; [exact H |].
  cbn [drain]. destruct (task s) as [t |] eqn:Ht; [| exact H].
  destruct (ready t s); [| exact H].
  apply IH. apply orderly_resume_any; assumption.
Qed.

Lemma orderly_step s e : orderly s -> orderly (step s e).
Proof. intros H. apply orderly_drain. apply orderly_handle. exact H. Qed.

Lemma orderly_run es : forall s, orderly s -> orderly (run s es).
Proof.
  induction es as [| e es IH]; intros s H; [exact H |].
  apply IH. apply orderly_step. exact H.
Qed.

Lemma orderly_initial g d : orderly (initial g d).
Proof. unfold orderly, audioOk. cbn. repeat split; discriminate. Qed.

Lemma orderly_introPlaying g d : orderly (introPlaying g d).
Proof.
  unfold introPlaying. cbv zeta.
  destruct (newPromise (act (SetUILocked true) (initial g d))) as [sp s1] eqn:E1.
  assert (V1 : view s1 = view (initial g d)).
  { unfold newPromise in E1.
    destruct (Camera.newPromise _) as [q c]. injection E1 as _ <-. reflexivity. }
  set (s2 := act (ShowSkipIntro true) _).
  pose proof (playMoment_view apertura s2) as [G [T A]].
  destruct (playMoment apertura s2) as [q s3]. cbn [snd] in *.
  destruct (Camera.transitionTo _ _ _) as [q' cam].
  unfold view in V1. injection V1 as V1 V2 V3.
  unfold orderly, audioOk, working, introActive. seq_cbn.
  rewrite G, T. subst s2. seq_cbn. rewrite V1, V2. cbn.
  repeat split; auto.
Qed.

(** X19. The sequencer keeps its lock and its flags in step with the request
    it works on.  After any events, from the state after [init] or from the
    state in which the intro plays: [collectionRequestLock] is set exactly
    while the coroutine of a request exists; a request is queued in
    [pendingCollectionRequest] only while the lock is held;
    [allowProductOrbit] is set only when no request is being worked on;
    while the intro plays no request exists and the product orbit is not
    allowed; and the audio system reports speaking exactly while a track is
    its current one. *)
Theorem sequencer_keeps_order g d es :
  orderly (run (initial g d) es) /\ orderly (run (introPlaying g d) es).
Proof.
  split; apply orderly_run; [apply orderly_initial | apply orderly_introPlaying].
Qed.

Lemma tally_trace s s' : trace s' = trace s -> tally s' = tally s.
Proof.
  unfold tally, startedWorkflows, completedWorkflows.
  intros E. rewrite E. reflexivity.
Qed.

Lemma accounted_tally s s' :
  tally s' = tally s -> task s' = task s -> accounted s -> accounted s'.
Proof.
  unfold tally, accounted, cinematicMuted, pastSelection. intros E T H.
  injection E as E1 E2 E3. rewrite E1, E2, E3, T. exact H.
Qed.

Lemma trace_delay s : trace (snd (delay s)) = trace s.
Proof. reflexivity. Qed.

Lemma trace_walkToProduct c s :
  trace (snd (walkToProduct c s)) = WalkToProduct c :: trace s.
Proof. unfold walkToProduct. simpl. destruct (walkInFlight s); reflexivity. Qed.

Lemma trace_createCinematicState s :
  trace (snd (createCinematicState s)) = trace s.
Proof. reflexivity. Qed.

Lemma trace_playMoment k s : trace (snd (playMoment k s)) = trace s.
Proof. reflexivity. Qed.

Lemma tally_cancelActiveCinematic why s :
  tally (cancelActiveCinematic why s) = tally s.
Proof.
  unfold cancelActiveCinematic.
  destruct (cinematicState (globals s)) as [ref |]; [| reflexivity].
  destruct (nth_error (cinematics s) ref) as [cs |]; [| reflexivity].
  destruct (cancelled cs); reflexivity.
Qed.

Lemma tally_skipIntro_hooks (hooks : list (Js.TimerId * Js.PromiseId)) :
  forall s,
    trace (fold_left
             (fun s hook =>
                resolve (snd hook)
                        (withCamera (Camera.clearTimeout (fst hook)) s))
             hooks s) = trace s.
Proof.
  induction hooks as [| h l IH]; intros s; [reflexivity |].
  simpl. rewrite IH. reflexivity.
Qed.

Lemma tally_skipIntro s : tally (snd (skipIntro s)) = tally s.
Proof.
  unfold skipIntro.
  destruct (introState (globals s)) as [i |]; [| reflexivity].
  destruct (introCancelled i); [reflexivity |]. cbv zeta.
  pose proof (tally_skipIntro_hooks (cancelHooks i) s) as V.
  set (s1 := fold_left _ (cancelHooks i) s) in *. clearbody s1.
  destruct (Camera.transitionTo _ _ _) as [p c].
  unfold tally, startedWorkflows, completedWorkflows.
  cbn. rewrite V. reflexivity.
Qed.

Ltac led_cbn :=
  cbn [globals task audioSystem trace setTask setGlobals setCameraController
       setAudioSystem setWalkInFlight setCinematics setTrace withGlobals
       withCamera act suspend resolve newPromise t_await
       fst snd filter length outputVolume] in *.

Ltac led_pair :=
  match goal with
  | |- context [let (_, _) := delay ?s in _] =>
      let V := fresh "V" in
      pose proof (trace_delay s) as V; destruct (delay s) as [? ?];
      cbn [snd] in V
  | |- context [let (_, _) := walkToProduct ?c ?s in _] =>
      let V := fresh "V" in
      pose proof (trace_walkToProduct c s) as V;
      destruct (walkToProduct c s) as [? ?]; cbn [snd] in V
  | |- context [let (_, _) := createCinematicState ?s in _] =>
      let V := fresh "V" in
      pose proof (trace_createCinematicState s) as V;
      destruct (createCinematicState s) as [? ?]; cbn [snd] in V
  | |- context [let (_, _) := playMoment ?k ?s in _] =>
      let V := fresh "V" in
      pose proof (trace_playMoment k s) as V;
      destruct (playMoment k s) as [? ?]; cbn [snd] in V
  | |- context [let (_, _) := Camera.transitionTo ?a ?b ?c in _] =>
      destruct (Camera.transitionTo a b c) as [? ?]
  | |- context [let (_, _) := Camera.playProductCinematic ?a ?b ?c in _] =>
      destruct (Camera.playProductCinematic a b c) as [? ?]
  | |- context [let (_, _) := Camera.frameAriaAndProduct ?a ?b in _] =>
      destruct (Camera.frameAriaAndProduct a b) as [? ?]
  end.

Ltac led_done :=
  unfold accounted, cinematicMuted, pastSelection,
    startedWorkflows, completedWorkflows in *;
  led_cbn;
  repeat match goal with H : trace _ = _ |- _ => rewrite H end;
  led_cbn; try (split; [first [assumption | reflexivity | congruence] | lia]).

(** [handleCollectionSelect] up to its first [await]. *)
Lemma accounted_handleCollectionSelect r requestId s :
  outputVolume (trace s) = 1 ->
  (completedWorkflows s <= startedWorkflows s)%nat ->
  accounted (handleCollectionSelect r requestId s).
Proof.
  intros Hm Hc. unfold handleCollectionSelect. cbv zeta.
  pose proof (tally_cancelActiveCinematic switch s) as V.
  set (s1 := cancelCameraWork (cancelActiveCinematic switch s)).
  assert (V1 : tally s1 = tally s) by exact V.
  clearbody s1. clear V. unfold tally in V1. injection V1 as V1 V2 V3.
  rewrite <- V1 in Hm. rewrite <- V2, <- V3 in Hc. clear V1 V2 V3.
  destruct (negb (isActiveRequest requestId s1)).
  - led_done.
  - repeat led_pair. led_done.
Qed.

Lemma accounted_resume t s :
  accounted s -> task s = Some t -> t_await t <> Returned ->
  accounted (resume t s).
Proof.
  intros [Hm Hc] Ht Hr.
  unfold cinematicMuted in Hm. unfold pastSelection in Hc.
  rewrite Ht in Hm, Hc.
  unfold resume. cbv zeta.
  destruct (t_await t) as [p | p | p | p w | p | p | a c k m | p |];
    try congruence; clear Hr.
  - apply accounted_handleCollectionSelect; [exact Hm | lia].
  - apply accounted_handleCollectionSelect; [exact Hm | lia].
  - destruct (negb (isActiveRequest (t_requestId t) s));
      repeat led_pair; led_done.
  - destruct (negb (isActiveRequest (t_requestId t) s));
      repeat led_pair; led_done.
  - destruct (negb (isActiveRequest (t_requestId t) s));
      repeat led_pair; led_done.
  - destruct (negb (isActiveRequest (t_requestId t) s)).
    + led_done.
    + destruct (source (t_request t)); repeat led_pair; led_done.
  - destruct m; led_cbn;
      (destruct (cinematicState (globals s)) as [ref |];
       [destruct (Nat.eqb ref k) |]); led_cbn;
      repeat match goal with
             | |- accounted (if ?b then _ else _) => destruct b
             end;
      repeat led_pair; led_done.
  - destruct (negb (isActiveRequest (t_requestId t) s)); led_done.
Qed.

Lemma accounted_startRequest r s :
  outputVolume (trace s) = 1 ->
  (completedWorkflows s <= startedWorkflows s)%nat ->
  accounted (startRequest r s).
Proof.
  intros Hm Hc. unfold startRequest. cbv zeta.
  set (s1 := withGlobals _ (withGlobals (setCollectionRequestLock true) s)).
  assert (T1 : trace s1 = trace s) by reflexivity.
  clearbody s1.
  assert (Hm1 : outputVolume (trace s1) = 1) by (rewrite T1; exact Hm).
  assert (Hc1 : (completedWorkflows s1 <= startedWorkflows s1)%nat)
    by (unfold completedWorkflows, startedWorkflows in *; rewrite T1; exact Hc).
  clear Hm Hc T1.
  assert (Hh : accounted (handleCollectionSelect r (collectionRequestId (globals s1)) s1))
    by (apply accounted_handleCollectionSelect; assumption).
  destruct (introState (globals s1)) as [i |]; [| exact Hh].
  destruct (negb (introCancelled i)); [| exact Hh].
  pose proof (tally_skipIntro s1) as V.
  destruct (skipIntro s1) as [[p |] s2]; cbn [snd] in V;
    unfold tally in V; injection V as V1 V2 V3.
  - led_done.
  - pose proof (trace_delay s2) as V.
    destruct (delay s2) as [p s3]. cbn [snd] in V.
    led_done.
Qed.

Lemma accounted_requestCollection input src s :
  accounted s -> collectionRequestLock (globals s) = isSome (task s) ->
  accounted (requestCollection input src s).
Proof.
  intros H Hl. unfold requestCollection.
  destruct input as [c |]; [| exact H]. cbv zeta.
  destruct (collectionRequestLock (globals s)) eqn:El.
  - revert H. apply accounted_tally.
    + change (tally (cancelActiveCinematic switch
                       (withGlobals
                          (fun g => setCollectionRequestId (collectionRequestId g + 1) g)
                          (withGlobals
                             (setPendingCollectionRequest
                                (Some {| collection := c; source := src |})) s)))
              = tally s).
      rewrite tally_cancelActiveCinematic. reflexivity.
    + destruct (cancelActiveCinematic_view switch
                  (withGlobals
                     (fun g => setCollectionRequestId (collectionRequestId g + 1) g)
                     (withGlobals
                        (setPendingCollectionRequest
                           (Some {| collection := c; source := src |})) s)))
        as [_ [T _]].
      exact T.
  - destruct H as [Hm Hc]. unfold cinematicMuted in Hm. unfold pastSelection in Hc.
    destruct (task s); [discriminate |].
    apply accounted_startRequest; [exact Hm | lia].
Qed.

Lemma accounted_finishRequest s :
  accounted s -> working s = false -> accounted (finishRequest s).
Proof.
  intros [Hm Hc] Hw. unfold finishRequest. cbv zeta.
  assert (Hm' : outputVolume (trace s) = 1).
  { unfold cinematicMuted, working in *.
    destruct (task s) as [t |]; [destruct (t_await t); try discriminate |];
      exact Hm. }
  assert (Hc' : (completedWorkflows s <= startedWorkflows s)%nat) by lia.
  clear Hm Hc.
  seq_cbn.
  destruct (pendingCollectionRequest (globals s)) as [next |].
  - unfold requestCollection. seq_cbn. apply accounted_startRequest; assumption.
  - led_done.
Qed.

Lemma accounted_handle e s :
  accounted s -> collectionRequestLock (globals s) = isSome (task s) ->
  accounted (handle e s).
Proof.
  intros H Hl. destruct e; cbn [handle].
  - apply accounted_requestCollection; assumption.
  - revert H. apply accounted_tally.
    + apply tally_cancelActiveCinematic.
    + apply cancelActiveCinematic_view.
  - exact H.
  - exact H.
  - exact H.
  - unfold audioEnded.
    destruct (current (audioSystem s)) as [[[k tok] p] |]; [| exact H].
    destruct (Nat.eqb tok (playToken (audioSystem s))); exact H.
  - unfold walkCompletes. destruct (walkInFlight s); exact H.
Qed.

Lemma accounted_resume_any t s :
  accounted s -> task s = Some t -> accounted (resume t s).
Proof.
  intros H Ht.
  destruct (t_await t) eqn:Ea;
    try (apply accounted_resume; [exact H | exact Ht | rewrite Ea; discriminate]).
  unfold resume. rewrite Ea. apply accounted_finishRequest; [exact H |].
  unfold working. rewrite Ht, Ea. reflexivity.
Qed.

Lemma accounted_drain n :
  forall s, orderly s -> accounted s -> accounted (drain n s).
Proof.
  induction n as [| n IH]; intros s O H; [exact H |].
  cbn [drain]. destruct (task s) as [t |] eqn:Ht; [| exact H].
  destruct (ready t s); [| exact H].
  apply IH; [apply orderly_resume_any | apply accounted_resume_any]; assumption.
Qed.

Lemma accounted_step s e :
  orderly s -> accounted s -> accounted (step s e).
Proof.
  intros O H. apply accounted_drain.
  - apply orderly_handle. exact O.
  - apply accounted_handle; [exact H | apply O].
Qed.

Lemma accounted_run es :
  forall s, orderly s -> accounted s -> accounted (run s es).
Proof.
  induction es as [| e es IH]; intros s O H; [exact H |].
  apply IH; [apply orderly_step | apply accounted_step]; assumption.
Qed.

Lemma accounted_initial g d : accounted (initial g d).
Proof. unfold accounted. cbn. split; [reflexivity | lia]. Qed.

Lemma accounted_introPlaying g d : accounted (introPlaying g d).
Proof.
  unfold introPlaying. cbv zeta.
  destruct (newPromise (act (SetUILocked true) (initial g d))) as [sp s1] eqn:E1.
  assert (V1 : trace s1 = [SetUILocked true] /\ task s1 = None).
  { unfold newPromise in E1.
    destruct (Camera.newPromise _) as [q c]. injection E1 as _ <-. split; reflexivity. }
  destruct V1 as [V1 V2].
  set (s2 := act (ShowSkipIntro true) _).
  pose proof (trace_playMoment apertura s2) as T.
  pose proof (playMoment_view apertura s2) as [_ [T' _]].
  destruct (playMoment apertura s2) as [q s3]. cbn [snd] in *.
  destruct (Camera.transitionTo _ _ _) as [q' cam].
  unfold accounted, cinematicMuted, pastSelection,
    startedWorkflows, completedWorkflows.
  led_cbn. rewrite T, T'. subst s2. led_cbn. rewrite V1, V2. cbn.
  split; [reflexivity | lia].
Qed.

Lemma accounted_reachable g d es :
  accounted (run (initial g d) es) /\ accounted (run (introPlaying g d) es).
Proof.
  split; apply accounted_run;
    first [apply orderly_initial | apply orderly_introPlaying
          | apply accounted_initial | apply accounted_introPlaying].
Qed.

(** X20. The voice assistant is silenced exactly while the cinematic of a
    spoken request is awaited.  After any events, from the state after
    [init] or from the state in which the intro plays, the output volume the
    voice bar was last told is 0 if the coroutine awaits the cinematic of a
    request that came by voice, and 1 otherwise: however the cinematic ends
    (by itself, stopped by the user, or superseded), the volume is back
    to 1. *)
Theorem voice_muted_only_during_cinematic g d es :
  outputVolume (trace (run (initial g d) es))
  = (if cinematicMuted (run (initial g d) es) then 0 else 1) /\
  outputVolume (trace (run (introPlaying g d) es))
  = (if cinematicMuted (run (introPlaying g d) es) then 0 else 1).
Proof.
  split; apply accounted_reachable.
Qed.

(** X21. The product panel is revealed at most once per workflow.  After any
    events, from the state after [init] or from the state in which the
    intro plays, the number of times the product panel was revealed, plus
    one if a workflow is between selecting its product and its end, is at
    most the number of workflows that selected their product. *)
Theorem panel_revealed_once_per_workflow g d es :
  (completedWorkflows (run (initial g d) es)
   + pastSelection (run (initial g d) es)
   <= startedWorkflows (run (initial g d) es))%nat /\
  (completedWorkflows (run (introPlaying g d) es)
   + pastSelection (run (introPlaying g d) es)
   <= startedWorkflows (run (introPlaying g d) es))%nat.
Proof.
  split; apply accounted_reachable.
Qed.

End SequencingFacts.

(** ** Voice commands are debounced *)

Module VoiceFacts.

Import Main Voice.

Lemma sameCollection_eq a b : sameCollection a b = true <-> a = b.
Proof. destruct a, b; simpl; split; congruence. Qed.

(** What the first command dispatched from [v] on must respect. *)
Lemma dispatched_after calls :
  forall v,
    spaced (dispatched calls v) /\
    match dispatched calls v with
    | (c, t) :: _ =>
        lastCommandCollection v = Some c -> (2500 <= t - lastCommandAt v)%Z
    | [] => True
    end.
Proof.
  induction calls as [| [collection now] rest IH]; intros v; [simpl; auto |].
  cbn [dispatched]. unfold dispatchCollection.
  destruct collection as [c |]; [| apply IH].
  destruct (lastCommandCollection v) as [l |] eqn:El.
  - destruct (sameCollection c l) eqn:Es; cbn [andb].
    + destruct (Z.ltb_spec (now - lastCommandAt v) 2500) as [Hlt | Hge].
      * specialize (IH v). rewrite El in IH. exact IH.
      * destruct (IH {| lastCommandAt := now; lastCommandCollection := Some c |})
          as [Hs Hf].
        split.
        -- cbn [spaced]. destruct (dispatched rest _) as [| [c' t'] tl]; [exact I |].
           split; [| exact Hs]. cbn [fst snd]. intros <-. apply Hf. reflexivity.
        -- intros _. exact Hge.
    + destruct (IH {| lastCommandAt := now; lastCommandCollection := Some c |})
        as [Hs Hf].
      split.
      * cbn [spaced]. destruct (dispatched rest _) as [| [c' t'] tl]; [exact I |].
        split; [| exact Hs]. cbn [fst snd]. intros <-. apply Hf. reflexivity.
      * intros E. injection E as E. subst l.
        assert (sameCollection c c = true) by (apply sameCollection_eq; reflexivity).
        congruence.
  - cbn [andb].
    destruct (IH {| lastCommandAt := now; lastCommandCollection := Some c |})
      as [Hs Hf].
    split.
    + cbn [spaced]. destruct (dispatched rest _) as [| [c' t'] tl]; [exact I |].
      split; [| exact Hs]. cbn [fst snd]. intros <-. apply Hf. reflexivity.
    + discriminate.
Qed.

Lemma spaced_nth (l : list (Collection * Z)) :
  forall i a b,
    spaced l -> nth_error l i = Some a -> nth_error l (S i) = Some b ->
    fst a = fst b -> (2500 <= snd b - snd a)%Z.
Proof.
  induction l as [| h [| h' t] IH]; intros i a b Hs Ha Hb.
  - destruct i; discriminate.
  - destruct i as [| [| i]]; discriminate.
  - destruct Hs as [H1 H2]. destruct i as [| i].
    + cbn in Ha, Hb. injection Ha as <-. injection Hb as <-. exact H1.
    + apply (IH i a b H2); [exact Ha | exact Hb].
Qed.

(** X22. Voice commands are debounced.  Of the [aria:collectionSelect]
    events the voice bar dispatches, two in a row that name the same
    collection are at least 2500 ms apart, whatever collections were
    detected and whenever. *)
Theorem voice_commands_are_debounced :
  forall (calls : list (option Collection * Z)) (i : nat) (c : Collection)
         (t1 t2 : Z),
    nth_error (dispatched calls noCommand) i = Some (c, t1) ->
    nth_error (dispatched calls noCommand) (S i) = Some (c, t2) ->
    (2500 <= t2 - t1)%Z.
Proof.
  intros calls i c t1 t2 H1 H2.
  destruct (dispatched_after calls noCommand) as [Hs _].
  apply (spaced_nth _ i (c, t1) (c, t2) Hs H1 H2). reflexivity.
Qed.

Lemma voice_commands_are_debounced_witness : (2500 <= 4000 - 1200)%Z.
Proof.
  apply (voice_commands_are_debounced
           [(Some elegance, 0%Z); (Some elegance, 1000%Z);
            (Some luxury, 1200%Z); (None, 1300%Z); (Some luxury, 2000%Z);
            (Some luxury, 4000%Z)] 1%nat luxury 1200%Z 4000%Z);
    reflexivity.
Defined.

End VoiceFacts.
